(** * Sea Battle: board, placement, AI targeting and turn engine

    A shallow embedding of the game-logic core of the Battleship project
    ([data/board_data.cpp], [data/game_state.cpp], [logic/game_logic.cpp],
    [logic/ai_logic.cpp], [game/game_loop.cpp], the placement screen of
    [game/ai_game_loop.cpp]) together with the properties its
    specification states about it and further properties of the code.

    Conventions of the embedding
    - C++ [int] values are integers in [Z]; every quantity the modelled code
      computes stays far inside the 32-bit range for the supported boards
      (sizes 10 to 26), so no wrap-around is written out.
    - [char] is [ascii]; a [std::vector] is a [list]; an access [v[i]] with
      [i] outside the vector is undefined behaviour in C++ and is [None]
      here, so the functions that index a vector live in the [option] monad.
    - [std::map] is stdpp's [gmap]; [m[k]] on a missing key inserts a
      value-initialised (all-zero) record, as [operator[]] does. *)

From Stdlib Require Import ZArith Lia Ascii String.
From stdpp Require Import base option list gmap strings.

Open Scope Z_scope.

(** ** Characters and vectors indexed by [int] *)

Definition char_code (c : ascii) : Z := Z.of_N (Ascii.N_of_ascii c).

(** [cell >= 'A' && cell <= 'Z'] *)
Definition is_ship_char (c : ascii) : bool :=
  (char_code "A" <=? char_code c) && (char_code c <=? char_code "Z").

Definition ascii_eqb (a b : ascii) : bool := bool_decide (a = b).

(** [v[i]] as an rvalue. *)
Definition vec_get {A} (v : list A) (i : Z) : option A :=
  if i <? 0 then None else v !! Z.to_nat i.

(** [v[i] = a]. *)
Definition vec_set {A} (v : list A) (i : Z) (a : A) : option (list A) :=
  if (0 <=? i) && (i <? Z.of_nat (length v))
  then Some (<[Z.to_nat i := a]> v) else None.

Abbreviation Grid := (list (list ascii)).

(** [g[r][c]] *)
Definition grid_get (g : Grid) (r c : Z) : option ascii :=
  row ← vec_get g r; vec_get row c.

(** [g[r][c] = a] *)
Definition grid_set (g : Grid) (r c : Z) (a : ascii) : option Grid :=
  row ← vec_get g r; row' ← vec_set row c a; vec_set g r row'.

(** [std::vector<std::vector<char>>(n, std::vector<char>(n, a))] *)
Definition grid_make (n : Z) (a : ascii) : Grid :=
  replicate (Z.to_nat n) (replicate (Z.to_nat n) a).

(** A grid with [n] rows of [n] columns. *)
Definition grid_square (n : Z) (g : Grid) : Prop :=
  0 <= n /\ Z.of_nat (length g) = n /\
  Forall (fun row => Z.of_nat (length row) = n) g.

(** ** Board data ([data/board_data.hpp]) *)

Record ActiveShip := mkShip {
  shipId : Z;          (* id *)
  symbol : ascii;
  shipLength : Z;      (* length *)
  hitCount : Z;
  isSunk : bool;
  startRow : Z;
  startCol : Z;
  orientation : Z      (* 1 = vertical, otherwise horizontal *)
}.

(** [ActiveShip()] as [std::map::operator[]] creates it. *)
Definition ship_zero : ActiveShip := mkShip 0 "000" 0 0 false 0 0 0.

Record BoardData := mkBoard {
  boardArray : Grid;
  myShips : list ActiveShip;
  shipStatus : gmap ascii ActiveShip;
  shipCellMap : gmap (Z * Z) ascii;
  boardSize : Z;
  missCount : Z;
  isHost : bool
}.

Definition set_boardArray (g : Grid) (b : BoardData) : BoardData :=
  mkBoard g (myShips b) (shipStatus b) (shipCellMap b) (boardSize b)
          (missCount b) (isHost b).

Definition set_myShips (l : list ActiveShip) (b : BoardData) : BoardData :=
  mkBoard (boardArray b) l (shipStatus b) (shipCellMap b) (boardSize b)
          (missCount b) (isHost b).

Definition set_shipStatus (m : gmap ascii ActiveShip) (b : BoardData) : BoardData :=
  mkBoard (boardArray b) (myShips b) m (shipCellMap b) (boardSize b)
          (missCount b) (isHost b).

Definition set_missCount (n : Z) (b : BoardData) : BoardData :=
  mkBoard (boardArray b) (myShips b) (shipStatus b) (shipCellMap b)
          (boardSize b) n (isHost b).

Definition set_hit (h : Z) (sunk : bool) (s : ActiveShip) : ActiveShip :=
  mkShip (shipId s) (symbol s) (shipLength s) h sunk
         (startRow s) (startCol s) (orientation s).

(** [m[k]], inserting the zero record when [k] is absent. *)
Definition status_at (m : gmap ascii ActiveShip) (k : ascii) : ActiveShip :=
  default ship_zero (m !! k).

Module Board.

(** [BoardData::BoardData(int size)] *)
Definition create (size : Z) : BoardData :=
  mkBoard (grid_make size "w") [] ∅ ∅ size 0 true.

(** [BoardData::initialize] *)
Definition initialize (size : Z) (b : BoardData) : BoardData :=
  mkBoard (grid_make size "w") [] ∅ ∅ size 0 (isHost b).

(** [BoardData::clear]: the two loops overwrite rows [0..boardSize) and
    columns [0..boardSize) of the existing array. *)
Definition clear_row (n : Z) (g : Grid) (i : Z) : option Grid :=
  foldl (fun acc j => g' ← acc; grid_set g' i j "w") (Some g) (seqZ 0 n).

Definition clear (b : BoardData) : option BoardData :=
  g ← foldl (fun acc i => g' ← acc; clear_row (boardSize b) g' i)
        (Some (boardArray b)) (seqZ 0 (boardSize b));
  Some (mkBoard g [] ∅ ∅ (boardSize b) 0 (isHost b)).

(** The geometric membership test of [receiveShot] (the [isHit] flag). *)
Definition isHit (ship : ActiveShip) (x y : Z) : bool :=
  if shipLength ship =? 1 then
    (x =? startCol ship) && (y =? startRow ship)
  else if orientation ship =? 1 then
    (x =? startCol ship) && (startRow ship <=? y)
      && (y <? startRow ship + shipLength ship)
  else
    (y =? startRow ship) && (x <=? startCol ship)
      && (startCol ship - shipLength ship <? x).

(** Row and column of the [i]-th cell of a ship, as the sinking loop and
    [getShipOccupiedCells] compute them. *)
Definition ship_cell (ship : ActiveShip) (i : Z) : Z * Z :=
  if orientation ship =? 1
  then (startRow ship + i, startCol ship)
  else (startRow ship, startCol ship - i).

(** The loop that marks every cell of a sunk ship, with its bounds guard. *)
Definition mark_sunk (n : Z) (ship : ActiveShip) (g : Grid) : option Grid :=
  foldl (fun acc i =>
           g' ← acc;
           let '(r, c) := ship_cell ship i in
           if (0 <=? r) && (r <? n) && (0 <=? c) && (c <? n)
           then grid_set g' r c "s" else Some g')
        (Some g) (seqZ 0 (shipLength ship)).

(** The code after the ship loop: [boardArray[y][x] = 'x'; return 1]. *)
Definition receiveShot_fallthrough (b : BoardData) (x y : Z)
  : option (Z * BoardData) :=
  g ← grid_set (boardArray b) y x "x";
  Some (1, set_boardArray g b).

(** The body executed for the ship at index [i] once [isHit] holds. *)
Definition receiveShot_hit (b : BoardData) (x y : Z) (i : nat)
    (ship : ActiveShip) : option (Z * BoardData) :=
  let h := hitCount ship + 1 in
  if shipLength ship <=? h then
    let ship' := set_hit h true ship in
    let st := set_hit h true (status_at (shipStatus b) (symbol ship)) in
    g ← mark_sunk (boardSize b) ship (boardArray b);
    Some (2, set_boardArray g
               (set_shipStatus (<[symbol ship := st]> (shipStatus b))
                  (set_myShips (<[i := ship']> (myShips b)) b)))
  else
    let ship' := set_hit h false ship in
    let st0 := status_at (shipStatus b) (symbol ship) in
    let st := set_hit h (isSunk st0) st0 in
    g ← grid_set (boardArray b) y x "x";
    Some (1, set_boardArray g
               (set_shipStatus (<[symbol ship := st]> (shipStatus b))
                  (set_myShips (<[i := ship']> (myShips b)) b))).

(** [for (auto& ship : myShips)], from index [i] on. *)
Fixpoint receiveShot_loop (b : BoardData) (x y : Z) (targetSymbol : ascii)
    (i : nat) (ships : list ActiveShip) : option (Z * BoardData) :=
  match ships with
  | [] => receiveShot_fallthrough b x y
  | ship :: rest =>
      if isSunk ship then receiveShot_loop b x y targetSymbol (S i) rest
      else if negb (ascii_eqb (symbol ship) targetSymbol)
      then receiveShot_loop b x y targetSymbol (S i) rest
      else if isHit ship x y then receiveShot_hit b x y i ship
      else receiveShot_loop b x y targetSymbol (S i) rest
  end.

(** [BoardData::receiveShot]: 0 = miss, 1 = hit, 2 = sunk. *)
Definition receiveShot (b : BoardData) (x y : Z) : option (Z * BoardData) :=
  if (x <? 0) || (boardSize b <=? x) || (y <? 0) || (boardSize b <=? y)
  then Some (0, b)
  else
    cell ← grid_get (boardArray b) y x;
    if ascii_eqb cell "x" || ascii_eqb cell "o" || ascii_eqb cell "s"
    then Some (0, b)
    else if ascii_eqb cell "w" then
      g ← grid_set (boardArray b) y x "o";
      Some (0, set_missCount (missCount b + 1) (set_boardArray g b))
    else if is_ship_char cell then
      receiveShot_loop b x y cell 0 (myShips b)
    else receiveShot_fallthrough b x y.

(** [BoardData::addShip] *)
Definition addShip (b : BoardData) (orient startPos len : Z) (sym : ascii)
  : option BoardData :=
  let row := Z.quot startPos (boardSize b) in
  let col := Z.rem startPos (boardSize b) in
  let newShip := mkShip (Z.of_nat (length (myShips b))) sym len 0 false
                        row col orient in
  g ← foldl (fun acc j =>
               g' ← acc;
               if orient =? 1 then grid_set g' (row + j) col sym
               else grid_set g' row (col - j) sym)
        (Some (boardArray b)) (seqZ 0 len);
  Some (set_boardArray g
          (set_shipStatus (<[sym := newShip]> (shipStatus b))
             (set_myShips (myShips b ++ [newShip]) b))).

(** [BoardData::getShipOccupiedCells]: pairs [(column, row)]. *)
Fixpoint getShipOccupiedCells_loop (x y : Z) (ships : list ActiveShip)
  : list (Z * Z) :=
  match ships with
  | [] => []
  | ship :: rest =>
      let belongs :=
        if orientation ship =? 1 then
          (x =? startCol ship) && (startRow ship <=? y)
            && (y <? startRow ship + shipLength ship)
        else
          (y =? startRow ship) && (x <=? startCol ship)
            && (startCol ship - shipLength ship <? x) in
      if belongs
      then (fun i => let '(r, c) := ship_cell ship i in (c, r))
             <$> seqZ 0 (shipLength ship)
      else getShipOccupiedCells_loop x y rest
  end.

Definition getShipOccupiedCells (b : BoardData) (x y : Z) : list (Z * Z) :=
  getShipOccupiedCells_loop x y (myShips b).

(** The cells [(i, j)] in the order of the nested loops
    [for i < n) for (j < n)]. *)
Definition scan_cells (n : Z) : list (Z * Z) :=
  i ← seqZ 0 n; (fun j => (i, j)) <$> seqZ 0 n.

(** [BoardData::getRemainingShips]: the entries of [shipStatus] that are
    not sunk. *)
Definition getRemainingShips (b : BoardData) : Z :=
  Z.of_nat (length (filter (fun kv => isSunk kv.2 = false)
                           (map_to_list (shipStatus b)))).

(** [BoardData::getSunkCount] *)
Definition getSunkCount (b : BoardData) : Z :=
  foldl (fun count ship => if isSunk ship then count + 1 else count)
        0 (myShips b).

(** [BoardData::buildShipCellMap]: keys are [(column, row)]. *)
Definition buildShipCellMap (b : BoardData) : option BoardData :=
  m ← foldl (fun (acc : option (gmap (Z * Z) ascii)) '(i, j) =>
               m ← acc;
               cell ← grid_get (boardArray b) i j;
               Some (if is_ship_char cell then <[(j, i) := cell]> m else m))
        (Some ∅) (scan_cells (boardSize b));
  Some (mkBoard (boardArray b) (myShips b) (shipStatus b) m (boardSize b)
                (missCount b) (isHost b)).

End Board.

(** Scenario A of the specification: a 10x10 board with one vertical ship
    of length 3 on the cells (5,5), (5,6), (5,7). *)
Definition scenarioA_board : BoardData :=
  default (Board.create 10) (Board.addShip (Board.create 10) 1 55 3 "S").

(** A salvo fired at a board, shot after shot: the results and the board
    left behind. *)
Definition shoot_all (b : BoardData) (shots : list (Z * Z))
  : option (list Z * BoardData) :=
  foldl (fun acc '(x, y) =>
           '(rs, b') ← acc;
           '(r, b'') ← Board.receiveShot b' x y;
           Some (rs ++ [r], b''))
        (Some ([], b)) shots.

(** The board of scenario A after the shots (0,0) and (5,5). *)
Definition scenarioA_hit_board : BoardData :=
  default scenarioA_board (snd <$> shoot_all scenarioA_board [(0,0); (5,5)]).

(** ** The C library's pseudo-random generator

    [rand()] and [srand()] act on one process-wide generator.  Its state is
    the seed last given to [srand] and the number of [rand] calls since; the
    sequence a seed produces is the field [rng_family], left arbitrary. *)

Record Rng := mkRng {
  rng_family : Z -> nat -> nat;
  rng_seed : Z;
  rng_calls : nat
}.

Definition rand (g : Rng) : Z * Rng :=
  (Z.of_nat (rng_family g (rng_seed g) (rng_calls g)),
   mkRng (rng_family g) (rng_seed g) (S (rng_calls g))).

(** [srand(static_cast<unsigned int>(s))] *)
Definition srand (s : Z) (g : Rng) : Rng :=
  mkRng (rng_family g) (s mod 2 ^ 32) 0.

(** The result of a loop that is cut off after [fuel] iterations. *)
Inductive outcome (A : Type) :=
| Done (a : A)
| Undefined
| OutOfFuel.
Arguments Done {A} a.
Arguments Undefined {A}.
Arguments OutOfFuel {A}.

Definition is_done {A} (o : outcome A) : bool :=
  match o with
  | Done _ => true
  | _ => false
  end.

(** ** Ship catalogue ([data/ship_data.hpp]) *)

Record ShipConfiguration := mkConfig {
  cfg_boardSize : Z;
  fourDeck : Z;
  threeDeck : Z;
  twoDeck : Z;
  oneDeck : Z;
  shotsPerTurn : Z
}.

Record GamePiece := mkPiece {
  piece_length : Z;
  piece_symbol : ascii
}.

Definition configs : list ShipConfiguration :=
  [ mkConfig 10 1 2 3 4 5;  mkConfig 11 1 2 4 5 5;  mkConfig 12 1 3 4 6 5;
    mkConfig 13 1 3 5 6 5;  mkConfig 14 2 3 5 7 6;  mkConfig 15 2 4 6 8 6;
    mkConfig 16 2 4 6 9 6;  mkConfig 17 2 4 7 9 6;  mkConfig 18 2 5 7 10 7;
    mkConfig 19 3 5 8 11 7; mkConfig 20 3 5 8 12 7; mkConfig 21 3 6 9 13 7;
    mkConfig 22 3 6 9 14 7; mkConfig 23 4 6 10 15 8; mkConfig 24 4 7 10 16 8;
    mkConfig 25 4 7 11 17 8; mkConfig 26 4 7 11 18 9 ].

Definition getShipConfig (size : Z) : ShipConfiguration :=
  default (mkConfig 10 1 2 3 4 5)
          (head (filter (fun c => cfg_boardSize c = size) configs)).

Definition getTotalShips (size : Z) : Z :=
  let c := getShipConfig size in
  fourDeck c + threeDeck c + twoDeck c + oneDeck c.

Definition getTotalShipCells (size : Z) : Z :=
  let c := getShipConfig size in
  fourDeck c * 4 + threeDeck c * 3 + twoDeck c * 2 + oneDeck c * 1.

(** ** Game state ([data/game_state.cpp]) *)

Module GameState.

Record t := mk {
  playerBoard : BoardData;
  enemyBoard : BoardData;
  playerHits : Z;
  enemyHits : Z;
  maxHits : Z;
  playerShipsRemaining : Z;
  enemyShipsRemaining : Z;
  totalShips : Z;
  playerTurn : bool;
  isHost : bool;
  boardSize : Z;
  shotsPerTurn : Z;
  enemyKnownBoard : Grid
}.

(** [GameState::GameState()] *)
Definition create : t :=
  mk (Board.create 10) (Board.create 10) 0 0 0 0 0 0 true true 10 3 [].

(** [GameState::initialize]; the vectors cannot be given a negative
    number of rows, which is the result [None]. *)
Definition initialize (size shots : Z) (host : bool) (s : t) : option t :=
  if size <? 0 then None
  else Some (mk (Board.initialize size (playerBoard s))
                (Board.initialize size (enemyBoard s))
                0 0 (maxHits s)
                (playerShipsRemaining s) (enemyShipsRemaining s)
                (totalShips s) host host size shots (grid_make size " ")).

(** [GameState::reset] *)
Definition reset (s : t) : option t :=
  pb ← Board.clear (playerBoard s);
  eb ← Board.clear (enemyBoard s);
  known ← foldl (fun acc i =>
                   g ← acc;
                   foldl (fun acc' j => g' ← acc'; grid_set g' i j " ")
                         (Some g) (seqZ 0 (boardSize s)))
            (Some (enemyKnownBoard s)) (seqZ 0 (boardSize s));
  Some (mk pb eb 0 0 (maxHits s) (totalShips s) (totalShips s)
           (totalShips s) (isHost s) (isHost s) (boardSize s)
           (shotsPerTurn s) known).

(** [GameState::isGameOver] *)
Definition isGameOver (s : t) : bool :=
  (maxHits s <=? playerHits s) || (maxHits s <=? enemyHits s).

(** [GameState::hasPlayerWon] *)
Definition hasPlayerWon (s : t) : bool := maxHits s <=? playerHits s.

End GameState.

(** ** Placement ([logic/game_logic.cpp]) *)

Module GameLogic.

(** [GameLogic::initializeGame] *)
Definition initializeGame (state : GameState.t)
    (boardSize shotsPerTurn : Z) (isHost : bool) : option GameState.t :=
  s ← GameState.initialize boardSize shotsPerTurn isHost state;
  let total := getTotalShips boardSize in
  Some (GameState.mk (GameState.playerBoard s) (GameState.enemyBoard s)
          (GameState.playerHits s) (GameState.enemyHits s)
          (getTotalShipCells boardSize) total total total
          (GameState.playerTurn s) (GameState.isHost s)
          (GameState.boardSize s) (GameState.shotsPerTurn s)
          (GameState.enemyKnownBoard s)).

(** ['A' + (shipCounter % 26)] *)
Definition piece_symbol_of (shipCounter : Z) : ascii :=
  ascii_of_nat (Z.to_nat (char_code "A" + Z.rem shipCounter 26)).

(** One of the four creation loops of [initializeGamePieces]: [count] ships
    of length [len], numbered from [shipCounter]. *)
Definition create_deck (len count : Z)
    (st : list GamePiece * gmap ascii ActiveShip * Z)
  : list GamePiece * gmap ascii ActiveShip * Z :=
  foldl (fun '(pieces, status, shipCounter) _ =>
           let sym := piece_symbol_of shipCounter in
           (pieces ++ [mkPiece len sym],
            <[sym := mkShip shipCounter sym len 0 false (-1) (-1) 0]> status,
            shipCounter + 1))
        st (seqZ 0 count).

(** [GameLogic::initializeGamePieces] *)
Definition initializeGamePieces (b : BoardData)
  : BoardData * list GamePiece :=
  let config := getShipConfig (boardSize b) in
  let '(pieces, status, _) :=
    create_deck 1 (oneDeck config)
      (create_deck 2 (twoDeck config)
         (create_deck 3 (threeDeck config)
            (create_deck 4 (fourDeck config) ([], ∅, 0)))) in
  (set_shipStatus status (set_myShips [] b), pieces).

(** The vertical loop of [checkStartingPeg] over the offsets [js]. *)
Fixpoint checkStartingPeg_down (b : BoardData) (starting_peg : Z)
    (js : list Z) : option Z :=
  match js with
  | [] => Some 1
  | j :: js' =>
      let n := boardSize b in
      if n <=? Z.quot starting_peg n + j then Some 2
      else
        c ← grid_get (boardArray b) (Z.quot starting_peg n + j)
                     (Z.rem starting_peg n);
        if negb (ascii_eqb c "w") then Some 3
        else checkStartingPeg_down b starting_peg js'
  end.

(** The horizontal loop of [checkStartingPeg]. *)
Fixpoint checkStartingPeg_left (b : BoardData) (starting_peg : Z)
    (js : list Z) : option Z :=
  match js with
  | [] => Some 1
  | j :: js' =>
      let n := boardSize b in
      if Z.rem starting_peg n - j <? 0 then Some 2
      else
        c ← grid_get (boardArray b) (Z.quot starting_peg n)
                     (Z.rem starting_peg n - j);
        if negb (ascii_eqb c "w") then Some 3
        else checkStartingPeg_left b starting_peg js'
  end.

(** [GameLogic::checkStartingPeg]: 1 = valid, 2 = out of bounds,
    3 = collision.  Dividing by a zero board size is undefined. *)
Definition checkStartingPeg (b : BoardData)
    (orient starting_peg piece_len : Z) : option Z :=
  if orient =? 1 then
    if (0 <? piece_len) && (boardSize b =? 0) then None
    else checkStartingPeg_down b starting_peg (seqZ 0 piece_len)
  else
    if (0 <? piece_len) && (boardSize b =? 0) then None
    else checkStartingPeg_left b starting_peg (seqZ 0 piece_len).

(** The horizontal loop of [isValidShipPlacement]. *)
Fixpoint isValid_left (b : BoardData) (gridX gridY : Z) (offs : list Z)
  : option bool :=
  match offs with
  | [] => Some true
  | i :: offs' =>
      let checkX := gridX - i in
      if (checkX <? 0) || (boardSize b <=? checkX) then Some false
      else
        c ← grid_get (boardArray b) gridY checkX;
        if negb (ascii_eqb c "w") then Some false
        else isValid_left b gridX gridY offs'
  end.

(** The vertical loop of [isValidShipPlacement]. *)
Fixpoint isValid_up (b : BoardData) (gridX gridY : Z) (offs : list Z)
  : option bool :=
  match offs with
  | [] => Some true
  | i :: offs' =>
      let checkY := gridY - i in
      if (checkY <? 0) || (boardSize b <=? checkY) then Some false
      else
        c ← grid_get (boardArray b) checkY gridX;
        if negb (ascii_eqb c "w") then Some false
        else isValid_up b gridX gridY offs'
  end.

(** [GameLogic::isValidShipPlacement]: orientation 0 extends to the left,
    any other orientation extends upwards. *)
Definition isValidShipPlacement (b : BoardData)
    (gridX gridY orient len : Z) : option bool :=
  if orient =? 0 then isValid_left b gridX gridY (seqZ 0 len)
  else isValid_up b gridX gridY (seqZ 0 len).

(** The cells a manual placement request covers, as [(row, column)]. *)
Definition placement_cells (gridX gridY orient len : Z) : list (Z * Z) :=
  (fun i => if orient =? 0 then (gridY, gridX - i) else (gridY - i, gridX))
    <$> seqZ 0 len.

(** [GameLogic::placeShip] *)
Definition placeShip (b : BoardData) (gridX gridY orient len : Z)
    (sym : ascii) : option (bool * BoardData) :=
  valid ← isValidShipPlacement b gridX gridY orient len;
  if negb valid then Some (false, b)
  else
    g ← foldl (fun acc i =>
                 g' ← acc;
                 if orient =? 0 then grid_set g' gridY (gridX - i) sym
                 else grid_set g' (gridY - i) gridX sym)
          (Some (boardArray b)) (seqZ 0 len);
    Some (true, set_boardArray g b).

(** What one run of the inner [while] of [generateBoardPlacement] ends in. *)
Inductive attempt_result :=
| Placed (orient starting_peg : Z) (g : Rng)
| Restart (g : Rng).

Definition MAX_ATTEMPTS : nat := 1000.

(** The inner [while] loop.  [left] is [MAX_ATTEMPTS - attempts]: the loop
    gives up when [attempts] exceeds [MAX_ATTEMPTS]. *)
Fixpoint find_placement (left : nat) (b : BoardData)
    (orient starting_peg piece_len : Z) (g : Rng) : option attempt_result :=
  ret ← checkStartingPeg b orient starting_peg piece_len;
  if ret =? 1 then Some (Placed orient starting_peg g)
  else
    let flipped := if orient =? 1 then 2 else 1 in
    ret' ← (if ret =? 2
             then checkStartingPeg b flipped starting_peg piece_len
             else Some ret);
    if (ret =? 2) && (ret' =? 1) then Some (Placed flipped starting_peg g)
    else
      let '(r1, g1) := rand g in
      let '(r2, g2) := rand g1 in
      let starting_peg' := Z.rem r1 (boardSize b * boardSize b) in
      let orient' := Z.rem r2 2 + 1 in
      match left with
      | O => Some (Restart g2)
      | S left' => find_placement left' b orient' starting_peg' piece_len g2
      end.

(** The outer [for] loop from piece [i] on; a restart clears the board and
    continues with piece 0. *)
Fixpoint place_pieces (fuel : nat) (b : BoardData) (pieces : list GamePiece)
    (i : nat) (g : Rng) : outcome (BoardData * Rng) :=
  match fuel with
  | O => OutOfFuel
  | S fuel' =>
      match pieces !! i with
      | None => Done (b, g)
      | Some p =>
          if boardSize b * boardSize b =? 0 then Undefined
          else
            let '(r1, g1) := rand g in
            let '(r2, g2) := rand g1 in
            let starting_peg := Z.rem r1 (boardSize b * boardSize b) in
            let orient := Z.rem r2 2 + 1 in
            match find_placement MAX_ATTEMPTS b orient starting_peg
                                 (piece_length p) g2 with
            | None => Undefined
            | Some (Placed o peg g') =>
                match Board.addShip b o peg (piece_length p)
                                    (piece_symbol p) with
                | None => Undefined
                | Some b' => place_pieces fuel' b' pieces (S i) g'
                end
            | Some (Restart g') =>
                match Board.clear b with
                | None => Undefined
                | Some b' => place_pieces fuel' b' pieces 0 g'
                end
            end
      end
  end.

(** [GameLogic::generateBoardPlacement]; [clock] is the reading of the
    high-resolution clock that seeds the generator. *)
Definition generateBoardPlacement (fuel : nat) (clock : Z) (b : BoardData)
    (pieces : list GamePiece) (g : Rng) : outcome (BoardData * Rng) :=
  let g0 := if isHost b then srand (clock mod 2 ^ 32 + 3000) g
            else srand clock g in
  place_pieces fuel b pieces 0 g0.

(** [GameLogic::updateSunkShips]: every cell [(column, row)] that
    [getShipOccupiedCells] returns is overwritten with ['s']. *)
Definition updateSunkShips (b : BoardData) (x y : Z) : option BoardData :=
  g ← foldl (fun acc cell => g' ← acc; grid_set g' cell.2 cell.1 "s")
        (Some (boardArray b)) (Board.getShipOccupiedCells b x y);
  Some (set_boardArray g b).

End GameLogic.

(** ** Scripted opponent ([logic/ai_logic.cpp]) *)

Inductive AIDifficulty := EASY | SMART.

Global Instance AIDifficulty_eq_dec : EqDecision AIDifficulty.
Proof. solve_decision. Defined.

(** [AICoordinates]: the pair [(x, y)]. *)
Abbreviation AICoordinates := (Z * Z)%type (only parsing).

Record AILogic := mkAI {
  difficulty : AIDifficulty;
  aiBoard : BoardData;
  opponentBoard : Grid;
  lastHit : AICoordinates;
  hunting : bool;
  huntDirection : Z;
  availableShots : list AICoordinates;
  targetQueue : list AICoordinates;
  parityShots : list AICoordinates;
  attackSeed : Z;
  ai_boardSize : Z
}.

Definition set_pools (avail queue parity : list AICoordinates) (ai : AILogic)
  : AILogic :=
  mkAI (difficulty ai) (aiBoard ai) (opponentBoard ai) (lastHit ai)
       (hunting ai) (huntDirection ai) avail queue parity
       (attackSeed ai) (ai_boardSize ai).

Definition set_targetQueue (queue : list AICoordinates) (ai : AILogic)
  : AILogic :=
  set_pools (availableShots ai) queue (parityShots ai) ai.

Definition set_knowledge (g : Grid) (last : AICoordinates) (hunt : bool)
    (ai : AILogic) : AILogic :=
  mkAI (difficulty ai) (aiBoard ai) g last hunt (huntDirection ai)
       (availableShots ai) (targetQueue ai) (parityShots ai)
       (attackSeed ai) (ai_boardSize ai).

Module AI.

(** Index of the first element equal to [c], as the search loops of
    [pickAttackCoordinates] find it. *)
Definition index_of (c : AICoordinates) (l : list AICoordinates)
  : option nat :=
  fst <$> list_find (fun c' => c' = c) l.

(** Erase the first element equal to [c], if there is one. *)
Definition erase_first (c : AICoordinates) (l : list AICoordinates)
  : list AICoordinates :=
  match index_of c l with
  | Some i => delete i l
  | None => l
  end.

(** The two nested loops of [initializeAvailableShots], before shuffling:
    all cells row by row, and those with [(j + i) % 2 == 0]. *)
Definition all_cells (n : Z) : list AICoordinates :=
  i ← seqZ 0 n; (fun j => (j, i)) <$> seqZ 0 n.

Definition parity_cells (n : Z) : list AICoordinates :=
  filter (fun c => Z.rem (c.1 + c.2) 2 = 0) (all_cells n).

(** The four neighbours in the order of the [dx], [dy] tables. *)
Definition neighbours (x y : Z) : list AICoordinates :=
  [(x + 0, y + -1); (x + 0, y + 1); (x + -1, y + 0); (x + 1, y + 0)].

(** The body of the loop of [addSmartNeighbors] for the neighbour
    [(nx, ny)]. *)
Definition enqueue_neighbour (acc : option AILogic) (d : AICoordinates)
  : option AILogic :=
  ai' ← acc;
  let '(nx, ny) := d in
  let n := ai_boardSize ai' in
  if (0 <=? nx) && (nx <? n) && (0 <=? ny) && (ny <? n) then
    c ← grid_get (opponentBoard ai') ny nx;
    if ascii_eqb c "?" || ascii_eqb c " "
    then Some (set_targetQueue (targetQueue ai' ++ [(nx, ny)]) ai')
    else Some ai'
  else Some ai'.

(** [AILogic::addSmartNeighbors] *)
Definition addSmartNeighbors (ai : AILogic) (x y : Z) : option AILogic :=
  foldl enqueue_neighbour (Some ai) (neighbours x y).

(** The [while (!targetQueue.empty())] loop: pops entries until one is found
    in [avail]; yields that entry, its index there and the rest of the
    queue. *)
Fixpoint pop_target (avail queue : list AICoordinates)
  : option (AICoordinates * nat * list AICoordinates) :=
  match queue with
  | [] => None
  | coord :: queue' =>
      match index_of coord avail with
      | Some removeIndex => Some (coord, removeIndex, queue')
      | None => pop_target avail queue'
      end
  end.

(** [availableShots[rand() % availableShots.size()]], erased from the
    vector.  The index is always in range, so the default is never used. *)
Definition pick_random (ai : AILogic) (queue : list AICoordinates) (g : Rng)
  : AICoordinates * AILogic * Rng :=
  let '(r, g') := rand g in
  let index := Z.to_nat (r mod Z.of_nat (length (availableShots ai))) in
  let coord := default (-1, -1) (availableShots ai !! index) in
  (coord, set_pools (delete index (availableShots ai)) queue
                    (parityShots ai) ai, g').

(** [AILogic::pickAttackCoordinates] *)
Definition pickAttackCoordinates (ai : AILogic) (g : Rng)
  : AICoordinates * AILogic * Rng :=
  match availableShots ai with
  | [] => ((-1, -1), ai, g)
  | _ :: _ =>
      match difficulty ai with
      | EASY => pick_random ai (targetQueue ai) g
      | SMART =>
          match pop_target (availableShots ai) (targetQueue ai) with
          | Some (coord, removeIndex, queue') =>
              (coord,
               set_pools (delete removeIndex (availableShots ai)) queue'
                         (erase_first coord (parityShots ai)) ai, g)
          | None =>
              match last (parityShots ai) with
              | Some coord =>
                  (coord,
                   set_pools (erase_first coord (availableShots ai)) []
                             (removelast (parityShots ai)) ai, g)
              | None => pick_random ai [] g
              end
          end
      end
  end.

(** [AILogic::recordShotResult] *)
Definition recordShotResult (ai : AILogic) (x y : Z) (hit sunk : bool)
  : option AILogic :=
  let n := ai_boardSize ai in
  if (0 <=? x) && (x <? n) && (0 <=? y) && (y <? n) then
    ob ← grid_set (opponentBoard ai) y x (if hit then "X" else "O")%char;
    let ai1 := set_knowledge ob (lastHit ai) (hunting ai) ai in
    ai2 ← (match difficulty ai1 with
           | SMART =>
               ai' ← (if hit && negb sunk then addSmartNeighbors ai1 x y
                      else Some ai1);
               Some (if sunk
                     then set_knowledge (opponentBoard ai') (-1, -1) false ai'
                     else ai')
           | EASY => Some ai1
           end);
    Some (if hit then set_knowledge (opponentBoard ai2) (x, y) true ai2
          else ai2)
  else Some ai.

Section Construction.

(** [std::random_shuffle] belongs to the C++ library: it draws from the
    process-wide generator and returns a rearrangement of its input. *)
Variable random_shuffle :
  list AICoordinates -> Rng -> list AICoordinates * Rng.
Hypothesis random_shuffle_perm :
  forall l g, (random_shuffle l g).1 ≡ₚ l.

(** [AILogic::initializeAvailableShots]; [now] is [std::time(0)]. *)
Definition initializeAvailableShots (now : Z) (ai : AILogic) (g : Rng)
  : AILogic * Rng :=
  let g0 := srand now g in
  let '(avail, g1) := random_shuffle (all_cells (ai_boardSize ai)) g0 in
  let '(parity, g2) := random_shuffle (parity_cells (ai_boardSize ai)) g1 in
  (set_pools avail (targetQueue ai) parity ai, g2).

(** [AILogic::setupBoard]: [setIsHost(false)], [initialize], the pieces,
    the random placement and, last, [buildShipCellMap] on the board the
    placement left. *)
Definition setupBoard (fuel : nat) (clock : Z) (ai : AILogic) (g : Rng)
  : outcome (AILogic * Rng) :=
  let b0 := Board.initialize (ai_boardSize ai)
              (mkBoard (boardArray (aiBoard ai)) (myShips (aiBoard ai))
                 (shipStatus (aiBoard ai)) (shipCellMap (aiBoard ai))
                 (boardSize (aiBoard ai)) (missCount (aiBoard ai)) false) in
  let '(b1, pieces) := GameLogic.initializeGamePieces b0 in
  match GameLogic.generateBoardPlacement fuel clock b1 pieces g with
  | Done (b2, g') =>
      match Board.buildShipCellMap b2 with
      | Some b3 =>
          Done (mkAI (difficulty ai) b3 (opponentBoard ai) (lastHit ai)
                     (hunting ai) (huntDirection ai) (availableShots ai)
                     (targetQueue ai) (parityShots ai) (attackSeed ai)
                     (ai_boardSize ai), g')
      | None => Undefined
      end
  | Undefined => Undefined
  | OutOfFuel => OutOfFuel
  end.

(** [AILogic::AILogic(diff, size)]; [now] is the value of [time(NULL)] and
    [clock] the reading of the high-resolution clock in [setupBoard]. *)
Definition create (fuel : nat) (now clock : Z) (diff : AIDifficulty)
    (size : Z) (g : Rng) : outcome (AILogic * Rng) :=
  let ai0 := mkAI diff (Board.create size) (grid_make size "?") (-1, -1)
                  false 0 [] [] [] ((now + 12345) mod 2 ^ 32) size in
  let '(ai1, g1) := initializeAvailableShots now ai0 g in
  setupBoard fuel clock ai1 g1.

(** [AILogic::reset] *)
Definition reset (now : Z) (ai : AILogic) (g : Rng) : AILogic * Rng :=
  let ai1 := mkAI (difficulty ai) (aiBoard ai)
                  (grid_make (ai_boardSize ai) "?") (-1, -1) false 0
                  (availableShots ai) [] (parityShots ai) (attackSeed ai)
                  (ai_boardSize ai) in
  initializeAvailableShots now ai1 g.

End Construction.

End AI.

(** ** Turn engine ([game/game_loop.cpp])

    The engine drives either the scripted opponent or a remote peer.  The
    terminal (curses drawing, sleeping, the cursor of the selection phase) is
    left out; what the player confirms with F arrives as a salvo.  A socket
    is what the peer will answer to each kind of call, in order, and a log
    of what was sent: a [recv] fails on an answer [None] or when the answers
    are used up, a [send] fails when [send_oks] says so or is used up. *)

Global Instance outcome_ret : MRet outcome := fun _ a => Done a.
Global Instance outcome_bind : MBind outcome := fun _ _ f m =>
  match m with
  | Done a => f a
  | Undefined => Undefined
  | OutOfFuel => OutOfFuel
  end.

(** A vector access of the engine: undefined when out of range. *)
Definition defined {A} (o : option A) : outcome A :=
  match o with
  | Some a => Done a
  | None => Undefined
  end.

Inductive NetMsg :=
| MsgCount (n : Z)
| MsgShot (x y : Z)
| MsgResult (c : ascii).

Record Socket := mkSocket {
  recv_counts : list (option Z);
  recv_shots : list (option (Z * Z));
  recv_results : list (option ascii);
  send_oks : list bool;
  sent : list NetMsg;
  sock_closed : bool
}.

Definition net_send (m : NetMsg) (s : Socket) : bool * Socket :=
  match send_oks s with
  | true :: oks =>
      (true, mkSocket (recv_counts s) (recv_shots s) (recv_results s) oks
                      (sent s ++ [m]) (sock_closed s))
  | _ :: oks =>
      (false, mkSocket (recv_counts s) (recv_shots s) (recv_results s) oks
                       (sent s) (sock_closed s))
  | [] => (false, s)
  end.

Definition closesocket (s : Socket) : Socket :=
  mkSocket (recv_counts s) (recv_shots s) (recv_results s) (send_oks s)
           (sent s) true.

Module NetworkLogic.

Definition sendShotCount (s : Socket) (count : Z) : bool * Socket :=
  net_send (MsgCount count) s.

Definition sendShot (s : Socket) (shot : Z * Z) : bool * Socket :=
  net_send (MsgShot shot.1 shot.2) s.

Definition sendShotResult (s : Socket) (c : ascii) : bool * Socket :=
  net_send (MsgResult c) s.

Definition receiveShotCount (s : Socket) : option Z * Socket :=
  match recv_counts s with
  | n :: rest =>
      (n, mkSocket rest (recv_shots s) (recv_results s) (send_oks s)
                        (sent s) (sock_closed s))
  | [] => (None, s)
  end.

Definition receiveShot (s : Socket) : option (Z * Z) * Socket :=
  match recv_shots s with
  | c :: rest =>
      (c, mkSocket (recv_counts s) rest (recv_results s) (send_oks s)
                        (sent s) (sock_closed s))
  | [] => (None, s)
  end.

Definition receiveShotResult (s : Socket) : option ascii * Socket :=
  match recv_results s with
  | c :: rest =>
      (c, mkSocket (recv_counts s) (recv_shots s) rest (send_oks s)
                        (sent s) (sock_closed s))
  | [] => (None, s)
  end.

End NetworkLogic.

(** [isAI] with [aiPtr], or [!isAI] with [socketPtr]. *)
Inductive Opponent :=
| OppAI (ai : AILogic)
| OppNet (sock : Socket).

Record GameLoopState := mkLoop {
  playerBoard : BoardData;
  enemyBoard : BoardData;
  enemyKnownBoard : Grid;
  size : Z;
  shots : Z;
  playerTurn : bool;
  opponent : Opponent;
  playerHits : Z;
  enemyHits : Z;
  playerShipsRemaining : Z;
  enemyShipsRemaining : Z;
  rng : Rng
}.

(** What a volley reports on screen. *)
Record Volley := mkVolley {
  volleyCoords : list (Z * Z);
  countWounded : Z;
  sunkInVolley : Z;
  missInVolley : Z
}.

(** How a firing phase leaves the loop body. *)
Inductive PhaseEnd :=
| GameOver (playerWon : bool)   (* [drawFirework] and [return] *)
| TurnDone (v : Volley)         (* the turn passes to the other side *)
| ConnectionLost.               (* a failed [send] or [recv], then [return] *)

Module GameLoop.

Definition set_opponent (o : Opponent) (st : GameLoopState) : GameLoopState :=
  mkLoop (playerBoard st) (enemyBoard st) (enemyKnownBoard st) (size st)
         (shots st) (playerTurn st) o (playerHits st) (enemyHits st)
         (playerShipsRemaining st) (enemyShipsRemaining st) (rng st).

Definition set_enemy_view (eb : BoardData) (known : Grid)
    (st : GameLoopState) : GameLoopState :=
  mkLoop (playerBoard st) eb known (size st) (shots st) (playerTurn st)
         (opponent st) (playerHits st) (enemyHits st)
         (playerShipsRemaining st) (enemyShipsRemaining st) (rng st).

Definition set_player_score (hits remaining : Z) (st : GameLoopState)
  : GameLoopState :=
  mkLoop (playerBoard st) (enemyBoard st) (enemyKnownBoard st) (size st)
         (shots st) (playerTurn st) (opponent st) hits (enemyHits st)
         (playerShipsRemaining st) remaining (rng st).

Definition set_enemy_score (hits remaining : Z) (st : GameLoopState)
  : GameLoopState :=
  mkLoop (playerBoard st) (enemyBoard st) (enemyKnownBoard st) (size st)
         (shots st) (playerTurn st) (opponent st) (playerHits st) hits
         remaining (enemyShipsRemaining st) (rng st).

Definition set_playerBoard (pb : BoardData) (st : GameLoopState)
  : GameLoopState :=
  mkLoop pb (enemyBoard st) (enemyKnownBoard st) (size st) (shots st)
         (playerTurn st) (opponent st) (playerHits st) (enemyHits st)
         (playerShipsRemaining st) (enemyShipsRemaining st) (rng st).

Definition set_playerTurn (t : bool) (st : GameLoopState) : GameLoopState :=
  mkLoop (playerBoard st) (enemyBoard st) (enemyKnownBoard st) (size st)
         (shots st) t (opponent st) (playerHits st) (enemyHits st)
         (playerShipsRemaining st) (enemyShipsRemaining st) (rng st).

Definition set_rng (g : Rng) (st : GameLoopState) : GameLoopState :=
  mkLoop (playerBoard st) (enemyBoard st) (enemyKnownBoard st) (size st)
         (shots st) (playerTurn st) (opponent st) (playerHits st)
         (enemyHits st) (playerShipsRemaining st) (enemyShipsRemaining st) g.

Definition close_opponent (st : GameLoopState) : GameLoopState :=
  match opponent st with
  | OppAI _ => st
  | OppNet s => set_opponent (OppNet (closesocket s)) st
  end.

(** [enemyKnownBoard[y][x] = k; enemyBoard.boardArray[y][x] = c] *)
Definition mark_enemy (x y : Z) (k c : ascii) (st : GameLoopState)
  : outcome GameLoopState :=
  known ← defined (grid_set (enemyKnownBoard st) y x k);
  g ← defined (grid_set (boardArray (enemyBoard st)) y x c);
  Done (set_enemy_view (set_boardArray g (enemyBoard st)) known st).

(** The breadth-first loop that turns the connected ['x'] cells of a sunk
    ship into ['s'] (remote opponent only). *)
Fixpoint flood_sunk (fuel : nat) (queue : list (Z * Z))
    (st : GameLoopState) : outcome GameLoopState :=
  match queue with
  | [] => Done st
  | (cx, cy) :: queue' =>
      match fuel with
      | O => OutOfFuel
      | S fuel' =>
          '(q, st') ←
            foldl (fun acc '(nx, ny) =>
                     '(q, st1) ← acc;
                     if (0 <=? nx) && (nx <? size st1)
                        && (0 <=? ny) && (ny <? size st1) then
                       c ← defined
                             (grid_get (boardArray (enemyBoard st1)) ny nx);
                       if ascii_eqb c "x" then
                         g ← defined (grid_set (boardArray (enemyBoard st1))
                                               ny nx "s");
                         known ← defined (grid_set (enemyKnownBoard st1)
                                                   ny nx "s");
                         Done (q ++ [(nx, ny)],
                               set_enemy_view
                                 (set_boardArray g (enemyBoard st1)) known st1)
                       else Done (q, st1)
                     else Done (q, st1))
                  (Done (queue', st)) (AI.neighbours cx cy);
          flood_sunk fuel' q st'
      end
  end.

(** Enough iterations for any board of the given size: every iteration
    removes one queue entry, and every entry added turned one ['x'] into
    ['s']. *)
Definition flood_fuel (n : Z) : nat := S (Z.to_nat (n * n)).

(** The three result branches of the player's firing loop. *)
Definition apply_player_result (x y shotResult : Z) (v : Volley)
    (st : GameLoopState) : outcome (Volley * GameLoopState) :=
  if shotResult =? 0 then
    st' ← mark_enemy x y "m" "o" st;
    Done (mkVolley (volleyCoords v) (countWounded v) (sunkInVolley v)
                   (missInVolley v + 1), st')
  else if shotResult =? 1 then
    st' ← mark_enemy x y "h" "x"
            (set_player_score (playerHits st + 1) (enemyShipsRemaining st) st);
    Done (v, st')
  else if shotResult =? 2 then
    let st1 := set_player_score (playerHits st + 1)
                                (enemyShipsRemaining st - 1) st in
    let v' := mkVolley (volleyCoords v) (countWounded v) (sunkInVolley v + 1)
                       (missInVolley v) in
    match opponent st1 with
    | OppAI ai =>
        st' ← foldl (fun acc '(cx, cy) =>
                       st2 ← acc; mark_enemy cx cy "s" "s" st2)
                (Done st1) (Board.getShipOccupiedCells (aiBoard ai) x y);
        Done (v', st')
    | OppNet _ =>
        st2 ← mark_enemy x y "s" "s" st1;
        st' ← flood_sunk (flood_fuel (size st2)) [(x, y)] st2;
        Done (v', st')
    end
  else Done (v, st).

(** How one shot of the player is resolved: by the scripted opponent's
    board, or by the peer's answer. *)
Definition resolve_player_shot (x y : Z) (st : GameLoopState)
  : outcome (option Z * GameLoopState) :=
  match opponent st with
  | OppAI ai =>
      '(r, b') ← defined (Board.receiveShot (aiBoard ai) x y);
      Done (Some r,
            set_opponent
              (OppAI (mkAI (difficulty ai) b' (opponentBoard ai) (lastHit ai)
                           (hunting ai) (huntDirection ai)
                           (availableShots ai) (targetQueue ai)
                           (parityShots ai) (attackSeed ai)
                           (ai_boardSize ai))) st)
  | OppNet s =>
      let '(ok, s1) := NetworkLogic.sendShot s (x, y) in
      if negb ok then Done (None, set_opponent (OppNet s1) st)
      else
        let '(answer, s2) := NetworkLogic.receiveShotResult s1 in
        match answer with
        | None => Done (None, set_opponent (OppNet s2) st)
        | Some a =>
            Done (Some (if ascii_eqb a "m" then 0
                        else if ascii_eqb a "h" then 1 else 2),
                  set_opponent (OppNet s2) st)
        end
  end.

(** The player's [for] loop over the selected shots.  [fired] collects
    [shotsFired] / [netShotsFired]; the result is [None] when the connection
    was lost inside the loop. *)
Fixpoint player_fire_loop (sel : list (Z * Z)) (fired : list (Z * Z))
    (v : Volley) (st : GameLoopState)
  : outcome (option (list (Z * Z) * Volley) * GameLoopState) :=
  match sel with
  | [] => Done (Some (fired, v), st)
  | (x, y) :: sel' =>
      let v1 := mkVolley (volleyCoords v ++ [(x, y)]) (countWounded v)
                         (sunkInVolley v) (missInVolley v) in
      '(res, st1) ← resolve_player_shot x y st;
      match res with
      | None => Done (None, st1)
      | Some shotResult =>
          '(v2, st2) ← apply_player_result x y shotResult v1 st1;
          if enemyShipsRemaining st2 <=? 0
          then Done (Some (fired ++ [(x, y)], v2), st2)
          else player_fire_loop sel' (fired ++ [(x, y)]) v2 st2
      end
  end.

(** [countWounded]: the fired cells that show ['x'] on grid [g]. *)
Definition count_wounded (g : Grid) (fired : list (Z * Z)) : outcome Z :=
  foldl (fun acc '(x, y) =>
           n ← acc;
           c ← defined (grid_get g y x);
           Done (if ascii_eqb c "x" then n + 1 else n))
        (Done 0) fired.

(** What follows the player's loop: the wounded count, the volley line and
    the victory check. *)
Definition player_after_loop (sel : list (Z * Z)) (st0 : GameLoopState)
  : outcome (PhaseEnd * GameLoopState) :=
  '(res, st1) ← player_fire_loop sel [] (mkVolley [] 0 0 0) st0;
  match res with
  | None => Done (ConnectionLost, close_opponent st1)
  | Some (fired, v) =>
      w ← count_wounded
            (match opponent st1 with
             | OppAI ai => boardArray (aiBoard ai)
             | OppNet _ => boardArray (enemyBoard st1)
             end) fired;
      if enemyShipsRemaining st1 <=? 0
      then Done (GameOver true, close_opponent st1)
      else Done (TurnDone (mkVolley (volleyCoords v) w (sunkInVolley v)
                                    (missInVolley v)),
                 set_playerTurn false st1)
  end.

(** The player's firing phase, from "FIRING!" to the end of the branch. *)
Definition player_firing (sel : list (Z * Z)) (st : GameLoopState)
  : outcome (PhaseEnd * GameLoopState) :=
  match opponent st with
  | OppAI _ => player_after_loop sel st
  | OppNet s =>
      let '(ok, s1) :=
        NetworkLogic.sendShotCount s (Z.of_nat (length sel)) in
      if negb ok
      then Done (ConnectionLost, close_opponent (set_opponent (OppNet s1) st))
      else player_after_loop sel (set_opponent (OppNet s1) st)
  end.

(** One pass of the enemy's [for] loop body up to the shot coordinates:
    [None] is the [break] on an exhausted pool or a failed [recv]. *)
Definition next_enemy_shot (st : GameLoopState)
  : option (Z * Z) * GameLoopState :=
  match opponent st with
  | OppAI ai =>
      let '(shot, ai', g') := AI.pickAttackCoordinates ai (rng st) in
      let st' := set_rng g' (set_opponent (OppAI ai') st) in
      if (shot.1 =? -1) || (shot.2 =? -1) then (None, st')
      else (Some shot, st')
  | OppNet s =>
      let '(shot, s') := NetworkLogic.receiveShot s in
      (shot, set_opponent (OppNet s') st)
  end.

(** What follows [playerBoard.receiveShot] in the enemy's loop body: the
    answer to the peer, the counters and [recordShotResult]. *)
Definition apply_enemy_result (x y result : Z) (v : Volley)
    (st : GameLoopState) : outcome (Volley * GameLoopState) :=
  let st1 :=
    match opponent st with
    | OppAI _ => st
    | OppNet s =>
        let responseChar :=
          if result =? 0 then "m"%char
          else if result =? 1 then "h"%char else "s"%char in
        set_opponent (OppNet (NetworkLogic.sendShotResult s responseChar).2) st
    end in
  let record hit sunk st2 :=
    match opponent st2 with
    | OppAI ai =>
        ai' ← defined (AI.recordShotResult ai x y hit sunk);
        Done (set_opponent (OppAI ai') st2)
    | OppNet _ => Done st2
    end in
  if result =? 0 then
    st' ← record false false st1;
    Done (mkVolley (volleyCoords v) (countWounded v) (sunkInVolley v)
                   (missInVolley v + 1), st')
  else if result =? 1 then
    st' ← record true false
            (set_enemy_score (enemyHits st1 + 1) (playerShipsRemaining st1)
                             st1);
    Done (v, st')
  else
    st' ← record true true
            (set_enemy_score (enemyHits st1 + 1)
                             (playerShipsRemaining st1 - 1) st1);
    Done (mkVolley (volleyCoords v) (countWounded v) (sunkInVolley v + 1)
                   (missInVolley v), st').

(** The enemy's [for (int i = 0; i < enemyShotsCount; i++)] loop, [n]
    iterations left. *)
Fixpoint enemy_fire_loop (n : nat) (fired : list (Z * Z)) (v : Volley)
    (st : GameLoopState) : outcome (list (Z * Z) * Volley * GameLoopState) :=
  match n with
  | O => Done (fired, v, st)
  | S n' =>
      let '(shot, st1) := next_enemy_shot st in
      match shot with
      | None => Done (fired, v, st1)
      | Some (x, y) =>
          let v1 := mkVolley (volleyCoords v ++ [(x, y)]) (countWounded v)
                             (sunkInVolley v) (missInVolley v) in
          '(result, pb) ← defined (Board.receiveShot (playerBoard st1) x y);
          '(v2, st2) ← apply_enemy_result x y result v1
                         (set_playerBoard pb st1);
          if playerShipsRemaining st2 <=? 0
          then Done (fired ++ [(x, y)], v2, st2)
          else enemy_fire_loop n' (fired ++ [(x, y)]) v2 st2
      end
  end.

(** The enemy's loop and what follows it: the wounded count, the volley
    line and the defeat check. *)
Definition enemy_salvo (enemyShotsCount : Z) (st0 : GameLoopState)
  : outcome (PhaseEnd * GameLoopState) :=
  '(fired, v, st1) ← enemy_fire_loop (Z.to_nat enemyShotsCount) []
                       (mkVolley [] 0 0 0) st0;
  w ← count_wounded (boardArray (playerBoard st1)) fired;
  if playerShipsRemaining st1 <=? 0
  then Done (GameOver false, close_opponent st1)
  else Done (TurnDone (mkVolley (volleyCoords v) w (sunkInVolley v)
                                (missInVolley v)),
             set_playerTurn true st1).

(** The enemy's turn, from "AI's turn..." to the end of the branch. *)
Definition enemy_turn (st : GameLoopState)
  : outcome (PhaseEnd * GameLoopState) :=
  match opponent st with
  | OppAI _ => enemy_salvo (shots st) st
  | OppNet s =>
      let '(count, s1) := NetworkLogic.receiveShotCount s in
      match count with
      | None => Done (ConnectionLost,
                      close_opponent (set_opponent (OppNet s1) st))
      | Some enemyShotsCount =>
          enemy_salvo enemyShotsCount (set_opponent (OppNet s1) st)
      end
  end.

(** What the player does when it is their turn: confirm a salvo or quit.
    F with nothing selected leaves the selection phase running. *)
Inductive Command :=
| Fire (sel : list (Z * Z))
| Quit.

(** How [runGameLoop] returns, or that it waits for more input. *)
Inductive GameEnd :=
| Won (byPlayer : bool)
| Lost_connection
| Quitted
| LoopExit
| AwaitingInput.

(** The enemy's part of the [while] loop: nothing when it is the player's
    turn or the loop condition already fails. *)
Definition enemy_part (st : GameLoopState)
  : outcome (option GameEnd * GameLoopState) :=
  if playerTurn st then Done (None, st)
  else if (0 <? playerShipsRemaining st) && (0 <? enemyShipsRemaining st)
  then
    '(e, st') ← enemy_turn st;
    match e with
    | GameOver w => Done (Some (Won w), st')
    | ConnectionLost => Done (Some Lost_connection, st')
    | TurnDone _ => Done (None, st')
    end
  else Done (Some LoopExit, st).

(** [GameLoop::runGameLoop]'s [while] loop, fed with the player's commands. *)
Fixpoint runGameLoop (cmds : list Command) (st : GameLoopState)
  : outcome (GameEnd * GameLoopState) :=
  '(e, st1) ← enemy_part st;
  match e with
  | Some e' => Done (e', st1)
  | None =>
      if (0 <? playerShipsRemaining st1) && (0 <? enemyShipsRemaining st1)
      then
        match cmds with
        | [] => Done (AwaitingInput, st1)
        | Quit :: _ => Done (Quitted, close_opponent st1)
        | Fire [] :: cmds' => runGameLoop cmds' st1
        | Fire sel :: cmds' =>
            '(p, st2) ← player_firing sel st1;
            match p with
            | GameOver w => Done (Won w, st2)
            | ConnectionLost => Done (Lost_connection, st2)
            | TurnDone _ => runGameLoop cmds' st2
            end
        end
      else Done (LoopExit, st1)
  end.

(** The state [runGameLoop] starts from: no hits, and both counters at the
    number of ships of the fleet for this size. *)
Definition start (pb eb : BoardData) (known : Grid) (n nshots : Z)
    (turn : bool) (o : Opponent) (g : Rng) : GameLoopState :=
  mkLoop pb eb known n nshots turn o 0 0 (getTotalShips n) (getTotalShips n) g.

End GameLoop.

(** ** Screen layout ([ui/ui_config.cpp]) *)

Record BoardLayout := mkLayout {
  startY : Z;
  board1StartX : Z;
  board2StartX : Z;
  separatorX : Z;
  instructionsY : Z;
  logStartX : Z;
  statusY : Z
}.

(** [calculateBoardLayout]; [maxY] and [maxX] are what [getmaxyx] reports
    for the terminal. *)
Definition calculateBoardLayout (boardSize maxY maxX : Z) : BoardLayout :=
  let boardWidth := boardSize * 4 + 8 in
  let separatorWidth := 5 in
  let totalWidth := boardWidth * 2 + separatorWidth in
  let b1 := Z.quot (maxX - totalWidth) 2 in
  let b1 := if b1 <? 3 then 3 else b1 in
  let sep := b1 + boardWidth in
  let b2 := sep + separatorWidth in
  let boardHeight := boardSize + 6 in
  let sy := Z.quot (maxY - boardHeight - 12) 2 + 4 in
  let sy := if sy <? 10 then 10 else sy in
  let instr := sy + boardHeight + 2 in
  let status := instr + 3 in
  let logx := b2 + boardWidth + 3 in
  let logx := if maxX <? logx + 50 then maxX - 50 else logx in
  mkLayout sy b1 b2 sep instr logx status.

(** ** Manual placement screen ([game/ai_game_loop.cpp]) *)

(** The keys the placement loop tells apart. *)
Inductive Key :=
| KLeft | KRight | KUp | KDown | KRotate | KGenerate | KEnter | KOther.

(** The variables of the placement loop of [playAIGame]. *)
Record ManualPlacement := mkManual {
  mp_board : BoardData;
  mp_shipToPlace : nat;
  mp_orientation : Z;
  mp_cursorX : Z;
  mp_cursorY : Z;
  mp_boardResult : Z
}.

Module Manual.

(** [UIRenderer::highlightShipPlacement]: the value it leaves in [isValid]
    (the drawing is left out). *)
Definition highlightShipPlacement (layout : BoardLayout)
    (cursorX cursorY shipLength orientation : Z) (b : BoardData)
  : option bool :=
  let gridX := Z.quot (cursorX - board1StartX layout - 5) 4 in
  let gridY := cursorY - startY layout - 3 in
  foldl (fun (acc : option bool) (i : Z) =>
           match acc with
           | None => None
           | Some isValid =>
               if orientation =? 0 then
                 let checkX := gridX - i in
                 if (checkX <? 0) || (boardSize b <=? checkX) then Some false
                 else
                   match grid_get (boardArray b) gridY checkX with
                   | None => None
                   | Some c =>
                       Some (if negb (ascii_eqb c "w") then false
                             else isValid)
                   end
               else
                 let checkY := gridY - i in
                 if (checkY <? 0) || (boardSize b <=? checkY) then Some false
                 else
                   match grid_get (boardArray b) checkY gridX with
                   | None => None
                   | Some c =>
                       Some (if negb (ascii_eqb c "w") then false
                             else isValid)
                   end
           end)
        (Some true) (seqZ 0 shipLength).

Definition set_cursor (x y : Z) (s : ManualPlacement) : ManualPlacement :=
  mkManual (mp_board s) (mp_shipToPlace s) (mp_orientation s) x y
           (mp_boardResult s).

Definition set_orientation (o : Z) (s : ManualPlacement) : ManualPlacement :=
  mkManual (mp_board s) (mp_shipToPlace s) o (mp_cursorX s) (mp_cursorY s)
           (mp_boardResult s).

(** One pass of the body of the placement loop, for the ship [ship] that
    is to be placed and the key read by [getch]. *)
Definition key_step (layout : BoardLayout) (size : Z)
    (pieces : list GamePiece) (ship : GamePiece) (k : Key)
    (s : ManualPlacement) : option ManualPlacement :=
  let minX := board1StartX layout + 5 in
  let minY := startY layout + 3 in
  let maxCursorX := board1StartX layout + 5 + (size - 1) * 4 in
  let maxCursorY := startY layout + 3 + size - 1 in
  let len := piece_length ship in
  isValid ← highlightShipPlacement layout (mp_cursorX s) (mp_cursorY s) len
              (mp_orientation s) (mp_board s);
  let gridX := Z.quot (mp_cursorX s - board1StartX layout - 5) 4 in
  let gridY := mp_cursorY s - startY layout - 3 in
  match k with
  | KLeft =>
      if mp_orientation s =? 0 then
        Some (if minX <? mp_cursorX s - 4 * (len - 1)
              then set_cursor (mp_cursorX s - 4) (mp_cursorY s) s else s)
      else
        Some (if minX <? mp_cursorX s
              then set_cursor (mp_cursorX s - 4) (mp_cursorY s) s else s)
  | KRight =>
      Some (if mp_cursorX s <? maxCursorX
            then set_cursor (mp_cursorX s + 4) (mp_cursorY s) s else s)
  | KUp =>
      if mp_orientation s =? 1 then
        Some (if minY <? mp_cursorY s - (len - 1)
              then set_cursor (mp_cursorX s) (mp_cursorY s - 1) s else s)
      else
        Some (if minY <? mp_cursorY s
              then set_cursor (mp_cursorX s) (mp_cursorY s - 1) s else s)
  | KDown =>
      Some (if mp_cursorY s <? maxCursorY
            then set_cursor (mp_cursorX s) (mp_cursorY s + 1) s else s)
  | KRotate =>
      if mp_orientation s =? 0 then
        Some (if minY <=? mp_cursorY s - (len - 1)
              then set_orientation 1 s else s)
      else
        Some (if minX <=? mp_cursorX s - 4 * (len - 1)
              then set_orientation 0 s else s)
  | KGenerate =>
      Some (mkManual (mp_board s) (length pieces) (mp_orientation s)
                     (mp_cursorX s) (mp_cursorY s) (-1))
  | KEnter =>
      if isValid : bool then
        '(placed, b') ← GameLogic.placeShip (mp_board s) gridX gridY
                          (mp_orientation s) len (piece_symbol ship);
        Some (if placed : bool
              then mkManual b' (S (mp_shipToPlace s)) (mp_orientation s)
                            minX minY (mp_boardResult s)
              else mkManual b' (mp_shipToPlace s) (mp_orientation s)
                            (mp_cursorX s) (mp_cursorY s) (mp_boardResult s))
      else Some s
  | KOther => Some s
  end.

(** The placement loop, fed with the keys pressed; it stops when every
    piece is placed, and otherwise waits for the next key. *)
Fixpoint session (layout : BoardLayout) (size : Z) (pieces : list GamePiece)
    (keys : list Key) (s : ManualPlacement) : option ManualPlacement :=
  match keys with
  | [] => Some s
  | k :: keys' =>
      match pieces !! mp_shipToPlace s with
      | None => Some s
      | Some ship =>
          s' ← key_step layout size pieces ship k s;
          session layout size pieces keys' s'
      end
  end.

(** The variables as the loop finds them: first piece, horizontal, cursor
    on the top left cell. *)
Definition start (layout : BoardLayout) (b : BoardData) : ManualPlacement :=
  mkManual b 0 0 (board1StartX layout + 5) (startY layout + 3) 0.

End Manual.

(** The cursor of the placement screen sits on a cell of the board, and
    the board has the size of the game. *)
Definition placement_ok (layout : BoardLayout) (n : Z) (s : ManualPlacement)
  : Prop :=
  grid_square n (boardArray (mp_board s)) /\ boardSize (mp_board s) = n
  /\ exists gx gy,
       0 <= gx < n /\ 0 <= gy < n
       /\ mp_cursorX s = board1StartX layout + 5 + 4 * gx
       /\ mp_cursorY s = startY layout + 3 + gy.

(** ** The selection phase of the game ([game/game_loop.cpp]) *)

(** The keys the selection phase tells apart: the arrows (or WASD), space
    or Enter, F and Q; [SOther] is any other key, or no key at all. *)
Inductive ShotKey :=
| SLeft | SRight | SUp | SDown | SSelect | SFire | SQuit | SOther.

(** The cursor on the enemy board and the shots selected so far, that is
    the first [shotsSelected] entries of [playerShots]. *)
Record Selection := mkSelection {
  cursorX : Z;
  cursorY : Z;
  gridX : Z;
  gridY : Z;
  playerShots : list (Z * Z)
}.

Module Interactive.

Definition set_cursor (cx cy gx gy : Z) (sl : Selection) : Selection :=
  mkSelection cx cy gx gy (playerShots sl).

(** The cursor as [runGameLoop] initialises it, and nothing selected. *)
Definition start (layout : BoardLayout) : Selection :=
  mkSelection (board2StartX layout + 9) (startY layout + 3) 0 0 [].

(** The [switch] of the selection phase, for the keys that neither fire
    nor quit. *)
Definition select_key (layout : BoardLayout) (st : GameLoopState)
    (k : ShotKey) (sl : Selection) : outcome Selection :=
  let maxCursorX := board2StartX layout + 9 + (size st - 1) * 4 in
  let maxCursorY := startY layout + 3 + size st - 1 in
  match k with
  | SLeft =>
      Done (if (board2StartX layout + 9 <? cursorX sl) && (0 <? gridX sl)
            then set_cursor (cursorX sl - 4) (cursorY sl)
                            (gridX sl - 1) (gridY sl) sl
            else sl)
  | SRight =>
      Done (if (cursorX sl <? maxCursorX) && (gridX sl <? size st - 1)
            then set_cursor (cursorX sl + 4) (cursorY sl)
                            (gridX sl + 1) (gridY sl) sl
            else sl)
  | SUp =>
      Done (if (startY layout + 3 <? cursorY sl) && (0 <? gridY sl)
            then set_cursor (cursorX sl) (cursorY sl - 1)
                            (gridX sl) (gridY sl - 1) sl
            else sl)
  | SDown =>
      Done (if (cursorY sl <? maxCursorY) && (gridY sl <? size st - 1)
            then set_cursor (cursorX sl) (cursorY sl + 1)
                            (gridX sl) (gridY sl + 1) sl
            else sl)
  | SSelect =>
      c ← defined (grid_get (enemyKnownBoard st) (gridY sl) (gridX sl));
      if ascii_eqb c " "
         && (Z.of_nat (length (playerShots sl)) <? shots st)
      then
        let alreadySelected :=
          existsb (fun p => (p.1 =? gridX sl) && (p.2 =? gridY sl))
                  (playerShots sl) in
        Done (if alreadySelected then sl
              else mkSelection (cursorX sl) (cursorY sl) (gridX sl)
                     (gridY sl) (playerShots sl ++ [(gridX sl, gridY sl)]))
      else Done sl
  | _ => Done sl
  end.

(** [GameLoop::runGameLoop]'s [while] loop, fed with the keys [getch]
    returns during the selection phase.  F with at least one shot selected
    ends the selection, and the next pass of the loop fires the salvo;
    after the salvo nothing is selected and the cursor stays where it
    was. *)
Fixpoint runGameLoop (layout : BoardLayout) (keys : list ShotKey)
    (sl : Selection) (st : GameLoopState)
  : outcome (GameLoop.GameEnd * Selection * GameLoopState) :=
  '(e, st1) ← GameLoop.enemy_part st;
  match e with
  | Some e' => Done (e', sl, st1)
  | None =>
      if (0 <? playerShipsRemaining st1) && (0 <? enemyShipsRemaining st1)
      then
        match keys with
        | [] => Done (GameLoop.AwaitingInput, sl, st1)
        | SQuit :: _ =>
            Done (GameLoop.Quitted, sl, GameLoop.close_opponent st1)
        | SFire :: keys' =>
            if 0 <? Z.of_nat (length (playerShots sl)) then
              '(p, st2) ← GameLoop.player_firing (playerShots sl) st1;
              match p with
              | GameOver w => Done (GameLoop.Won w, sl, st2)
              | ConnectionLost => Done (GameLoop.Lost_connection, sl, st2)
              | TurnDone _ =>
                  runGameLoop layout keys'
                    (mkSelection (cursorX sl) (cursorY sl) (gridX sl)
                                 (gridY sl) []) st2
              end
            else runGameLoop layout keys' sl st1
        | k :: keys' =>
            sl' ← select_key layout st1 k sl;
            runGameLoop layout keys' sl' st1
        end
      else Done (GameLoop.LoopExit, sl, st1)
  end.

End Interactive.

(** ** Invariants of a board *)

(** The cells of a ship as [(row, column)], in the order of the sinking loop. *)
Definition ship_cells (s : ActiveShip) : list (Z * Z) :=
  Board.ship_cell s <$> seqZ 0 (shipLength s).

(** The ship record a shot leaves behind when it hits ship [s]. *)
Definition hit_once (s : ActiveShip) : ActiveShip :=
  set_hit (hitCount s + 1) (shipLength s <=? hitCount s + 1) s.

(** [s'] is ship [s] later in the game: same identity and geometry, and a
    hit count that did not go down. *)
Definition ship_later (s s' : ActiveShip) : Prop :=
  shipId s' = shipId s /\ symbol s' = symbol s
  /\ shipLength s' = shipLength s /\ startRow s' = startRow s
  /\ startCol s' = startCol s /\ orientation s' = orientation s
  /\ hitCount s <= hitCount s'.

(** [0 <= hitCount <= length], and sunk exactly when every cell was hit. *)
Definition ship_ok (s : ActiveShip) : Prop :=
  0 <= hitCount s <= shipLength s /\
  (isSunk s = true <-> hitCount s = shipLength s).

(** What the grid shows on the cells of a ship: ['s'] everywhere once it is
    sunk, otherwise its symbol or, on a cell already hit, ['x']. *)
Definition ship_marked (g : Grid) (s : ActiveShip) : Prop :=
  forall r c, (r, c) ∈ ship_cells s ->
    grid_get g r c = Some (if isSunk s then "s"%char else symbol s)
    \/ (isSunk s = false /\ grid_get g r c = Some "x"%char).

Definition ship_inside (n : Z) (s : ActiveShip) : Prop :=
  forall r c, (r, c) ∈ ship_cells s -> 0 <= r < n /\ 0 <= c < n.

(** No two ships of the list share a cell. *)
Definition ships_disjoint (ships : list ActiveShip) : Prop :=
  forall i j s t, ships !! i = Some s -> ships !! j = Some t -> i <> j ->
    forall p, p ∈ ship_cells s -> p ∉ ship_cells t.

Record board_ok (b : BoardData) : Prop := mk_board_ok {
  ok_grid : grid_square (boardSize b) (boardArray b);
  ok_hits : Forall ship_ok (myShips b);
  ok_symbols : Forall (fun s => is_ship_char (symbol s) = true) (myShips b);
  ok_inside : Forall (ship_inside (boardSize b)) (myShips b);
  ok_marked : Forall (ship_marked (boardArray b)) (myShips b);
  ok_disjoint : ships_disjoint (myShips b)
}.

(** The ship record [addShip] creates. *)
Definition new_ship (b : BoardData) (orient startPos len : Z) (sym : ascii)
  : ActiveShip :=
  mkShip (Z.of_nat (length (myShips b))) sym len 0 false
         (Z.quot startPos (boardSize b)) (Z.rem startPos (boardSize b))
         orient.

(** The ship [receiveShot] looks for: afloat, with the symbol found in the
    cell, and lying over [(x, y)]. *)
Definition is_target (t : ascii) (x y : Z) (s : ActiveShip) : Prop :=
  isSunk s = false /\ symbol s = t /\ Board.isHit s x y = true.

(** Boards built from an empty one by [addShip] (of a ship with at least one
    cell), [placeShip] and [receiveShot], in any order. *)
Inductive reachable : BoardData -> Prop :=
| reach_create (n : Z) : 0 <= n -> reachable (Board.create n)
| reach_addShip b orient startPos len sym b' :
    reachable b -> 1 <= len ->
    Board.addShip b orient startPos len sym = Some b' -> reachable b'
| reach_placeShip b gridX gridY orient len sym r b' :
    reachable b ->
    GameLogic.placeShip b gridX gridY orient len sym = Some (r, b') ->
    reachable b'
| reach_receiveShot b x y r b' :
    reachable b -> Board.receiveShot b x y = Some (r, b') -> reachable b'.

(** The cells of a ship that the grid shows as hit. *)
Definition hit_cells (g : Grid) (s : ActiveShip) : list (Z * Z) :=
  filter (fun p => grid_get g p.1 p.2 = Some "x"%char) (ship_cells s).

(** The record of a ship afloat counts the hit cells the grid shows. *)
Definition ship_counted (g : Grid) (s : ActiveShip) : Prop :=
  isSunk s = false -> hitCount s = Z.of_nat (length (hit_cells g s)).

(** A board in order whose hit counts agree with the grid. *)
Definition fleet_ok (b : BoardData) : Prop :=
  board_ok b /\ Forall (ship_counted (boardArray b)) (myShips b).

(** The cell was not shot at: it shows neither a hit, a miss nor a sunk
    ship. *)
Definition unshot (g : Grid) (r c : Z) : Prop :=
  exists a, grid_get g r c = Some a
            /\ a <> "x"%char /\ a <> "o"%char /\ a <> "s"%char.

(** What [receiveShot] writes on the cell of a fresh shot, by result. *)
Definition result_mark (r : Z) : ascii :=
  if r =? 0 then "o" else if r =? 1 then "x" else "s".

(** ** Manual placement sessions *)

(** One Enter key press of the manual placement screen. *)
Record PlaceRequest := mkRequest {
  req_x : Z;
  req_y : Z;
  req_orient : Z;
  req_len : Z;
  req_sym : ascii
}.

Definition request_cells (q : PlaceRequest) : list (Z * Z) :=
  GameLogic.placement_cells (req_x q) (req_y q) (req_orient q) (req_len q).

(** A series of [placeShip] calls; the second component lists the requests
    that were accepted, in order. *)
Fixpoint place_all (reqs : list PlaceRequest) (b : BoardData)
  : option (BoardData * list PlaceRequest) :=
  match reqs with
  | [] => Some (b, [])
  | q :: rest =>
      '(ok, b1) ← GameLogic.placeShip b (req_x q) (req_y q) (req_orient q)
                    (req_len q) (req_sym q);
      '(b2, placed) ← place_all rest b1;
      Some (b2, if ok : bool then q :: placed else placed)
  end.

(** No two accepted requests share a cell. *)
Definition requests_disjoint (placed : list PlaceRequest) : Prop :=
  forall i j q1 q2, placed !! i = Some q1 -> placed !! j = Some q2 ->
    i <> j -> forall p, p ∈ request_cells q1 -> p ∉ request_cells q2.

(** A piece of the fleet: at least one cell, and a symbol in ['A'..'Z']. *)
Definition piece_ok (p : GamePiece) : Prop :=
  1 <= piece_length p /\ is_ship_char (piece_symbol p) = true.

(** The fleet on the board is the given list of pieces, in order. *)
Definition fleet_of (pieces : list GamePiece) (ships : list ActiveShip)
  : Prop :=
  (fun s => (shipLength s, symbol s)) <$> ships
  = (fun p => (piece_length p, piece_symbol p)) <$> pieces.

(** Every cell of the ship still shows the ship's symbol. *)
Definition ship_unhit (g : Grid) (s : ActiveShip) : Prop :=
  forall r c, (r, c) ∈ ship_cells s -> grid_get g r c = Some (symbol s).

(** ** States of one game *)

(** Board [b] has the size and host flag of [b0] and a square array. *)
Definition board_like (b0 b : BoardData) : Prop :=
  boardSize b = boardSize b0 /\ isHost b = isHost b0
  /\ grid_square (boardSize b) (boardArray b).

(** [s] is a state of the game that started in [s0]: same settings and
    totals, grids of the same size; hits, counters, turn and the contents
    of the grids are free. *)
Definition same_game (s0 s : GameState.t) : Prop :=
  GameState.totalShips s = GameState.totalShips s0
  /\ GameState.maxHits s = GameState.maxHits s0
  /\ GameState.isHost s = GameState.isHost s0
  /\ GameState.boardSize s = GameState.boardSize s0
  /\ GameState.shotsPerTurn s = GameState.shotsPerTurn s0
  /\ board_like (GameState.playerBoard s0) (GameState.playerBoard s)
  /\ board_like (GameState.enemyBoard s0) (GameState.enemyBoard s)
  /\ grid_square (GameState.boardSize s0) (GameState.enemyKnownBoard s).

(** ** Invariants of the scripted opponent *)

(** [l'] is [l] with the cell [c] taken out. *)
Definition without (c : Z * Z) (l l' : list (Z * Z)) : Prop :=
  NoDup l' /\ forall x, x ∈ l' <-> x ∈ l /\ x <> c.

(** [nx >= 0 && nx < boardSize && ny >= 0 && ny < boardSize] *)
Definition in_board (n : Z) (c : Z * Z) : bool :=
  (0 <=? c.1) && (c.1 <? n) && (0 <=? c.2) && (c.2 <? n).

(** The knowledge grid still shows ['?'] or [' '] for the cell. *)
Definition unknown (g : Grid) (c : Z * Z) : bool :=
  match grid_get g c.2 c.1 with
  | Some a => ascii_eqb a "?" || ascii_eqb a " "
  | None => false
  end.

(** The pools hold each cell at most once, the parity pool of the smart
    opponent is part of the pool of untried cells (the easy opponent never
    touches its parity pool), every untried cell is on the board, and the
    knowledge grid has the size of the board. *)
Record pools_ok (ai : AILogic) : Prop := mk_pools_ok {
  pool_nodup : NoDup (availableShots ai);
  parity_nodup : NoDup (parityShots ai);
  parity_sub : difficulty ai = SMART ->
               forall c, c ∈ parityShots ai -> c ∈ availableShots ai;
  pool_inside : forall c, c ∈ availableShots ai ->
                  in_board (ai_boardSize ai) c = true;
  knowledge_square : grid_square (ai_boardSize ai) (opponentBoard ai)
}.

(** The neighbours of [(x, y)] that [addSmartNeighbors] enqueues: those on
    the board whose knowledge cell is still unknown. *)
Definition fresh_neighbours (ai : AILogic) (x y : Z) : list (Z * Z) :=
  filter (fun d => in_board (ai_boardSize ai) d
                   && unknown (opponentBoard ai) d)
         (AI.neighbours x y).

(** The knowledge grid and the pool of untried cells agree: a cell of the
    board is unknown exactly when it is still in the pool. *)
Definition synced (ai : AILogic) : Prop :=
  forall d, in_board (ai_boardSize ai) d = true ->
    (unknown (opponentBoard ai) d = true <-> d ∈ availableShots ai).

(** The same, except for the cell [c] that was picked and whose outcome is
    not recorded yet. *)
Definition synced_but (c : Z * Z) (ai : AILogic) : Prop :=
  forall d, d <> c -> in_board (ai_boardSize ai) d = true ->
    (unknown (opponentBoard ai) d = true <-> d ∈ availableShots ai).

(** What the engine asks of the opponent during a game. *)
Inductive AIOp :=
| OpPick
| OpRecord (x y : Z) (hit sunk : bool).

(** A series of calls on one opponent; the coordinates returned by the
    picks are collected in order. *)
Fixpoint run_ai (ops : list AIOp) (ai : AILogic) (g : Rng)
  : option (list (Z * Z) * AILogic * Rng) :=
  match ops with
  | [] => Some ([], ai, g)
  | OpPick :: ops' =>
      let '(c, ai', g') := AI.pickAttackCoordinates ai g in
      '(cs, ai2, g2) ← run_ai ops' ai' g';
      Some (c :: cs, ai2, g2)
  | OpRecord x y hit sunk :: ops' =>
      ai' ← AI.recordShotResult ai x y hit sunk;
      run_ai ops' ai' g
  end.

(** ** Concrete runs used to exercise the statements *)

(** A generator whose sequence is a fixed quadratic walk. *)
Definition demo_rng : Rng :=
  mkRng (fun seed k =>
           Z.to_nat ((seed + Z.of_nat k * 7919 + Z.of_nat (k * k) * 31)
                     mod 104729))
        0 0.

(** The 10x10 fleet and the board [setupPlayerBoard] starts from. *)
Definition demo_fleet : BoardData * list GamePiece :=
  GameLogic.initializeGamePieces (Board.create 10).

(** A shuffle that reverses its input and draws once from the generator. *)
Definition demo_shuffle (l : list (Z * Z)) (g : Rng) : list (Z * Z) * Rng :=
  (reverse l, (rand g).2).

(** A smart opponent for a 10x10 board, as its constructor leaves it. *)
Definition demo_ai : AILogic :=
  match AI.create demo_shuffle 20 0 12345 SMART 10 demo_rng with
  | Done (ai, _) => ai
  | _ => mkAI SMART (Board.create 10) [] (-1, -1) false 0 [] [] [] 0 10
  end.


(** A manual session: the second request overlaps the first and is refused. *)
Definition demo_requests : list PlaceRequest :=
  [mkRequest 5 5 0 3 "A"; mkRequest 4 5 0 3 "B"; mkRequest 5 9 1 2 "C"].

(** ** Invariants of the turn engine *)

(** [st'] is [st] up to the player's picture of the enemy board: the
    tracking grid and the local copy of the enemy's cells, which keep their
    shape. *)
Definition view_only (st st' : GameLoopState) : Prop :=
  exists eb known,
    st' = GameLoop.set_enemy_view eb known st
    /\ (forall n, grid_square n (enemyKnownBoard st) -> grid_square n known)
    /\ (forall n, grid_square n (boardArray (enemyBoard st)) ->
                  grid_square n (boardArray eb)).

(** What the player's firing phase leaves alone. *)
Definition player_side_kept (st st' : GameLoopState) : Prop :=
  playerBoard st' = playerBoard st /\ size st' = size st
  /\ shots st' = shots st /\ enemyHits st' = enemyHits st
  /\ playerShipsRemaining st' = playerShipsRemaining st
  /\ rng st' = rng st.

(** What the enemy's turn leaves alone. *)
Definition enemy_side_kept (st st' : GameLoopState) : Prop :=
  enemyBoard st' = enemyBoard st
  /\ enemyKnownBoard st' = enemyKnownBoard st /\ size st' = size st
  /\ shots st' = shots st /\ playerHits st' = playerHits st
  /\ enemyShipsRemaining st' = enemyShipsRemaining st.

(** The number of ['x'] cells of a grid: what the flood fill of a sunk ship
    still has to turn into ['s']. *)
Definition count_x (g : Grid) : nat :=
  sum_list ((fun row => length (filter (fun c => c = "x"%char) row)) <$> g).

(** Every shot the peer will send lies on the board. *)
Definition peer_shots_on_board (n : Z) (s : Socket) : Prop :=
  Forall (fun o => match o with
                   | Some c => in_board n c = true
                   | None => True
                   end) (recv_shots s).

(** The state the engine keeps during a game: all grids have the size of
    the game; the scripted opponent's fleet lies on its board and its pools
    are consistent. *)
Record game_ok (st : GameLoopState) : Prop := mk_game_ok {
  gk_known : grid_square (size st) (enemyKnownBoard st);
  gk_enemy : grid_square (size st) (boardArray (enemyBoard st));
  gk_player : grid_square (size st) (boardArray (playerBoard st));
  gk_player_size : boardSize (playerBoard st) = size st;
  gk_opponent :
    match opponent st with
    | OppAI ai =>
        board_ok (aiBoard ai) /\ boardSize (aiBoard ai) = size st
        /\ pools_ok ai /\ ai_boardSize ai = size st
    | OppNet s => peer_shots_on_board (size st) s
    end
}.

(** What the flood fill of a sunk ship may do to the player's picture of the
    enemy board: a cell of the local copy keeps its content or goes from
    ['x'] to ['s'], and a cell of the tracking grid keeps its content or
    becomes ['s'] where the local copy showed ['x']. *)
Definition flood_step (st st' : GameLoopState) : Prop :=
  forall r c,
    (grid_get (boardArray (enemyBoard st')) r c
     = grid_get (boardArray (enemyBoard st)) r c
     \/ (grid_get (boardArray (enemyBoard st)) r c = Some "x"%char
         /\ grid_get (boardArray (enemyBoard st')) r c = Some "s"%char))
    /\ (grid_get (enemyKnownBoard st') r c = grid_get (enemyKnownBoard st) r c
        \/ (grid_get (boardArray (enemyBoard st)) r c = Some "x"%char
            /\ grid_get (enemyKnownBoard st') r c = Some "s"%char)).

(** [d] is reached from [c] through cells that show ['x'], each next to
    the one before it; [c] itself may show anything. *)
Inductive x_reach (g : Grid) (c : Z * Z) : Z * Z -> Prop :=
| reach_first d :
    d ∈ AI.neighbours c.1 c.2 -> grid_get g d.2 d.1 = Some "x"%char ->
    x_reach g c d
| reach_next d e :
    x_reach g c d -> e ∈ AI.neighbours d.1 d.2 ->
    grid_get g e.2 e.1 = Some "x"%char -> x_reach g c e.

(** What the breadth-first loop keeps, seen from the state [st0] the flood
    fill started in.  [done] are the cells taken from the queue so far:
    every cell turned from ['x'] into ['s'] is in the queue or done and
    shows ['s'] on the tracking grid too, and the hit neighbours of a cell
    that is done are all turned. *)
Definition flood_inv (st0 : GameLoopState) (done : Z * Z -> Prop)
    (queue : list (Z * Z)) (st : GameLoopState) : Prop :=
  flood_step st0 st /\ size st = size st0
  /\ (forall d,
        grid_get (boardArray (enemyBoard st0)) d.2 d.1 = Some "x"%char ->
        grid_get (boardArray (enemyBoard st)) d.2 d.1 = Some "s"%char ->
        (d ∈ queue \/ done d)
        /\ grid_get (enemyKnownBoard st) d.2 d.1 = Some "s"%char)
  /\ (forall c d, done c -> d ∈ AI.neighbours c.1 c.2 ->
        grid_get (boardArray (enemyBoard st0)) d.2 d.1 = Some "x"%char ->
        grid_get (boardArray (enemyBoard st)) d.2 d.1 = Some "s"%char).

(** The player's side of the score: the counter of ships remaining plus the
    ships sunk on the player's board, and the number of ship records. *)
Definition player_tally (st : GameLoopState) : Z * nat :=
  (playerShipsRemaining st + Board.getSunkCount (playerBoard st),
   length (myShips (playerBoard st))).

(** The same for the scripted opponent's side; a remote opponent keeps its
    board to itself. *)
Definition enemy_tally (st : GameLoopState) : option (Z * nat) :=
  match opponent st with
  | OppAI ai =>
      Some (enemyShipsRemaining st + Board.getSunkCount (aiBoard ai),
            length (myShips (aiBoard ai)))
  | OppNet _ => None
  end.

(** The volley every firing phase starts from. *)
Definition no_volley : Volley := mkVolley [] 0 0 0.

(** ** The salvo of the scripted opponent *)

(** The coordinates [n] calls of [pickAttackCoordinates] return when no
    outcome is recorded in between, up to the first [(-1, -1)]. *)
Fixpoint blind_picks (n : nat) (ai : AILogic) (g : Rng) : list (Z * Z) :=
  match n with
  | O => []
  | S n' =>
      let '(shot, ai', g') := AI.pickAttackCoordinates ai g in
      if (shot.1 =? -1) || (shot.2 =? -1) then []
      else shot :: blind_picks n' ai' g'
  end.

(** The value of a computation that is defined. *)
Definition result_of {A} (m : outcome A) : option A :=
  match m with
  | Done a => Some a
  | _ => None
  end.

(** ** Concrete games *)

(** A 10x10 board with one vertical ship on (0,0), (0,1) and (0,2). *)
Definition demo_target : BoardData :=
  default (Board.create 10) (Board.addShip (Board.create 10) 1 0 3 "A").

(** An easy opponent whose fleet is that one ship. *)
Definition demo_easy_ai : AILogic :=
  mkAI EASY demo_target (grid_make 10 "?") (-1, -1) false 0
       (AI.all_cells 10) [] [] 0 10.

(** A game against it in which each side has one ship left. *)
Definition demo_game : GameLoopState :=
  mkLoop scenarioA_board (Board.create 10) (grid_make 10 " ") 10 4 true
         (OppAI demo_easy_ai) 0 0 1 1 demo_rng.

(** The smart opponent about to fire two shots at the given board. *)
Definition demo_smart_game (pb : BoardData) : GameLoopState :=
  mkLoop pb (Board.create 10) (grid_make 10 " ") 10 2 false
         (OppAI demo_ai) 0 0 1 1 demo_rng.

(** The 10x10 board on which [placeShip] wrote the ship of scenario A:
    upwards from the cell (5,7), three cells long. *)
Definition scenarioA_manual_board : BoardData :=
  match GameLogic.placeShip (Board.create 10) 5 7 1 3 "A" with
  | Some (_, b) => b
  | None => Board.create 10
  end.

(** A player's board after manual placement: [placeShip] wrote a ship of
    three cells leftwards from the cell (2,0). *)
Definition demo_manual_board : BoardData :=
  match GameLogic.placeShip (Board.create 10) 2 0 0 3 "A" with
  | Some (_, b) => b
  | None => Board.create 10
  end.

(** A game against a peer in which earlier shots of the player hit (2,3),
    (3,3) and, away from them, (7,7), and the shot at (4,3) has just been
    answered "sunk" and marked. *)
Definition demo_flood_game : GameLoopState :=
  foldl (fun st '(x, y, k, c) =>
           match GameLoop.mark_enemy x y k c st with
           | Done st' => st'
           | _ => st
           end)
        (mkLoop scenarioA_board (Board.create 10) (grid_make 10 " ") 10 4 true
                (OppNet (mkSocket [] [] [] [] [] false)) 3 0 1 1 demo_rng)
        [(2, 3, "h", "x"); (3, 3, "h", "x"); (7, 7, "h", "x");
         (4, 3, "s", "s")]%char.

(** The smart opponent after the first pick of a game, a hit recorded for
    it and the pick that follows. *)
Definition demo_played_ai : AILogic :=
  match run_ai [OpPick; OpRecord 0 0 true false; OpPick] demo_ai demo_rng with
  | Some (_, ai, _) => ai
  | None => demo_ai
  end.

(** ** What each side knows of the other *)

(** What the player's tracking grid shows for a cell of the enemy's
    board: ['m'] for a miss, ['h'] for a hit, ['s'] for a sunk ship and a
    blank for a cell not shot at. *)
Definition mark_of (a : ascii) : ascii :=
  if ascii_eqb a "o" then "m"
  else if ascii_eqb a "x" then "h"
  else if ascii_eqb a "s" then "s" else " ".

(** What the player's copy of the enemy board shows: the marks of the
    shots, and water elsewhere. *)
Definition copy_of (a : ascii) : ascii :=
  if ascii_eqb a "o" || ascii_eqb a "x" || ascii_eqb a "s" then a else "w".

(** What the knowledge grid of the scripted opponent shows for a cell of
    the player's board: ['O'] for a miss, ['X'] for a hit, sunk or not,
    and ['?'] for a cell not shot at. *)
Definition seen_of (a : ascii) : ascii :=
  if ascii_eqb a "o" then "O"
  else if ascii_eqb a "x" || ascii_eqb a "s" then "X" else "?".

(** Grid [g] shows every cell of board [b] through [f]. *)
Definition shows (f : ascii -> ascii) (g : Grid) (b : BoardData) : Prop :=
  forall r c, grid_get g r c = f <$> grid_get (boardArray b) r c.

(** The opponent with another board of its own. *)
Definition set_aiBoard (b : BoardData) (ai : AILogic) : AILogic :=
  mkAI (difficulty ai) b (opponentBoard ai) (lastHit ai) (hunting ai)
       (huntDirection ai) (availableShots ai) (targetQueue ai)
       (parityShots ai) (attackSeed ai) (ai_boardSize ai).

(** A game against the scripted opponent [ai] in which both sides know the
    truth: the engine state is in order, both fleets are consistent with
    their hit counts, the opponent's knowledge grid agrees with its pool
    and shows the player's board, and the player's tracking grid and copy
    show the opponent's board. *)
Record ai_game_ok (st : GameLoopState) (ai : AILogic) : Prop := mk_ai_game {
  ag_opponent : opponent st = OppAI ai;
  ag_game : game_ok st;
  ag_fleet : fleet_ok (aiBoard ai);
  ag_player : fleet_ok (playerBoard st);
  ag_synced : synced ai;
  ag_tracks : shows mark_of (enemyKnownBoard st) (aiBoard ai);
  ag_copy : shows copy_of (boardArray (enemyBoard st)) (aiBoard ai);
  ag_knows : shows seen_of (opponentBoard ai) (playerBoard st)
}.

(** The selection is in order: the cursor sits on the cell [(gridX,
    gridY)] of the board, and the selected shots are distinct cells of the
    board, at most [shots] of them, all still blank on the tracking
    grid. *)
Definition selection_ok (layout : BoardLayout) (st : GameLoopState)
    (sl : Selection) : Prop :=
  0 <= gridX sl < size st /\ 0 <= gridY sl < size st
  /\ cursorX sl = board2StartX layout + 9 + 4 * gridX sl
  /\ cursorY sl = startY layout + 3 + gridY sl
  /\ NoDup (playerShots sl)
  /\ Z.of_nat (length (playerShots sl)) <= Z.max 0 (shots st)
  /\ forall d, d ∈ playerShots sl ->
       in_board (size st) d = true
       /\ grid_get (enemyKnownBoard st) d.2 d.1 = Some " "%char.

(** What the selection phase can hand to the firing phase: distinct cells
    of the board, at most [nshots] of them. *)
Definition legal_salvo (n nshots : Z) (c : GameLoop.Command) : Prop :=
  match c with
  | GameLoop.Fire sel =>
      NoDup sel /\ Z.of_nat (length sel) <= Z.max 0 nshots
      /\ Forall (fun d => in_board n d = true) sel
  | GameLoop.Quit => True
  end.

(** Whether the socket of a network game is closed; [None] in a game
    against the scripted opponent, which has no socket. *)
Definition net_closed (st : GameLoopState) : option bool :=
  match opponent st with
  | OppNet s => Some (sock_closed s)
  | OppAI _ => None
  end.

(** The ends of a firing phase that leave [runGameLoop] by a [return]. *)
Definition phase_returns (e : PhaseEnd) : bool :=
  match e with
  | TurnDone _ => false
  | GameOver _ | ConnectionLost => true
  end.

(** The ends of [runGameLoop] reached by a [return] inside the loop. *)
Definition returns_inside (e : GameLoop.GameEnd) : bool :=
  match e with
  | GameLoop.Won _ | GameLoop.Lost_connection | GameLoop.Quitted => true
  | GameLoop.LoopExit | GameLoop.AwaitingInput => false
  end.

(** No cell of the grid shows the mark of a shot. *)
Definition no_marks (g : Grid) : Prop :=
  forall r c a, grid_get g r c = Some a ->
    a <> "x"%char /\ a <> "o"%char /\ a <> "s"%char.

(** The number of cells of a fleet. *)
Definition fleet_cells (ships : list ActiveShip) : Z :=
  foldr (fun s acc => shipLength s + acc) 0 ships.

(** * Properties *)

(** ** Vectors and grids *)

Section GridFacts.

Lemma vec_get_Some {A} (v : list A) (i : Z) (a : A) :
  vec_get v i = Some a <-> 0 <= i /\ v !! Z.to_nat i = Some a.
Proof.
  unfold vec_get. destruct (Z.ltb_spec i 0); split.
  - discriminate.
  - intros [? _]. lia.
  - auto.
  - tauto.
Qed.

Lemma vec_get_range {A} (v : list A) (i : Z) :
  0 <= i < Z.of_nat (length v) -> is_Some (vec_get v i).
Proof.
  intros Hi. unfold vec_get. destruct (Z.ltb_spec i 0); [lia|].
  apply lookup_lt_is_Some. lia.
Qed.

Lemma vec_get_bound {A} (v : list A) (i : Z) (a : A) :
  vec_get v i = Some a -> 0 <= i < Z.of_nat (length v).
Proof.
  intros [H0 H]%vec_get_Some. apply lookup_lt_Some in H. lia.
Qed.

Lemma vec_set_Some {A} (v v' : list A) (i : Z) (a : A) :
  vec_set v i a = Some v' <->
  0 <= i < Z.of_nat (length v) /\ v' = <[Z.to_nat i := a]> v.
Proof.
  unfold vec_set.
  destruct (Z.leb_spec 0 i), (Z.ltb_spec i (Z.of_nat (length v)));
    simpl; split; try discriminate; try (intros [? _]; lia).
  - intros [= <-]. split; [lia | reflexivity].
  - intros [_ ->]. reflexivity.
Qed.

Lemma vec_get_set_eq {A} (v v' : list A) (i : Z) (a : A) :
  vec_set v i a = Some v' -> vec_get v' i = Some a.
Proof.
  intros [Hi ->]%vec_set_Some. apply vec_get_Some. split; [lia|].
  apply list_lookup_insert_eq. lia.
Qed.

Lemma vec_get_set_ne {A} (v v' : list A) (i j : Z) (a : A) :
  vec_set v i a = Some v' -> i <> j -> vec_get v' j = vec_get v j.
Proof.
  intros [Hi ->]%vec_set_Some Hne. unfold vec_get.
  destruct (j <? 0) eqn:Hj; [reflexivity|].
  apply Z.ltb_ge in Hj. apply list_lookup_insert_ne. lia.
Qed.

Lemma grid_get_bound (n : Z) (g : Grid) (r c : Z) (a : ascii) :
  grid_square n g -> grid_get g r c = Some a -> 0 <= r < n /\ 0 <= c < n.
Proof.
  intros (Hn & Hlen & Hrows) H. unfold grid_get in H.
  destruct (vec_get g r) as [row|] eqn:Hr; [|discriminate]. simpl in H.
  pose proof (vec_get_bound _ _ _ Hr) as Hrb.
  pose proof (vec_get_bound _ _ _ H) as Hcb.
  apply vec_get_Some in Hr as [_ Hr].
  rewrite Forall_forall in Hrows.
  specialize (Hrows row (list_elem_of_lookup_2 _ _ _ Hr)). lia.
Qed.

Lemma grid_get_is_Some (n : Z) (g : Grid) (r c : Z) :
  grid_square n g -> 0 <= r < n -> 0 <= c < n -> is_Some (grid_get g r c).
Proof.
  intros (Hn & Hlen & Hrows) Hr Hc. unfold grid_get.
  destruct (vec_get_range g r) as [row Hrow]; [lia|]. rewrite Hrow. simpl.
  apply vec_get_range.
  apply vec_get_Some in Hrow as [_ Hrow].
  rewrite Forall_forall in Hrows.
  specialize (Hrows row (list_elem_of_lookup_2 _ _ _ Hrow)). lia.
Qed.

Lemma grid_set_is_Some (n : Z) (g : Grid) (r c : Z) (a : ascii) :
  grid_square n g -> 0 <= r < n -> 0 <= c < n ->
  is_Some (grid_set g r c a).
Proof.
  intros (Hn & Hlen & Hrows) Hr Hc. unfold grid_set.
  destruct (vec_get_range g r) as [row Hrow]; [lia|]. rewrite Hrow. simpl.
  assert (Z.of_nat (length row) = n) as Hrl.
  { apply vec_get_Some in Hrow as [_ Hrow].
    rewrite Forall_forall in Hrows.
    apply Hrows. eapply list_elem_of_lookup_2; eauto. }
  destruct (vec_set row c a) as [row'|] eqn:Hs.
  - simpl. destruct (vec_set g r row') eqn:Hs'; [eauto|].
    exfalso. unfold vec_set in Hs'.
    destruct (Z.leb_spec 0 r), (Z.ltb_spec r (Z.of_nat (length g)));
      simpl in Hs'; try discriminate; lia.
  - exfalso. unfold vec_set in Hs.
    destruct (Z.leb_spec 0 c), (Z.ltb_spec c (Z.of_nat (length row)));
      simpl in Hs; try discriminate; lia.
Qed.

Lemma grid_set_inv (g g' : Grid) (r c : Z) (a : ascii) :
  grid_set g r c a = Some g' ->
  exists row, vec_get g r = Some row
              /\ 0 <= c < Z.of_nat (length row)
              /\ g' = <[Z.to_nat r := <[Z.to_nat c := a]> row]> g.
Proof.
  unfold grid_set. intros H.
  destruct (vec_get g r) as [row|] eqn:Hr; [|discriminate]. simpl in H.
  destruct (vec_set row c a) as [row'|] eqn:Hs; [|discriminate].
  simpl in H. apply vec_set_Some in Hs as [Hc ->].
  apply vec_set_Some in H as [_ ->]. eauto.
Qed.

Lemma grid_set_square (n : Z) (g g' : Grid) (r c : Z) (a : ascii) :
  grid_square n g -> grid_set g r c a = Some g' -> grid_square n g'.
Proof.
  intros (Hn & Hlen & Hrows) (row & Hrow & Hc & ->)%grid_set_inv.
  split; [assumption|]. split.
  - rewrite length_insert. assumption.
  - apply vec_get_Some in Hrow as [_ Hrow].
    apply Forall_insert; [assumption|].
    rewrite length_insert.
    rewrite Forall_forall in Hrows. apply Hrows.
    eapply list_elem_of_lookup_2; eauto.
Qed.

Lemma grid_get_set_eq (g g' : Grid) (r c : Z) (a : ascii) :
  grid_set g r c a = Some g' -> grid_get g' r c = Some a.
Proof.
  intros (row & Hrow & Hc & ->)%grid_set_inv. unfold grid_get.
  pose proof (vec_get_bound _ _ _ Hrow) as Hr.
  assert (vec_get (<[Z.to_nat r := <[Z.to_nat c := a]> row]> g) r
          = Some (<[Z.to_nat c := a]> row)) as ->.
  { apply vec_get_Some. split; [lia|].
    apply list_lookup_insert_eq. lia. }
  simpl. apply vec_get_Some. split; [lia|].
  apply list_lookup_insert_eq. lia.
Qed.

Lemma grid_get_set_ne (g g' : Grid) (r c r' c' : Z) (a : ascii) :
  grid_set g r c a = Some g' -> (r, c) <> (r', c') ->
  grid_get g' r' c' = grid_get g r' c'.
Proof.
  intros (row & Hrow & Hc & ->)%grid_set_inv Hne. unfold grid_get.
  pose proof (vec_get_bound _ _ _ Hrow) as Hr.
  destruct (decide (r = r')) as [<-|Hrr].
  - assert (vec_get (<[Z.to_nat r := <[Z.to_nat c := a]> row]> g) r
            = Some (<[Z.to_nat c := a]> row)) as ->.
    { apply vec_get_Some. split; [lia|].
      apply list_lookup_insert_eq. lia. }
    rewrite Hrow. simpl.
    unfold vec_get. destruct (c' <? 0) eqn:Hc'; [reflexivity|].
    apply Z.ltb_ge in Hc'. apply list_lookup_insert_ne.
    intros Heq. apply Hne. f_equal. lia.
  - assert (vec_get (<[Z.to_nat r := <[Z.to_nat c := a]> row]> g) r'
            = vec_get g r') as ->; [|reflexivity].
    unfold vec_get. destruct (r' <? 0) eqn:Hr'; [reflexivity|].
    apply Z.ltb_ge in Hr'. apply list_lookup_insert_ne. lia.
Qed.

Lemma grid_get_set (g g' : Grid) (r c r' c' : Z) (a : ascii) :
  grid_set g r c a = Some g' ->
  grid_get g' r' c' =
    if decide ((r', c') = (r, c)) then Some a else grid_get g r' c'.
Proof.
  intros H. destruct (decide _) as [[= -> ->]|Hne].
  - eapply grid_get_set_eq; eauto.
  - eapply grid_get_set_ne; eauto.
Qed.

Lemma grid_make_square (n : Z) (a : ascii) :
  0 <= n -> grid_square n (grid_make n a).
Proof.
  intros Hn. unfold grid_make. split; [assumption|]. split.
  - rewrite length_replicate. lia.
  - apply Forall_replicate. rewrite length_replicate. lia.
Qed.

Lemma grid_make_get (n : Z) (a : ascii) (r c : Z) :
  0 <= r < n -> 0 <= c < n -> grid_get (grid_make n a) r c = Some a.
Proof.
  intros Hr Hc. unfold grid_get, grid_make.
  assert (vec_get (replicate (Z.to_nat n) (replicate (Z.to_nat n) a)) r
          = Some (replicate (Z.to_nat n) a)) as ->.
  { apply vec_get_Some. split; [lia|]. apply lookup_replicate_2. lia. }
  simpl. apply vec_get_Some. split; [lia|]. apply lookup_replicate_2. lia.
Qed.

End GridFacts.

(** ** Shot resolution *)

Lemma ascii_eqb_true (a b : ascii) : ascii_eqb a b = true <-> a = b.
Proof. unfold ascii_eqb. apply bool_decide_eq_true. Qed.

Lemma ascii_eqb_false (a b : ascii) : ascii_eqb a b = false <-> a <> b.
Proof. unfold ascii_eqb. apply bool_decide_eq_false. Qed.

Lemma ship_cells_vertical (s : ActiveShip) (r c : Z) :
  orientation s = 1 ->
  (r, c) ∈ ship_cells s <->
  c = startCol s /\ startRow s <= r < startRow s + shipLength s.
Proof.
  intros Ho. unfold ship_cells, Board.ship_cell. rewrite Ho. simpl.
  rewrite list_elem_of_fmap. setoid_rewrite elem_of_seqZ. split.
  - intros (i & [= -> ->] & Hi). lia.
  - intros [-> Hr]. exists (r - startRow s). split; [f_equal|]; lia.
Qed.

Lemma ship_cells_horizontal (s : ActiveShip) (r c : Z) :
  orientation s <> 1 ->
  (r, c) ∈ ship_cells s <->
  r = startRow s /\ startCol s - shipLength s < c <= startCol s.
Proof.
  intros Ho. unfold ship_cells, Board.ship_cell.
  destruct (Z.eqb_spec (orientation s) 1) as [|_]; [contradiction|].
  rewrite list_elem_of_fmap. setoid_rewrite elem_of_seqZ. split.
  - intros (i & [= -> ->] & Hi). lia.
  - intros [-> Hc]. exists (startCol s - c). split; [f_equal|]; lia.
Qed.

(** The membership test of [receiveShot] is membership in the ship's cells. *)
Lemma isHit_cells (s : ActiveShip) (x y : Z) :
  Board.isHit s x y = true <-> (y, x) ∈ ship_cells s.
Proof.
  unfold Board.isHit.
  destruct (Z.eqb_spec (orientation s) 1) as [Ho|Ho].
  - rewrite ship_cells_vertical by assumption.
    destruct (Z.eqb_spec (shipLength s) 1) as [Hl|Hl];
      rewrite ?andb_true_iff, ?Z.eqb_eq, ?Z.leb_le, ?Z.ltb_lt; lia.
  - rewrite ship_cells_horizontal by assumption.
    destruct (Z.eqb_spec (shipLength s) 1) as [Hl|Hl];
      rewrite ?andb_true_iff, ?Z.eqb_eq, ?Z.leb_le, ?Z.ltb_lt; lia.
Qed.

Global Instance is_target_dec t x y s : Decision (is_target t x y s).
Proof. unfold is_target. apply _. Defined.

(** The ship loop stops at the first target and runs the hit code on it, or
    falls through when the list holds no target. *)
Lemma receiveShot_loop_spec (b : BoardData) (x y : Z) (t : ascii)
    (ships : list ActiveShip) (i : nat) :
  (exists j s, ships !! j = Some s /\ is_target t x y s
     /\ (forall k s', (k < j)%nat -> ships !! k = Some s' ->
                      ~ is_target t x y s')
     /\ Board.receiveShot_loop b x y t i ships
        = Board.receiveShot_hit b x y (i + j) s)
  \/ (Forall (fun s => ~ is_target t x y s) ships
      /\ Board.receiveShot_loop b x y t i ships
         = Board.receiveShot_fallthrough b x y).
Proof.
  revert i. induction ships as [|s rest IH]; intros i; simpl.
  - right. split; [constructor | reflexivity].
  - destruct (decide (is_target t x y s)) as [Ht|Ht].
    + left. exists 0%nat, s. destruct Ht as (Hs & Hsym & Hh).
      rewrite Hs. subst t.
      assert (ascii_eqb (symbol s) (symbol s) = true) as ->
        by (apply ascii_eqb_true; reflexivity).
      simpl. rewrite Hh, Nat.add_0_r.
      repeat split; auto. intros k s' Hk. lia.
    + assert (Board.receiveShot_loop b x y t i (s :: rest)
              = Board.receiveShot_loop b x y t (S i) rest) as Hskip.
      { simpl. destruct (isSunk s) eqn:Hs; [reflexivity|].
        destruct (ascii_eqb (symbol s) t) eqn:He; [|reflexivity].
        simpl. destruct (Board.isHit s x y) eqn:Hh; [|reflexivity].
        exfalso. apply Ht. apply ascii_eqb_true in He. repeat split; auto. }
      simpl in Hskip. rewrite Hskip.
      destruct (IH (S i)) as [(j & s' & Hj & Ht' & Hfirst & Heq)|[Hall Heq]].
      * left. exists (S j), s'. repeat split; try apply Ht'; auto.
        -- intros k s'' Hk Hlk. destruct k as [|k]; simpl in Hlk.
           ++ injection Hlk as <-. assumption.
           ++ eapply Hfirst; [|eassumption]. lia.
        -- rewrite Heq. f_equal. lia.
      * right. split; [constructor; assumption | assumption].
Qed.

(** A loop that writes [a] into the cells [cell_of j], [j] in [js], of a
    square grid writes exactly those cells. *)
Lemma foldl_grid_set (n : Z) (a : ascii) (cell_of : Z -> Z * Z)
    (step : option Grid -> Z -> option Grid) (js : list Z) (g : Grid) :
  grid_square n g ->
  (forall j, step None j = None) ->
  (forall g0 j, j ∈ js ->
     step (Some g0) j = grid_set g0 (cell_of j).1 (cell_of j).2 a) ->
  (forall j, j ∈ js -> 0 <= (cell_of j).1 < n /\ 0 <= (cell_of j).2 < n) ->
  exists g', foldl step (Some g) js = Some g' /\ grid_square n g' /\
    forall r c, grid_get g' r c =
      if decide ((r, c) ∈ cell_of <$> js) then Some a else grid_get g r c.
Proof.
  intros Hsq Hnone Hstep Hin. revert g Hsq.
  induction js as [|j js IH]; intros g Hsq; cbn [foldl].
  - exists g. split; [reflexivity|]. split; [assumption|]. intros r c.
    destruct (decide _) as [H|_]; [|reflexivity]. inversion H.
  - rewrite Hstep by (left).
    destruct (Hin j) as [Hr Hc]; [left|].
    destruct (grid_set_is_Some n g (cell_of j).1 (cell_of j).2 a)
      as [g1 Hg1]; auto.
    rewrite Hg1.
    destruct (IH) with (g := g1) as (g' & Hfold & Hsq' & Hget).
    + intros g0 j' Hj'. apply Hstep. right. assumption.
    + intros j' Hj'. apply Hin. right. assumption.
    + eapply grid_set_square; eauto.
    + exists g'. split; [assumption|]. split; [assumption|].
      intros r c. rewrite Hget.
      rewrite (grid_get_set _ _ _ _ r c _ Hg1).
      rewrite fmap_cons.
      destruct (cell_of j) as [rj cj] eqn:Hcj. cbn [fst snd].
      destruct (decide ((r, c) ∈ cell_of <$> js)) as [Hm|Hm];
        destruct (decide ((r, c) = (rj, cj))) as [He|He];
        destruct (decide ((r, c) ∈ (rj, cj) :: (cell_of <$> js)))
          as [Hm'|Hm']; try reflexivity.
      * exfalso. apply Hm'. right. assumption.
      * exfalso. apply Hm'. right. assumption.
      * exfalso. apply Hm'. rewrite He. left.
      * exfalso. apply elem_of_cons in Hm' as [?|?]; contradiction.
Qed.

Lemma ship_char_not_mark (c : ascii) :
  is_ship_char c = true ->
  c <> "w"%char /\ c <> "x"%char /\ c <> "o"%char /\ c <> "s"%char.
Proof.
  intros H. repeat split; intros ->; vm_compute in H; discriminate.
Qed.

Lemma mark_sunk_spec (n : Z) (s : ActiveShip) (g : Grid) :
  grid_square n g -> ship_inside n s ->
  exists g', Board.mark_sunk n s g = Some g' /\ grid_square n g' /\
    forall r c, grid_get g' r c =
      if decide ((r, c) ∈ ship_cells s) then Some "s"%char
      else grid_get g r c.
Proof.
  intros Hsq Hin. unfold Board.mark_sunk, ship_cells.
  apply foldl_grid_set with (n := n); [assumption| | |].
  - intros j. reflexivity.
  - intros g0 j Hj. simpl.
    destruct (Board.ship_cell s j) as [r c] eqn:Hc.
    destruct (Hin r c) as [Hr Hcc].
    { rewrite <- Hc. apply list_elem_of_fmap. eauto. }
    simpl.
    destruct (Z.leb_spec 0 r), (Z.ltb_spec r n), (Z.leb_spec 0 c),
      (Z.ltb_spec c n); try lia. reflexivity.
  - intros j Hj. destruct (Board.ship_cell s j) as [r c] eqn:Hc.
    cbn [fst snd]. apply Hin. rewrite <- Hc. apply list_elem_of_fmap. eauto.
Qed.

(** The four ways [receiveShot] can go on a board whose grid is square. *)
Inductive shot_case (b : BoardData) (x y : Z) : Prop :=
| case_ignored :
    (x < 0 \/ boardSize b <= x \/ y < 0 \/ boardSize b <= y
     \/ exists c, grid_get (boardArray b) y x = Some c
                  /\ (c = "x" \/ c = "o" \/ c = "s")%char) ->
    Board.receiveShot b x y = Some (0, b) -> shot_case b x y
| case_water g :
    grid_get (boardArray b) y x = Some "w"%char ->
    grid_set (boardArray b) y x "o" = Some g ->
    Board.receiveShot b x y
    = Some (0, set_missCount (missCount b + 1) (set_boardArray g b)) ->
    shot_case b x y
| case_ship c i s :
    grid_get (boardArray b) y x = Some c -> is_ship_char c = true ->
    myShips b !! i = Some s -> is_target c x y s ->
    (forall k s', (k < i)%nat -> myShips b !! k = Some s' ->
                  ~ is_target c x y s') ->
    Board.receiveShot b x y = Board.receiveShot_hit b x y i s ->
    shot_case b x y
| case_fallthrough c g :
    grid_get (boardArray b) y x = Some c ->
    c <> "w"%char -> c <> "x"%char -> c <> "o"%char -> c <> "s"%char ->
    Forall (fun s => ~ is_target c x y s) (myShips b) ->
    grid_set (boardArray b) y x "x" = Some g ->
    Board.receiveShot b x y = Some (1, set_boardArray g b) ->
    shot_case b x y.

Lemma receiveShot_cases (b : BoardData) (x y : Z) :
  grid_square (boardSize b) (boardArray b) ->
  Forall (fun s => is_ship_char (symbol s) = true) (myShips b) ->
  shot_case b x y.
Proof.
  intros Hsq Hsyms. unfold Board.receiveShot.
  destruct (Z.ltb_spec x 0); [apply case_ignored; [lia|];
    unfold Board.receiveShot; destruct (Z.ltb_spec x 0); [reflexivity|lia]|].
  destruct (Z.leb_spec (boardSize b) x).
  { apply case_ignored; [lia|]. unfold Board.receiveShot.
    destruct (Z.ltb_spec x 0); [reflexivity|].
    destruct (Z.leb_spec (boardSize b) x); [reflexivity|lia]. }
  destruct (Z.ltb_spec y 0).
  { apply case_ignored; [lia|]. unfold Board.receiveShot.
    destruct (Z.ltb_spec x 0); [reflexivity|].
    destruct (Z.leb_spec (boardSize b) x); [reflexivity|].
    destruct (Z.ltb_spec y 0); [reflexivity|lia]. }
  destruct (Z.leb_spec (boardSize b) y).
  { apply case_ignored; [lia|]. unfold Board.receiveShot.
    destruct (Z.ltb_spec x 0); [reflexivity|].
    destruct (Z.leb_spec (boardSize b) x); [reflexivity|].
    destruct (Z.ltb_spec y 0); [reflexivity|].
    destruct (Z.leb_spec (boardSize b) y); [reflexivity|lia]. }
  assert (Board.receiveShot b x y =
          cell ← grid_get (boardArray b) y x;
          if ascii_eqb cell "x" || ascii_eqb cell "o" || ascii_eqb cell "s"
          then Some (0, b)
          else if ascii_eqb cell "w" then
            g ← grid_set (boardArray b) y x "o";
            Some (0, set_missCount (missCount b + 1) (set_boardArray g b))
          else if is_ship_char cell then
            Board.receiveShot_loop b x y cell 0 (myShips b)
          else Board.receiveShot_fallthrough b x y) as Hrs.
  { unfold Board.receiveShot.
    destruct (Z.ltb_spec x 0); [lia|].
    destruct (Z.leb_spec (boardSize b) x); [lia|].
    destruct (Z.ltb_spec y 0); [lia|].
    destruct (Z.leb_spec (boardSize b) y); [lia|]. reflexivity. }
  destruct (grid_get_is_Some (boardSize b) (boardArray b) y x)
    as [cell Hcell]; [assumption|lia|lia|].
  rewrite Hcell in Hrs. simpl in Hrs.
  destruct (ascii_eqb cell "x") eqn:Hx.
  { apply ascii_eqb_true in Hx. apply case_ignored; [|exact Hrs].
    do 4 right. eauto. }
  destruct (ascii_eqb cell "o") eqn:Ho.
  { apply ascii_eqb_true in Ho. apply case_ignored; [|exact Hrs].
    do 4 right. eauto. }
  destruct (ascii_eqb cell "s") eqn:Hs.
  { apply ascii_eqb_true in Hs. apply case_ignored; [|exact Hrs].
    do 4 right. eauto. }
  simpl in Hrs.
  apply ascii_eqb_false in Hx, Ho, Hs.
  destruct (ascii_eqb cell "w") eqn:Hw.
  { apply ascii_eqb_true in Hw. subst cell.
    destruct (grid_set_is_Some (boardSize b) (boardArray b) y x "o")
      as [g Hg]; [assumption|lia|lia|].
    rewrite Hg in Hrs. simpl in Hrs. eapply case_water; eauto. }
  apply ascii_eqb_false in Hw.
  destruct (grid_set_is_Some (boardSize b) (boardArray b) y x "x")
    as [g Hg]; [assumption|lia|lia|].
  assert (Board.receiveShot_fallthrough b x y = Some (1, set_boardArray g b))
    as Hft.
  { unfold Board.receiveShot_fallthrough. rewrite Hg. reflexivity. }
  destruct (is_ship_char cell) eqn:Hsc.
  - destruct (receiveShot_loop_spec b x y cell (myShips b) 0)
      as [(j & s & Hj & Ht & Hfirst & Heq)|[Hall Heq]].
    + eapply case_ship; eauto. rewrite Hrs, Heq. reflexivity.
    + eapply case_fallthrough; eauto. rewrite Hrs, Heq. assumption.
  - eapply case_fallthrough; eauto.
    + rewrite Forall_forall in Hsyms.
      apply Forall_forall. intros s Hs' (_ & Hsym & _).
      specialize (Hsyms s Hs'). congruence.
    + rewrite Hrs. assumption.
Qed.

(** *** What a shot does to the ship list *)

Lemma receiveShot_hit_ships (b : BoardData) (x y : Z) (i : nat)
    (s : ActiveShip) (r : Z) (b' : BoardData) :
  Board.receiveShot_hit b x y i s = Some (r, b') ->
  myShips b' = <[i := hit_once s]> (myShips b).
Proof.
  unfold Board.receiveShot_hit, hit_once.
  destruct (shipLength s <=? hitCount s + 1).
  - destruct (Board.mark_sunk _ _ _); simpl; [|discriminate].
    intros [= _ <-]. reflexivity.
  - destruct (grid_set _ _ _ _); simpl; [|discriminate].
    intros [= _ <-]. reflexivity.
Qed.

Lemma receiveShot_ships (b : BoardData) (x y r : Z) (b' : BoardData) :
  Board.receiveShot b x y = Some (r, b') ->
  myShips b' = myShips b
  \/ exists i s, myShips b !! i = Some s /\ isSunk s = false
                 /\ myShips b' = <[i := hit_once s]> (myShips b).
Proof.
  unfold Board.receiveShot.
  destruct (_ || _); [intros [= _ <-]; auto|].
  destruct (grid_get _ _ _) as [cell|]; simpl; [|discriminate].
  destruct (_ || _); [intros [= _ <-]; auto|].
  destruct (ascii_eqb cell "w").
  { destruct (grid_set _ _ _ _); simpl; [|discriminate].
    intros [= _ <-]. auto. }
  assert (Board.receiveShot_fallthrough b x y = Some (r, b') ->
          myShips b' = myShips b) as Hft.
  { unfold Board.receiveShot_fallthrough.
    destruct (grid_set _ _ _ _); simpl; [|discriminate].
    intros [= _ <-]. reflexivity. }
  destruct (is_ship_char cell); [|auto].
  destruct (receiveShot_loop_spec b x y cell (myShips b) 0)
    as [(j & s & Hj & Ht & _ & ->)|[_ ->]]; [|auto].
  intros H. right. exists j, s. split; [assumption|].
  split; [apply Ht|]. eapply receiveShot_hit_ships; eauto.
Qed.

Lemma hit_once_ok (s : ActiveShip) :
  ship_ok s -> isSunk s = false -> ship_ok (hit_once s).
Proof.
  intros [Hb Hs] Hf. unfold ship_ok, hit_once. simpl.
  assert (hitCount s <> shipLength s) as Hne.
  { intros He. apply Hs in He. congruence. }
  split; [lia|]. rewrite Z.leb_le. lia.
Qed.

Lemma hit_once_later (s : ActiveShip) : ship_later s (hit_once s).
Proof. unfold ship_later, hit_once. simpl. repeat split; lia. Qed.

Lemma ship_later_refl (s : ActiveShip) : ship_later s s.
Proof. unfold ship_later. repeat split; lia. Qed.

Lemma receiveShot_ships_ok (b : BoardData) (x y r : Z) (b' : BoardData) :
  Board.receiveShot b x y = Some (r, b') ->
  Forall ship_ok (myShips b) -> Forall ship_ok (myShips b').
Proof.
  intros [->|(i & s & Hi & Hs & ->)]%receiveShot_ships Hok; [assumption|].
  apply Forall_insert; [assumption|].
  apply hit_once_ok; [|assumption].
  rewrite Forall_forall in Hok. apply Hok.
  eapply list_elem_of_lookup_2; eauto.
Qed.

Lemma receiveShot_ships_later (b : BoardData) (x y r : Z) (b' : BoardData) :
  Board.receiveShot b x y = Some (r, b') ->
  Forall2 ship_later (myShips b) (myShips b').
Proof.
  intros [->|(i & s & Hi & Hs & ->)]%receiveShot_ships.
  - apply Forall_Forall2_diag, Forall_forall.
    intros s _. apply ship_later_refl.
  - apply Forall2_same_length_lookup_2.
    + rewrite length_insert. reflexivity.
    + intros k s1 s2 H1 H2.
      destruct (decide (i = k)) as [->|Hne].
      * rewrite list_lookup_insert_eq in H2
          by (eapply lookup_lt_Some; eauto).
        injection H2 as <-. rewrite Hi in H1. injection H1 as <-.
        apply hit_once_later.
      * rewrite list_lookup_insert_ne in H2 by assumption.
        rewrite H1 in H2. injection H2 as <-. apply ship_later_refl.
Qed.

Lemma addShip_ships (b : BoardData) (o p len : Z) (sym : ascii)
    (b' : BoardData) :
  Board.addShip b o p len sym = Some b' ->
  myShips b' =
    myShips b ++ [mkShip (Z.of_nat (length (myShips b))) sym len 0 false
                         (Z.quot p (boardSize b)) (Z.rem p (boardSize b)) o]
  /\ boardSize b' = boardSize b.
Proof.
  unfold Board.addShip.
  destruct (foldl _ _ _); simpl; [|discriminate].
  intros [= <-]. split; reflexivity.
Qed.

Lemma placeShip_ships (b : BoardData) (gx gy o len : Z) (sym : ascii)
    (r : bool) (b' : BoardData) :
  GameLogic.placeShip b gx gy o len sym = Some (r, b') ->
  myShips b' = myShips b /\ boardSize b' = boardSize b.
Proof.
  unfold GameLogic.placeShip.
  destruct (GameLogic.isValidShipPlacement _ _ _ _ _) as [[|]|];
    simpl; [| |discriminate].
  - destruct (foldl _ _ _); simpl; [|discriminate].
    intros [= _ <-]. split; reflexivity.
  - intros [= _ <-]. split; reflexivity.
Qed.

Lemma reachable_ships_ok (b : BoardData) :
  reachable b -> Forall ship_ok (myShips b).
Proof.
  induction 1 as [n Hn|b o p len sym b' _ IH Hlen Hadd
                  |b gx gy o len sym r b' _ IH Hpl|b x y r b' _ IH Hshot].
  - constructor.
  - apply addShip_ships in Hadd as [-> _].
    apply Forall_app. split; [assumption|].
    constructor; [|constructor]. unfold ship_ok. simpl.
    split; [lia|]. split; [discriminate|lia].
  - apply placeShip_ships in Hpl as [-> _]. assumption.
  - eapply receiveShot_ships_ok; eauto.
Qed.

(** *** Shots never leave the grid *)

Lemma foldl_option_defined {A B} (P : A -> Prop)
    (step : option A -> B -> option A) (js : list B) (a : A) :
  (forall a0 j, j ∈ js -> P a0 ->
     exists a1, step (Some a0) j = Some a1 /\ P a1) ->
  P a -> exists a', foldl step (Some a) js = Some a' /\ P a'.
Proof.
  revert a. induction js as [|j js IH]; intros a Hstep Ha; simpl.
  - eauto.
  - destruct (Hstep a j) as (a1 & -> & Ha1); [left|assumption|].
    apply IH; [|assumption].
    intros a0 j' Hj'. apply Hstep. right. assumption.
Qed.

Lemma foldl_option_inv {A B} (P : A -> Prop)
    (step : option A -> B -> option A) (js : list B) (a a' : A) :
  (forall j, step None j = None) ->
  (forall a0 j a1, step (Some a0) j = Some a1 -> P a0 -> P a1) ->
  foldl step (Some a) js = Some a' -> P a -> P a'.
Proof.
  intros Hnone Hstep. revert a. induction js as [|j js IH]; intros a; simpl.
  - intros [= <-]. auto.
  - destruct (step (Some a) j) as [a1|] eqn:Hs.
    + intros Hf Ha. eapply IH; eauto.
    + assert (foldl step None js = None) as ->; [|discriminate].
      clear -Hnone. induction js as [|j' js IH]; simpl; [reflexivity|].
      rewrite Hnone. assumption.
Qed.

Lemma mark_sunk_defined (n : Z) (s : ActiveShip) (g : Grid) :
  grid_square n g ->
  exists g', Board.mark_sunk n s g = Some g' /\ grid_square n g'.
Proof.
  intros Hsq. unfold Board.mark_sunk.
  apply (foldl_option_defined (grid_square n)); [|assumption].
  intros g0 j _ Hg0. simpl. destruct (Board.ship_cell s j) as [r c].
  destruct (Z.leb_spec 0 r), (Z.ltb_spec r n), (Z.leb_spec 0 c),
    (Z.ltb_spec c n); simpl; eauto.
  destruct (grid_set_is_Some n g0 r c "s") as [g1 Hg1]; [assumption|lia..|].
  exists g1. split; [assumption|]. eapply grid_set_square; eauto.
Qed.

Lemma receiveShot_defined (b : BoardData) (x y : Z) :
  grid_square (boardSize b) (boardArray b) ->
  exists r b', Board.receiveShot b x y = Some (r, b')
    /\ grid_square (boardSize b') (boardArray b')
    /\ boardSize b' = boardSize b.
Proof.
  intros Hsq. unfold Board.receiveShot.
  destruct (Z.ltb_spec x 0); simpl; [eauto|].
  destruct (Z.leb_spec (boardSize b) x); simpl; [eauto|].
  destruct (Z.ltb_spec y 0); simpl; [eauto|].
  destruct (Z.leb_spec (boardSize b) y); simpl; [eauto|].
  destruct (grid_get_is_Some (boardSize b) (boardArray b) y x)
    as [cell ->]; [assumption|lia|lia|]. simpl.
  destruct (_ || _); [eauto|].
  destruct (grid_set_is_Some (boardSize b) (boardArray b) y x "o")
    as [go Hgo]; [assumption|lia|lia|].
  destruct (grid_set_is_Some (boardSize b) (boardArray b) y x "x")
    as [gx Hgx]; [assumption|lia|lia|].
  destruct (ascii_eqb cell "w").
  { rewrite Hgo. simpl. eexists _, _. split; [reflexivity|]. simpl.
    split; [|reflexivity]. eapply grid_set_square; eauto. }
  assert (exists r b', Board.receiveShot_fallthrough b x y = Some (r, b')
            /\ grid_square (boardSize b') (boardArray b')
            /\ boardSize b' = boardSize b) as Hft.
  { unfold Board.receiveShot_fallthrough. rewrite Hgx. simpl.
    eexists _, _. split; [reflexivity|]. simpl.
    split; [|reflexivity]. eapply grid_set_square; eauto. }
  destruct (is_ship_char cell); [|assumption].
  destruct (receiveShot_loop_spec b x y cell (myShips b) 0)
    as [(j & s & Hj & Ht & _ & ->)|[_ ->]]; [|assumption].
  unfold Board.receiveShot_hit.
  destruct (shipLength s <=? hitCount s + 1).
  - destruct (mark_sunk_defined (boardSize b) s (boardArray b))
      as (g' & -> & Hg'); [assumption|]. simpl.
    eexists _, _. split; [reflexivity|]. simpl. auto.
  - rewrite Hgx. simpl. eexists _, _. split; [reflexivity|]. simpl.
    split; [|reflexivity]. eapply grid_set_square; eauto.
Qed.

Lemma reachable_square (b : BoardData) :
  reachable b -> grid_square (boardSize b) (boardArray b).
Proof.
  induction 1 as [n Hn|b o p len sym b' _ IH Hlen Hadd
                  |b gx gy o len sym r b' _ IH Hpl|b x y r b' _ IH Hshot].
  - apply grid_make_square. assumption.
  - unfold Board.addShip in Hadd.
    destruct (foldl _ _ _) as [g|] eqn:Hf; simpl in Hadd; [|discriminate].
    injection Hadd as <-. simpl.
    revert Hf IH. apply foldl_option_inv; [reflexivity|].
    intros g0 j g1 Hs Hg0. simpl in Hs.
    destruct (o =? 1); eapply grid_set_square; eauto.
  - unfold GameLogic.placeShip in Hpl.
    destruct (GameLogic.isValidShipPlacement _ _ _ _ _) as [[|]|];
      simpl in Hpl; [| |discriminate].
    + destruct (foldl _ _ _) as [g|] eqn:Hf; simpl in Hpl; [|discriminate].
      revert Hpl; intros [= _ <-]. simpl.
      revert Hf IH. apply foldl_option_inv; [reflexivity|].
      intros g0 j g1 Hs Hg0. simpl in Hs.
      destruct (o =? 0); eapply grid_set_square; eauto.
    + revert Hpl; intros [= _ <-]. assumption.
  - destruct (receiveShot_defined b x y IH) as (r' & b'' & Heq & Hsq & _).
    rewrite Hshot in Heq. revert Heq; intros [= _ <-]. assumption.
Qed.

(** ** C2 and C3 *)

(** C2. A shot outside the board, or at a cell already showing a miss
    (['o']), a hit (['x']) or a sunk ship (['s']), returns 0 and leaves the
    whole board (grid, ships, status map, cell map, size, miss counter)
    as it was. *)
Theorem receiveShot_ignored (b : BoardData) (x y : Z) :
  (x < 0 \/ boardSize b <= x \/ y < 0 \/ boardSize b <= y
   \/ exists c, grid_get (boardArray b) y x = Some c
                /\ (c = "o" \/ c = "x" \/ c = "s")%char) ->
  Board.receiveShot b x y = Some (0, b).
Proof.
  intros H. unfold Board.receiveShot.
  destruct (Z.ltb_spec x 0); simpl; [reflexivity|].
  destruct (Z.leb_spec (boardSize b) x); simpl; [reflexivity|].
  destruct (Z.ltb_spec y 0); simpl; [reflexivity|].
  destruct (Z.leb_spec (boardSize b) y); simpl; [reflexivity|].
  destruct H as [Hb|[Hb|[Hb|[Hb|(c & Hg & Hc)]]]]; try lia.
  rewrite Hg. simpl.
  destruct Hc as [-> | [-> | ->]]; reflexivity.
Qed.

Lemma receiveShot_ignored_witness :
  Board.receiveShot scenarioA_hit_board (-1) 10 = Some (0, scenarioA_hit_board)
  /\ Board.receiveShot scenarioA_hit_board 5 5 = Some (0, scenarioA_hit_board)
  /\ Board.receiveShot scenarioA_hit_board 0 0 = Some (0, scenarioA_hit_board).
Proof.
  split; [|split].
  - apply (receiveShot_ignored scenarioA_hit_board (-1) 10). left. lia.
  - apply (receiveShot_ignored scenarioA_hit_board 5 5).
    do 4 right. exists "x"%char. split; [vm_compute; reflexivity|tauto].
  - apply (receiveShot_ignored scenarioA_hit_board 0 0).
    do 4 right. exists "o"%char. split; [vm_compute; reflexivity|tauto].
Defined.

(** C3. On every board reachable from an empty one by [addShip],
    [placeShip] and [receiveShot], every ship has
    [0 <= hitCount <= length] and is sunk exactly when
    [hitCount = length]; a further shot is always resolved and leaves every
    ship in place with a hit count that is not smaller. *)
Theorem hit_count_invariant (b : BoardData) :
  reachable b ->
  Forall ship_ok (myShips b)
  /\ forall x y, exists r b',
       Board.receiveShot b x y = Some (r, b')
       /\ Forall2 ship_later (myShips b) (myShips b').
Proof.
  intros Hr. split; [apply reachable_ships_ok; assumption|].
  intros x y.
  destruct (receiveShot_defined b x y (reachable_square b Hr))
    as (r & b' & Heq & _).
  exists r, b'. split; [assumption|].
  eapply receiveShot_ships_later; eauto.
Qed.

Lemma scenarioA_hit_board_reachable : reachable scenarioA_hit_board.
Proof.
  eapply reach_receiveShot with (x := 5) (y := 5) (r := 1).
  - eapply reach_receiveShot with (x := 0) (y := 0) (r := 0).
    + eapply reach_addShip with (b := Board.create 10) (orient := 1)
        (startPos := 55) (len := 3) (sym := "S"%char).
      * apply reach_create. lia.
      * lia.
      * vm_compute. reflexivity.
    + vm_compute. reflexivity.
  - vm_compute. reflexivity.
Qed.

Lemma hit_count_invariant_witness :
  Forall ship_ok (myShips scenarioA_hit_board)
  /\ forall x y, exists r b',
       Board.receiveShot scenarioA_hit_board x y = Some (r, b')
       /\ Forall2 ship_later (myShips scenarioA_hit_board) (myShips b').
Proof.
  apply (hit_count_invariant scenarioA_hit_board).
  apply scenarioA_hit_board_reachable.
Defined.

(** *** A shot that lands on a ship *)

Lemma ship_later_cells (s s' : ActiveShip) :
  ship_later s s' -> ship_cells s' = ship_cells s.
Proof.
  intros (_ & _ & Hl & Hr & Hc & Ho & _).
  unfold ship_cells, Board.ship_cell. rewrite Hl, Hr, Hc, Ho. reflexivity.
Qed.

(** What the hit code does to the board, for a ship that is afloat, inside
    the board and lying over [(x, y)]. *)
Lemma receiveShot_hit_spec (b : BoardData) (x y : Z) (i : nat)
    (s : ActiveShip) :
  grid_square (boardSize b) (boardArray b) ->
  ship_inside (boardSize b) s -> (y, x) ∈ ship_cells s ->
  exists b',
    Board.receiveShot_hit b x y i s
    = Some (if shipLength s <=? hitCount s + 1 then 2 else 1, b')
    /\ myShips b' = <[i := hit_once s]> (myShips b)
    /\ boardSize b' = boardSize b /\ missCount b' = missCount b
    /\ grid_square (boardSize b') (boardArray b')
    /\ forall r c, grid_get (boardArray b') r c =
         if shipLength s <=? hitCount s + 1
         then (if decide ((r, c) ∈ ship_cells s) then Some "s"%char
               else grid_get (boardArray b) r c)
         else (if decide ((r, c) = (y, x)) then Some "x"%char
               else grid_get (boardArray b) r c).
Proof.
  intros Hsq Hin Hxy. unfold Board.receiveShot_hit, hit_once.
  destruct (shipLength s <=? hitCount s + 1).
  - destruct (mark_sunk_spec (boardSize b) s (boardArray b))
      as (g' & -> & Hsq' & Hget); [assumption..|]. simpl.
    eexists. split; [reflexivity|]. simpl. auto.
  - destruct (Hin y x Hxy) as [Hy Hx].
    destruct (grid_set_is_Some (boardSize b) (boardArray b) y x "x")
      as [g' Hg']; [assumption..|].
    rewrite Hg'. simpl. eexists. split; [reflexivity|]. simpl.
    repeat split; auto.
    + destruct Hsq; assumption.
    + eapply grid_set_square in Hg'; [|exact Hsq]. apply Hg'.
    + eapply grid_set_square in Hg'; [|exact Hsq]. apply Hg'.
    + intros r c. apply (grid_get_set _ _ _ _ _ _ _ Hg').
Qed.

(** On a consistent board, the cell of an afloat ship that still shows the
    ship's symbol makes that very ship the target of the loop. *)
Lemma target_is_owner (b : BoardData) (x y : Z) (i j : nat)
    (s t : ActiveShip) :
  board_ok b -> myShips b !! i = Some s -> (y, x) ∈ ship_cells s ->
  myShips b !! j = Some t -> Board.isHit t x y = true -> i = j.
Proof.
  intros Hok Hi Hs Hj Ht. destruct (decide (i = j)) as [|Hne]; [assumption|].
  exfalso. apply isHit_cells in Ht.
  exact (ok_disjoint b Hok i j s t Hi Hj Hne _ Hs Ht).
Qed.

Lemma marked_symbol_afloat (g : Grid) (s : ActiveShip) (r c : Z) :
  ship_marked g s -> is_ship_char (symbol s) = true ->
  (r, c) ∈ ship_cells s -> grid_get g r c = Some (symbol s) ->
  isSunk s = false.
Proof.
  intros Hm Hsym Hc Hg.
  destruct (ship_char_not_mark _ Hsym) as (_ & Hx & _ & Hs).
  destruct (Hm r c Hc) as [H|[H _]]; [|assumption].
  rewrite Hg in H. destruct (isSunk s); [|reflexivity]. congruence.
Qed.

(** The general part of C1. *)
Lemma receiveShot_on_ship (b : BoardData) (x y : Z) (s : ActiveShip) :
  board_ok b -> s ∈ myShips b -> (y, x) ∈ ship_cells s ->
  grid_get (boardArray b) y x = Some (symbol s) ->
  exists i b',
    myShips b !! i = Some s
    /\ Board.receiveShot b x y
       = Some (if bool_decide (hitCount s + 1 = shipLength s) then 2 else 1,
               b')
    /\ myShips b'
       = <[i := set_hit (hitCount s + 1)
                        (bool_decide (hitCount s + 1 = shipLength s)) s]>
           (myShips b)
    /\ (forall r c, grid_get (boardArray b') r c =
          if bool_decide (hitCount s + 1 = shipLength s)
          then (if decide ((r, c) ∈ ship_cells s) then Some "s"%char
                else grid_get (boardArray b) r c)
          else (if decide ((r, c) = (y, x)) then Some "x"%char
                else grid_get (boardArray b) r c))
    /\ boardSize b' = boardSize b /\ missCount b' = missCount b.
Proof.
  intros Hok Hs Hxy Hcell.
  apply list_elem_of_lookup in Hs as [i Hi].
  pose proof (ok_grid b Hok) as Hsq.
  pose proof (ok_symbols b Hok) as Hsyms.
  pose proof (ok_marked b Hok) as Hmarks.
  pose proof (ok_inside b Hok) as Hins.
  pose proof (ok_hits b Hok) as Hhits.
  rewrite Forall_forall in Hsyms, Hmarks, Hins, Hhits.
  assert (s ∈ myShips b) as Hs by (eapply list_elem_of_lookup_2; eauto).
  assert (isSunk s = false) as Hafloat.
  { eapply marked_symbol_afloat; eauto. }
  destruct (ship_char_not_mark _ (Hsyms s Hs)) as (Hw & Hx & Ho & Hss).
  assert (is_target (symbol s) x y s) as Htarget.
  { repeat split; auto. apply isHit_cells. assumption. }
  assert ((shipLength s <=? hitCount s + 1)
          = bool_decide (hitCount s + 1 = shipLength s)) as Hsunk.
  { destruct (Hhits s Hs) as [Hb Hiff].
    assert (hitCount s <> shipLength s).
    { intros He. apply Hiff in He. congruence. }
    destruct (Z.leb_spec (shipLength s) (hitCount s + 1));
      symmetry; [apply bool_decide_eq_true | apply bool_decide_eq_false];
      lia. }
  destruct (receiveShot_cases b x y Hsq (ok_symbols b Hok))
    as [Hig Heq|g Hg _ _|c j t Hg Hc Hj Ht Hfirst Heq
        |c g Hg _ _ _ _ Hall _ _].
  - exfalso.
    destruct (Hins s Hs y x Hxy) as [Hy Hx'].
    destruct Hig as [Hb|[Hb|[Hb|[Hb|(c & Hg & Hc)]]]]; try lia.
    rewrite Hcell in Hg. injection Hg as <-.
    destruct Hc as [Hc|[Hc|Hc]]; congruence.
  - exfalso. congruence.
  - rewrite Hcell in Hg. injection Hg as <-.
    assert (i = j) as <-.
    { eapply target_is_owner; eauto. apply Ht. }
    rewrite Hi in Hj. injection Hj as <-.
    destruct (receiveShot_hit_spec b x y i s Hsq (Hins s Hs) Hxy)
      as (b' & Hhit & Hships & Hsize & Hmiss & _ & Hget).
    exists i, b'. rewrite Heq, Hhit, Hships. unfold hit_once.
    rewrite Hsunk in *. auto 10.
  - exfalso. rewrite Hcell in Hg. injection Hg as <-.
    rewrite Forall_forall in Hall. exact (Hall s Hs Htarget).
Qed.

(** ** Consistent boards *)

Lemma marked_not_water (g : Grid) (s : ActiveShip) (r c : Z) :
  ship_marked g s -> is_ship_char (symbol s) = true ->
  (r, c) ∈ ship_cells s -> grid_get g r c <> Some "w"%char.
Proof.
  intros Hm Hsym Hc Hw.
  destruct (ship_char_not_mark _ Hsym) as (Hnw & _).
  destruct (Hm r c Hc) as [H|[_ H]]; rewrite Hw in H; [|discriminate].
  destruct (isSunk s); congruence.
Qed.

Lemma marked_agree (g g' : Grid) (s : ActiveShip) :
  (forall r c, (r, c) ∈ ship_cells s -> grid_get g' r c = grid_get g r c) ->
  ship_marked g s -> ship_marked g' s.
Proof.
  intros Hag Hm r c Hc. rewrite (Hag r c Hc). apply Hm. assumption.
Qed.

Lemma create_ok (n : Z) : 0 <= n -> board_ok (Board.create n).
Proof.
  intros Hn. split; simpl; try constructor.
  - assumption.
  - split.
    + unfold grid_make. rewrite length_replicate. lia.
    + apply Forall_replicate. rewrite length_replicate. lia.
  - intros i j s t Hi. discriminate.
Qed.

Lemma ships_disjoint_later (l l' : list ActiveShip) :
  Forall2 ship_later l l' -> ships_disjoint l -> ships_disjoint l'.
Proof.
  intros Hl Hd i j s' t' Hi Hj Hne p Hp.
  destruct (Forall2_lookup_r _ _ _ _ _ Hl Hi) as (s & Hs & Hss).
  destruct (Forall2_lookup_r _ _ _ _ _ Hl Hj) as (t & Ht & Htt).
  rewrite (ship_later_cells _ _ Hss) in Hp.
  rewrite (ship_later_cells _ _ Htt).
  exact (Hd i j s t Hs Ht Hne p Hp).
Qed.

Lemma ships_disjoint_snoc (l : list ActiveShip) (s : ActiveShip) :
  ships_disjoint l ->
  (forall t p, t ∈ l -> p ∈ ship_cells t -> p ∉ ship_cells s) ->
  ships_disjoint (l ++ [s]).
Proof.
  intros Hd Hnew i j a b Hi Hj Hne p Hp.
  apply lookup_snoc_Some in Hi as [[Hil Hi]|[Hil <-]];
    apply lookup_snoc_Some in Hj as [[Hjl Hj]|[Hjl <-]].
  - exact (Hd i j a b Hi Hj Hne p Hp).
  - apply (Hnew a p); [|assumption]. eapply list_elem_of_lookup_2; eauto.
  - intros Hq. apply (Hnew b p); [|assumption..].
    eapply list_elem_of_lookup_2; eauto.
  - lia.
Qed.

(** *** [checkStartingPeg] and [addShip] *)

Lemma checkStartingPeg_down_valid (b : BoardData) (p : Z) (js : list Z) :
  GameLogic.checkStartingPeg_down b p js = Some 1 ->
  forall j, j ∈ js ->
    grid_get (boardArray b) (Z.quot p (boardSize b) + j)
             (Z.rem p (boardSize b)) = Some "w"%char.
Proof.
  induction js as [|j0 js IH]; simpl; intros H j Hj; [inversion Hj|].
  destruct (boardSize b <=? _); [discriminate|].
  destruct (grid_get _ _ _) as [c|] eqn:Hc; simpl in H; [|discriminate].
  destruct (ascii_eqb c "w") eqn:Hw; simpl in H; [|discriminate].
  apply ascii_eqb_true in Hw. subst c.
  apply elem_of_cons in Hj as [->|Hj]; [assumption|]. apply IH; assumption.
Qed.

Lemma checkStartingPeg_left_valid (b : BoardData) (p : Z) (js : list Z) :
  GameLogic.checkStartingPeg_left b p js = Some 1 ->
  forall j, j ∈ js ->
    grid_get (boardArray b) (Z.quot p (boardSize b))
             (Z.rem p (boardSize b) - j) = Some "w"%char.
Proof.
  induction js as [|j0 js IH]; simpl; intros H j Hj; [inversion Hj|].
  destruct (_ <? 0); [discriminate|].
  destruct (grid_get _ _ _) as [c|] eqn:Hc; simpl in H; [|discriminate].
  destruct (ascii_eqb c "w") eqn:Hw; simpl in H; [|discriminate].
  apply ascii_eqb_true in Hw. subst c.
  apply elem_of_cons in Hj as [->|Hj]; [assumption|]. apply IH; assumption.
Qed.

(** A peg that [checkStartingPeg] accepts has only water under the ship. *)
Lemma checkStartingPeg_valid (b : BoardData) (o p len : Z) (sym : ascii) :
  GameLogic.checkStartingPeg b o p len = Some 1 ->
  forall r c, (r, c) ∈ ship_cells (new_ship b o p len sym) ->
    grid_get (boardArray b) r c = Some "w"%char.
Proof.
  unfold GameLogic.checkStartingPeg, ship_cells, Board.ship_cell, new_ship.
  simpl. intros H r c (j & Hrc & Hj)%list_elem_of_fmap.
  destruct (o =? 1);
    destruct ((0 <? len) && (boardSize b =? 0)); try discriminate;
    injection Hrc as -> ->.
  - eapply checkStartingPeg_down_valid; eauto.
  - eapply checkStartingPeg_left_valid; eauto.
Qed.

Lemma addShip_ok (b : BoardData) (o p len : Z) (sym : ascii) :
  board_ok b -> 1 <= len -> is_ship_char sym = true ->
  GameLogic.checkStartingPeg b o p len = Some 1 ->
  exists b', Board.addShip b o p len sym = Some b'
    /\ board_ok b'
    /\ myShips b' = myShips b ++ [new_ship b o p len sym]
    /\ boardSize b' = boardSize b
    /\ forall r c, grid_get (boardArray b') r c =
         if decide ((r, c) ∈ ship_cells (new_ship b o p len sym))
         then Some sym else grid_get (boardArray b) r c.
Proof.
  intros Hok Hlen Hsym Hchk.
  pose proof (checkStartingPeg_valid b o p len sym Hchk) as Hwater.
  pose proof (ok_grid b Hok) as Hsq.
  assert (ship_inside (boardSize b) (new_ship b o p len sym)) as Hinside.
  { intros r c Hc. eapply grid_get_bound; eauto. }
  destruct (foldl_grid_set (boardSize b) sym
              (Board.ship_cell (new_ship b o p len sym))
              (fun acc j =>
                 g' ← acc;
                 if o =? 1
                 then grid_set g' (Z.quot p (boardSize b) + j)
                               (Z.rem p (boardSize b)) sym
                 else grid_set g' (Z.quot p (boardSize b))
                               (Z.rem p (boardSize b) - j) sym)
              (seqZ 0 len) (boardArray b))
    as (g' & Hfold & Hsq' & Hget).
  - assumption.
  - reflexivity.
  - intros g0 j _. unfold Board.ship_cell, new_ship. simpl.
    destruct (o =? 1); reflexivity.
  - intros j Hj.
    destruct (Board.ship_cell (new_ship b o p len sym) j) as [r c] eqn:Hc.
    cbn [fst snd]. apply Hinside. rewrite <- Hc.
    apply list_elem_of_fmap. eauto.
  - unfold Board.addShip. rewrite Hfold. simpl.
    eexists. split; [reflexivity|].
    fold (new_ship b o p len sym).
    change (Board.ship_cell (new_ship b o p len sym) <$> seqZ 0 len)
      with (ship_cells (new_ship b o p len sym)) in Hget.
    assert (forall t, t ∈ myShips b -> forall q, q ∈ ship_cells t ->
                      q ∉ ship_cells (new_ship b o p len sym)) as Hfresh.
    { intros t Ht [r c] Hq Hq'.
      pose proof (ok_marked b Hok) as Hm.
      pose proof (ok_symbols b Hok) as Hs.
      rewrite Forall_forall in Hm, Hs.
      eapply marked_not_water; eauto. }
    split; [|split; [reflexivity|split; [reflexivity|exact Hget]]].
    split; simpl.
    + assumption.
    + apply Forall_app. split; [apply (ok_hits b Hok)|].
      constructor; [|constructor]. unfold ship_ok, new_ship. simpl.
      split; [lia|]. split; [discriminate|lia].
    + apply Forall_app. split; [apply (ok_symbols b Hok)|].
      constructor; [assumption|constructor].
    + apply Forall_app. split; [apply (ok_inside b Hok)|].
      constructor; [assumption|constructor].
    + apply Forall_app. split.
      * pose proof (ok_marked b Hok) as Hm.
        rewrite Forall_forall in Hm |- *. intros t Ht.
        apply (marked_agree (boardArray b)); [|apply Hm; assumption].
        intros r c Hc. rewrite Hget.
        destruct (decide _) as [Hin|_]; [|reflexivity].
        exfalso. eapply Hfresh; eauto.
      * constructor; [|constructor]. intros r c Hc. left.
        rewrite Hget. destruct (decide _); [reflexivity|contradiction].
    + apply ships_disjoint_snoc; [apply (ok_disjoint b Hok)|].
      intros t q Ht Hq. eapply Hfresh; eauto.
Qed.

(** *** [receiveShot] keeps a board consistent *)

Lemma Forall_later (P Q : ActiveShip -> Prop) (l l' : list ActiveShip) :
  Forall2 ship_later l l' ->
  (forall s s', ship_later s s' -> P s -> Q s') ->
  Forall P l -> Forall Q l'.
Proof.
  intros Hl HPQ. induction Hl as [|s s' l l' Hs _ IH]; intros HP.
  - constructor.
  - inversion HP; subst. constructor; eauto.
Qed.

Lemma receiveShot_marked (b : BoardData) (x y r : Z) (b' : BoardData) :
  board_ok b -> Board.receiveShot b x y = Some (r, b') ->
  Forall (ship_marked (boardArray b')) (myShips b').
Proof.
  intros Hok Heq.
  pose proof (ok_grid b Hok) as Hsq.
  pose proof (ok_symbols b Hok) as Hsyms.
  pose proof (ok_marked b Hok) as Hmarks.
  pose proof (ok_inside b Hok) as Hins.
  rewrite Forall_forall in Hsyms, Hmarks, Hins.
  destruct (receiveShot_cases b x y Hsq (ok_symbols b Hok))
    as [_ Heq'|g Hw Hg Heq'|c i s Hg Hc Hi Ht Hfirst Heq'
        |c g Hg Hnw Hnx Hno Hns Hall Hset Heq'];
    rewrite Heq' in Heq.
  - revert Heq; intros [= _ <-]. apply (ok_marked b Hok).
  - revert Heq; intros [= _ <-]. simpl.
    apply Forall_forall. intros t Ht.
    apply (marked_agree (boardArray b)); [|auto].
    intros r' c' Hc'. rewrite (grid_get_set _ _ _ _ r' c' _ Hg).
    destruct (decide _) as [[= -> ->]|_]; [|reflexivity].
    exfalso. eapply marked_not_water; eauto.
  - assert (s ∈ myShips b) as Hs by (eapply list_elem_of_lookup_2; eauto).
    destruct Ht as (Hafloat & Hsym & Hhit).
    apply isHit_cells in Hhit.
    destruct (receiveShot_hit_spec b x y i s Hsq (Hins s Hs) Hhit)
      as (b1 & Hhit1 & Hships & _ & _ & _ & Hget).
    rewrite Hhit1 in Heq. revert Heq; intros [= _ <-].
    rewrite Hships. apply Forall_lookup. intros k t Hk.
    destruct (decide (i = k)) as [<-|Hne].
    + rewrite list_lookup_insert_eq in Hk by (eapply lookup_lt_Some; eauto).
      injection Hk as <-.
      intros r' c' Hc'.
      rewrite (ship_later_cells _ _ (hit_once_later s)) in Hc'.
      rewrite Hget. unfold hit_once. simpl.
      destruct (shipLength s <=? hitCount s + 1).
      * left. destruct (decide _); [reflexivity|contradiction].
      * destruct (decide _) as [_|_]; [right; auto|].
        destruct (Hmarks s Hs r' c' Hc') as [H|H]; rewrite Hafloat in H;
          auto.
    + rewrite list_lookup_insert_ne in Hk by assumption.
      assert (t ∈ myShips b) as Ht by (eapply list_elem_of_lookup_2; eauto).
      apply (marked_agree (boardArray b)); [|auto].
      intros r' c' Hc'. rewrite Hget.
      assert ((r', c') ∉ ship_cells s) as Hout.
      { exact (ok_disjoint b Hok k i t s Hk Hi (not_eq_sym Hne) _ Hc'). }
      destruct (shipLength s <=? hitCount s + 1);
        destruct (decide _) as [Hin|_]; try reflexivity.
      * contradiction.
      * injection Hin as -> ->. contradiction.
  - unfold Board.receiveShot_fallthrough in *.
    revert Heq; intros [= _ <-]. simpl.
    apply Forall_forall. intros t Ht.
    apply (marked_agree (boardArray b)); [|auto].
    intros r' c' Hc'. rewrite (grid_get_set _ _ _ _ r' c' _ Hset).
    destruct (decide _) as [[= -> ->]|_]; [|reflexivity].
    exfalso. rewrite Forall_forall in Hall. apply (Hall t Ht).
    destruct (ship_char_not_mark _ (Hsyms t Ht)) as (_ & Hx & _ & Hs).
    assert (isSunk t = false /\ symbol t = c) as [Haf Hsy].
    { destruct (Hmarks t Ht y x Hc') as [H|[_ H]]; rewrite Hg in H.
      - destruct (isSunk t); [congruence|]. split; congruence.
      - congruence. }
    repeat split; auto. apply isHit_cells. assumption.
Qed.

Lemma receiveShot_ok (b : BoardData) (x y r : Z) (b' : BoardData) :
  board_ok b -> Board.receiveShot b x y = Some (r, b') -> board_ok b'.
Proof.
  intros Hok Heq.
  pose proof (receiveShot_ships_later b x y r b' Heq) as Hlater.
  destruct (receiveShot_defined b x y (ok_grid b Hok))
    as (r0 & b0 & Heq0 & Hsq & Hsize).
  rewrite Heq in Heq0. revert Heq0; intros [= <- <-].
  split.
  - assumption.
  - eapply receiveShot_ships_ok; eauto. apply (ok_hits b Hok).
  - eapply Forall_later; [exact Hlater| |apply (ok_symbols b Hok)].
    intros s s' (_ & Hsym & _) H. simpl in *. congruence.
  - eapply Forall_later; [exact Hlater| |apply (ok_inside b Hok)].
    intros s s' Hs H p q Hp. rewrite Hsize.
    apply H. rewrite <- (ship_later_cells _ _ Hs). assumption.
  - eapply receiveShot_marked; eauto.
  - eapply ships_disjoint_later; [exact Hlater|apply (ok_disjoint b Hok)].
Qed.

(** ** C1 *)

Lemma scenarioA_board_ok : board_ok scenarioA_board.
Proof.
  destruct (addShip_ok (Board.create 10) 1 55 3 "S")
    as (b' & Hadd & Hok & _).
  - apply create_ok. lia.
  - lia.
  - reflexivity.
  - vm_compute. reflexivity.
  - unfold scenarioA_board. rewrite Hadd. exact Hok.
Qed.

Lemma scenarioA_hit_board_ok : board_ok scenarioA_hit_board.
Proof.
  apply (receiveShot_ok
           (default scenarioA_board
                    (snd <$> shoot_all scenarioA_board [(0, 0)]))
           5 5 1 scenarioA_hit_board).
  - apply (receiveShot_ok scenarioA_board 0 0 0);
      [exact scenarioA_board_ok | vm_compute; reflexivity].
  - vm_compute. reflexivity.
Qed.

(** Ships with a record.  On a consistent board, a shot at a cell of a
    ship [s] of [myShips] that still shows the ship's symbol adds one to
    that ship's [hitCount].  If the count then equals the ship's length,
    every cell of the ship becomes ['s'], the ship is flagged sunk and the
    result is 2; otherwise only the shot cell changes, to ['x'], and the
    result is 1.  Nothing else on the grid changes.  On the board of
    scenario A, whose ship [addShip] placed, the shots (0,0), (5,5), (5,5),
    (5,6), (5,7) give 0, 1, 0, 1, 2 and leave ['s'] on the three cells of
    the ship. *)
Lemma receiveShot_hit_or_sunk :
  (forall (b : BoardData) (x y : Z) (s : ActiveShip),
     board_ok b -> s ∈ myShips b -> (y, x) ∈ ship_cells s ->
     grid_get (boardArray b) y x = Some (symbol s) ->
     exists i b',
       myShips b !! i = Some s
       /\ Board.receiveShot b x y
          = Some (if bool_decide (hitCount s + 1 = shipLength s)
                  then 2 else 1, b')
       /\ myShips b'
          = <[i := set_hit (hitCount s + 1)
                           (bool_decide (hitCount s + 1 = shipLength s)) s]>
              (myShips b)
       /\ (forall r c, grid_get (boardArray b') r c =
             if bool_decide (hitCount s + 1 = shipLength s)
             then (if decide ((r, c) ∈ ship_cells s) then Some "s"%char
                   else grid_get (boardArray b) r c)
             else (if decide ((r, c) = (y, x)) then Some "x"%char
                   else grid_get (boardArray b) r c))
       /\ boardSize b' = boardSize b /\ missCount b' = missCount b)
  /\ (ship_cells <$> myShips scenarioA_board = [[(5, 5); (6, 5); (7, 5)]]
      /\ exists b',
           shoot_all scenarioA_board [(0,0); (5,5); (5,5); (5,6); (5,7)]
           = Some ([0; 1; 0; 1; 2], b')
           /\ grid_get (boardArray b') 5 5 = Some "s"%char
           /\ grid_get (boardArray b') 6 5 = Some "s"%char
           /\ grid_get (boardArray b') 7 5 = Some "s"%char).
Proof.
  split.
  - apply receiveShot_on_ship.
  - split; [vm_compute; reflexivity|].
    eexists. split; [vm_compute; reflexivity|].
    repeat split; vm_compute; reflexivity.
Qed.

Lemma receiveShot_hit_or_sunk_witness :
  exists i b',
    myShips scenarioA_hit_board !! i
    = Some (mkShip 0 "S" 3 1 false 5 5 1)
    /\ Board.receiveShot scenarioA_hit_board 5 6 = Some (1, b')
    /\ myShips b' = <[i := mkShip 0 "S" 3 2 false 5 5 1]>
                      (myShips scenarioA_hit_board)
    /\ grid_get (boardArray b') 6 5 = Some "x"%char.
Proof.
  destruct (proj1 receiveShot_hit_or_sunk scenarioA_hit_board 5 6
              (mkShip 0 "S" 3 1 false 5 5 1))
    as (i & b' & Hi & Hshot & Hships & Hget & _).
  - exact scenarioA_hit_board_ok.
  - vm_compute. left.
  - vm_compute. right. left.
  - vm_compute. reflexivity.
  - exists i, b'. split; [exact Hi|]. split; [exact Hshot|].
    split; [exact Hships|]. rewrite Hget. reflexivity.
Defined.

(** ** Manual placement *)

Lemma isValid_left_true (b : BoardData) (gx gy : Z) (js : list Z) :
  GameLogic.isValid_left b gx gy js = Some true <->
  forall i, i ∈ js ->
    0 <= gx - i < boardSize b
    /\ grid_get (boardArray b) gy (gx - i) = Some "w"%char.
Proof.
  induction js as [|j js IH]; simpl.
  - split; [intros _ i Hi; inversion Hi | reflexivity].
  - destruct (Z.ltb_spec (gx - j) 0); simpl.
    { split; [discriminate|]. intros HH. destruct (HH j); [left|lia]. }
    destruct (Z.leb_spec (boardSize b) (gx - j)); simpl.
    { split; [discriminate|]. intros HH. destruct (HH j); [left|lia]. }
    destruct (grid_get (boardArray b) gy (gx - j)) as [c|] eqn:Hc; simpl.
    + destruct (ascii_eqb c "w") eqn:Hw; simpl.
      * apply ascii_eqb_true in Hw. subst c. rewrite IH. split.
        -- intros HH i [->|Hi]%elem_of_cons; [split; [lia|assumption]|auto].
        -- intros HH i Hi. apply HH. right. assumption.
      * apply ascii_eqb_false in Hw. split; [discriminate|].
        intros HH. destruct (HH j) as [_ H']; [left|]. congruence.
    + split; [discriminate|].
      intros HH. destruct (HH j) as [_ H']; [left|]. congruence.
Qed.

Lemma isValid_up_true (b : BoardData) (gx gy : Z) (js : list Z) :
  GameLogic.isValid_up b gx gy js = Some true <->
  forall i, i ∈ js ->
    0 <= gy - i < boardSize b
    /\ grid_get (boardArray b) (gy - i) gx = Some "w"%char.
Proof.
  induction js as [|j js IH]; simpl.
  - split; [intros _ i Hi; inversion Hi | reflexivity].
  - destruct (Z.ltb_spec (gy - j) 0); simpl.
    { split; [discriminate|]. intros HH. destruct (HH j); [left|lia]. }
    destruct (Z.leb_spec (boardSize b) (gy - j)); simpl.
    { split; [discriminate|]. intros HH. destruct (HH j); [left|lia]. }
    destruct (grid_get (boardArray b) (gy - j) gx) as [c|] eqn:Hc; simpl.
    + destruct (ascii_eqb c "w") eqn:Hw; simpl.
      * apply ascii_eqb_true in Hw. subst c. rewrite IH. split.
        -- intros HH i [->|Hi]%elem_of_cons; [split; [lia|assumption]|auto].
        -- intros HH i Hi. apply HH. right. assumption.
      * apply ascii_eqb_false in Hw. split; [discriminate|].
        intros HH. destruct (HH j) as [_ H']; [left|]. congruence.
    + split; [discriminate|].
      intros HH. destruct (HH j) as [_ H']; [left|]. congruence.
Qed.

(** The check answers [true] exactly when every cell of the request is on
    the board and shows water. *)
Lemma isValidShipPlacement_true (b : BoardData) (gx gy o len : Z) :
  grid_square (boardSize b) (boardArray b) ->
  GameLogic.isValidShipPlacement b gx gy o len = Some true <->
  forall r c, (r, c) ∈ GameLogic.placement_cells gx gy o len ->
    (0 <= r < boardSize b /\ 0 <= c < boardSize b)
    /\ grid_get (boardArray b) r c = Some "w"%char.
Proof.
  intros Hsq.
  unfold GameLogic.isValidShipPlacement, GameLogic.placement_cells.
  destruct (o =? 0).
  - rewrite isValid_left_true. split.
    + intros H r c (i & [= -> ->] & Hi)%list_elem_of_fmap.
      destruct (H i Hi) as [Hb Hw]. split; [|assumption].
      eapply grid_get_bound; eauto.
    + intros H i Hi. destruct (H gy (gx - i)) as [[_ Hb] Hw]; [|auto].
      apply list_elem_of_fmap. eauto.
  - rewrite isValid_up_true. split.
    + intros H r c (i & [= -> ->] & Hi)%list_elem_of_fmap.
      destruct (H i Hi) as [Hb Hw]. split; [|assumption].
      eapply grid_get_bound; eauto.
    + intros H i Hi. destruct (H (gy - i) gx) as [[Hb _] Hw]; [|auto].
      apply list_elem_of_fmap. eauto.
Qed.

(** With the origin on the board the check never reads outside the array. *)
Lemma isValidShipPlacement_defined (b : BoardData) (gx gy o len : Z) :
  grid_square (boardSize b) (boardArray b) ->
  0 <= gx < boardSize b -> 0 <= gy < boardSize b ->
  is_Some (GameLogic.isValidShipPlacement b gx gy o len).
Proof.
  intros Hsq Hx Hy. unfold GameLogic.isValidShipPlacement.
  destruct (o =? 0).
  - induction (seqZ 0 len) as [|j js IH]; simpl; [eauto|].
    destruct (Z.ltb_spec (gx - j) 0); simpl; [eauto|].
    destruct (Z.leb_spec (boardSize b) (gx - j)); simpl; [eauto|].
    destruct (grid_get_is_Some (boardSize b) (boardArray b) gy (gx - j))
      as [c ->]; [assumption|lia|lia|]. simpl.
    destruct (ascii_eqb c "w"); simpl; eauto.
  - induction (seqZ 0 len) as [|j js IH]; simpl; [eauto|].
    destruct (Z.ltb_spec (gy - j) 0); simpl; [eauto|].
    destruct (Z.leb_spec (boardSize b) (gy - j)); simpl; [eauto|].
    destruct (grid_get_is_Some (boardSize b) (boardArray b) (gy - j) gx)
      as [c ->]; [assumption|lia|lia|]. simpl.
    destruct (ascii_eqb c "w"); simpl; eauto.
Qed.

(** An accepted request writes the symbol into exactly its cells; a refused
    one changes nothing. *)
Lemma placeShip_spec (b : BoardData) (gx gy o len : Z) (sym : ascii)
    (v : bool) :
  grid_square (boardSize b) (boardArray b) ->
  GameLogic.isValidShipPlacement b gx gy o len = Some v ->
  if v then
    exists g, GameLogic.placeShip b gx gy o len sym
              = Some (true, set_boardArray g b)
      /\ grid_square (boardSize b) g
      /\ forall r c, grid_get g r c =
           if decide ((r, c) ∈ GameLogic.placement_cells gx gy o len)
           then Some sym else grid_get (boardArray b) r c
  else GameLogic.placeShip b gx gy o len sym = Some (false, b).
Proof.
  intros Hsq Hv. unfold GameLogic.placeShip. rewrite Hv. simpl.
  destruct v; simpl; [|reflexivity].
  pose proof (proj1 (isValidShipPlacement_true b gx gy o len Hsq) Hv)
    as Hcells. clear Hv. rename Hcells into Hv.
  destruct (foldl_grid_set (boardSize b) sym
              (fun i => if o =? 0 then (gy, gx - i) else (gy - i, gx))
              (fun acc i =>
                 g' ← acc;
                 if o =? 0 then grid_set g' gy (gx - i) sym
                 else grid_set g' (gy - i) gx sym)
              (seqZ 0 len) (boardArray b))
    as (g & Hfold & Hsq' & Hget).
  - assumption.
  - reflexivity.
  - intros g0 i _. simpl. destruct (o =? 0); reflexivity.
  - intros i Hi.
    destruct (Hv (if o =? 0 then (gy, gx - i) else (gy - i, gx)).1
                 (if o =? 0 then (gy, gx - i) else (gy - i, gx)).2)
      as [Hb _]; [|exact Hb].
    rewrite <- surjective_pairing.
    unfold GameLogic.placement_cells. apply list_elem_of_fmap. eauto.
  - rewrite Hfold. simpl. exists g. auto.
Qed.

Lemma placeShip_inv (b : BoardData) (gx gy o len : Z) (sym : ascii)
    (ok : bool) (b1 : BoardData) :
  grid_square (boardSize b) (boardArray b) ->
  GameLogic.placeShip b gx gy o len sym = Some (ok, b1) ->
  (ok = false /\ b1 = b)
  \/ (ok = true
      /\ (forall r c, (r, c) ∈ GameLogic.placement_cells gx gy o len ->
            (0 <= r < boardSize b /\ 0 <= c < boardSize b)
            /\ grid_get (boardArray b) r c = Some "w"%char)
      /\ exists g, b1 = set_boardArray g b /\ grid_square (boardSize b) g
           /\ forall r c, grid_get g r c =
                if decide ((r, c) ∈ GameLogic.placement_cells gx gy o len)
                then Some sym else grid_get (boardArray b) r c).
Proof.
  intros Hsq Hpl.
  destruct (GameLogic.isValidShipPlacement b gx gy o len) as [v|] eqn:Hv.
  - pose proof (placeShip_spec b gx gy o len sym v Hsq Hv) as Hspec.
    destruct v.
    + destruct Hspec as (g & Heq & Hsq' & Hget).
      rewrite Heq in Hpl. revert Hpl; intros [= <- <-].
      right. split; [reflexivity|]. split; [|eauto].
      apply (isValidShipPlacement_true b gx gy o len Hsq). assumption.
    + rewrite Hspec in Hpl. revert Hpl; intros [= <- <-]. left. auto.
  - unfold GameLogic.placeShip in Hpl. rewrite Hv in Hpl. discriminate.
Qed.

Lemma placeShip_ok (b : BoardData) (gx gy o len : Z) (sym : ascii)
    (ok : bool) (b1 : BoardData) :
  board_ok b -> GameLogic.placeShip b gx gy o len sym = Some (ok, b1) ->
  board_ok b1 /\ myShips b1 = myShips b.
Proof.
  intros Hok Hpl.
  destruct (placeShip_inv b gx gy o len sym ok b1 (ok_grid b Hok) Hpl)
    as [[_ ->]|(_ & Hw & g & -> & Hsq & Hget)]; [auto|].
  split; [|reflexivity].
  destruct Hok as [Hg Hh Hs Hi Hm Hd]. split; simpl; try assumption.
  rewrite Forall_forall in Hm, Hs |- *. intros t Ht.
  apply (marked_agree (boardArray b)); [|auto].
  intros r c Hc. rewrite Hget.
  destruct (decide _) as [Hin|_]; [|reflexivity].
  exfalso. destruct (Hw r c Hin) as [_ Hwater].
  eapply marked_not_water; eauto.
Qed.

(** What a manual placement session leaves behind, seen from its first
    board: the accepted requests lay on water, are pairwise disjoint and
    show their symbols at the end; cells that were not water are untouched. *)
Lemma place_all_spec (reqs : list PlaceRequest) (b b' : BoardData)
    (placed : list PlaceRequest) :
  grid_square (boardSize b) (boardArray b) ->
  Forall (fun q => req_sym q <> "w"%char) reqs ->
  place_all reqs b = Some (b', placed) ->
  grid_square (boardSize b') (boardArray b')
  /\ boardSize b' = boardSize b /\ myShips b' = myShips b
  /\ placed ⊆ reqs
  /\ requests_disjoint placed
  /\ (forall q r c, q ∈ placed -> (r, c) ∈ request_cells q ->
        grid_get (boardArray b) r c = Some "w"%char
        /\ grid_get (boardArray b') r c = Some (req_sym q))
  /\ (forall r c a, grid_get (boardArray b) r c = Some a -> a <> "w"%char ->
        grid_get (boardArray b') r c = Some a).
Proof.
  revert b b' placed.
  induction reqs as [|q rest IH]; intros b b' placed Hsq Hsyms Hrun.
  - simpl in Hrun. revert Hrun; intros [= <- <-].
    split_and!; try done.
    intros q r c Hq. inversion Hq.
  - simpl in Hrun. inversion Hsyms as [|? ? Hq Hrest]; subst.
    destruct (GameLogic.placeShip b _ _ _ _ _) as [[ok b1]|] eqn:Hpl;
      simpl in Hrun; [|discriminate].
    destruct (place_all rest b1) as [[b2 placed']|] eqn:Hrec;
      simpl in Hrun; [|discriminate].
    revert Hrun; intros [= <- <-].
    destruct (placeShip_inv b _ _ _ _ _ ok b1 Hsq Hpl)
      as [[-> ->]|(-> & Hw & g & -> & Hsq1 & Hget)].
    + destruct (IH b b2 placed' Hsq Hrest Hrec)
        as (Hsq2 & Hsz & Hsh & Hsub & Hdis & Hcells & Hframe).
      split_and!; try done.
      intros x Hx. right. auto.
    + destruct (IH (set_boardArray g b) b2 placed' Hsq1 Hrest Hrec)
        as (Hsq2 & Hsz & Hsh & Hsub & Hdis & Hcells & Hframe).
      simpl in *.
      assert (forall q' r c, q' ∈ placed' -> (r, c) ∈ request_cells q' ->
                ((r, c) ∉ request_cells q)
                /\ grid_get (boardArray b) r c = Some "w"%char) as Hlater.
      { intros q' r c Hq' Hc. destruct (Hcells q' r c Hq' Hc) as [Hw1 _].
        rewrite Hget in Hw1. fold (request_cells q) in Hw1.
        destruct (decide _) as [Hin|Hout]; [congruence|]. auto. }
      split_and!; try done.
      * intros x [->|Hx]%elem_of_cons; [left|right; auto].
      * intros i j q1 q2 Hi Hj Hne p Hp.
        destruct i as [|i], j as [|j]; simpl in Hi, Hj; try lia.
        -- injection Hi as <-. intros Hp2. destruct p as [r c].
           apply list_elem_of_lookup_2 in Hj.
           destruct (Hlater q2 r c Hj Hp2) as [Hout _]. contradiction.
        -- injection Hj as <-. destruct p as [r c].
           apply list_elem_of_lookup_2 in Hi.
           destruct (Hlater q1 r c Hi Hp) as [Hout _]. assumption.
        -- assert (i <> j) as Hne' by lia.
           exact (Hdis i j q1 q2 Hi Hj Hne' p Hp).
      * intros q0 r c [->|Hq']%elem_of_cons Hc; split.
        -- apply Hw. assumption.
        -- apply (Hframe r c (req_sym q)); [|assumption].
           rewrite Hget. fold (request_cells q).
           destruct (decide _); [reflexivity|contradiction].
        -- apply (Hlater q0 r c); assumption.
        -- apply Hcells; assumption.
      * intros r c a Ha Hna. apply Hframe; [|assumption].
        rewrite Hget. destruct (decide _) as [Hin|_]; [|assumption].
        destruct (Hw r c Hin) as [_ Hwater]. congruence.
Qed.

(** ** Random placement *)

Lemma clear_ok (b : BoardData) :
  grid_square (boardSize b) (boardArray b) ->
  exists b', Board.clear b = Some b' /\ board_ok b'
    /\ myShips b' = [] /\ boardSize b' = boardSize b.
Proof.
  intros Hsq. unfold Board.clear.
  destruct (foldl_option_defined (grid_square (boardSize b))
              (fun acc i => g' ← acc; Board.clear_row (boardSize b) g' i)
              (seqZ 0 (boardSize b)) (boardArray b))
    as (g & -> & Hg); [|assumption|].
  - intros g0 i Hi Hg0. simpl. unfold Board.clear_row.
    apply (foldl_option_defined (grid_square (boardSize b))); [|assumption].
    intros g1 j Hj Hg1. simpl.
    apply elem_of_seqZ in Hi, Hj.
    destruct (grid_set_is_Some (boardSize b) g1 i j "w") as [g2 Hg2];
      [assumption|lia|lia|].
    exists g2. split; [assumption|]. eapply grid_set_square; eauto.
  - simpl. eexists. split; [reflexivity|]. split; [|auto].
    split; simpl; try constructor; try apply Hg.
    intros i j s t Hi. discriminate.
Qed.

Lemma peg_row_col (n p : Z) :
  0 < n -> 0 <= p < n * n ->
  0 <= Z.quot p n < n /\ 0 <= Z.rem p n < n.
Proof.
  intros Hn Hp.
  rewrite Z.quot_div_nonneg, Z.rem_mod_nonneg by lia.
  split; [|apply Z.mod_pos_bound; lia].
  split; [apply Z.div_pos; lia|].
  apply Z.div_lt_upper_bound; lia.
Qed.

Lemma checkStartingPeg_defined (b : BoardData) (o p len : Z) :
  grid_square (boardSize b) (boardArray b) ->
  0 < boardSize b -> 0 <= p < boardSize b * boardSize b ->
  is_Some (GameLogic.checkStartingPeg b o p len).
Proof.
  intros Hsq Hn Hp.
  destruct (peg_row_col (boardSize b) p Hn Hp) as [Hrow Hcol].
  unfold GameLogic.checkStartingPeg.
  assert ((boardSize b =? 0) = false) as -> by (apply Z.eqb_neq; lia).
  rewrite andb_false_r.
  assert (Forall (fun j => 0 <= j) (seqZ 0 len)) as Hjs.
  { apply Forall_forall. intros j Hj%elem_of_seqZ. lia. }
  destruct (o =? 1).
  - induction Hjs as [|j js Hj _ IH]; simpl; [eauto|].
    destruct (Z.leb_spec (boardSize b) (Z.quot p (boardSize b) + j));
      [eauto|].
    destruct (grid_get_is_Some (boardSize b) (boardArray b)
                (Z.quot p (boardSize b) + j) (Z.rem p (boardSize b)))
      as [c ->]; [assumption|lia|lia|]. simpl.
    destruct (ascii_eqb c "w"); simpl; eauto.
  - induction Hjs as [|j js Hj _ IH]; simpl; [eauto|].
    destruct (Z.ltb_spec (Z.rem p (boardSize b) - j) 0); [eauto|].
    destruct (grid_get_is_Some (boardSize b) (boardArray b)
                (Z.quot p (boardSize b)) (Z.rem p (boardSize b) - j))
      as [c ->]; [assumption|lia|lia|]. simpl.
    destruct (ascii_eqb c "w"); simpl; eauto.
Qed.

(** The inner loop only ever proposes a peg that [checkStartingPeg]
    accepted. *)
Lemma find_placement_placed (left : nat) (b : BoardData) (o p len : Z)
    (g : Rng) (o' p' : Z) (g' : Rng) :
  GameLogic.find_placement left b o p len g
  = Some (GameLogic.Placed o' p' g') ->
  GameLogic.checkStartingPeg b o' p' len = Some 1.
Proof.
  revert o p g. induction left as [|left IH]; intros o p g; simpl;
    destruct (GameLogic.checkStartingPeg b o p len) as [ret|] eqn:Hret;
    simpl; try discriminate;
    (destruct (Z.eqb_spec ret 1) as [->|Hne1];
     [intros [= <- <- <-]; assumption|]);
    (destruct (Z.eqb_spec ret 2) as [->|Hne2]; simpl;
     [destruct (GameLogic.checkStartingPeg b (if o =? 1 then 2 else 1)
                  p len) as [ret'|] eqn:Hret'; simpl; [|discriminate];
      destruct (Z.eqb_spec ret' 1) as [->|Hne'];
      [intros [= <- <- <-]; assumption|]
     |]);
    try discriminate; try apply IH.
Qed.

Lemma find_placement_defined (left : nat) (b : BoardData) (o p len : Z)
    (g : Rng) :
  grid_square (boardSize b) (boardArray b) ->
  0 < boardSize b -> 0 <= p < boardSize b * boardSize b ->
  is_Some (GameLogic.find_placement left b o p len g).
Proof.
  intros Hsq Hn. revert o p g.
  assert (forall r, 0 <= Z.rem (Z.of_nat r) (boardSize b * boardSize b)
                    < boardSize b * boardSize b) as Hpeg.
  { intros r. rewrite Z.rem_mod_nonneg by lia.
    apply Z.mod_pos_bound. lia. }
  induction left as [|left IH]; intros o p g Hp; simpl;
    destruct (checkStartingPeg_defined b o p len Hsq Hn Hp) as [ret ->];
    simpl;
    (destruct (ret =? 1); [eauto|]);
    (destruct (ret =? 2); simpl;
     [destruct (checkStartingPeg_defined b (if o =? 1 then 2 else 1)
                  p len Hsq Hn Hp) as [ret' ->]; simpl;
      destruct (ret' =? 1); [eauto|]
     |]);
    eauto.
Qed.

Lemma fleet_of_snoc (pieces : list GamePiece) (ships : list ActiveShip)
    (i : nat) (p : GamePiece) (s : ActiveShip) :
  fleet_of (take i pieces) ships -> pieces !! i = Some p ->
  shipLength s = piece_length p -> symbol s = piece_symbol p ->
  fleet_of (take (S i) pieces) (ships ++ [s]).
Proof.
  unfold fleet_of. intros Hf Hp Hl Hs.
  rewrite (take_S_r _ _ _ Hp), !fmap_app, Hf. simpl.
  rewrite Hl, Hs. reflexivity.
Qed.

(** The outer loop keeps the board consistent, never reads outside the
    grid, and, once done, has placed the whole fleet. *)
Lemma place_pieces_spec (fuel : nat) (pieces : list GamePiece) :
  Forall piece_ok pieces ->
  forall (b : BoardData) (i : nat) (g : Rng),
    board_ok b -> 0 < boardSize b ->
    fleet_of (take i pieces) (myShips b) ->
    Forall (ship_unhit (boardArray b)) (myShips b) ->
    match GameLogic.place_pieces fuel b pieces i g with
    | Done (b', _) =>
        board_ok b' /\ boardSize b' = boardSize b
        /\ fleet_of pieces (myShips b')
        /\ Forall (ship_unhit (boardArray b')) (myShips b')
    | Undefined => False
    | OutOfFuel => True
    end.
Proof.
  intros Hpieces.
  induction fuel as [|fuel IH]; intros b i g Hok Hn Hfleet Hunhit;
    cbn [GameLogic.place_pieces]; [exact I|].
  destruct (pieces !! i) as [p|] eqn:Hp.
  - assert ((boardSize b * boardSize b =? 0) = false) as ->
      by (apply Z.eqb_neq; nia).
    assert (piece_ok p) as [Hlen Hsym].
    { rewrite Forall_forall in Hpieces. apply Hpieces.
      eapply list_elem_of_lookup_2; eauto. }
    destruct (rand g) as [r1 g1] eqn:Hr1.
    destruct (rand g1) as [r2 g2] eqn:Hr2.
    set (peg := Z.rem r1 (boardSize b * boardSize b)).
    set (o := Z.rem r2 2 + 1).
    assert (0 <= peg < boardSize b * boardSize b) as Hpeg.
    { unfold peg. unfold rand in Hr1. injection Hr1 as <- _.
      rewrite Z.rem_mod_nonneg by nia. apply Z.mod_pos_bound. nia. }
    destruct (find_placement_defined GameLogic.MAX_ATTEMPTS b o peg
                (piece_length p) g2 (ok_grid b Hok) Hn Hpeg) as [res Hres].
    rewrite Hres. destruct res as [o' peg' g'|g'].
    + apply find_placement_placed in Hres.
      pose proof (checkStartingPeg_valid b o' peg' (piece_length p)
                    (piece_symbol p) Hres) as Hwater.
      destruct (addShip_ok b o' peg' (piece_length p) (piece_symbol p)
                  Hok Hlen Hsym Hres)
        as (b' & -> & Hok' & Hships & Hsize & Hget).
      assert (fleet_of (take (S i) pieces) (myShips b')) as Hfleet'.
      { rewrite Hships. eapply fleet_of_snoc; eauto. }
      assert (Forall (ship_unhit (boardArray b')) (myShips b')) as Hunhit'.
      { rewrite Hships. apply Forall_app. split.
        - rewrite Forall_forall in Hunhit |- *. intros t Ht r c Hc.
          rewrite Hget.
          destruct (decide _) as [Hin|_]; [|apply (Hunhit t Ht); assumption].
          exfalso. pose proof (ok_marked b Hok) as Hm.
          pose proof (ok_symbols b Hok) as Hs.
          rewrite Forall_forall in Hm, Hs.
          apply (marked_not_water (boardArray b) t r c);
            [apply Hm; assumption | apply Hs; assumption | assumption
            | apply Hwater; assumption].
        - constructor; [|constructor]. intros r c Hc. rewrite Hget.
          destruct (decide _); [reflexivity|contradiction]. }
      specialize (IH b' (S i) g' Hok').
      rewrite Hsize in IH. specialize (IH Hn Hfleet' Hunhit').
      destruct (GameLogic.place_pieces fuel b' pieces (S i) g')
        as [[b'' g'']| |]; assumption.
    + destruct (clear_ok b (ok_grid b Hok))
        as (b' & -> & Hok' & Hships & Hsize).
      specialize (IH b' 0%nat g' Hok').
      rewrite Hsize, Hships in IH.
      specialize (IH Hn eq_refl (Forall_nil_2 _)).
      destruct (GameLogic.place_pieces fuel b' pieces 0 g')
        as [[b'' g'']| |]; assumption.
  - split; [assumption|]. split; [reflexivity|]. split; [|assumption].
    apply lookup_ge_None in Hp. rewrite take_ge in Hfleet by lia.
    assumption.
Qed.

(** *** The fleet of [initializeGamePieces] *)

Lemma piece_symbol_of_ok (k : Z) :
  0 <= k -> is_ship_char (GameLogic.piece_symbol_of k) = true.
Proof.
  intros Hk. unfold is_ship_char, GameLogic.piece_symbol_of, char_code.
  assert (0 <= Z.rem k 26 < 26) as Hr.
  { rewrite Z.rem_mod_nonneg by lia. apply Z.mod_pos_bound. lia. }
  unfold ascii_of_nat. rewrite N_ascii_embedding.
  - change (Z.of_N (N_of_ascii "A")) with 65.
    change (Z.of_N (N_of_ascii "Z")) with 90.
    apply andb_true_iff. rewrite !Z.leb_le. lia.
  - change (Z.of_N (N_of_ascii "A")) with 65. lia.
Qed.

Lemma create_deck_ok (len count : Z)
    (st : list GamePiece * gmap ascii ActiveShip * Z) :
  1 <= len -> Forall piece_ok st.1.1 -> 0 <= st.2 ->
  Forall piece_ok (GameLogic.create_deck len count st).1.1
  /\ 0 <= (GameLogic.create_deck len count st).2.
Proof.
  intros Hlen. unfold GameLogic.create_deck.
  revert st. induction (seqZ 0 count) as [|j js IH]; intros st Hp Hk; simpl.
  - auto.
  - destruct st as [[pieces status] k]. simpl in *. apply IH; simpl.
    + apply Forall_app. split; [assumption|].
      constructor; [|constructor]. split; simpl; [assumption|].
      apply piece_symbol_of_ok. assumption.
    + lia.
Qed.

Lemma initializeGamePieces_ok (b : BoardData) :
  Forall piece_ok (GameLogic.initializeGamePieces b).2
  /\ myShips (GameLogic.initializeGamePieces b).1 = []
  /\ boardArray (GameLogic.initializeGamePieces b).1 = boardArray b
  /\ boardSize (GameLogic.initializeGamePieces b).1 = boardSize b.
Proof.
  unfold GameLogic.initializeGamePieces.
  set (c := getShipConfig (boardSize b)).
  destruct (create_deck_ok 4 (fourDeck c) ([], ∅, 0)) as [H4 K4];
    [lia|constructor|simpl; lia|].
  destruct (create_deck_ok 3 (threeDeck c) _ ltac:(lia) H4 K4) as [H3 K3].
  destruct (create_deck_ok 2 (twoDeck c) _ ltac:(lia) H3 K3) as [H2 K2].
  destruct (create_deck_ok 1 (oneDeck c) _ ltac:(lia) H2 K2) as [H1 K1].
  destruct (GameLogic.create_deck 1 _ _) as [[pieces status] k].
  simpl in *. auto.
Qed.

(** ** C9 *)

(** C9. No two ships ever share a cell.  (a) Whatever the random draws, a
    fleet placed by [generateBoardPlacement] on a board without ships is
    complete, every cell of every ship shows that ship's symbol, and the
    ships are pairwise disjoint; the run never reads outside the grid.
    (b) In a manual session the accepted [placeShip] requests are pairwise
    disjoint and each of their cells shows the symbol of its request at the
    end.  (c) [receiveShot] keeps a consistent board consistent and leaves
    every ship's cells where they were. *)
Theorem ships_never_overlap :
  (forall fuel clock b pieces g,
     board_ok b -> 0 < boardSize b -> myShips b = [] ->
     Forall piece_ok pieces ->
     match GameLogic.generateBoardPlacement fuel clock b pieces g with
     | Done (b', _) =>
         board_ok b' /\ ships_disjoint (myShips b')
         /\ fleet_of pieces (myShips b')
         /\ Forall (ship_unhit (boardArray b')) (myShips b')
     | Undefined => False
     | OutOfFuel => True
     end)
  /\ (forall reqs b b' placed,
        grid_square (boardSize b) (boardArray b) ->
        Forall (fun q => req_sym q <> "w"%char) reqs ->
        place_all reqs b = Some (b', placed) ->
        requests_disjoint placed
        /\ forall q r c, q ∈ placed -> (r, c) ∈ request_cells q ->
             grid_get (boardArray b') r c = Some (req_sym q))
  /\ (forall b x y r b',
        board_ok b -> Board.receiveShot b x y = Some (r, b') ->
        board_ok b' /\ ships_disjoint (myShips b')
        /\ ship_cells <$> myShips b' = ship_cells <$> myShips b).
Proof.
  split_and!.
  - intros fuel clock b pieces g Hok Hn Hempty Hpieces.
    unfold GameLogic.generateBoardPlacement.
    set (g0 := if isHost b then _ else _).
    pose proof (place_pieces_spec fuel pieces Hpieces b 0 g0 Hok Hn) as H.
    rewrite Hempty in H. specialize (H eq_refl (Forall_nil_2 _)).
    destruct (GameLogic.place_pieces fuel b pieces 0 g0)
      as [[b' g']| |]; [|assumption|exact I].
    destruct H as (Hok' & _ & Hfleet & Hunhit).
    split_and!; try assumption. apply (ok_disjoint b' Hok').
  - intros reqs b b' placed Hsq Hsyms Hrun.
    destruct (place_all_spec reqs b b' placed Hsq Hsyms Hrun)
      as (_ & _ & _ & _ & Hdis & Hcells & _).
    split; [assumption|]. intros q r c Hq Hc. apply Hcells; assumption.
  - intros b x y r b' Hok Hshot.
    pose proof (receiveShot_ok b x y r b' Hok Hshot) as Hok'.
    split_and!; [assumption|apply (ok_disjoint b' Hok')|].
    pose proof (receiveShot_ships_later b x y r b' Hshot) as Hl.
    clear -Hl. induction Hl as [|s s' l l' Hs _ IH]; [reflexivity|].
    rewrite !fmap_cons, IH, (ship_later_cells _ _ Hs). reflexivity.
Qed.

Lemma board_ok_no_ships (b : BoardData) :
  grid_square (boardSize b) (boardArray b) -> myShips b = [] -> board_ok b.
Proof.
  intros Hsq He. split; rewrite ?He; try assumption; try constructor.
  intros i j s t Hi. discriminate.
Qed.

Lemma demo_fleet_ok : board_ok demo_fleet.1 /\ Forall piece_ok demo_fleet.2.
Proof.
  unfold demo_fleet.
  destruct (initializeGamePieces_ok (Board.create 10))
    as (Hp & Hs & Hg & Hn).
  split; [|assumption]. apply board_ok_no_ships; [|assumption].
  rewrite Hg, Hn. apply grid_make_square. lia.
Qed.

Lemma ships_never_overlap_witness :
  (exists b' g',
     GameLogic.generateBoardPlacement 20 12345 demo_fleet.1 demo_fleet.2
                                      demo_rng = Done (b', g')
     /\ ships_disjoint (myShips b') /\ fleet_of demo_fleet.2 (myShips b'))
  /\ (exists b' placed,
        place_all demo_requests (Board.create 10) = Some (b', placed)
        /\ placed = [mkRequest 5 5 0 3 "A"; mkRequest 5 9 1 2 "C"]
        /\ requests_disjoint placed)
  /\ (exists b',
        Board.receiveShot scenarioA_hit_board 5 6 = Some (1, b')
        /\ ships_disjoint (myShips b')).
Proof.
  destruct ships_never_overlap as (Hrandom & Hmanual & Hshot).
  split_and!.
  - pose proof (Hrandom 20%nat 12345 demo_fleet.1 demo_fleet.2 demo_rng
                  (proj1 demo_fleet_ok) ltac:(vm_compute; reflexivity)
                  ltac:(vm_compute; reflexivity) (proj2 demo_fleet_ok))
      as H.
    assert (is_done (GameLogic.generateBoardPlacement 20 12345 demo_fleet.1
                       demo_fleet.2 demo_rng) = true) as Hdone
      by (vm_compute; reflexivity).
    destruct (GameLogic.generateBoardPlacement 20 12345 demo_fleet.1
                demo_fleet.2 demo_rng) as [[b' g']| |]; try discriminate.
    exists b', g'. split; [reflexivity|]. split; apply H.
  - assert (snd <$> place_all demo_requests (Board.create 10)
            = Some [mkRequest 5 5 0 3 "A"; mkRequest 5 9 1 2 "C"]) as Hp
      by (vm_compute; reflexivity).
    destruct (place_all demo_requests (Board.create 10))
      as [[b' placed]|] eqn:E; [|discriminate].
    simpl in Hp. injection Hp as ->.
    eexists _, _. split; [reflexivity|]. split; [reflexivity|].
    apply (Hmanual demo_requests (Board.create 10) b' _).
    + apply grid_make_square. lia.
    + repeat constructor; discriminate.
    + assumption.
  - assert (fst <$> Board.receiveShot scenarioA_hit_board 5 6 = Some 1)
      as Hr by (vm_compute; reflexivity).
    destruct (Board.receiveShot scenarioA_hit_board 5 6)
      as [[r b']|] eqn:E; [|discriminate].
    simpl in Hr. injection Hr as ->.
    exists b'. split; [reflexivity|].
    apply (Hshot scenarioA_hit_board 5 6 1 b' scenarioA_hit_board_ok E).
Defined.

(** ** C8 *)

(** For a request whose origin lies on the board the check and [placeShip]
    behave as specified: the check is defined, true exactly on water-only
    in-bounds requests, and [placeShip] writes exactly the cells of the
    request or refuses and changes nothing. *)
Lemma placeShip_on_board (b : BoardData) (gx gy o len : Z) (sym : ascii) :
  grid_square (boardSize b) (boardArray b) ->
  0 <= gx < boardSize b -> 0 <= gy < boardSize b ->
  exists v, GameLogic.isValidShipPlacement b gx gy o len = Some v
    /\ (v = true <->
        forall r c, (r, c) ∈ GameLogic.placement_cells gx gy o len ->
          (0 <= r < boardSize b /\ 0 <= c < boardSize b)
          /\ grid_get (boardArray b) r c = Some "w"%char)
    /\ if v then
         exists g, GameLogic.placeShip b gx gy o len sym
                   = Some (true, set_boardArray g b)
           /\ forall r c, grid_get g r c =
                if decide ((r, c) ∈ GameLogic.placement_cells gx gy o len)
                then Some sym else grid_get (boardArray b) r c
       else GameLogic.placeShip b gx gy o len sym = Some (false, b).
Proof.
  intros Hsq Hx Hy.
  destruct (isValidShipPlacement_defined b gx gy o len Hsq Hx Hy)
    as [v Hv].
  exists v. split; [assumption|]. split.
  - rewrite <- (isValidShipPlacement_true b gx gy o len Hsq), Hv.
    split; congruence.
  - pose proof (placeShip_spec b gx gy o len sym v Hsq Hv) as H.
    destruct v; [|assumption].
    destruct H as (g & Hpl & _ & Hget). eauto.
Qed.

(** The check only tests the coordinate along which the ship extends.  When
    the other coordinate of the origin is off the board, a request that
    reaches a cell of the checked range reads outside the array. *)
Lemma isValidShipPlacement_off_board (b : BoardData) (gx gy o len : Z) :
  grid_square (boardSize b) (boardArray b) -> 1 <= len ->
  (o = 0 /\ 0 <= gx < boardSize b /\ ~ 0 <= gy < boardSize b)
  \/ (o <> 0 /\ 0 <= gy < boardSize b /\ ~ 0 <= gx < boardSize b) ->
  GameLogic.isValidShipPlacement b gx gy o len = None.
Proof.
  intros Hsq Hlen Hcase. unfold GameLogic.isValidShipPlacement.
  assert (seqZ 0 len = 0 :: seqZ (Z.succ 0) (Z.pred len)) as ->.
  { apply seqZ_cons. lia. }
  destruct Hcase as [(-> & Hx & Hy)|(Ho & Hy & Hx)].
  - simpl. rewrite Z.sub_0_r.
    destruct (Z.ltb_spec gx 0); [lia|].
    destruct (Z.leb_spec (boardSize b) gx); [lia|]. simpl.
    destruct (grid_get (boardArray b) gy gx) as [c|] eqn:Hc; [|reflexivity].
    apply (grid_get_bound _ _ _ _ _ Hsq) in Hc. lia.
  - destruct (Z.eqb_spec o 0) as [|_]; [contradiction|].
    simpl. rewrite Z.sub_0_r.
    destruct (Z.ltb_spec gy 0); [lia|].
    destruct (Z.leb_spec (boardSize b) gy); [lia|]. simpl.
    destruct (grid_get (boardArray b) gy gx) as [c|] eqn:Hc; [|reflexivity].
    apply (grid_get_bound _ _ _ _ _ Hsq) in Hc. lia.
Qed.

(** C8 (defect). On an empty 10x10 board the horizontal request of length 1
    at column 5, row 10 makes the check read [boardArray[10][5]], one row
    below the grid, instead of answering [false]; [placeShip] inherits the
    read.  The same happens for a vertical request at column 10. *)
Theorem placeShip_reads_off_board :
  GameLogic.isValidShipPlacement (Board.create 10) 5 10 0 1 = None
  /\ GameLogic.placeShip (Board.create 10) 5 10 0 1 "A" = None
  /\ GameLogic.isValidShipPlacement (Board.create 10) 10 5 1 1 = None
  /\ GameLogic.placeShip (Board.create 10) 10 5 1 1 "A" = None.
Proof. repeat split; vm_compute; reflexivity. Qed.

(** ** Scripted opponent: the pools *)

Lemma delete_without (l : list (Z * Z)) (i : nat) (c : Z * Z) :
  NoDup l -> l !! i = Some c -> without c l (delete i l).
Proof.
  intros Hnd Hi. split.
  - eapply sublist_NoDup; [exact Hnd|apply sublist_delete].
  - intros x. rewrite delete_take_drop.
    pose proof (take_drop_middle l i c Hi) as Hl.
    remember (take i l) as a eqn:Ha. remember (drop (S i) l) as b eqn:Hb.
    clear Ha Hb. subst l.
    apply NoDup_app in Hnd as (_ & Hdis & Htail).
    apply NoDup_cons in Htail as [Hc _].
    rewrite !elem_of_app, elem_of_cons. split.
    + intros [Hx|Hx].
      * split; [auto|]. intros ->. apply (Hdis c Hx). left.
      * split; [auto|]. intros ->. contradiction.
    + intros [[Hx|[->|Hx]] Hne]; [auto|contradiction|auto].
Qed.

Lemma index_of_Some (c : Z * Z) (l : list (Z * Z)) (i : nat) :
  AI.index_of c l = Some i -> l !! i = Some c.
Proof.
  unfold AI.index_of.
  destruct (list_find _ l) as [[j x]|] eqn:Hf; simpl; [|discriminate].
  intros [= <-]. apply list_find_Some in Hf as (Hj & -> & _). assumption.
Qed.

Lemma index_of_None (c : Z * Z) (l : list (Z * Z)) :
  AI.index_of c l = None <-> c ∉ l.
Proof.
  unfold AI.index_of.
  destruct (list_find _ l) as [[j x]|] eqn:Hf; simpl.
  - split; [discriminate|]. intros Hc. exfalso. apply Hc.
    apply list_find_Some in Hf as (Hj & -> & _).
    eapply list_elem_of_lookup_2; eauto.
  - split; [|reflexivity]. intros _ Hc.
    apply list_find_None in Hf. rewrite Forall_forall in Hf.
    apply (Hf c Hc). reflexivity.
Qed.

Lemma erase_first_without (c : Z * Z) (l : list (Z * Z)) :
  NoDup l -> without c l (AI.erase_first c l).
Proof.
  intros Hnd. unfold AI.erase_first.
  destruct (AI.index_of c l) as [i|] eqn:Hi.
  - apply delete_without; [assumption|]. apply index_of_Some. assumption.
  - apply index_of_None in Hi. split; [assumption|].
    intros x. split; [|tauto]. intros Hx. split; [assumption|].
    intros ->. contradiction.
Qed.

(** The queue loop drops the entries that are no longer untried and stops
    at the first one that is. *)
Lemma pop_target_Some (avail queue : list (Z * Z)) (c : Z * Z) (i : nat)
    (rest : list (Z * Z)) :
  AI.pop_target avail queue = Some (c, i, rest) <->
  exists skipped, queue = skipped ++ c :: rest
    /\ Forall (fun d => d ∉ avail) skipped
    /\ AI.index_of c avail = Some i.
Proof.
  revert c i rest. induction queue as [|d queue IH]; intros c i rest; simpl.
  - split; [discriminate|]. intros (sk & Heq & _).
    destruct sk; discriminate.
  - destruct (AI.index_of d avail) as [j|] eqn:Hd.
    + split.
      * intros [= <- <- <-]. exists []. split; [reflexivity|].
        split; [constructor|assumption].
      * intros (sk & Heq & Hsk & Hi). destruct sk as [|d' sk]; simpl in Heq.
        -- injection Heq as -> ->. rewrite Hd in Hi. congruence.
        -- injection Heq as <- ->. inversion Hsk as [|? ? Hout _]; subst.
           apply index_of_None in Hout. congruence.
    + rewrite IH. apply index_of_None in Hd. split.
      * intros (sk & -> & Hsk & Hi). exists (d :: sk).
        split; [reflexivity|]. split; [constructor; assumption|assumption].
      * intros (sk & Heq & Hsk & Hi). destruct sk as [|d' sk]; simpl in Heq.
        -- injection Heq as -> ->. apply index_of_Some in Hi.
           exfalso. apply Hd. eapply list_elem_of_lookup_2; eauto.
        -- injection Heq as <- ->. inversion Hsk; subst. eauto.
Qed.

Lemma pop_target_None (avail queue : list (Z * Z)) :
  AI.pop_target avail queue = None <-> Forall (fun d => d ∉ avail) queue.
Proof.
  induction queue as [|d queue IH]; simpl.
  - split; [constructor|reflexivity].
  - destruct (AI.index_of d avail) as [j|] eqn:Hd.
    + split; [discriminate|]. intros H. inversion H as [|? ? Hout _]; subst.
      apply index_of_None in Hout. congruence.
    + rewrite IH. apply index_of_None in Hd. split.
      * intros H. constructor; assumption.
      * intros H. inversion H; assumption.
Qed.

Lemma pick_random_spec (ai : AILogic) (queue : list (Z * Z)) (g : Rng) :
  NoDup (availableShots ai) -> availableShots ai <> [] ->
  let '(c, ai', g') := AI.pick_random ai queue g in
  c ∈ availableShots ai
  /\ without c (availableShots ai) (availableShots ai')
  /\ parityShots ai' = parityShots ai /\ targetQueue ai' = queue
  /\ g' = (rand g).2
  /\ availableShots ai
     !! Z.to_nat ((rand g).1 mod Z.of_nat (length (availableShots ai)))
     = Some c.
Proof.
  intros Hnd Hne. unfold AI.pick_random.
  destruct (rand g) as [r g'] eqn:Hr. simpl.
  set (index := Z.to_nat (r mod Z.of_nat (length (availableShots ai)))).
  assert (index < length (availableShots ai))%nat as Hlt.
  { destruct (availableShots ai); [contradiction|]. simpl length in *.
    unfold index.
    pose proof (Z.mod_pos_bound r (Z.of_nat (S (length l)))). lia. }
  destruct (lookup_lt_is_Some_2 _ _ Hlt) as [c Hc]. rewrite Hc. simpl.
  split_and!; try reflexivity; try assumption.
  - eapply list_elem_of_lookup_2; eauto.
  - apply delete_without; assumption.
Qed.

Lemma without_elem (c : Z * Z) (l l' : list (Z * Z)) (x : Z * Z) :
  without c l l' -> x ∈ l' -> x ∈ l /\ x <> c.
Proof. intros [_ H] Hx. apply H. assumption. Qed.

Lemma without_not_elem (c : Z * Z) (l l' : list (Z * Z)) :
  without c l l' -> c ∉ l'.
Proof. intros [_ H] Hc. apply H in Hc as [_ Hne]. congruence. Qed.

Lemma without_snoc (ps : list (Z * Z)) (t : Z * Z) :
  NoDup (ps ++ [t]) -> without t (ps ++ [t]) ps.
Proof.
  intros Hnd. apply NoDup_app in Hnd as (Hps & Hdis & _). split.
  - assumption.
  - intros x. rewrite elem_of_app, list_elem_of_singleton. split.
    + intros Hx. split; [auto|]. intros ->. apply (Hdis t Hx). left.
    + intros [[Hx|Hx] Hne]; [assumption|contradiction].
Qed.

(** What a pick leaves behind: either the pool was empty, nothing changed
    and the answer is (-1, -1); or the answer was in the pool, is taken out
    of it (and, for the smart opponent, out of the parity pool), and the
    pools stay consistent. *)
Lemma pick_spec (ai : AILogic) (g : Rng) :
  pools_ok ai ->
  let '(c, ai', g') := AI.pickAttackCoordinates ai g in
  pools_ok ai'
  /\ ai_boardSize ai' = ai_boardSize ai
  /\ opponentBoard ai' = opponentBoard ai
  /\ difficulty ai' = difficulty ai
  /\ aiBoard ai' = aiBoard ai
  /\ ((availableShots ai = [] /\ c = (-1, -1) /\ ai' = ai /\ g' = g)
      \/ (availableShots ai <> [] /\ c ∈ availableShots ai
          /\ without c (availableShots ai) (availableShots ai')
          /\ (difficulty ai = SMART ->
              without c (parityShots ai) (parityShots ai')))).
Proof.
  intros Hok. destruct Hok as [Hnd Hpnd Hsub Hin Hsq].
  assert (forall c avail' queue' parity',
            c ∈ availableShots ai ->
            without c (availableShots ai) avail' ->
            (difficulty ai = SMART ->
             without c (parityShots ai) parity') ->
            (difficulty ai = EASY -> parity' = parityShots ai) ->
            pools_ok (set_pools avail' queue' parity' ai)) as Hkeep.
  { intros c avail' queue' parity' Hc Hw Hwp He. split; simpl.
    - apply Hw.
    - destruct (difficulty ai) eqn:Hd.
      + rewrite He by reflexivity. assumption.
      + apply Hwp. reflexivity.
    - intros Hs x Hx.
      destruct (without_elem _ _ _ _ (Hwp Hs) Hx) as [Hxp Hne].
      apply Hw. split; [apply Hsub; assumption | assumption].
    - intros x Hx. apply Hin.
      apply (without_elem _ _ _ _ Hw Hx).
    - assumption. }
  unfold AI.pickAttackCoordinates.
  destruct (availableShots ai) as [|a0 rest0] eqn:Havail.
  { split; [split; rewrite ?Havail; assumption|]. auto 10. }
  rewrite <- Havail in *.
  assert (availableShots ai <> []) as Hne by (rewrite Havail; discriminate).
  destruct (difficulty ai) eqn:Hd.
  - pose proof (pick_random_spec ai (targetQueue ai) g Hnd Hne) as Hr.
    destruct (AI.pick_random ai (targetQueue ai) g) as [[c ai'] g'] eqn:Hp.
    destruct Hr as (Hc & Hw & Hpar & Hq & Hg & _).
    unfold AI.pick_random in Hp. destruct (rand g) as [r g1].
    injection Hp as <- <- <-. simpl in *.
    split; [eapply Hkeep; eauto; congruence|].
    split_and!; try reflexivity; try assumption.
    right. split_and!; try assumption. congruence.
  - destruct (AI.pop_target (availableShots ai) (targetQueue ai))
      as [[[c i] queue']|] eqn:Hpop.
    + apply pop_target_Some in Hpop as (sk & Hq & Hsk & Hi).
      pose proof (index_of_Some _ _ _ Hi) as Hci.
      assert (c ∈ availableShots ai) as Hc
        by (eapply list_elem_of_lookup_2; eauto).
      pose proof (delete_without _ _ _ Hnd Hci) as Hw.
      pose proof (erase_first_without c _ Hpnd) as Hwp.
      split; [eapply Hkeep; eauto; congruence|]. simpl.
      split_and!; try reflexivity; try assumption. right. auto.
    + destruct (last (parityShots ai)) as [c|] eqn:Hlast.
      * apply last_Some in Hlast as [ps Hps].
        assert (c ∈ availableShots ai) as Hc.
        { apply Hsub; [reflexivity|]. rewrite Hps.
          apply elem_of_app. right. left. }
        pose proof (erase_first_without c _ Hnd) as Hw.
        assert (without c (parityShots ai) (removelast (parityShots ai)))
          as Hwp.
        { rewrite Hps, removelast_last. apply without_snoc.
          rewrite <- Hps. assumption. }
        split; [eapply Hkeep; eauto; congruence|]. simpl.
        split_and!; try reflexivity; try assumption. right. auto.
      * pose proof (pick_random_spec ai [] g Hnd Hne) as Hr.
        destruct (AI.pick_random ai [] g) as [[c ai'] g'] eqn:Hp.
        destruct Hr as (Hc & Hw & Hpar & Hq & Hg & _).
        unfold AI.pick_random in Hp. destruct (rand g) as [r g1].
        injection Hp as <- <- <-. simpl in *.
        assert (parityShots ai = []) as Hempty.
        { destruct (parityShots ai) as [|x l] using rev_ind;
            [reflexivity|]. rewrite last_snoc in Hlast. discriminate. }
        assert (without
                  (default (-1, -1)
                     (availableShots ai
                      !! Z.to_nat (r mod Z.of_nat (length (availableShots ai)))))
                  (parityShots ai) (parityShots ai)) as Hwp.
        { rewrite Hempty. split; [constructor|].
          intros x. split; [intros Hx; inversion Hx|intros [Hx _]; inversion Hx]. }
        split; [eapply Hkeep; eauto; congruence|].
        split_and!; try reflexivity; try assumption. right. auto.
Qed.

(** ** C6 *)

(** C6. The smart opponent picks in three tiers.  (1) If the follow-up
    queue holds an entry that is still in the pool of untried cells, the
    first such entry is returned and the entries before it are dropped with
    it.  (2) Otherwise, if the parity pool is not empty, its last cell is
    returned and removed.  (3) Otherwise a cell of the pool of untried cells
    is drawn with [rand].  In all three cases the returned cell leaves both
    pools. *)
Theorem pick_smart_priority (ai : AILogic) (g : Rng) :
  difficulty ai = SMART -> pools_ok ai ->
  (forall skipped t rest,
     targetQueue ai = skipped ++ t :: rest ->
     Forall (fun d => d ∉ availableShots ai) skipped ->
     t ∈ availableShots ai ->
     exists ai', AI.pickAttackCoordinates ai g = (t, ai', g)
       /\ targetQueue ai' = rest
       /\ without t (availableShots ai) (availableShots ai')
       /\ without t (parityShots ai) (parityShots ai'))
  /\ (Forall (fun d => d ∉ availableShots ai) (targetQueue ai) ->
      forall ps t, parityShots ai = ps ++ [t] ->
      exists ai', AI.pickAttackCoordinates ai g = (t, ai', g)
        /\ targetQueue ai' = [] /\ parityShots ai' = ps
        /\ without t (availableShots ai) (availableShots ai'))
  /\ (Forall (fun d => d ∉ availableShots ai) (targetQueue ai) ->
      parityShots ai = [] -> availableShots ai <> [] ->
      exists t ai', AI.pickAttackCoordinates ai g = (t, ai', (rand g).2)
        /\ availableShots ai
           !! Z.to_nat ((rand g).1 mod Z.of_nat (length (availableShots ai)))
           = Some t
        /\ targetQueue ai' = [] /\ parityShots ai' = []
        /\ without t (availableShots ai) (availableShots ai')).
Proof.
  intros Hd Hok. destruct Hok as [Hnd Hpnd Hsub Hin Hsq].
  split_and!.
  - intros sk t rest Hq Hsk Ht.
    destruct (AI.index_of t (availableShots ai)) as [i|] eqn:Hi;
      [|apply index_of_None in Hi; contradiction].
    assert (AI.pop_target (availableShots ai) (targetQueue ai)
            = Some (t, i, rest)) as Hpop.
    { apply pop_target_Some. eauto. }
    unfold AI.pickAttackCoordinates. rewrite Hd, Hpop.
    destruct (availableShots ai) as [|a0 r0] eqn:Ha; [inversion Ht|].
    rewrite <- Ha in *. eexists. split; [reflexivity|]. simpl.
    split_and!; [reflexivity| |].
    + apply delete_without; [assumption|]. apply index_of_Some. assumption.
    + apply erase_first_without. assumption.
  - intros Hq ps t Hps.
    apply pop_target_None in Hq.
    assert (t ∈ availableShots ai) as Ht.
    { apply Hsub; [assumption|]. rewrite Hps. apply elem_of_app.
      right. left. }
    unfold AI.pickAttackCoordinates. rewrite Hd, Hq, Hps, last_snoc.
    destruct (availableShots ai) as [|a0 r0] eqn:Ha; [inversion Ht|].
    rewrite <- Ha in *. eexists. split; [reflexivity|]. simpl.
    split_and!; [reflexivity|apply removelast_last|].
    apply erase_first_without. assumption.
  - intros Hq Hp Hne.
    apply pop_target_None in Hq.
    pose proof (pick_random_spec ai [] g Hnd Hne) as Hr.
    unfold AI.pickAttackCoordinates. rewrite Hd, Hq, Hp. simpl.
    destruct (availableShots ai) as [|a0 r0] eqn:Ha; [contradiction|].
    rewrite <- Ha in *.
    destruct (AI.pick_random ai [] g) as [[c ai'] g'].
    destruct Hr as (Hc & Hw & Hpar & Hq' & -> & Hidx).
    exists c, ai'. split; [reflexivity|].
    split_and!; try assumption. congruence.
Qed.

(** ** Recording an outcome *)

Lemma in_board_spec (n : Z) (c : Z * Z) :
  in_board n c = true <-> 0 <= c.1 < n /\ 0 <= c.2 < n.
Proof.
  unfold in_board. rewrite !andb_true_iff, !Z.leb_le, !Z.ltb_lt. lia.
Qed.

Lemma addSmartNeighbors_fold (ai : AILogic) (ds : list (Z * Z)) :
  grid_square (ai_boardSize ai) (opponentBoard ai) ->
  foldl AI.enqueue_neighbour (Some ai) ds
  = Some (set_targetQueue
            (targetQueue ai
             ++ filter (fun d => in_board (ai_boardSize ai) d
                                 && unknown (opponentBoard ai) d) ds)
            ai).
Proof.
  intros Hsq. revert ai Hsq. induction ds as [|[nx ny] ds IH]; intros ai Hsq.
  - simpl. rewrite app_nil_r. destruct ai. reflexivity.
  - cbn [foldl].
    set (keep := in_board (ai_boardSize ai) (nx, ny)
                 && unknown (opponentBoard ai) (nx, ny)).
    assert (AI.enqueue_neighbour (Some ai) (nx, ny)
            = Some (if keep
                    then set_targetQueue (targetQueue ai ++ [(nx, ny)]) ai
                    else ai)) as Hstep.
    { unfold AI.enqueue_neighbour, keep, in_board, unknown.
      cbn [fst snd mbind option_bind].
      destruct ((0 <=? nx) && (nx <? ai_boardSize ai) && (0 <=? ny)
                && (ny <? ai_boardSize ai)) eqn:Hb; [|reflexivity].
      change (in_board (ai_boardSize ai) (nx, ny) = true) in Hb.
      apply in_board_spec in Hb as [Hbx Hby]. simpl in Hbx, Hby.
      destruct (grid_get_is_Some (ai_boardSize ai) (opponentBoard ai) ny nx)
        as [c Hc]; [assumption..|].
      rewrite Hc. cbn [mbind option_bind andb].
      destruct (ascii_eqb c "?" || ascii_eqb c " "); reflexivity. }
    rewrite Hstep. clear Hstep.
    destruct keep eqn:Hk.
    + rewrite IH by assumption. simpl.
      rewrite filter_cons_True by (fold keep; rewrite Hk; exact I).
      rewrite <- app_assoc. reflexivity.
    + rewrite IH by assumption.
      rewrite filter_cons_False by (fold keep; rewrite Hk; exact id).
      reflexivity.
Qed.

Lemma filter_ext_elem {A} (P Q : A -> Prop)
    `{forall x, Decision (P x)} `{forall x, Decision (Q x)} (l : list A) :
  (forall x, x ∈ l -> P x <-> Q x) -> filter P l = filter Q l.
Proof.
  induction l as [|a l IH]; intros Hext; [reflexivity|].
  rewrite !filter_cons.
  rewrite IH by (intros x Hx; apply Hext; right; assumption).
  destruct (decide (P a)) as [Hp|Hp], (decide (Q a)) as [Hq|Hq];
    try reflexivity; exfalso; apply (Hext a) in Hp || apply (Hext a) in Hq;
    try contradiction; left.
Qed.

Lemma unknown_set_ne (g g' : Grid) (x y : Z) (a : ascii) (d : Z * Z) :
  grid_set g y x a = Some g' -> d <> (x, y) -> unknown g' d = unknown g d.
Proof.
  intros Hset Hne. unfold unknown.
  rewrite (grid_get_set_ne _ _ _ _ d.2 d.1 _ Hset); [reflexivity|].
  intros [= Hy Hx]. apply Hne. destruct d; simpl in *. congruence.
Qed.

Lemma neighbours_other (x y : Z) (d : Z * Z) :
  d ∈ AI.neighbours x y -> d <> (x, y).
Proof.
  unfold AI.neighbours. rewrite !elem_of_cons, elem_of_nil.
  intros [->|[->|[->|[->|[]]]]] [= ? ?]; lia.
Qed.

(** What [recordShotResult] does: outside the board nothing; inside, the
    knowledge cell is marked, and the smart opponent enqueues the fresh
    neighbours after a hit that did not sink.  The pools are not touched. *)
Lemma recordShotResult_spec (ai : AILogic) (x y : Z) (hit sunk : bool) :
  grid_square (ai_boardSize ai) (opponentBoard ai) ->
  exists ai', AI.recordShotResult ai x y hit sunk = Some ai'
    /\ availableShots ai' = availableShots ai
    /\ parityShots ai' = parityShots ai
    /\ difficulty ai' = difficulty ai
    /\ ai_boardSize ai' = ai_boardSize ai
    /\ aiBoard ai' = aiBoard ai
    /\ grid_square (ai_boardSize ai') (opponentBoard ai')
    /\ if in_board (ai_boardSize ai) (x, y) then
         grid_set (opponentBoard ai) y x (if hit then "X" else "O")%char
         = Some (opponentBoard ai')
         /\ targetQueue ai'
            = targetQueue ai
              ++ (if bool_decide (difficulty ai = SMART) && hit && negb sunk
                  then fresh_neighbours ai x y else [])
       else ai' = ai.
Proof.
  intros Hsq. unfold AI.recordShotResult.
  change ((0 <=? x) && (x <? ai_boardSize ai) && (0 <=? y)
          && (y <? ai_boardSize ai))
    with (in_board (ai_boardSize ai) (x, y)).
  destruct (in_board (ai_boardSize ai) (x, y)) eqn:Hb.
  2:{ exists ai. split_and!; try reflexivity. assumption. }
  apply in_board_spec in Hb as [Hx Hy]. simpl in Hx, Hy.
  destruct (grid_set_is_Some (ai_boardSize ai) (opponentBoard ai) y x
              (if hit then "X" else "O")%char) as [ob Hob]; [assumption..|].
  rewrite Hob. cbn [mbind option_bind].
  pose proof (grid_set_square _ _ _ _ _ _ Hsq Hob) as Hsq'.
  assert (fresh_neighbours (set_knowledge ob (lastHit ai) (hunting ai) ai)
                           x y = fresh_neighbours ai x y) as Hfresh.
  { unfold fresh_neighbours. simpl. apply filter_ext_elem.
    intros d Hd. rewrite (unknown_set_ne _ _ _ _ _ d Hob); [reflexivity|].
    apply neighbours_other. assumption. }
  destruct (difficulty ai) eqn:Hd; simpl; rewrite Hd; simpl.
  - eexists. split; [reflexivity|].
    destruct hit; simpl; rewrite ?app_nil_r; split_and!; auto.
  - destruct hit, sunk; simpl;
      try (unfold AI.addSmartNeighbors;
           rewrite addSmartNeighbors_fold by (simpl; assumption);
           fold (fresh_neighbours
                   (set_knowledge ob (lastHit ai) (hunting ai) ai) x y);
           rewrite Hfresh; simpl);
      (eexists; split; [reflexivity|]);
      simpl; rewrite ?app_nil_r; split_and!; auto.
Qed.

Lemma recordShotResult_pools (ai : AILogic) (x y : Z) (hit sunk : bool) :
  pools_ok ai ->
  exists ai', AI.recordShotResult ai x y hit sunk = Some ai'
    /\ pools_ok ai'
    /\ availableShots ai' = availableShots ai
    /\ parityShots ai' = parityShots ai
    /\ difficulty ai' = difficulty ai
    /\ ai_boardSize ai' = ai_boardSize ai.
Proof.
  intros [Hnd Hpnd Hsub Hin Hsq].
  destruct (recordShotResult_spec ai x y hit sunk Hsq)
    as (ai' & Heq & Ha & Hp & Hd & Hn & _ & Hsq' & _).
  exists ai'. split_and!; try assumption.
  split; rewrite ?Ha, ?Hp, ?Hd, ?Hn; try assumption.
  rewrite <- Hn. assumption.
Qed.

(** ** A freshly constructed opponent *)

Lemma all_cells_elem (n : Z) (c : Z * Z) :
  c ∈ AI.all_cells n <-> 0 <= c.1 < n /\ 0 <= c.2 < n.
Proof.
  unfold AI.all_cells. rewrite list_elem_of_bind. split.
  - intros (i & Hc & Hi). apply list_elem_of_fmap in Hc as (j & -> & Hj).
    apply elem_of_seqZ in Hi, Hj. simpl. lia.
  - intros [Hx Hy]. exists c.2. split.
    + apply list_elem_of_fmap. exists c.1. split; [destruct c; reflexivity|].
      apply elem_of_seqZ. lia.
    + apply elem_of_seqZ. lia.
Qed.

Lemma all_cells_NoDup (n : Z) : NoDup (AI.all_cells n).
Proof.
  unfold AI.all_cells. apply NoDup_bind.
  - intros i1 i2 c _ _ (j1 & -> & _)%list_elem_of_fmap
      (j2 & [= _ ->] & _)%list_elem_of_fmap. reflexivity.
  - intros i _. apply NoDup_fmap_2; [|apply NoDup_seqZ].
    intros j1 j2 [= ->]. reflexivity.
  - apply NoDup_seqZ.
Qed.

Lemma parity_cells_sub (n : Z) (c : Z * Z) :
  c ∈ AI.parity_cells n -> c ∈ AI.all_cells n.
Proof. unfold AI.parity_cells. intros [_ H]%list_elem_of_filter. exact H. Qed.

Lemma parity_cells_NoDup (n : Z) : NoDup (AI.parity_cells n).
Proof. apply NoDup_filter, all_cells_NoDup. Qed.

(** ** The cell map of a board *)

Lemma scan_cells_elem (n : Z) (i j : Z) :
  (i, j) ∈ Board.scan_cells n <-> 0 <= i < n /\ 0 <= j < n.
Proof.
  unfold Board.scan_cells. rewrite list_elem_of_bind. split.
  - intros (i' & Hc & Hi). apply list_elem_of_fmap in Hc as (j' & [= -> ->] & Hj).
    apply elem_of_seqZ in Hi, Hj. lia.
  - intros [Hi Hj]. exists i. split.
    + apply list_elem_of_fmap. exists j. split; [reflexivity|].
      apply elem_of_seqZ. lia.
    + apply elem_of_seqZ. lia.
Qed.

(** A fold that is defined at every step keeps a property of the part of
    the list already visited. *)
Lemma foldl_option_prefix {A B} (P : list B -> A -> Prop)
    (step : option A -> B -> option A) (js : list B) (a : A) :
  (forall pre j a0, j ∈ js -> P pre a0 ->
     exists a1, step (Some a0) j = Some a1 /\ P (pre ++ [j]) a1) ->
  P [] a -> exists a', foldl step (Some a) js = Some a' /\ P js a'.
Proof.
  intros Hstep Ha.
  enough (H : forall pre a0, P pre a0 ->
            exists a', foldl step (Some a0) js = Some a' /\ P (pre ++ js) a')
    by exact (H [] a Ha).
  revert Hstep. clear Ha. induction js as [|j js IH]; intros Hstep pre a0 Ha0.
  - exists a0. rewrite app_nil_r. auto.
  - cbn [foldl]. destruct (Hstep pre j a0) as (a1 & -> & Ha1);
      [left|assumption|].
    destruct (IH) with (pre := pre ++ [j]) (a0 := a1) as (a' & Hf & Ha');
      [|assumption|].
    + intros pre' j' a2 Hj'. apply Hstep. right. assumption.
    + exists a'. split; [assumption|]. rewrite <- app_assoc in Ha'.
      exact Ha'.
Qed.

Lemma buildShipCellMap_spec (b : BoardData) :
  grid_square (boardSize b) (boardArray b) ->
  exists m,
    Board.buildShipCellMap b
    = Some (mkBoard (boardArray b) (myShips b) (shipStatus b) m
                    (boardSize b) (missCount b) (isHost b))
    /\ forall x y,
         m !! (x, y) = match grid_get (boardArray b) y x with
                       | Some c => if is_ship_char c then Some c else None
                       | None => None
                       end.
Proof.
  intros Hsq. unfold Board.buildShipCellMap.
  destruct (foldl_option_prefix
              (fun pre (m : gmap (Z * Z) ascii) =>
                 forall x y,
                   m !! (x, y)
                   = if decide ((y, x) ∈ pre) then
                       match grid_get (boardArray b) y x with
                       | Some c => if is_ship_char c then Some c else None
                       | None => None
                       end
                     else None)
              (fun (acc : option (gmap (Z * Z) ascii)) '(i, j) =>
                 m ← acc;
                 cell ← grid_get (boardArray b) i j;
                 Some (if is_ship_char cell then <[(j, i) := cell]> m else m))
              (Board.scan_cells (boardSize b)) ∅) as (m & -> & Hm).
  - intros pre [i j] m Hij Hm. apply scan_cells_elem in Hij as [Hi Hj].
    destruct (grid_get_is_Some _ _ i j Hsq Hi Hj) as [cell Hcell].
    cbn [mbind option_bind]. rewrite Hcell. cbn [mbind option_bind].
    eexists. split; [reflexivity|]. intros x y.
    destruct (decide ((y, x) = (i, j))) as [[= -> ->]|Hne].
    + rewrite decide_True by (apply elem_of_app; right; left).
      rewrite Hcell. destruct (is_ship_char cell) eqn:Ec.
      * apply lookup_insert_eq.
      * rewrite Hm. destruct (decide _); [|reflexivity].
        rewrite Hcell, Ec. reflexivity.
    + assert (m !! (x, y)
              = (if is_ship_char cell then <[(j, i) := cell]> m else m)
                  !! (x, y)) as <-.
      { destruct (is_ship_char cell); [|reflexivity].
        rewrite lookup_insert_ne; [reflexivity|]. congruence. }
      rewrite Hm.
      destruct (decide ((y, x) ∈ pre)) as [Hp|Hp].
      * rewrite decide_True by (apply elem_of_app; left; assumption).
        reflexivity.
      * rewrite decide_False; [reflexivity|].
        intros [?|Hl%list_elem_of_singleton]%elem_of_app; congruence.
  - intros x y. rewrite lookup_empty. destruct (decide _) as [H|_];
      [inversion H|reflexivity].
  - exists m. split; [reflexivity|]. intros x y. rewrite Hm.
    destruct (decide _) as [_|Hno]; [reflexivity|].
    destruct (grid_get (boardArray b) y x) as [c|] eqn:Hc; [|reflexivity].
    exfalso. apply Hno. apply scan_cells_elem.
    eapply grid_get_bound; eauto.
Qed.

Lemma buildShipCellMap_frame (b b' : BoardData) :
  Board.buildShipCellMap b = Some b' ->
  boardArray b' = boardArray b /\ myShips b' = myShips b
  /\ shipStatus b' = shipStatus b /\ boardSize b' = boardSize b
  /\ missCount b' = missCount b /\ isHost b' = isHost b.
Proof.
  unfold Board.buildShipCellMap.
  destruct (foldl _ _ _) as [m|]; [|discriminate].
  intros [= <-]. cbn. auto 10.
Qed.

Section Fresh.

Variable random_shuffle : list (Z * Z) -> Rng -> list (Z * Z) * Rng.
Hypothesis random_shuffle_perm : forall l g, (random_shuffle l g).1 ≡ₚ l.

(** The state the constructor leaves: an empty queue, a knowledge grid of
    ['?'], and the two pools holding all cells, respectively the cells of
    even parity, in the order [random_shuffle] gave them. *)
Lemma create_fresh (fuel : nat) (now clock : Z) (diff : AIDifficulty)
    (n : Z) (g : Rng) (ai : AILogic) (g1 : Rng) :
  AI.create random_shuffle fuel now clock diff n g = Done (ai, g1) ->
  difficulty ai = diff /\ ai_boardSize ai = n
  /\ opponentBoard ai = grid_make n "?" /\ targetQueue ai = []
  /\ availableShots ai ≡ₚ AI.all_cells n
  /\ parityShots ai ≡ₚ AI.parity_cells n.
Proof.
  unfold AI.create, AI.initializeAvailableShots, AI.setupBoard.
  cbn [ai_boardSize].
  pose proof (random_shuffle_perm (AI.all_cells n) (srand now g)) as Ha.
  destruct (random_shuffle (AI.all_cells n) (srand now g)) as [avail ga].
  pose proof (random_shuffle_perm (AI.parity_cells n) ga) as Hp.
  destruct (random_shuffle (AI.parity_cells n) ga) as [parity gp].
  cbn [fst snd] in *.
  destruct (GameLogic.initializeGamePieces _) as [b1 pieces].
  destruct (GameLogic.generateBoardPlacement _ _ _ _ _) as [[b2 g2]| |];
    try discriminate.
  destruct (Board.buildShipCellMap b2) as [b3|]; [|discriminate].
  intros [= <- <-]. simpl. auto 10.
Qed.

Lemma create_pools_ok (fuel : nat) (now clock : Z) (diff : AIDifficulty)
    (n : Z) (g : Rng) (ai : AILogic) (g1 : Rng) :
  0 <= n ->
  AI.create random_shuffle fuel now clock diff n g = Done (ai, g1) ->
  pools_ok ai.
Proof.
  intros Hn Hc.
  destruct (create_fresh fuel now clock diff n g ai g1 Hc)
    as (Hd & Hsz & Hob & Hq & Ha & Hp).
  split.
  - rewrite Ha. apply all_cells_NoDup.
  - rewrite Hp. apply parity_cells_NoDup.
  - intros _ c Hc'. rewrite Ha. apply parity_cells_sub.
    rewrite <- Hp. assumption.
  - intros c Hc'. rewrite Ha in Hc'. apply all_cells_elem in Hc'.
    apply in_board_spec. rewrite Hsz. assumption.
  - rewrite Hsz, Hob. apply grid_make_square. assumption.
Qed.

End Fresh.

Lemma demo_shuffle_perm (l : list (Z * Z)) (g : Rng) :
  (demo_shuffle l g).1 ≡ₚ l.
Proof. simpl. apply reverse_Permutation. Qed.

Lemma demo_ai_created :
  exists g1, AI.create demo_shuffle 20 0 12345 SMART 10 demo_rng
             = Done (demo_ai, g1).
Proof.
  assert (is_done (AI.create demo_shuffle 20 0 12345 SMART 10 demo_rng)
          = true) as Hdone by (vm_compute; reflexivity).
  unfold demo_ai.
  destruct (AI.create demo_shuffle 20 0 12345 SMART 10 demo_rng)
    as [[ai g1]| |]; try discriminate.
  exists g1. reflexivity.
Qed.

Lemma demo_ai_ok : pools_ok demo_ai /\ difficulty demo_ai = SMART.
Proof.
  destruct demo_ai_created as [g1 Hc]. split.
  - eapply (create_pools_ok demo_shuffle demo_shuffle_perm);
      [|exact Hc]. lia.
  - apply (create_fresh demo_shuffle demo_shuffle_perm) in Hc. apply Hc.
Qed.

(** ** C7 *)

Lemma pick_smart_head (ai : AILogic) (g : Rng) (d : Z * Z)
    (ds : list (Z * Z)) :
  difficulty ai = SMART -> targetQueue ai = d :: ds ->
  d ∈ availableShots ai ->
  (AI.pickAttackCoordinates ai g).1.1 = d.
Proof.
  intros Hd Hq Hin. unfold AI.pickAttackCoordinates.
  destruct (availableShots ai) as [|c l] eqn:E; [inversion Hin|].
  rewrite Hd, Hq. cbn [AI.pop_target].
  destruct (AI.index_of d (c :: l)) as [i|] eqn:Ei; [reflexivity|].
  apply index_of_None in Ei. contradiction.
Qed.

Lemma fresh_neighbours_elem (ai : AILogic) (x y : Z) (d : Z * Z) :
  d ∈ fresh_neighbours ai x y <->
  d ∈ AI.neighbours x y /\ in_board (ai_boardSize ai) d = true
  /\ unknown (opponentBoard ai) d = true.
Proof.
  unfold fresh_neighbours. rewrite list_elem_of_filter, andb_True.
  rewrite !Is_true_true. tauto.
Qed.

(** When the knowledge grid agrees with the pool, the neighbours enqueued
    are the neighbours still in the pool of untried cells. *)
Lemma fresh_neighbours_untried (ai : AILogic) (x y : Z) :
  pools_ok ai -> synced_but (x, y) ai ->
  fresh_neighbours ai x y
  = filter (fun d => d ∈ availableShots ai) (AI.neighbours x y).
Proof.
  intros Hok Hsync. unfold fresh_neighbours. apply filter_ext_elem.
  intros d Hd. apply neighbours_other in Hd.
  rewrite andb_True, !Is_true_true. split.
  - intros [Hb Hu]. apply Hsync; assumption.
  - intros Hin. pose proof (pool_inside ai Hok d Hin) as Hb.
    split; [assumption|]. apply Hsync; assumption.
Qed.

(** The engine records every pick before the next one, which keeps the
    knowledge grid and the pool in agreement. *)
Lemma pick_record_synced (ai : AILogic) (g : Rng) (hit sunk : bool) :
  pools_ok ai -> synced ai ->
  let '(c, ai1, _) := AI.pickAttackCoordinates ai g in
  c <> (-1, -1) ->
  synced_but c ai1
  /\ exists ai2, AI.recordShotResult ai1 c.1 c.2 hit sunk = Some ai2
       /\ pools_ok ai2 /\ synced ai2.
Proof.
  intros Hok Hsync. pose proof (pick_spec ai g Hok) as Hpick.
  destruct (AI.pickAttackCoordinates ai g) as [[c ai1] g1].
  destruct Hpick as (Hok1 & Hn & Hob & Hd & _ & Hcase). intros Hne.
  destruct Hcase as [(_ & -> & _)|(_ & Hc & Hw & _)]; [contradiction|].
  assert (synced_but c ai1) as Hbut.
  { intros d Hdc Hb. rewrite Hob. rewrite Hn in Hb.
    rewrite (Hsync d Hb). destruct Hw as [_ Hw]. rewrite Hw. tauto. }
  split; [assumption|].
  destruct (recordShotResult_spec ai1 c.1 c.2 hit sunk
              (knowledge_square ai1 Hok1))
    as (ai2 & Hrec & Ha & Hp & Hd2 & Hn2 & _ & Hsq2 & Hin).
  destruct (recordShotResult_pools ai1 c.1 c.2 hit sunk Hok1)
    as (ai2' & Hrec' & Hok2 & _).
  rewrite Hrec in Hrec'. injection Hrec' as <-.
  exists ai2. split_and!; try assumption.
  pose proof (pool_inside ai Hok c Hc) as Hcb.
  rewrite <- surjective_pairing, Hn, Hcb in Hin.
  destruct Hin as [Hset _].
  intros d Hb. rewrite Ha. rewrite Hn2 in Hb.
  destruct (decide (d = c)) as [->|Hdc].
  - split.
    + unfold unknown. rewrite (grid_get_set_eq _ _ _ _ _ Hset).
      destruct hit; vm_compute; discriminate.
    + intros Hin. exfalso. exact (without_not_elem _ _ _ Hw Hin).
  - rewrite (unknown_set_ne _ _ c.1 c.2 _ d Hset).
    + apply Hbut; assumption.
    + rewrite <- surjective_pairing. assumption.
Qed.

(** C7. For the smart opponent, recording a hit that did not sink at a cell
    of the board appends to the follow-up queue exactly the orthogonal
    neighbours of the cell that are on the board and not yet known (which,
    while knowledge grid and pool agree, are the neighbours still in the
    pool of untried cells), in the order up, down, left, right, and leaves
    the pools alone.  After such a record at (5,5) on a freshly constructed
    10x10 opponent the next pick is (5,4), one of the four neighbours. *)
Theorem record_hit_enqueues_neighbours :
  (forall ai x y,
     difficulty ai = SMART ->
     grid_square (ai_boardSize ai) (opponentBoard ai) ->
     in_board (ai_boardSize ai) (x, y) = true ->
     exists ai',
       AI.recordShotResult ai x y true false = Some ai'
       /\ targetQueue ai' = targetQueue ai ++ fresh_neighbours ai x y
       /\ availableShots ai' = availableShots ai
       /\ parityShots ai' = parityShots ai
       /\ (forall d, d ∈ fresh_neighbours ai x y <->
             d ∈ AI.neighbours x y /\ in_board (ai_boardSize ai) d = true
             /\ unknown (opponentBoard ai) d = true)
       /\ (pools_ok ai -> synced_but (x, y) ai ->
           fresh_neighbours ai x y
           = filter (fun d => d ∈ availableShots ai) (AI.neighbours x y)))
  /\ (forall random_shuffle fuel now clock g ai g1,
        (forall l g', (random_shuffle l g').1 ≡ₚ l) ->
        AI.create random_shuffle fuel now clock SMART 10 g = Done (ai, g1) ->
        exists ai1,
          AI.recordShotResult ai 5 5 true false = Some ai1
          /\ targetQueue ai1 = [(5, 4); (5, 6); (4, 5); (6, 5)]
          /\ forall g2,
               (AI.pickAttackCoordinates ai1 g2).1.1 = (5, 4)
               /\ (AI.pickAttackCoordinates ai1 g2).1.1
                  ∈ [(4, 5); (6, 5); (5, 4); (5, 6)]).
Proof.
  split.
  - intros ai x y Hd Hsq Hb.
    destruct (recordShotResult_spec ai x y true false Hsq)
      as (ai' & Hrec & Ha & Hp & _ & _ & _ & _ & Hin).
    rewrite Hb, Hd in Hin. destruct Hin as [_ Hq]. simpl in Hq.
    exists ai'. split_and!; try assumption.
    + apply fresh_neighbours_elem.
    + apply fresh_neighbours_untried.
  - intros shuffle fuel now clock g ai g1 Hperm Hc.
    pose proof (create_pools_ok shuffle Hperm fuel now clock SMART 10 g ai g1
                  ltac:(lia) Hc) as Hok.
    destruct (create_fresh shuffle Hperm fuel now clock SMART 10 g ai g1 Hc)
      as (Hd & Hsz & Hob & Hq & Ha & _).
    destruct (recordShotResult_spec ai 5 5 true false
                (knowledge_square ai Hok))
      as (ai1 & Hrec & Ha1 & Hp1 & Hd1 & Hn1 & _ & _ & Hin).
    destruct (recordShotResult_pools ai 5 5 true false Hok)
      as (ai1' & Hrec' & Hok1 & _).
    rewrite Hrec in Hrec'. injection Hrec' as <-.
    rewrite Hsz, Hd, Hq in Hin. simpl in Hin. destruct Hin as [_ Hq1].
    assert (fresh_neighbours ai 5 5 = [(5, 4); (5, 6); (4, 5); (6, 5)])
      as Hfresh.
    { unfold fresh_neighbours. rewrite Hsz, Hob. vm_compute. reflexivity. }
    rewrite Hfresh in Hq1.
    exists ai1. split; [assumption|]. split; [assumption|]. intros g2.
    assert ((5, 4) ∈ availableShots ai1) as Hin.
    { rewrite Ha1, Ha. apply all_cells_elem. simpl. lia. }
    rewrite (pick_smart_head ai1 g2 (5, 4) [(5, 6); (4, 5); (6, 5)]
               ltac:(congruence) Hq1 Hin).
    split; [reflexivity|]. right. right. left.
Qed.

Lemma pick_smart_priority_witness :
  exists ai',
    AI.pickAttackCoordinates demo_ai demo_rng = ((0, 0), ai', demo_rng)
    /\ targetQueue ai' = []
    /\ parityShots ai' = removelast (parityShots demo_ai)
    /\ without (0, 0) (availableShots demo_ai) (availableShots ai').
Proof.
  destruct (pick_smart_priority demo_ai demo_rng (proj2 demo_ai_ok)
              (proj1 demo_ai_ok)) as (_ & Hparity & _).
  apply (Hparity ltac:(vm_compute; constructor)
                 (removelast (parityShots demo_ai)) (0, 0)).
  vm_compute. reflexivity.
Defined.

Lemma record_hit_enqueues_neighbours_witness :
  exists ai1,
    AI.recordShotResult demo_ai 5 5 true false = Some ai1
    /\ targetQueue ai1 = [(5, 4); (5, 6); (4, 5); (6, 5)]
    /\ (AI.pickAttackCoordinates ai1 demo_rng).1.1 = (5, 4).
Proof.
  destruct demo_ai_created as [g1 Hc].
  destruct (proj2 record_hit_enqueues_neighbours demo_shuffle 20%nat 0 12345
              demo_rng demo_ai g1 demo_shuffle_perm Hc)
    as (ai1 & Hrec & Hq & Hpick).
  exists ai1. split; [assumption|]. split; [assumption|].
  apply (Hpick demo_rng).
Defined.

(** ** C10 *)

Lemma pick_none_iff (ai : AILogic) (g : Rng) :
  pools_ok ai ->
  (AI.pickAttackCoordinates ai g).1.1 = (-1, -1) <-> availableShots ai = [].
Proof.
  intros Hok. pose proof (pick_spec ai g Hok) as Hpick.
  destruct (AI.pickAttackCoordinates ai g) as [[c ai1] g1]. simpl.
  destruct Hpick as (_ & _ & _ & _ & _ & [(He & -> & _)|(Hne & Hc & _)]).
  - tauto.
  - split; [|contradiction]. intros ->.
    apply (pool_inside ai Hok), in_board_spec in Hc. simpl in Hc. lia.
Qed.

Lemma run_ai_spec (ops : list AIOp) (ai : AILogic) (g : Rng) :
  pools_ok ai ->
  exists picks ai' g',
    run_ai ops ai g = Some (picks, ai', g')
    /\ pools_ok ai'
    /\ NoDup (filter (fun c => c <> (-1, -1)) picks)
    /\ (forall c, c ∈ picks -> c = (-1, -1) \/ c ∈ availableShots ai)
    /\ (forall c, c ∈ availableShots ai' -> c ∈ availableShots ai)
    /\ (forall c, c ∈ picks -> c ∉ availableShots ai').
Proof.
  revert ai g. induction ops as [|op ops IH]; intros ai g Hok.
  - exists [], ai, g. simpl. split_and!; try done.
    + constructor.
    + intros c Hc. inversion Hc.
    + intros c Hc. inversion Hc.
  - destruct op as [|x y hit sunk]; simpl.
    + pose proof (pick_spec ai g Hok) as Hpick.
      pose proof (pick_none_iff ai g Hok) as Hnone.
      destruct (AI.pickAttackCoordinates ai g) as [[c ai1] g1].
      simpl in Hnone.
      destruct Hpick as (Hok1 & _ & _ & _ & _ & Hcase).
      destruct (IH ai1 g1 Hok1)
        as (picks & ai2 & g2 & -> & Hok2 & Hnd & Hsub & Hmono & Hgone).
      simpl. exists (c :: picks), ai2, g2. split; [reflexivity|].
      split; [assumption|].
      destruct Hcase as [(He & -> & -> & _)|(Hne & Hc & Hw & _)].
      * assert (forall d, d ∈ availableShots ai2 -> False) as Hempty.
        { intros d Hd. apply Hmono in Hd. rewrite He in Hd. inversion Hd. }
        split_and!.
        -- rewrite filter_cons_False by (intros H; apply H; reflexivity).
           assumption.
        -- intros d [->|Hd]%elem_of_cons; [left; reflexivity|].
           apply Hsub. assumption.
        -- assumption.
        -- intros d _ Hd. exact (Hempty d Hd).
      * assert (c <> (-1, -1)) as Hreal.
        { intros ->. apply Hne. apply Hnone. reflexivity. }
        split_and!.
        -- rewrite filter_cons_True by assumption. constructor; [|assumption].
           intros [_ Hin]%list_elem_of_filter.
           destruct (Hsub c Hin) as [->|Hin']; [congruence|].
           exact (without_not_elem _ _ _ Hw Hin').
        -- intros d [->|Hd]%elem_of_cons; [right; assumption|].
           destruct (Hsub d Hd) as [->|Hd']; [left; reflexivity|].
           right. apply (without_elem _ _ _ _ Hw Hd').
        -- intros d Hd. apply Hmono in Hd.
           apply (without_elem _ _ _ _ Hw Hd).
        -- intros d [->|Hd]%elem_of_cons.
           ++ intros Hin. apply Hmono in Hin.
              exact (without_not_elem _ _ _ Hw Hin).
           ++ apply Hgone. assumption.
    + destruct (recordShotResult_pools ai x y hit sunk Hok)
        as (ai1 & -> & Hok1 & Ha & _). simpl.
      destruct (IH ai1 g Hok1)
        as (picks & ai2 & g2 & -> & Hok2 & Hnd & Hsub & Hmono & Hgone).
      exists picks, ai2, g2. rewrite Ha in *. split_and!; auto.
Qed.

(** C10. On an opponent whose pools are consistent, a pick answers
    (-1, -1) exactly when the pool of untried cells is empty; otherwise it
    answers a cell of the pool and takes it out.  Hence, over any series of
    picks and recorded outcomes on one opponent, no cell is answered
    twice, and every cell answered came from the pool the series started
    with. *)
Theorem pick_never_repeats (ai : AILogic) :
  pools_ok ai ->
  (forall g, (AI.pickAttackCoordinates ai g).1.1 = (-1, -1)
             <-> availableShots ai = [])
  /\ (forall g, availableShots ai <> [] ->
        (AI.pickAttackCoordinates ai g).1.1 ∈ availableShots ai
        /\ without (AI.pickAttackCoordinates ai g).1.1 (availableShots ai)
             (availableShots (AI.pickAttackCoordinates ai g).1.2))
  /\ (forall ops g, exists picks ai' g',
        run_ai ops ai g = Some (picks, ai', g')
        /\ NoDup (filter (fun c => c <> (-1, -1)) picks)
        /\ (forall c, c ∈ picks -> c = (-1, -1) \/ c ∈ availableShots ai)
        /\ (forall c, c ∈ picks -> c ∉ availableShots ai')).
Proof.
  intros Hok. split_and!.
  - intros g. apply pick_none_iff. assumption.
  - intros g Hne. pose proof (pick_spec ai g Hok) as Hpick.
    destruct (AI.pickAttackCoordinates ai g) as [[c ai1] g1]. simpl.
    destruct Hpick as (_ & _ & _ & _ & _ & [(He & _)|(_ & Hc & Hw & _)]);
      [contradiction|auto].
  - intros ops g.
    destruct (run_ai_spec ops ai g Hok)
      as (picks & ai' & g' & Hrun & _ & Hnd & Hsub & _ & Hgone).
    exists picks, ai', g'. auto.
Qed.

Lemma pick_never_repeats_witness :
  (AI.pickAttackCoordinates demo_ai demo_rng).1.1 = (0, 0)
  /\ exists picks ai' g',
       run_ai [OpPick; OpRecord 0 0 true false; OpPick; OpPick]
              demo_ai demo_rng = Some (picks, ai', g')
       /\ picks = [(0, 0); (0, 1); (1, 0)]
       /\ NoDup (filter (fun c => c <> (-1, -1)) picks).
Proof.
  destruct (pick_never_repeats demo_ai (proj1 demo_ai_ok))
    as (_ & _ & Hrun).
  split; [vm_compute; reflexivity|].
  destruct (Hrun [OpPick; OpRecord 0 0 true false; OpPick; OpPick] demo_rng)
    as (picks & ai' & g' & Heq & Hnd & _).
  exists picks, ai', g'. split; [assumption|]. split; [|assumption].
  assert ((fun r => r.1.1)
            <$> run_ai [OpPick; OpRecord 0 0 true false; OpPick; OpPick]
                       demo_ai demo_rng
          = Some [(0, 0); (0, 1); (1, 0)]) as Hp
    by (vm_compute; reflexivity).
  rewrite Heq in Hp. simpl in Hp. injection Hp as ->. reflexivity.
Defined.

(** ** Turn engine: the firing loops *)

(** The player's loop over [p :: pre ++ rest] is the loop over [p :: pre],
    followed by the loop over [rest] unless the first part ended with the
    connection lost or with no enemy ship left. *)
Lemma player_fire_loop_app (pre rest : list (Z * Z)) (p : Z * Z)
    (fired : list (Z * Z)) (v : Volley) (st : GameLoopState) :
  GameLoop.player_fire_loop ((p :: pre) ++ rest) fired v st
  = '(res, st') ← GameLoop.player_fire_loop (p :: pre) fired v st;
    match res with
    | None => Done (None, st')
    | Some (fired', v') =>
        if enemyShipsRemaining st' <=? 0 then Done (res, st')
        else GameLoop.player_fire_loop rest fired' v' st'
    end.
Proof.
  revert p fired v st. induction pre as [|q pre IH]; intros [x y] fired v st.
  - cbn [app GameLoop.player_fire_loop].
    destruct (GameLoop.resolve_player_shot x y st) as [[res st1]| |];
      cbn [mbind outcome_bind]; try reflexivity.
    destruct res as [r|]; [|reflexivity].
    destruct (GameLoop.apply_player_result _ _ _ _ _) as [[v2 st2]| |];
      cbn [mbind outcome_bind]; try reflexivity.
    destruct (enemyShipsRemaining st2 <=? 0) eqn:He;
      cbn [mbind outcome_bind]; rewrite He; reflexivity.
  - change ((((x, y) :: q :: pre) ++ rest))
      with ((x, y) :: ((q :: pre) ++ rest)).
    cbn [GameLoop.player_fire_loop].
    destruct (GameLoop.resolve_player_shot x y st) as [[res st1]| |];
      cbn [mbind outcome_bind]; try reflexivity.
    destruct res as [r|]; [|reflexivity].
    destruct (GameLoop.apply_player_result _ _ _ _ _) as [[v2 st2]| |];
      cbn [mbind outcome_bind]; try reflexivity.
    destruct (enemyShipsRemaining st2 <=? 0) eqn:He.
    + cbn [mbind outcome_bind]. rewrite He. reflexivity.
    + apply IH.
Qed.

(** The same for the enemy's loop, counted in iterations: the first
    [S k] iterations, then [m] more unless the loop was left, on a pool
    that ran dry (fewer than [S k] shots fired) or with no ship left. *)
Lemma enemy_fire_loop_add (k m : nat) (fired : list (Z * Z)) (v : Volley)
    (st : GameLoopState) :
  GameLoop.enemy_fire_loop (S k + m) fired v st
  = '(fired', v', st') ← GameLoop.enemy_fire_loop (S k) fired v st;
    if (playerShipsRemaining st' <=? 0)
       || negb (length fired' =? length fired + S k)%nat
    then Done (fired', v', st')
    else GameLoop.enemy_fire_loop m fired' v' st'.
Proof.
  revert fired v st. induction k as [|k IH]; intros fired v st.
  - cbn [Nat.add GameLoop.enemy_fire_loop].
    destruct (GameLoop.next_enemy_shot st) as [[[x y]|] st1].
    + destruct (defined (Board.receiveShot (playerBoard st1) x y))
        as [[r pb]| |]; cbn [mbind outcome_bind]; try reflexivity.
      destruct (GameLoop.apply_enemy_result _ _ _ _ _) as [[v2 st2]| |];
        cbn [mbind outcome_bind]; try reflexivity.
      destruct (playerShipsRemaining st2 <=? 0) eqn:He;
        cbn [mbind outcome_bind]; rewrite He; cbn [orb]; [reflexivity|].
      rewrite length_app. cbn [length].
      rewrite Nat.eqb_refl. reflexivity.
    + cbn [mbind outcome_bind].
      replace (length fired =? length fired + 1)%nat with false
        by (symmetry; apply Nat.eqb_neq; lia).
      rewrite orb_true_r. reflexivity.
  - change (S (S k) + m)%nat with (S (S k + m)).
    cbn [GameLoop.enemy_fire_loop].
    destruct (GameLoop.next_enemy_shot st) as [[[x y]|] st1].
    + destruct (defined (Board.receiveShot (playerBoard st1) x y))
        as [[r pb]| |]; cbn [mbind outcome_bind]; try reflexivity.
      destruct (GameLoop.apply_enemy_result _ _ _ _ _) as [[v2 st2]| |];
        cbn [mbind outcome_bind]; try reflexivity.
      destruct (playerShipsRemaining st2 <=? 0) eqn:He.
      * cbn [mbind outcome_bind]. rewrite He. reflexivity.
      * specialize (IH (fired ++ [(x, y)]) v2 st2).
        rewrite length_app in IH. cbn [length] in IH.
        replace (length fired + 1 + S k)%nat
          with (length fired + S (S k))%nat in IH by lia.
        exact IH.
    + cbn [mbind outcome_bind].
      replace (length fired =? length fired + S (S k))%nat with false
        by (symmetry; apply Nat.eqb_neq; lia).
      rewrite orb_true_r. reflexivity.
Qed.

(** ** Turn engine: what a shot changes *)

Lemma bind_Done {A B} (m : outcome A) (f : A -> outcome B) (b : B) :
  m ≫= f = Done b -> exists a, m = Done a /\ f a = Done b.
Proof. destruct m as [a| |]; cbn; [eauto|discriminate..]. Qed.

Lemma defined_Done {A} (o : option A) (a : A) :
  defined o = Done a -> o = Some a.
Proof. destruct o; cbn; congruence. Qed.

Lemma foldl_outcome_stuck {A B} (g : outcome A -> B -> outcome A)
    (l : list B) (m : outcome A) (a : A) :
  (forall b, g Undefined b = Undefined) ->
  (forall b, g OutOfFuel b = OutOfFuel) ->
  foldl g m l = Done a -> exists a0, m = Done a0.
Proof.
  intros Hu Hf. revert m. induction l as [|b l IH]; intros m; cbn.
  - eauto.
  - intros H. destruct (IH _ H) as [a0 E].
    destruct m as [a1| |]; [eauto| |].
    + rewrite Hu in E. discriminate.
    + rewrite Hf in E. discriminate.
Qed.

(** A property kept by every defined step holds at the end of a fold. *)
Lemma foldl_outcome_inv {A B} (P : A -> Prop)
    (g : outcome A -> B -> outcome A) (l : list B) (a a' : A) :
  (forall b, g Undefined b = Undefined) ->
  (forall b, g OutOfFuel b = OutOfFuel) ->
  (forall a b a', P a -> g (Done a) b = Done a' -> P a') ->
  P a -> foldl g (Done a) l = Done a' -> P a'.
Proof.
  intros Hu Hf Hstep. revert a. induction l as [|b l IH]; intros a Ha; cbn.
  - intros [= <-]. exact Ha.
  - intros H. destruct (foldl_outcome_stuck g l _ _ Hu Hf H) as [a1 E].
    rewrite E in H. apply (IH a1); [|exact H].
    exact (Hstep a b a1 Ha E).
Qed.

Lemma view_only_refl (st : GameLoopState) : view_only st st.
Proof.
  exists (enemyBoard st), (enemyKnownBoard st).
  destruct st; cbn. split_and!; auto.
Qed.

Lemma view_only_trans (st1 st2 st3 : GameLoopState) :
  view_only st1 st2 -> view_only st2 st3 -> view_only st1 st3.
Proof.
  intros (eb & kn & -> & Hk & He) (eb' & kn' & -> & Hk' & He').
  exists eb', kn'. cbn in *. split_and!; auto.
Qed.

Lemma view_only_kept (st st' : GameLoopState) :
  view_only st st' ->
  player_side_kept st st' /\ opponent st' = opponent st
  /\ playerHits st' = playerHits st
  /\ enemyShipsRemaining st' = enemyShipsRemaining st
  /\ playerTurn st' = playerTurn st.
Proof.
  intros (eb & kn & -> & _). unfold player_side_kept. cbn. split_and!; auto.
Qed.

Lemma mark_enemy_view (x y : Z) (k c : ascii) (st st' : GameLoopState) :
  GameLoop.mark_enemy x y k c st = Done st' -> view_only st st'.
Proof.
  unfold GameLoop.mark_enemy. intros H.
  apply bind_Done in H as (kn & Hk & H). apply defined_Done in Hk.
  apply bind_Done in H as (g & Hg & H). apply defined_Done in Hg.
  injection H as <-.
  exists (set_boardArray g (enemyBoard st)), kn. split_and!; [reflexivity| |].
  - intros n Hn. exact (grid_set_square n _ _ _ _ _ Hn Hk).
  - intros n Hn. cbn. exact (grid_set_square n _ _ _ _ _ Hn Hg).
Qed.

Lemma flood_sunk_view (fuel : nat) (queue : list (Z * Z))
    (st st' : GameLoopState) :
  GameLoop.flood_sunk fuel queue st = Done st' -> view_only st st'.
Proof.
  revert queue st. induction fuel as [|fuel IH]; intros [|[cx cy] queue] st;
    cbn [GameLoop.flood_sunk]; try discriminate.
  - intros [= <-]. apply view_only_refl.
  - intros [= <-]. apply view_only_refl.
  - intros H. apply bind_Done in H as ([q st1] & Hf & H).
    apply IH in H. refine (view_only_trans _ _ _ _ H). clear H IH.
    revert Hf.
    apply (foldl_outcome_inv (fun p => view_only st p.2)).
    + intros [nx ny]. reflexivity.
    + intros [nx ny]. reflexivity.
    + intros [q0 s0] [nx ny] [q1 s1] Hv. cbn [mbind outcome_bind snd].
      destruct ((0 <=? nx) && (nx <? size s0) && (0 <=? ny)
                && (ny <? size s0)); [|intros [= _ <-]; exact Hv].
      intros H. apply bind_Done in H as (c & Hc & H).
      destruct (ascii_eqb c "x"); [|injection H as _ <-; exact Hv].
      apply bind_Done in H as (g & Hg & H). apply defined_Done in Hg.
      apply bind_Done in H as (kn & Hk & H). apply defined_Done in Hk.
      injection H as _ <-.
      refine (view_only_trans _ _ _ Hv _).
      exists (set_boardArray g (enemyBoard s0)), kn.
      split_and!; [reflexivity| |].
      * intros n Hn. exact (grid_set_square n _ _ _ _ _ Hn Hk).
      * intros n Hn. cbn. exact (grid_set_square n _ _ _ _ _ Hn Hg).
    + apply view_only_refl.
Qed.

(** One resolved shot of the player: the enemy's counter stays or, on a
    sinking, goes down by one; the player's own side is not touched. *)
Lemma apply_player_result_spec (x y r : Z) (v v' : Volley)
    (st st' : GameLoopState) :
  GameLoop.apply_player_result x y r v st = Done (v', st') ->
  player_side_kept st st' /\ opponent st' = opponent st
  /\ playerTurn st' = playerTurn st
  /\ volleyCoords v' = volleyCoords v
  /\ enemyShipsRemaining st'
     = (if r =? 2 then enemyShipsRemaining st - 1 else enemyShipsRemaining st)
  /\ (forall n, grid_square n (enemyKnownBoard st) ->
                grid_square n (enemyKnownBoard st'))
  /\ (forall n, grid_square n (boardArray (enemyBoard st)) ->
                grid_square n (boardArray (enemyBoard st'))).
Proof.
  unfold GameLoop.apply_player_result. intros H.
  assert (Hview : forall s v0,
            view_only s st' -> v' = v0 ->
            player_side_kept st s -> opponent s = opponent st ->
            playerTurn s = playerTurn st ->
            volleyCoords v0 = volleyCoords v ->
            enemyKnownBoard s = enemyKnownBoard st ->
            enemyBoard s = enemyBoard st ->
            player_side_kept st st' /\ opponent st' = opponent st
            /\ playerTurn st' = playerTurn st
            /\ volleyCoords v' = volleyCoords v
            /\ enemyShipsRemaining st' = enemyShipsRemaining s
            /\ (forall n, grid_square n (enemyKnownBoard st) ->
                          grid_square n (enemyKnownBoard st'))
            /\ (forall n, grid_square n (boardArray (enemyBoard st)) ->
                          grid_square n (boardArray (enemyBoard st')))).
  { intros s v0 Hv -> Hk Ho Ht Hc Hkn Heb.
    pose proof (view_only_kept _ _ Hv) as (Hk' & Ho' & _ & He' & Ht').
    destruct Hv as (eb & kn & -> & Hsk & Hse).
    unfold player_side_kept in *. cbn in *. rewrite <- Hkn, <- Heb.
    split_and!; try tauto; congruence. }
  assert (Hrefl : player_side_kept st st) by (unfold player_side_kept; tauto).
  destruct (r =? 0) eqn:E0.
  { apply bind_Done in H as (s1 & Hm & H). injection H as <- <-.
    apply mark_enemy_view in Hm.
    assert ((r =? 2) = false) as -> by lia.
    apply (Hview _ _ Hm eq_refl); auto. }
  destruct (r =? 1) eqn:E1.
  { apply bind_Done in H as (s1 & Hm & H). injection H as <- <-.
    apply mark_enemy_view in Hm.
    assert ((r =? 2) = false) as -> by lia.
    apply (Hview _ _ Hm eq_refl); auto. }
  destruct (r =? 2) eqn:E2.
  { cbn [opponent GameLoop.set_player_score] in H.
    destruct (opponent st) as [ai|sk] eqn:Eo.
    - apply bind_Done in H as (s1 & Hm & H). injection H as <- <-.
      assert (Hv : view_only
                (GameLoop.set_player_score (playerHits st + 1)
                   (enemyShipsRemaining st - 1) st) s1).
      { revert Hm. apply (foldl_outcome_inv (view_only _)).
        - intros [cx cy]. reflexivity.
        - intros [cx cy]. reflexivity.
        - intros a [cx cy] a' Ha Hs. cbn [mbind outcome_bind] in Hs.
          apply mark_enemy_view in Hs. exact (view_only_trans _ _ _ Ha Hs).
        - apply view_only_refl. }
      apply (Hview _ _ Hv eq_refl); auto.
    - apply bind_Done in H as (s1 & Hm & H).
      apply bind_Done in H as (s2 & Hfl & H). injection H as <- <-.
      apply mark_enemy_view in Hm. apply flood_sunk_view in Hfl.
      apply (Hview _ _ (view_only_trans _ _ _ Hm Hfl) eq_refl); auto. }
  injection H as <- <-. apply (Hview _ _ (view_only_refl st) eq_refl); auto.
Qed.

Lemma close_opponent_spec (st : GameLoopState) :
  exists o, GameLoop.close_opponent st = GameLoop.set_opponent o st.
Proof.
  unfold GameLoop.close_opponent. destruct (opponent st) as [ai|s] eqn:E.
  - exists (OppAI ai). rewrite <- E. destruct st; reflexivity.
  - eauto.
Qed.

Lemma resolve_player_shot_spec (x y : Z) (st st' : GameLoopState)
    (res : option Z) :
  GameLoop.resolve_player_shot x y st = Done (res, st') ->
  exists o, st' = GameLoop.set_opponent o st.
Proof.
  unfold GameLoop.resolve_player_shot.
  destruct (opponent st) as [ai|s].
  - intros H. apply bind_Done in H as ([r b'] & _ & H).
    injection H as _ <-. eauto.
  - destruct (NetworkLogic.sendShot s (x, y)) as [[|] s1]; cbn [negb].
    + destruct (NetworkLogic.receiveShotResult s1) as [[a|] s2];
        intros [= _ <-]; eauto.
    + intros [= _ <-]; eauto.
Qed.

(** The player's loop: the shots fired are a first part of the salvo, all
    of it unless the enemy has no ship left; the enemy's counter only goes
    down, one ship at a time, and not below zero. *)
Lemma player_fire_loop_spec (sel fired : list (Z * Z)) (v : Volley)
    (st st' : GameLoopState) (res : option (list (Z * Z) * Volley)) :
  GameLoop.player_fire_loop sel fired v st = Done (res, st') ->
  player_side_kept st st' /\ playerTurn st' = playerTurn st
  /\ enemyShipsRemaining st' <= enemyShipsRemaining st
  /\ (0 < enemyShipsRemaining st -> 0 <= enemyShipsRemaining st')
  /\ (forall n, grid_square n (enemyKnownBoard st) ->
                grid_square n (enemyKnownBoard st'))
  /\ (forall n, grid_square n (boardArray (enemyBoard st)) ->
                grid_square n (boardArray (enemyBoard st')))
  /\ forall f v', res = Some (f, v') ->
       exists done rest,
         sel = done ++ rest /\ f = fired ++ done
         /\ volleyCoords v' = volleyCoords v ++ done
         /\ (0 < enemyShipsRemaining st' -> rest = []).
Proof.
  revert fired v st. induction sel as [|[x y] sel IH]; intros fired v st.
  - cbn. intros [= <- <-]. unfold player_side_kept.
    split_and!; auto; try lia.
    intros f v' [= <- <-]. exists [], []. rewrite !app_nil_r. auto.
  - cbn [GameLoop.player_fire_loop]. intros H.
    apply bind_Done in H as ([r st1] & Hres & H).
    apply resolve_player_shot_spec in Hres as [o ->].
    destruct r as [r|].
    2:{ injection H as <- <-. unfold player_side_kept. cbn.
        split_and!; auto; try lia. discriminate. }
    apply bind_Done in H as ([v2 st2] & Hap & H).
    apply apply_player_result_spec in Hap
      as (Hk & Ho & Ht & Hc & He & Hkn & Heb).
    cbn [volleyCoords] in Hc.
    unfold player_side_kept in Hk. cbn in Hk, Ht, He, Hkn, Heb.
    destruct (enemyShipsRemaining st2 <=? 0) eqn:Ez.
    + injection H as <- <-. unfold player_side_kept.
      split_and!; try tauto; try (destruct (r =? 2); lia).
      intros f v' [= <- <-]. exists [(x, y)], sel.
      split_and!; auto. lia.
    + apply IH in H as (Hk' & Ht' & Hle & Hpos & Hkn' & Heb' & Hf).
      unfold player_side_kept in *.
      destruct Hk as (K1 & K2 & K3 & K4 & K5 & K6).
      destruct Hk' as (K1' & K2' & K3' & K4' & K5' & K6').
      split_and!; try congruence; try (destruct (r =? 2); lia);
        try (intros n Hn; auto; fail).
      intros f v' Hr. destruct (Hf f v' Hr) as (dn & rest & -> & -> & Hv & Hz).
      exists ((x, y) :: dn), rest. rewrite <- !app_assoc. cbn.
      split_and!; auto. rewrite Hv, Hc, <- app_assoc. reflexivity.
Qed.

(** One resolved shot of the enemy: the player's counter stays or, on a
    sinking, goes down by one; the scripted opponent records the outcome. *)
Lemma apply_enemy_result_spec (x y r : Z) (v v' : Volley)
    (st st' : GameLoopState) :
  GameLoop.apply_enemy_result x y r v st = Done (v', st') ->
  enemy_side_kept st st' /\ playerBoard st' = playerBoard st
  /\ rng st' = rng st /\ playerTurn st' = playerTurn st
  /\ volleyCoords v' = volleyCoords v
  /\ playerShipsRemaining st'
     = (if (r =? 0) || (r =? 1) then playerShipsRemaining st
        else playerShipsRemaining st - 1)
  /\ match opponent st with
     | OppAI ai =>
         exists ai',
           AI.recordShotResult ai x y (negb (r =? 0))
                               (negb ((r =? 0) || (r =? 1))) = Some ai'
           /\ opponent st' = OppAI ai'
     | OppNet s => exists s', opponent st' = OppNet s'
     end.
Proof.
  unfold GameLoop.apply_enemy_result, enemy_side_kept.
  destruct (opponent st) as [ai|s] eqn:Eo.
  - destruct (r =? 0) eqn:E0; [|destruct (r =? 1) eqn:E1];
      cbn [opponent GameLoop.set_enemy_score orb negb]; rewrite Eo;
      intros H; apply bind_Done in H as (s1 & Hr & H);
      apply bind_Done in Hr as (ai' & Hr & Hs); apply defined_Done in Hr;
      injection Hs as <-; injection H as <- <-; cbn;
      split_and!; eauto.
  - destruct (r =? 0) eqn:E0; [|destruct (r =? 1) eqn:E1];
      cbn [opponent GameLoop.set_enemy_score GameLoop.set_opponent orb negb
           mbind outcome_bind];
      intros [= <- <-]; cbn; split_and!; eauto.
Qed.

Lemma next_enemy_shot_spec (st : GameLoopState) :
  exists o g,
    (GameLoop.next_enemy_shot st).2
    = GameLoop.set_rng g (GameLoop.set_opponent o st).
Proof.
  unfold GameLoop.next_enemy_shot. destruct (opponent st) as [ai|s].
  - destruct (AI.pickAttackCoordinates ai (rng st)) as [[shot ai'] g'].
    destruct ((shot.1 =? -1) || (shot.2 =? -1)); cbn; eauto.
  - destruct (NetworkLogic.receiveShot s) as [shot s']. cbn.
    exists (OppNet s'), (rng st). destruct st; reflexivity.
Qed.

(** The enemy's loop: at most [n] shots are fired; the player's counter
    only goes down, one ship at a time, and not below zero. *)
Lemma enemy_fire_loop_spec (n : nat) (fired f : list (Z * Z)) (v v' : Volley)
    (st st' : GameLoopState) :
  GameLoop.enemy_fire_loop n fired v st = Done (f, v', st') ->
  enemy_side_kept st st' /\ playerTurn st' = playerTurn st
  /\ playerShipsRemaining st' <= playerShipsRemaining st
  /\ (0 < playerShipsRemaining st -> 0 <= playerShipsRemaining st')
  /\ exists done,
       f = fired ++ done /\ (length done <= n)%nat
       /\ volleyCoords v' = volleyCoords v ++ done.
Proof.
  revert fired v st. induction n as [|n IH]; intros fired v st.
  - cbn. intros [= <- <- <-]. unfold enemy_side_kept.
    split_and!; auto; try lia. exists []. rewrite !app_nil_r. auto.
  - cbn [GameLoop.enemy_fire_loop].
    destruct (next_enemy_shot_spec st) as (o & g & Hn).
    destruct (GameLoop.next_enemy_shot st) as [[[x y]|] st1];
      cbn [snd] in Hn; subst st1.
    2:{ intros [= <- <- <-]. unfold enemy_side_kept. cbn.
        split_and!; auto; try lia.
        exists []. rewrite !app_nil_r. cbn. split_and!; auto. lia. }
    intros H. apply bind_Done in H as ([r pb] & _ & H).
    apply bind_Done in H as ([v2 st2] & Hap & H).
    apply apply_enemy_result_spec in Hap
      as (Hk & Hpb & Hg & Ht & Hc & Hp & _).
    unfold enemy_side_kept in Hk. cbn in Hk, Hpb, Hg, Ht, Hc, Hp.
    destruct Hk as (K1 & K2 & K3 & K4 & K5 & K6).
    destruct (playerShipsRemaining st2 <=? 0) eqn:Ez.
    + injection H as <- <- <-. unfold enemy_side_kept.
      split_and!; try congruence;
        try (destruct ((r =? 0) || (r =? 1)); lia).
      exists [(x, y)]. cbn. split_and!; auto. lia.
    + apply IH in H as (Hk' & Ht' & Hle & Hpos & dn & -> & Hlen & Hv).
      unfold enemy_side_kept in *.
      destruct Hk' as (K1' & K2' & K3' & K4' & K5' & K6').
      split_and!; try congruence;
        try (destruct ((r =? 0) || (r =? 1)); lia).
      exists ((x, y) :: dn). rewrite <- !app_assoc. cbn.
      split_and!; auto; [lia|]. rewrite Hv, Hc, <- app_assoc. reflexivity.
Qed.

(** ** Turn engine: how a firing phase ends *)

Lemma player_after_loop_spec (sel : list (Z * Z)) (st st' : GameLoopState)
    (e : PhaseEnd) :
  GameLoop.player_after_loop sel st = Done (e, st') ->
  player_side_kept st st'
  /\ match e with
     | GameOver w =>
         w = true /\ enemyShipsRemaining st' <= 0
         /\ (0 < enemyShipsRemaining st -> enemyShipsRemaining st' = 0)
     | TurnDone v =>
         0 < enemyShipsRemaining st' /\ playerTurn st' = false
         /\ volleyCoords v = sel
     | ConnectionLost => True
     end.
Proof.
  unfold GameLoop.player_after_loop. intros H.
  apply bind_Done in H as ([res st1] & Hl & H).
  apply player_fire_loop_spec in Hl as (Hk & _ & Hle & Hpos & _ & _ & Hf).
  destruct (close_opponent_spec st1) as [o Hcl].
  unfold player_side_kept in *.
  destruct res as [[fired v]|].
  - apply bind_Done in H as (w & _ & H).
    destruct (Hf _ _ eq_refl) as (dn & rest & -> & _ & Hv & Hrest).
    destruct (enemyShipsRemaining st1 <=? 0) eqn:Ez;
      injection H as <- <-.
    + rewrite Hcl. cbn. split; [exact Hk|]. split_and!; auto; lia.
    + cbn. split; [exact Hk|]. split_and!; auto; [lia|].
      rewrite (Hrest ltac:(lia)), app_nil_r. exact Hv.
  - injection H as <- <-. rewrite Hcl. cbn. tauto.
Qed.

(** The player's firing phase ends the game with the player as the winner
    when the enemy's counter is at zero, and hands the turn over when it is
    not; it never declares the enemy the winner. *)
Lemma player_firing_spec (sel : list (Z * Z)) (st st' : GameLoopState)
    (e : PhaseEnd) :
  GameLoop.player_firing sel st = Done (e, st') ->
  player_side_kept st st'
  /\ match e with
     | GameOver w =>
         w = true /\ enemyShipsRemaining st' <= 0
         /\ (0 < enemyShipsRemaining st -> enemyShipsRemaining st' = 0)
     | TurnDone v =>
         0 < enemyShipsRemaining st' /\ playerTurn st' = false
         /\ volleyCoords v = sel
     | ConnectionLost => True
     end.
Proof.
  unfold GameLoop.player_firing. destruct (opponent st) as [ai|s].
  - apply player_after_loop_spec.
  - destruct (NetworkLogic.sendShotCount _ _) as [[|] s1]; cbn [negb].
    + intros H. apply player_after_loop_spec in H. exact H.
    + intros [= <- <-].
      destruct (close_opponent_spec (GameLoop.set_opponent (OppNet s1) st))
        as [o ->].
      unfold player_side_kept. cbn. tauto.
Qed.

Lemma enemy_salvo_spec (n : Z) (st st' : GameLoopState) (e : PhaseEnd) :
  GameLoop.enemy_salvo n st = Done (e, st') ->
  enemy_side_kept st st'
  /\ match e with
     | GameOver w =>
         w = false /\ playerShipsRemaining st' <= 0
         /\ (0 < playerShipsRemaining st -> playerShipsRemaining st' = 0)
     | TurnDone v =>
         0 < playerShipsRemaining st' /\ playerTurn st' = true
         /\ (length (volleyCoords v) <= Z.to_nat n)%nat
     | ConnectionLost => False
     end.
Proof.
  unfold GameLoop.enemy_salvo. intros H.
  apply bind_Done in H as ([[fired v] st1] & Hl & H).
  apply enemy_fire_loop_spec in Hl
    as (Hk & _ & Hle & Hpos & dn & _ & Hlen & Hv).
  apply bind_Done in H as (w & _ & H).
  destruct (close_opponent_spec st1) as [o Hcl].
  unfold enemy_side_kept in *.
  destruct (playerShipsRemaining st1 <=? 0) eqn:Ez; injection H as <- <-.
  - rewrite Hcl. cbn. split; [exact Hk|]. split_and!; auto; lia.
  - cbn. split; [exact Hk|]. split_and!; auto; [lia|].
    rewrite Hv. cbn. exact Hlen.
Qed.

(** The enemy's turn ends the game with the enemy as the winner when the
    player's counter is at zero, and hands the turn back when it is not. *)
Lemma enemy_turn_spec (st st' : GameLoopState) (e : PhaseEnd) :
  GameLoop.enemy_turn st = Done (e, st') ->
  enemy_side_kept st st'
  /\ match e with
     | GameOver w =>
         w = false /\ playerShipsRemaining st' <= 0
         /\ (0 < playerShipsRemaining st -> playerShipsRemaining st' = 0)
     | TurnDone v => 0 < playerShipsRemaining st' /\ playerTurn st' = true
     | ConnectionLost => True
     end.
Proof.
  unfold GameLoop.enemy_turn. destruct (opponent st) as [ai|s].
  - intros H. apply enemy_salvo_spec in H as [Hk H].
    split; [exact Hk|]. destruct e; tauto.
  - destruct (NetworkLogic.receiveShotCount s) as [[n|] s1].
    + intros H. apply enemy_salvo_spec in H as [Hk H].
      split; [exact Hk|]. destruct e; tauto.
    + intros [= <- <-].
      destruct (close_opponent_spec (GameLoop.set_opponent (OppNet s1) st))
        as [o ->].
      unfold enemy_side_kept. cbn. tauto.
Qed.

(** The game returns with a winner only when the loser's counter is at
    zero and the winner's is not; as long as it waits for the player, both
    sides have ships left. *)
Lemma runGameLoop_spec (cmds : list GameLoop.Command)
    (st st' : GameLoopState) (e : GameLoop.GameEnd) :
  GameLoop.runGameLoop cmds st = Done (e, st') ->
  match e with
  | GameLoop.Won true =>
      enemyShipsRemaining st' = 0 /\ 0 < playerShipsRemaining st'
  | GameLoop.Won false =>
      playerShipsRemaining st' = 0 /\ 0 < enemyShipsRemaining st'
  | GameLoop.AwaitingInput =>
      0 < playerShipsRemaining st' /\ 0 < enemyShipsRemaining st'
  | _ => True
  end.
Proof.
  revert st. induction cmds as [|c cmds IH]; intros st H.
  all: cbn [GameLoop.runGameLoop] in H.
  all: apply bind_Done in H as ([oe st1] & He & H).
  all: assert (Hen : match oe with
                     | Some (GameLoop.Won true) => False
                     | Some (GameLoop.Won false) =>
                         playerShipsRemaining st1 = 0
                         /\ 0 < enemyShipsRemaining st1
                     | Some GameLoop.AwaitingInput => False
                     | _ => True
                     end).
  1,3: unfold GameLoop.enemy_part in He;
       destruct (playerTurn st); [injection He as <- <-; exact I|];
       destruct ((0 <? playerShipsRemaining st)
                 && (0 <? enemyShipsRemaining st)) eqn:Epos;
       [|injection He as <- <-; exact I];
       apply bind_Done in He as ([p st2] & Ht & He);
       apply enemy_turn_spec in Ht as [Hk Ht];
       unfold enemy_side_kept in Hk;
       destruct p as [w| |]; injection He as <- <-; try exact I;
       destruct Ht as (-> & _ & Hz); split; [apply Hz; lia|lia].
  all: destruct oe as [e'|]; [injection H as <- <-; destruct e' as [[|]| | | |];
                               tauto|].
  all: destruct ((0 <? playerShipsRemaining st1)
                 && (0 <? enemyShipsRemaining st1)) eqn:Epos;
       [|injection H as <- <-; exact I].
  - injection H as <- <-. lia.
  - destruct c as [sel|]; [|injection H as <- <-; exact I].
    destruct sel as [|s0 sel]; [exact (IH _ H)|].
    apply bind_Done in H as ([p st2] & Hp & H).
    apply player_firing_spec in Hp as [Hk Hp].
    unfold player_side_kept in Hk.
    destruct p as [w| |].
    + injection H as <- <-. destruct Hp as (-> & _ & Hz).
      split; [apply Hz; lia|lia].
    + exact (IH _ H).
    + injection H as <- <-. exact I.
Qed.

(** ** Turn engine: every step is defined *)

Lemma count_row_insert (row : list ascii) (i : nat) (a : ascii) :
  row !! i = Some "x"%char -> a <> "x"%char ->
  S (length (filter (fun c => c = "x"%char) (<[i := a]> row)))
  = length (filter (fun c => c = "x"%char) row).
Proof.
  revert i. induction row as [|c row IH]; intros [|i];
    cbn [lookup list_lookup insert list_insert]; try discriminate.
  - intros [= ->] Ha.
    rewrite filter_cons_False by exact Ha.
    rewrite filter_cons_True by reflexivity. reflexivity.
  - intros Hi Ha. destruct (decide (c = "x"%char)) as [Hc|Hc].
    + rewrite !filter_cons_True by exact Hc. cbn. f_equal. exact (IH i Hi Ha).
    + rewrite !filter_cons_False by exact Hc. exact (IH i Hi Ha).
Qed.

Lemma count_x_insert (g : Grid) (i : nat) (row row' : list ascii) :
  g !! i = Some row ->
  S (length (filter (fun c => c = "x"%char) row'))
  = length (filter (fun c => c = "x"%char) row) ->
  S (count_x (<[i := row']> g)) = count_x g.
Proof.
  unfold count_x. revert i. induction g as [|r g IH]; intros [|i];
    cbn [lookup list_lookup insert list_insert]; try discriminate.
  - intros [= ->] H. rewrite !fmap_cons. cbn [sum_list_with id]. lia.
  - intros Hi H. specialize (IH i Hi H). rewrite !fmap_cons.
    cbn [sum_list_with id]. rewrite <- IH, Nat.add_succ_r. reflexivity.
Qed.

(** Turning an ['x'] into an ['s'] leaves one ['x'] less. *)
Lemma count_x_set (g g' : Grid) (r c : Z) :
  grid_get g r c = Some "x"%char -> grid_set g r c "s" = Some g' ->
  S (count_x g') = count_x g.
Proof.
  intros Hget Hset. apply grid_set_inv in Hset as (row & Hrow & Hc & ->).
  unfold grid_get in Hget. rewrite Hrow in Hget. cbn in Hget.
  apply vec_get_Some in Hget as [_ Hget].
  apply vec_get_Some in Hrow as [_ Hrow].
  apply (count_x_insert _ _ row); [exact Hrow|].
  apply count_row_insert; [exact Hget|discriminate].
Qed.

Lemma count_x_bound (n : Z) (g : Grid) :
  grid_square n g -> (count_x g <= Z.to_nat (n * n))%nat.
Proof.
  intros (Hn & Hlen & Hrows).
  assert (H : (count_x g <= length g * Z.to_nat n)%nat).
  { unfold count_x. clear Hlen.
    induction Hrows as [|row g Hrow _ IH];
      [cbn; lia|rewrite fmap_cons; cbn [sum_list_with length id]].
    pose proof (length_filter (fun c => c = "x"%char) row). lia. }
  rewrite Z2Nat.inj_mul by lia. rewrite <- Hlen at 1.
  rewrite Nat2Z.id. exact H.
Qed.

(** A fold whose every step is defined is defined. *)
Lemma foldl_outcome_defined {A B} (P : A -> Prop)
    (g : outcome A -> B -> outcome A) (l : list B) (a : A) :
  (forall a b, b ∈ l -> P a -> exists a', g (Done a) b = Done a' /\ P a') ->
  P a -> exists a', foldl g (Done a) l = Done a' /\ P a'.
Proof.
  revert a. induction l as [|b l IH]; intros a Hstep Ha; cbn.
  - eauto.
  - destruct (Hstep a b ltac:(left) Ha) as (a1 & -> & Ha1).
    apply IH; [|exact Ha1].
    intros a2 b2 Hb2. apply Hstep. right. exact Hb2.
Qed.

Lemma mark_enemy_defined (n x y : Z) (k c : ascii) (st : GameLoopState) :
  grid_square n (enemyKnownBoard st) ->
  grid_square n (boardArray (enemyBoard st)) ->
  in_board n (x, y) = true ->
  exists st', GameLoop.mark_enemy x y k c st = Done st'.
Proof.
  intros Hk He Hin. apply in_board_spec in Hin. cbn in Hin.
  unfold GameLoop.mark_enemy.
  destruct (grid_set_is_Some n _ y x k Hk) as [kn ->]; [lia..|].
  destruct (grid_set_is_Some n _ y x c He) as [g ->]; [lia..|].
  cbn. eauto.
Qed.

(** The flood fill of a sunk ship ends when the fuel covers the queue and
    the ['x'] cells left. *)
Lemma flood_sunk_fuel (fuel : nat) (queue : list (Z * Z))
    (st : GameLoopState) :
  grid_square (size st) (enemyKnownBoard st) ->
  grid_square (size st) (boardArray (enemyBoard st)) ->
  (length queue + count_x (boardArray (enemyBoard st)) <= fuel)%nat ->
  exists st', GameLoop.flood_sunk fuel queue st = Done st'.
Proof.
  revert queue st. induction fuel as [|fuel IH];
    intros [|[cx cy] queue] st Hk He Hf; cbn [GameLoop.flood_sunk];
    eauto; cbn [length] in Hf; [lia|].
  set (P := fun p : list (Z * Z) * GameLoopState =>
              size p.2 = size st
              /\ grid_square (size st) (enemyKnownBoard p.2)
              /\ grid_square (size st) (boardArray (enemyBoard p.2))
              /\ (length p.1 + count_x (boardArray (enemyBoard p.2))
                  <= length queue + count_x (boardArray (enemyBoard st)))%nat).
  match goal with
  | |- exists st', mbind _ (foldl ?g _ ?l) = _ =>
      destruct (foldl_outcome_defined P g l (queue, st))
        as ([q1 s1] & -> & Hs & Hk1 & He1 & Hc1)
  end.
  - intros [q0 s0] [nx ny] _ (Hs & Hk0 & He0 & Hc0).
    cbn [mbind outcome_bind fst snd] in *.
    destruct ((0 <=? nx) && (nx <? size s0) && (0 <=? ny)
              && (ny <? size s0)) eqn:Hin.
    2:{ eexists. split; [reflexivity|]. unfold P. cbn. auto. }
    assert (0 <= ny < size st /\ 0 <= nx < size st) as [Hy Hx] by lia.
    destruct (grid_get_is_Some _ _ ny nx He0 Hy Hx) as [c Hc].
    rewrite Hc. cbn [defined mbind outcome_bind].
    destruct (ascii_eqb c "x") eqn:Ex.
    2:{ eexists. split; [reflexivity|]. unfold P. cbn. auto. }
    apply bool_decide_eq_true in Ex. subst c.
    destruct (grid_set_is_Some _ _ ny nx "s" He0 Hy Hx) as [g Hg].
    destruct (grid_set_is_Some _ _ ny nx "s" Hk0 Hy Hx) as [kn Hkn].
    rewrite Hg, Hkn. cbn [defined mbind outcome_bind].
    eexists. split; [reflexivity|]. unfold P.
    cbn [fst snd size enemyKnownBoard enemyBoard boardArray
         GameLoop.set_enemy_view set_boardArray].
    pose proof (count_x_set _ _ _ _ Hc Hg) as Hcount.
    rewrite length_app. cbn [length].
    split_and!; auto.
    + exact (grid_set_square _ _ _ _ _ _ Hk0 Hkn).
    + exact (grid_set_square _ _ _ _ _ _ He0 Hg).
    + lia.
  - unfold P. cbn. auto.
  - cbn [mbind outcome_bind fst snd] in *. apply IH.
    + rewrite Hs. exact Hk1.
    + rewrite Hs. exact He1.
    + lia.
Qed.

Lemma flood_sunk_defined (x y : Z) (st : GameLoopState) :
  grid_square (size st) (enemyKnownBoard st) ->
  grid_square (size st) (boardArray (enemyBoard st)) ->
  exists st',
    GameLoop.flood_sunk (GameLoop.flood_fuel (size st)) [(x, y)] st = Done st'.
Proof.
  intros Hk He. apply flood_sunk_fuel; [exact Hk|exact He|].
  pose proof (count_x_bound _ _ He). unfold GameLoop.flood_fuel. cbn. lia.
Qed.

Lemma getShipOccupiedCells_inside (n : Z) (b : BoardData) (x y : Z)
    (c : Z * Z) :
  Forall (ship_inside n) (myShips b) ->
  c ∈ Board.getShipOccupiedCells b x y -> in_board n c = true.
Proof.
  unfold Board.getShipOccupiedCells. intros Hall.
  induction Hall as [|s ships Hs _ IH]; cbn [Board.getShipOccupiedCells_loop].
  - intros H. inversion H.
  - match goal with |- context [if ?t then _ else _] => destruct t end;
      [|exact IH].
    intros H. apply list_elem_of_fmap in H as (i & -> & Hi).
    destruct (Board.ship_cell s i) as [r c0] eqn:E.
    apply in_board_spec. cbn.
    assert (Hin : (r, c0) ∈ ship_cells s).
    { unfold ship_cells. apply list_elem_of_fmap. eauto. }
    destruct (Hs r c0 Hin). lia.
Qed.

Lemma count_wounded_defined (n : Z) (g : Grid) (fired : list (Z * Z)) :
  grid_square n g -> Forall (fun c => in_board n c = true) fired ->
  exists w, GameLoop.count_wounded g fired = Done w.
Proof.
  intros Hg Hall. unfold GameLoop.count_wounded.
  match goal with
  | |- exists w, foldl ?f _ ?l = _ =>
      destruct (foldl_outcome_defined (fun _ => True) f l 0) as (w & -> & _)
  end; eauto.
  intros a [x y] Hin _. rewrite Forall_forall in Hall.
  apply Hall, in_board_spec in Hin. cbn in Hin.
  destruct (grid_get_is_Some n g y x Hg) as [c Hc]; [lia..|].
  cbn [mbind outcome_bind]. rewrite Hc. cbn. eauto.
Qed.

Lemma net_send_recv_shots (m : NetMsg) (s : Socket) :
  recv_shots (net_send m s).2 = recv_shots s.
Proof. unfold net_send. destruct (send_oks s) as [|[|] oks]; reflexivity. Qed.

(** The invariant moves along changes of the player's picture of the enemy
    board that keep the grids in shape. *)
Lemma game_ok_view (st st' : GameLoopState) :
  game_ok st -> player_side_kept st st' -> opponent st' = opponent st ->
  (forall n, grid_square n (enemyKnownBoard st) ->
             grid_square n (enemyKnownBoard st')) ->
  (forall n, grid_square n (boardArray (enemyBoard st)) ->
             grid_square n (boardArray (enemyBoard st'))) ->
  game_ok st'.
Proof.
  intros [Hk He Hp Hps Ho] (K1 & K2 & K3 & K4 & K5 & K6) Hopp Hkn Heb.
  constructor; rewrite ?K1, ?K2, ?Hopp; auto.
Qed.

Lemma resolve_player_shot_defined (x y : Z) (st : GameLoopState) :
  game_ok st ->
  exists res st',
    GameLoop.resolve_player_shot x y st = Done (res, st') /\ game_ok st'.
Proof.
  intros [Hk He Hp Hps Ho]. unfold GameLoop.resolve_player_shot.
  destruct (opponent st) as [ai|s] eqn:Eo.
  - destruct Ho as (Hb & Hbs & Hpools & Hsz).
    destruct (receiveShot_defined (aiBoard ai) x y (ok_grid _ Hb))
      as (r & b' & Hr & _ & Hsize).
    rewrite Hr. cbn. eexists _, _. split; [reflexivity|].
    constructor; cbn; auto.
    split_and!; auto; [exact (receiveShot_ok _ _ _ _ _ Hb Hr)|congruence|].
    destruct Hpools. constructor; cbn; auto.
  - unfold NetworkLogic.sendShot, NetworkLogic.receiveShotResult.
    pose proof (net_send_recv_shots (MsgShot (x, y).1 (x, y).2) s) as Hsend.
    destruct (net_send _ s) as [[|] s1]; cbn [negb snd] in *.
    + destruct (recv_results s1) as [|[a|] rest]; eexists _, _;
        (split; [reflexivity|]); constructor; cbn; auto;
        unfold peer_shots_on_board in *; cbn; congruence.
    + eexists _, _. split; [reflexivity|]. constructor; cbn; auto.
      unfold peer_shots_on_board in *. congruence.
Qed.

Lemma apply_player_result_defined (x y r : Z) (v : Volley)
    (st : GameLoopState) :
  game_ok st -> in_board (size st) (x, y) = true ->
  exists v' st', GameLoop.apply_player_result x y r v st = Done (v', st').
Proof.
  intros [Hk He Hp Hps Ho] Hin. unfold GameLoop.apply_player_result.
  destruct (r =? 0).
  { destruct (mark_enemy_defined _ x y "m" "o" st Hk He Hin) as [s1 ->].
    cbn. eauto. }
  destruct (r =? 1).
  { destruct (mark_enemy_defined (size st) x y "h" "x"
                (GameLoop.set_player_score (playerHits st + 1)
                   (enemyShipsRemaining st) st) Hk He Hin) as [s1 ->].
    cbn. eauto. }
  destruct (r =? 2); [|eauto].
  cbn [opponent GameLoop.set_player_score].
  destruct (opponent st) as [ai|s] eqn:Eo.
  - destruct Ho as (Hb & Hbs & _).
    match goal with
    | |- context [foldl ?f (Done ?a) ?l] =>
        destruct (foldl_outcome_defined
                    (fun s => grid_square (size st) (enemyKnownBoard s)
                              /\ grid_square (size st)
                                             (boardArray (enemyBoard s)))
                    f l a) as (s1 & -> & _)
    end.
    + intros a [cx cy] Hc [Hka Hea]. cbn [mbind outcome_bind].
      apply (getShipOccupiedCells_inside (size st)) in Hc.
      2:{ rewrite <- Hbs. exact (ok_inside _ Hb). }
      destruct (mark_enemy_defined _ cx cy "s" "s" a Hka Hea Hc) as [a' Ha].
      exists a'. split; [exact Ha|].
      apply mark_enemy_view in Ha as (eb & kn & -> & Hkn & Heb).
      cbn. auto.
    + cbn. auto.
    + cbn. eauto.
  - destruct (mark_enemy_defined (size st) x y "s" "s"
                (GameLoop.set_player_score (playerHits st + 1)
                   (enemyShipsRemaining st - 1) st) Hk He Hin) as [s1 Hm].
    rewrite Hm. cbn [mbind outcome_bind].
    apply mark_enemy_view in Hm as (eb & kn & -> & Hkn & Heb).
    edestruct (flood_sunk_defined x y) as [s2 ->]; [| |cbn; eauto].
    + cbn. apply Hkn. exact Hk.
    + cbn. apply Heb. exact He.
Qed.

(** The player's loop is defined for shots on the board, and leaves the
    game in order. *)
Lemma player_fire_loop_defined (sel fired : list (Z * Z)) (v : Volley)
    (st : GameLoopState) :
  game_ok st -> Forall (fun c => in_board (size st) c = true) sel ->
  exists res st',
    GameLoop.player_fire_loop sel fired v st = Done (res, st')
    /\ game_ok st'.
Proof.
  revert fired v st. induction sel as [|[x y] sel IH];
    intros fired v st Hok Hsel.
  - cbn. eauto.
  - cbn [GameLoop.player_fire_loop].
    apply Forall_cons in Hsel as [Hxy Hsel].
    destruct (resolve_player_shot_defined x y st Hok)
      as (res & st1 & Hres & Hok1).
    rewrite Hres. cbn [mbind outcome_bind].
    apply resolve_player_shot_spec in Hres as [o ->].
    destruct res as [r|]; [|eauto].
    match goal with
    | |- context [GameLoop.apply_player_result x y r ?v1 ?s] =>
        destruct (apply_player_result_defined x y r v1 s Hok1 Hxy)
          as (v2 & st2 & Hap)
    end.
    rewrite Hap. cbn [mbind outcome_bind].
    apply apply_player_result_spec in Hap
      as (Hkept & Ho & _ & _ & _ & Hkn & Heb).
    pose proof (game_ok_view _ _ Hok1 Hkept Ho Hkn Heb) as Hok2.
    destruct (enemyShipsRemaining st2 <=? 0); [eauto|].
    apply IH; [exact Hok2|].
    destruct Hkept as (_ & -> & _). exact Hsel.
Qed.

Lemma game_ok_close (st : GameLoopState) :
  game_ok st -> game_ok (GameLoop.close_opponent st).
Proof.
  intros [Hk He Hp Hps Ho]. unfold GameLoop.close_opponent.
  destruct (opponent st) as [ai|s] eqn:Eo.
  - constructor; auto. rewrite Eo. exact Ho.
  - constructor; cbn; auto.
Qed.

Lemma game_ok_set_playerTurn (t : bool) (st : GameLoopState) :
  game_ok st -> game_ok (GameLoop.set_playerTurn t st).
Proof. intros [Hk He Hp Hps Ho]. constructor; cbn; auto. Qed.

Lemma player_after_loop_defined (sel : list (Z * Z)) (st : GameLoopState) :
  game_ok st -> Forall (fun c => in_board (size st) c = true) sel ->
  exists e st',
    GameLoop.player_after_loop sel st = Done (e, st') /\ game_ok st'.
Proof.
  intros Hok Hsel. unfold GameLoop.player_after_loop.
  destruct (player_fire_loop_defined sel [] (mkVolley [] 0 0 0) st Hok Hsel)
    as (res & st1 & Hl & Hok1).
  rewrite Hl. cbn [mbind outcome_bind].
  apply player_fire_loop_spec in Hl as ((_ & Hsz & _) & _ & _ & _ & _ & _ & Hf).
  destruct res as [[fired v]|].
  2:{ eexists _, _. split; [reflexivity|]. apply game_ok_close, Hok1. }
  destruct (Hf _ _ eq_refl) as (dn & rest & -> & -> & _).
  apply Forall_app in Hsel as [Hdn _]. cbn [app].
  match goal with
  | |- context [GameLoop.count_wounded ?g dn] =>
      destruct (count_wounded_defined (size st) g dn) as [w ->]
  end; [|exact Hdn|].
  - destruct Hok1 as [_ He _ _ Ho]. rewrite Hsz in *.
    destruct (opponent st1) as [ai|s]; [|exact He].
    destruct Ho as (Hb & Hbs & _). rewrite <- Hbs. exact (ok_grid _ Hb).
  - cbn [mbind outcome_bind].
    destruct (enemyShipsRemaining st1 <=? 0); eexists _, _;
      (split; [reflexivity|]).
    + apply game_ok_close, Hok1.
    + apply game_ok_set_playerTurn, Hok1.
Qed.

(** The player's firing phase returns for every salvo on the board. *)
Lemma player_firing_defined (sel : list (Z * Z)) (st : GameLoopState) :
  game_ok st -> Forall (fun c => in_board (size st) c = true) sel ->
  exists e st', GameLoop.player_firing sel st = Done (e, st') /\ game_ok st'.
Proof.
  intros Hok Hsel. unfold GameLoop.player_firing.
  destruct (opponent st) as [ai|s] eqn:Eo.
  - exact (player_after_loop_defined sel st Hok Hsel).
  - unfold NetworkLogic.sendShotCount.
    pose proof (net_send_recv_shots (MsgCount (Z.of_nat (length sel))) s)
      as Hsend.
    destruct (net_send _ s) as [ok s1]. cbn [snd] in Hsend.
    assert (Hok1 : game_ok (GameLoop.set_opponent (OppNet s1) st)).
    { destruct Hok as [Hk He Hp Hps Ho]. rewrite Eo in Ho.
      constructor; cbn; auto. unfold peer_shots_on_board in *. congruence. }
    destruct ok; cbn [negb].
    + apply player_after_loop_defined; [exact Hok1|exact Hsel].
    + eexists _, _. split; [reflexivity|]. apply game_ok_close, Hok1.
Qed.

Lemma next_enemy_shot_defined (st : GameLoopState) :
  game_ok st ->
  game_ok (GameLoop.next_enemy_shot st).2
  /\ forall c, (GameLoop.next_enemy_shot st).1 = Some c ->
       in_board (size st) c = true.
Proof.
  intros [Hk He Hp Hps Ho]. unfold GameLoop.next_enemy_shot.
  destruct (opponent st) as [ai|s] eqn:Eo.
  - destruct Ho as (Hb & Hbs & Hpools & Hsz).
    pose proof (pick_spec ai (rng st) Hpools) as Hpick.
    destruct (AI.pickAttackCoordinates ai (rng st)) as [[shot ai'] g'].
    destruct Hpick as (Hpools' & Hsz' & _ & _ & Hb' & Hcase).
    assert (Hgame : game_ok (GameLoop.set_rng g'
                               (GameLoop.set_opponent (OppAI ai') st))).
    { constructor; cbn; auto. rewrite Hb'. split_and!; auto. congruence. }
    destruct ((shot.1 =? -1) || (shot.2 =? -1)) eqn:Eneg; cbn [fst snd];
      (split; [exact Hgame|]); [discriminate|].
    intros c [= <-].
    destruct Hcase as [(_ & -> & _)|(_ & Hin & _)]; [discriminate|].
    rewrite <- Hsz. exact (pool_inside _ Hpools _ Hin).
  - unfold NetworkLogic.receiveShot.
    unfold peer_shots_on_board in Ho.
    destruct (recv_shots s) as [|o rest] eqn:Er; cbn [fst snd].
    + split; [|discriminate]. constructor; cbn; auto.
      unfold peer_shots_on_board. rewrite Er. constructor.
    + apply Forall_cons in Ho as [Ho Hrest]. split.
      * constructor; cbn; auto.
      * intros c ->. exact Ho.
Qed.

Lemma apply_enemy_result_defined (x y r : Z) (v : Volley)
    (st : GameLoopState) :
  game_ok st ->
  exists v' st',
    GameLoop.apply_enemy_result x y r v st = Done (v', st') /\ game_ok st'.
Proof.
  intros [Hk He Hp Hps Ho]. unfold GameLoop.apply_enemy_result.
  destruct (opponent st) as [ai|s] eqn:Eo.
  - destruct Ho as (Hb & Hbs & Hpools & Hsz).
    assert (Hrec : forall hit sunk hits rem,
              exists st',
                (match opponent (GameLoop.set_enemy_score hits rem st) with
                 | OppAI ai0 =>
                     ai' ← defined (AI.recordShotResult ai0 x y hit sunk);
                     Done (GameLoop.set_opponent (OppAI ai')
                             (GameLoop.set_enemy_score hits rem st))
                 | OppNet _ => Done (GameLoop.set_enemy_score hits rem st)
                 end) = Done st' /\ game_ok st').
    { intros hit sunk hits rem. cbn [opponent GameLoop.set_enemy_score].
      rewrite Eo.
      destruct (recordShotResult_pools ai x y hit sunk Hpools)
        as (ai' & Hr & Hpools' & _ & _ & _ & Hsz').
      destruct (recordShotResult_spec ai x y hit sunk
                  (knowledge_square _ Hpools))
        as (ai2 & Hr2 & _ & _ & _ & _ & Hb' & _).
      rewrite Hr in Hr2. injection Hr2 as <-.
      rewrite Hr. cbn. eexists. split; [reflexivity|].
      constructor; cbn; auto. rewrite Hb'. split_and!; auto. congruence. }
    destruct (r =? 0); [|destruct (r =? 1)].
    + assert (Hst : st = GameLoop.set_enemy_score (enemyHits st)
                           (playerShipsRemaining st) st)
        by (destruct st; reflexivity).
      destruct (Hrec false false (enemyHits st) (playerShipsRemaining st))
        as (st' & Hr & Hok').
      rewrite <- Hst in Hr. rewrite Hr. cbn. eauto.
    + destruct (Hrec true false (enemyHits st + 1)
                  (playerShipsRemaining st)) as (st' & Hr & Hok').
      rewrite Hr. cbn. eauto.
    + destruct (Hrec true true (enemyHits st + 1)
                  (playerShipsRemaining st - 1)) as (st' & Hr & Hok').
      rewrite Hr. cbn. eauto.
  - assert (Hnet : forall c hits rem,
              game_ok (GameLoop.set_enemy_score hits rem
                         (GameLoop.set_opponent
                            (OppNet (NetworkLogic.sendShotResult s c).2)
                            st))).
    { intros c hits rem. constructor; cbn; auto.
      unfold peer_shots_on_board, NetworkLogic.sendShotResult in *.
      rewrite net_send_recv_shots. exact Ho. }
    destruct (r =? 0); [|destruct (r =? 1)]; cbn; eexists _, _;
      (split; [reflexivity|]).
    + specialize (Hnet "m"%char (enemyHits st) (playerShipsRemaining st)).
      destruct st; exact Hnet.
    + apply Hnet.
    + apply Hnet.
Qed.

(** The enemy's loop is defined, fires on the board only and leaves the
    game in order. *)
Lemma enemy_fire_loop_defined (n : nat) (fired : list (Z * Z)) (v : Volley)
    (st : GameLoopState) :
  game_ok st -> Forall (fun c => in_board (size st) c = true) fired ->
  exists f v' st',
    GameLoop.enemy_fire_loop n fired v st = Done (f, v', st')
    /\ game_ok st' /\ Forall (fun c => in_board (size st) c = true) f.
Proof.
  revert fired v st. induction n as [|n IH]; intros fired v st Hok Hfired.
  - cbn. eauto 6.
  - cbn [GameLoop.enemy_fire_loop].
    destruct (next_enemy_shot_defined st Hok) as [Hok1 Hshot].
    destruct (next_enemy_shot_spec st) as (o & g & Hst1).
    destruct (GameLoop.next_enemy_shot st) as [[[x y]|] st1];
      cbn [fst snd] in *; [|eauto 6].
    specialize (Hshot _ eq_refl).
    assert (Hsz1 : size st1 = size st) by (subst st1; reflexivity).
    destruct (receiveShot_defined (playerBoard st1) x y)
      as (r & pb & Hr & Hsq & Hbs).
    { rewrite (gk_player_size _ Hok1). exact (gk_player _ Hok1). }
    rewrite Hr. cbn [defined mbind outcome_bind].
    assert (Hok2 : game_ok (GameLoop.set_playerBoard pb st1)).
    { destruct Hok1 as [Hk He Hp Hps Ho]. constructor; cbn; auto.
      - rewrite <- Hps, <- Hbs. exact Hsq.
      - congruence. }
    match goal with
    | |- context [GameLoop.apply_enemy_result x y r ?v1 ?s] =>
        destruct (apply_enemy_result_defined x y r v1 s Hok2)
          as (v2 & st2 & Hap & Hok3)
    end.
    rewrite Hap. cbn [mbind outcome_bind].
    apply apply_enemy_result_spec in Hap as ((_ & _ & Hsz2 & _) & _).
    cbn in Hsz2.
    assert (Hfired' : Forall (fun c => in_board (size st) c = true)
                        (fired ++ [(x, y)])).
    { apply Forall_app. split; [exact Hfired|]. constructor; auto. }
    destruct (playerShipsRemaining st2 <=? 0); [eauto 6|].
    destruct (IH (fired ++ [(x, y)]) v2 st2 Hok3) as (f & v' & st' & H).
    + rewrite Hsz2, Hsz1. exact Hfired'.
    + rewrite Hsz2, Hsz1 in H. eauto.
Qed.

Lemma enemy_salvo_defined (n : Z) (st : GameLoopState) :
  game_ok st ->
  exists e st', GameLoop.enemy_salvo n st = Done (e, st') /\ game_ok st'.
Proof.
  intros Hok. unfold GameLoop.enemy_salvo.
  destruct (enemy_fire_loop_defined (Z.to_nat n) [] (mkVolley [] 0 0 0) st
              Hok ltac:(constructor)) as (f & v & st1 & Hl & Hok1 & Hf).
  rewrite Hl. cbn [mbind outcome_bind].
  apply enemy_fire_loop_spec in Hl as ((_ & _ & Hsz & _) & _).
  destruct (count_wounded_defined (size st) (boardArray (playerBoard st1)) f)
    as [w ->]; [|exact Hf|].
  { rewrite <- Hsz. exact (gk_player _ Hok1). }
  cbn [mbind outcome_bind].
  destruct (playerShipsRemaining st1 <=? 0); eexists _, _;
    (split; [reflexivity|]).
  - apply game_ok_close, Hok1.
  - apply game_ok_set_playerTurn, Hok1.
Qed.

(** The enemy's turn returns. *)
Lemma enemy_turn_defined (st : GameLoopState) :
  game_ok st ->
  exists e st', GameLoop.enemy_turn st = Done (e, st') /\ game_ok st'.
Proof.
  intros Hok. unfold GameLoop.enemy_turn.
  destruct (opponent st) as [ai|s] eqn:Eo.
  - exact (enemy_salvo_defined (shots st) st Hok).
  - unfold NetworkLogic.receiveShotCount.
    assert (Hok1 : forall counts,
              game_ok (GameLoop.set_opponent
                         (OppNet (mkSocket counts (recv_shots s)
                                    (recv_results s) (send_oks s) (sent s)
                                    (sock_closed s))) st)).
    { intros counts. destruct Hok as [Hk He Hp Hps Ho]. rewrite Eo in Ho.
      constructor; cbn; auto. }
    destruct (recv_counts s) as [|[n|] rest] eqn:Ec.
    + eexists _, _. split; [reflexivity|]. apply game_ok_close.
      specialize (Hok1 []). rewrite <- Ec in Hok1.
      destruct s; exact Hok1.
    + apply enemy_salvo_defined, Hok1.
    + eexists _, _. split; [reflexivity|]. apply game_ok_close, Hok1.
Qed.

(** The game loop returns for every series of commands on the board: no
    step reads outside a grid, and the flood fill has fuel enough. *)
Lemma runGameLoop_defined (cmds : list GameLoop.Command)
    (st : GameLoopState) :
  game_ok st ->
  Forall (fun c => match c with
                   | GameLoop.Fire sel =>
                       Forall (fun c => in_board (size st) c = true) sel
                   | GameLoop.Quit => True
                   end) cmds ->
  exists e st', GameLoop.runGameLoop cmds st = Done (e, st').
Proof.
  revert st. induction cmds as [|c cmds IH]; intros st Hok Hcmds.
  all: cbn [GameLoop.runGameLoop].
  all: assert (Hpart : exists oe st1,
                 GameLoop.enemy_part st = Done (oe, st1)
                 /\ game_ok st1 /\ size st1 = size st).
  1,3: unfold GameLoop.enemy_part;
       destruct (playerTurn st); [eauto 6|];
       destruct ((0 <? playerShipsRemaining st)
                 && (0 <? enemyShipsRemaining st)); [|eauto 6];
       destruct (enemy_turn_defined st Hok) as (e & st1 & Ht & Hok1);
       rewrite Ht; cbn [mbind outcome_bind];
       apply enemy_turn_spec in Ht as ((_ & _ & Hsz & _) & _);
       destruct e; eauto 6.
  all: destruct Hpart as (oe & st1 & -> & Hok1 & Hsz);
       cbn [mbind outcome_bind].
  all: destruct oe as [e'|]; [eauto|].
  all: destruct ((0 <? playerShipsRemaining st1)
                 && (0 <? enemyShipsRemaining st1)); [|eauto].
  - eauto.
  - apply Forall_cons in Hcmds as [Hc Hcmds].
    destruct c as [sel|]; [|eauto].
    destruct sel as [|s0 sel].
    + apply IH; [exact Hok1|]. rewrite Hsz. exact Hcmds.
    + destruct (player_firing_defined (s0 :: sel) st1 Hok1)
        as (p & st2 & Hp & Hok2).
      { rewrite Hsz. exact Hc. }
      rewrite Hp. cbn [mbind outcome_bind].
      apply player_firing_spec in Hp as ((_ & Hsz2 & _) & _).
      destruct p; [eauto| |eauto].
      apply IH; [exact Hok2|]. rewrite Hsz2, Hsz. exact Hcmds.
Qed.

(** ** Turn engine: a salvo stops when the defending fleet is gone *)

Lemma is_done_exists {A} (m : outcome A) :
  is_done m = true -> exists a, m = Done a.
Proof. destruct m; [eauto|discriminate..]. Qed.

(** The concrete game is in order. *)
Lemma demo_game_ok : game_ok demo_game.
Proof.
  constructor; cbn.
  - apply grid_make_square. lia.
  - exact (ok_grid _ (create_ok 10 ltac:(lia))).
  - exact (ok_grid _ scenarioA_board_ok).
  - reflexivity.
  - split_and!; [| reflexivity | | reflexivity].
    + destruct (addShip_ok (Board.create 10) 1 0 3 "A")
        as (b' & Hadd & Hok & _).
      * apply create_ok. lia.
      * lia.
      * reflexivity.
      * vm_compute. reflexivity.
      * unfold demo_easy_ai, demo_target. cbn [aiBoard].
        rewrite Hadd. exact Hok.
    + constructor; cbn.
      * apply all_cells_NoDup.
      * constructor.
      * discriminate.
      * intros c Hc. apply all_cells_elem in Hc. apply in_board_spec. lia.
      * apply grid_make_square. lia.
Qed.

(** X1.  The player's loop looks at the enemy's counter after every single
    shot.  Whichever shot of the salvo brings it to zero, the shots queued
    behind it are not resolved: the loop and the phase run on the longer
    salvo are the loop and the phase run on the shots up to that one, the
    phase does not hand the turn over, and the state it returns is the one
    that shot left, with only the connection closed. *)
Theorem player_salvo_stops_at_zero (p : Z * Z) (pre rest : list (Z * Z))
    (st st1 : GameLoopState) (res : option (list (Z * Z) * Volley)) :
  GameLoop.player_fire_loop (p :: pre) [] no_volley st = Done (res, st1) ->
  enemyShipsRemaining st1 <= 0 ->
  GameLoop.player_fire_loop ((p :: pre) ++ rest) [] no_volley st
  = Done (res, st1)
  /\ GameLoop.player_after_loop ((p :: pre) ++ rest) st
     = GameLoop.player_after_loop (p :: pre) st
  /\ forall e st', GameLoop.player_after_loop (p :: pre) st = Done (e, st') ->
       st' = GameLoop.close_opponent st1
       /\ (e = GameOver true \/ e = ConnectionLost).
Proof.
  intros Hl Hz.
  assert (Happ : GameLoop.player_fire_loop ((p :: pre) ++ rest) [] no_volley st
                 = Done (res, st1)).
  { rewrite player_fire_loop_app, Hl. cbn [mbind outcome_bind].
    destruct res as [[f v]|]; [|reflexivity].
    destruct (Z.leb_spec (enemyShipsRemaining st1) 0); [reflexivity|lia]. }
  split; [exact Happ|]. unfold GameLoop.player_after_loop.
  change (mkVolley [] 0 0 0) with no_volley. rewrite Happ, Hl.
  split; [reflexivity|]. cbn [mbind outcome_bind]. intros e st'.
  destruct res as [[f v]|].
  - intros H. apply bind_Done in H as (w & _ & H).
    destruct (Z.leb_spec (enemyShipsRemaining st1) 0); [|lia].
    injection H as <- <-. auto.
  - intros [= <- <-]. auto.
Qed.

Lemma player_salvo_stops_at_zero_witness :
  GameLoop.player_after_loop ([(0, 0); (0, 1); (0, 2)] ++ [(5, 5)]) demo_game
  = GameLoop.player_after_loop [(0, 0); (0, 1); (0, 2)] demo_game.
Proof.
  destruct (is_done_exists
              (GameLoop.player_fire_loop [(0, 0); (0, 1); (0, 2)] []
                 no_volley demo_game))
    as [[res st1] E]; [vm_compute; reflexivity|].
  assert (Hz : (fun r : option (list (Z * Z) * Volley) * GameLoopState =>
                  enemyShipsRemaining r.2)
                 <$> result_of (GameLoop.player_fire_loop
                                  [(0, 0); (0, 1); (0, 2)] [] no_volley
                                  demo_game)
               = Some 0) by (vm_compute; reflexivity).
  rewrite E in Hz. cbn in Hz. injection Hz as Hz.
  exact (proj1 (proj2 (player_salvo_stops_at_zero (0, 0) [(0, 1); (0, 2)]
                         [(5, 5)] demo_game st1 res E ltac:(lia)))).
Defined.

(** X2.  The same for the enemy's loop: when the shot of iteration [S k]
    leaves the player without ships, a salvo of [S k + m] shots ends there,
    with the state that shot left and the enemy declared the winner. *)
Theorem enemy_salvo_stops_at_zero (k m : nat) (st st1 : GameLoopState)
    (f : list (Z * Z)) (v : Volley) :
  GameLoop.enemy_fire_loop (S k) [] no_volley st = Done (f, v, st1) ->
  playerShipsRemaining st1 <= 0 ->
  GameLoop.enemy_fire_loop (S k + m) [] no_volley st = Done (f, v, st1)
  /\ GameLoop.enemy_salvo (Z.of_nat (S k + m)) st
     = GameLoop.enemy_salvo (Z.of_nat (S k)) st
  /\ forall e st', GameLoop.enemy_salvo (Z.of_nat (S k)) st = Done (e, st') ->
       st' = GameLoop.close_opponent st1 /\ e = GameOver false.
Proof.
  intros Hl Hz.
  assert (Hadd : GameLoop.enemy_fire_loop (S k + m) [] no_volley st
                 = Done (f, v, st1)).
  { rewrite enemy_fire_loop_add, Hl. cbn [mbind outcome_bind].
    destruct (Z.leb_spec (playerShipsRemaining st1) 0); [reflexivity|lia]. }
  split; [exact Hadd|]. unfold GameLoop.enemy_salvo.
  change (mkVolley [] 0 0 0) with no_volley.
  rewrite !Nat2Z.id, Hadd, Hl.
  split; [reflexivity|]. cbn [mbind outcome_bind]. intros e st' H.
  apply bind_Done in H as (w & _ & H).
  destruct (Z.leb_spec (playerShipsRemaining st1) 0); [|lia].
  injection H as <- <-. auto.
Qed.

Lemma enemy_salvo_stops_at_zero_witness :
  GameLoop.enemy_salvo (Z.of_nat (4 + 3)) (demo_smart_game demo_target)
  = GameLoop.enemy_salvo (Z.of_nat 4) (demo_smart_game demo_target).
Proof.
  destruct (is_done_exists
              (GameLoop.enemy_fire_loop 4 [] no_volley
                 (demo_smart_game demo_target)))
    as [[[f v] st1] E]; [vm_compute; reflexivity|].
  assert (Hz : (fun r : list (Z * Z) * Volley * GameLoopState =>
                  playerShipsRemaining r.2)
                 <$> result_of (GameLoop.enemy_fire_loop 4 [] no_volley
                                  (demo_smart_game demo_target))
               = Some 0) by (vm_compute; reflexivity).
  rewrite E in Hz. cbn in Hz. injection Hz as Hz.
  exact (proj1 (proj2 (enemy_salvo_stops_at_zero 3 3
                         (demo_smart_game demo_target) st1 f v E
                         ltac:(lia)))).
Defined.

(** X3.  A firing phase of the player entered with enemy ships left ends
    the game only with the enemy's counter at exactly zero, and then for the
    player; when it hands the turn over the counter is above zero and every
    selected shot was fired.  It never touches the player's own board or
    counter. *)
Theorem player_firing_verdict (sel : list (Z * Z)) (st st' : GameLoopState)
    (e : PhaseEnd) :
  GameLoop.player_firing sel st = Done (e, st') ->
  0 < enemyShipsRemaining st ->
  playerBoard st' = playerBoard st
  /\ playerShipsRemaining st' = playerShipsRemaining st
  /\ match e with
     | GameOver w => w = true /\ enemyShipsRemaining st' = 0
     | TurnDone v =>
         0 < enemyShipsRemaining st' /\ playerTurn st' = false
         /\ volleyCoords v = sel
     | ConnectionLost => True
     end.
Proof.
  intros H Hpos.
  apply player_firing_spec in H as [(Hb & _ & _ & _ & Hc & _) H].
  split; [exact Hb|]. split; [exact Hc|].
  destruct e as [w|v|]; [|tauto..]. destruct H as (-> & _ & Hz). auto.
Qed.

Lemma player_firing_verdict_witness :
  exists e st',
    GameLoop.player_firing [(0, 0); (0, 1); (0, 2); (5, 5)] demo_game
    = Done (e, st')
    /\ playerShipsRemaining st' = 1
    /\ match e with
       | GameOver w => w = true /\ enemyShipsRemaining st' = 0
       | TurnDone v =>
           0 < enemyShipsRemaining st' /\ playerTurn st' = false
           /\ volleyCoords v = [(0, 0); (0, 1); (0, 2); (5, 5)]
       | ConnectionLost => True
       end.
Proof.
  destruct (is_done_exists
              (GameLoop.player_firing [(0, 0); (0, 1); (0, 2); (5, 5)]
                 demo_game)) as [[e st'] E]; [vm_compute; reflexivity|].
  exists e, st'. split; [exact E|].
  exact (proj2 (player_firing_verdict _ _ _ _ E ltac:(cbn; lia))).
Defined.

(** X4.  A turn of the enemy entered with ships left on the player's side
    ends the game only with the player's counter at exactly zero, and then
    for the enemy; otherwise the turn goes back to the player.  It never
    touches the player's picture of the enemy board or the enemy's
    counter. *)
Theorem enemy_turn_verdict (st st' : GameLoopState) (e : PhaseEnd) :
  GameLoop.enemy_turn st = Done (e, st') ->
  0 < playerShipsRemaining st ->
  enemyBoard st' = enemyBoard st
  /\ enemyKnownBoard st' = enemyKnownBoard st
  /\ enemyShipsRemaining st' = enemyShipsRemaining st
  /\ match e with
     | GameOver w => w = false /\ playerShipsRemaining st' = 0
     | TurnDone _ => 0 < playerShipsRemaining st' /\ playerTurn st' = true
     | ConnectionLost => True
     end.
Proof.
  intros H Hpos.
  apply enemy_turn_spec in H as [(Hb & Hk & _ & _ & _ & Hc) H].
  split; [exact Hb|]. split; [exact Hk|]. split; [exact Hc|].
  destruct e as [w|v|]; [|tauto..]. destruct H as (-> & _ & Hz). auto.
Qed.

Lemma enemy_turn_verdict_witness :
  exists e st',
    GameLoop.enemy_turn (demo_smart_game demo_target) = Done (e, st')
    /\ enemyShipsRemaining st' = 1
    /\ match e with
       | GameOver w => w = false /\ playerShipsRemaining st' = 0
       | TurnDone _ => 0 < playerShipsRemaining st' /\ playerTurn st' = true
       | ConnectionLost => True
       end.
Proof.
  destruct (is_done_exists (GameLoop.enemy_turn (demo_smart_game demo_target)))
    as [[e st'] E]; [vm_compute; reflexivity|].
  exists e, st'. split; [exact E|].
  exact (proj2 (proj2 (enemy_turn_verdict _ _ _ E ltac:(cbn; lia)))).
Defined.

(** X5.  The game returns with a winner only when the loser's counter is
    at exactly zero and the winner's is not; while it waits for the player,
    both sides have ships left. *)
Theorem runGameLoop_verdict (cmds : list GameLoop.Command)
    (st st' : GameLoopState) (e : GameLoop.GameEnd) :
  GameLoop.runGameLoop cmds st = Done (e, st') ->
  match e with
  | GameLoop.Won true =>
      enemyShipsRemaining st' = 0 /\ 0 < playerShipsRemaining st'
  | GameLoop.Won false =>
      playerShipsRemaining st' = 0 /\ 0 < enemyShipsRemaining st'
  | GameLoop.AwaitingInput =>
      0 < playerShipsRemaining st' /\ 0 < enemyShipsRemaining st'
  | _ => True
  end.
Proof. apply runGameLoop_spec. Qed.

Lemma runGameLoop_verdict_witness :
  exists e st',
    GameLoop.runGameLoop
      [GameLoop.Fire [(5, 5)];
       GameLoop.Fire [(0, 0); (0, 1); (0, 2); (5, 5)]] demo_game
    = Done (e, st')
    /\ match e with
       | GameLoop.Won true =>
           enemyShipsRemaining st' = 0 /\ 0 < playerShipsRemaining st'
       | GameLoop.Won false =>
           playerShipsRemaining st' = 0 /\ 0 < enemyShipsRemaining st'
       | GameLoop.AwaitingInput =>
           0 < playerShipsRemaining st' /\ 0 < enemyShipsRemaining st'
       | _ => True
       end.
Proof.
  destruct (is_done_exists
              (GameLoop.runGameLoop
                 [GameLoop.Fire [(5, 5)];
                  GameLoop.Fire [(0, 0); (0, 1); (0, 2); (5, 5)]]
                 demo_game)) as [[e st'] E]; [vm_compute; reflexivity|].
  exists e, st'. split; [exact E|].
  exact (runGameLoop_verdict _ _ _ _ E).
Defined.

(** X6.  The game loop returns: for a game in order (all grids of the
    size of the game, the scripted opponent's fleet on its board and its
    pools consistent, or a peer whose shots lie on the board) and salvos
    on the board, no step reads or writes outside a grid, and the flood
    fill of a sunk ship has fuel enough. *)
Theorem runGameLoop_returns (cmds : list GameLoop.Command)
    (st : GameLoopState) :
  game_ok st ->
  Forall (fun c => match c with
                   | GameLoop.Fire sel =>
                       Forall (fun c => in_board (size st) c = true) sel
                   | GameLoop.Quit => True
                   end) cmds ->
  exists e st', GameLoop.runGameLoop cmds st = Done (e, st').
Proof. apply runGameLoop_defined. Qed.

Lemma runGameLoop_returns_witness :
  exists e st',
    GameLoop.runGameLoop
      [GameLoop.Fire [(5, 5)];
       GameLoop.Fire [(0, 0); (0, 1); (0, 2); (5, 5)]] demo_game
    = Done (e, st').
Proof.
  apply (runGameLoop_returns _ demo_game demo_game_ok).
  repeat constructor.
Defined.

(** ** C4 *)

(** The player's loop on a longer salvo is the loop on the shots up to the
    one that brought the enemy's counter to zero. *)
Lemma player_loop_stops (p : Z * Z) (pre rest : list (Z * Z))
    (st st1 : GameLoopState) (res : option (list (Z * Z) * Volley)) :
  GameLoop.player_fire_loop (p :: pre) [] no_volley st = Done (res, st1) ->
  enemyShipsRemaining st1 <= 0 ->
  GameLoop.player_fire_loop ((p :: pre) ++ rest) [] no_volley st
  = Done (res, st1)
  /\ GameLoop.player_after_loop ((p :: pre) ++ rest) st
     = GameLoop.player_after_loop (p :: pre) st
  /\ forall e st', GameLoop.player_after_loop (p :: pre) st = Done (e, st') ->
       st' = GameLoop.close_opponent st1
       /\ (e = GameOver true \/ e = ConnectionLost).
Proof.
  intros Hl Hz.
  assert (Happ : GameLoop.player_fire_loop ((p :: pre) ++ rest) [] no_volley st
                 = Done (res, st1)).
  { rewrite player_fire_loop_app, Hl. cbn [mbind outcome_bind].
    destruct res as [[f v]|]; [|reflexivity].
    destruct (Z.leb_spec (enemyShipsRemaining st1) 0); [reflexivity|lia]. }
  split; [exact Happ|]. unfold GameLoop.player_after_loop.
  change (mkVolley [] 0 0 0) with no_volley. rewrite Happ, Hl.
  split; [reflexivity|]. cbn [mbind outcome_bind]. intros e st'.
  destruct res as [[f v]|].
  - intros H. apply bind_Done in H as (w & _ & H).
    destruct (Z.leb_spec (enemyShipsRemaining st1) 0); [|lia].
    injection H as <- <-. auto.
  - intros [= <- <-]. auto.
Qed.

(** A loop that lost the connection had not brought the enemy's counter
    to zero. *)
Lemma player_fire_loop_lost (sel fired : list (Z * Z)) (v : Volley)
    (st st1 : GameLoopState) :
  GameLoop.player_fire_loop sel fired v st = Done (None, st1) ->
  0 < enemyShipsRemaining st -> 0 < enemyShipsRemaining st1.
Proof.
  revert fired v st. induction sel as [|[x y] sel IH]; intros fired v st.
  - cbn. discriminate.
  - cbn [GameLoop.player_fire_loop]. intros H Hpos.
    apply bind_Done in H as ([r st2] & Hres & H).
    apply resolve_player_shot_spec in Hres as [o ->].
    destruct r as [r|]; [|injection H as <-; exact Hpos].
    apply bind_Done in H as ([v3 st3] & Hap & H).
    apply apply_player_result_spec in Hap as (_ & _ & _ & _ & He & _).
    cbn in He.
    destruct (Z.leb_spec (enemyShipsRemaining st3) 0); [discriminate|].
    apply IH in H; assumption.
Qed.

(** The same for the enemy's loop. *)
Lemma enemy_loop_stops (k m : nat) (st st1 : GameLoopState)
    (f : list (Z * Z)) (v : Volley) :
  GameLoop.enemy_fire_loop (S k) [] no_volley st = Done (f, v, st1) ->
  playerShipsRemaining st1 <= 0 ->
  GameLoop.enemy_fire_loop (S k + m) [] no_volley st = Done (f, v, st1)
  /\ GameLoop.enemy_salvo (Z.of_nat (S k + m)) st
     = GameLoop.enemy_salvo (Z.of_nat (S k)) st
  /\ forall e st', GameLoop.enemy_salvo (Z.of_nat (S k)) st = Done (e, st') ->
       st' = GameLoop.close_opponent st1 /\ e = GameOver false.
Proof.
  intros Hl Hz.
  assert (Hadd : GameLoop.enemy_fire_loop (S k + m) [] no_volley st
                 = Done (f, v, st1)).
  { rewrite enemy_fire_loop_add, Hl. cbn [mbind outcome_bind].
    destruct (Z.leb_spec (playerShipsRemaining st1) 0); [reflexivity|lia]. }
  split; [exact Hadd|]. unfold GameLoop.enemy_salvo.
  change (mkVolley [] 0 0 0) with no_volley.
  rewrite !Nat2Z.id, Hadd, Hl.
  split; [reflexivity|]. cbn [mbind outcome_bind]. intros e st' H.
  apply bind_Done in H as (w & _ & H).
  destruct (Z.leb_spec (playerShipsRemaining st1) 0); [|lia].
  injection H as <- <-. auto.
Qed.

(** C4.  In a firing phase the defender's counter of remaining ships is
    tested after every single shot, not only at the end of the salvo.
    (a) In a phase entered with enemy ships left, whichever shot of the
    player's salvo brings the enemy's counter to zero, the shots queued
    behind it are not resolved: the loop and the rest of the phase on the
    longer salvo are those on the shots up to that one, the phase ends the
    game for the player and the state returned is the one that shot left,
    with the connection closed.  (b) The same holds for the enemy's salvo,
    which then ends the game for the enemy.  (c) A phase
    entered with ships on the defender's side ends the game only with the
    defender's counter at exactly zero, and then for the attacker; when it
    hands the turn over the counter is above zero and, on the player's
    side, every selected shot was fired; the attacker's own board and
    counter are not touched.  (d) The game returns with a winner only when
    the loser's counter is at zero and the winner's is not.  (e) Closing
    the connection changes nothing but the socket. *)
Theorem firing_stops_when_fleet_is_sunk :
  (forall (p : Z * Z) (pre rest : list (Z * Z)) (st st1 : GameLoopState)
          (res : option (list (Z * Z) * Volley)),
     0 < enemyShipsRemaining st ->
     GameLoop.player_fire_loop (p :: pre) [] no_volley st = Done (res, st1) ->
     enemyShipsRemaining st1 <= 0 ->
     GameLoop.player_fire_loop ((p :: pre) ++ rest) [] no_volley st
     = Done (res, st1)
     /\ GameLoop.player_after_loop ((p :: pre) ++ rest) st
        = GameLoop.player_after_loop (p :: pre) st
     /\ forall e st',
          GameLoop.player_after_loop (p :: pre) st = Done (e, st') ->
          st' = GameLoop.close_opponent st1 /\ e = GameOver true)
  /\ (forall (k m : nat) (st st1 : GameLoopState) (f : list (Z * Z))
             (v : Volley),
        GameLoop.enemy_fire_loop (S k) [] no_volley st = Done (f, v, st1) ->
        playerShipsRemaining st1 <= 0 ->
        GameLoop.enemy_fire_loop (S k + m) [] no_volley st = Done (f, v, st1)
        /\ GameLoop.enemy_salvo (Z.of_nat (S k + m)) st
           = GameLoop.enemy_salvo (Z.of_nat (S k)) st
        /\ forall e st',
             GameLoop.enemy_salvo (Z.of_nat (S k)) st = Done (e, st') ->
             st' = GameLoop.close_opponent st1 /\ e = GameOver false)
  /\ (forall (sel : list (Z * Z)) (st st' : GameLoopState) (e : PhaseEnd),
        GameLoop.player_firing sel st = Done (e, st') ->
        0 < enemyShipsRemaining st ->
        playerBoard st' = playerBoard st
        /\ playerShipsRemaining st' = playerShipsRemaining st
        /\ match e with
           | GameOver w => w = true /\ enemyShipsRemaining st' = 0
           | TurnDone v =>
               0 < enemyShipsRemaining st' /\ playerTurn st' = false
               /\ volleyCoords v = sel
           | ConnectionLost => True
           end)
  /\ (forall (st st' : GameLoopState) (e : PhaseEnd),
        GameLoop.enemy_turn st = Done (e, st') ->
        0 < playerShipsRemaining st ->
        enemyBoard st' = enemyBoard st
        /\ enemyKnownBoard st' = enemyKnownBoard st
        /\ enemyShipsRemaining st' = enemyShipsRemaining st
        /\ match e with
           | GameOver w => w = false /\ playerShipsRemaining st' = 0
           | TurnDone _ =>
               0 < playerShipsRemaining st' /\ playerTurn st' = true
           | ConnectionLost => True
           end)
  /\ (forall (cmds : list GameLoop.Command) (st st' : GameLoopState)
             (e : GameLoop.GameEnd),
        GameLoop.runGameLoop cmds st = Done (e, st') ->
        match e with
        | GameLoop.Won true =>
            enemyShipsRemaining st' = 0 /\ 0 < playerShipsRemaining st'
        | GameLoop.Won false =>
            playerShipsRemaining st' = 0 /\ 0 < enemyShipsRemaining st'
        | GameLoop.AwaitingInput =>
            0 < playerShipsRemaining st' /\ 0 < enemyShipsRemaining st'
        | _ => True
        end)
  /\ (forall st : GameLoopState,
        match opponent st with
        | OppAI _ => GameLoop.close_opponent st = st
        | OppNet s =>
            GameLoop.close_opponent st
            = GameLoop.set_opponent (OppNet (closesocket s)) st
        end).
Proof.
  split.
  { intros p pre rest st st1 res Hpos Hl Hz.
    destruct (player_loop_stops p pre rest st st1 res Hl Hz)
      as (Happ & Hafter & Hend).
    split; [exact Happ|]. split; [exact Hafter|]. intros e st' H.
    destruct (Hend e st' H) as [-> [->| ->]]; [auto|]. exfalso.
    unfold GameLoop.player_after_loop in H.
    change (mkVolley [] 0 0 0) with no_volley in H. rewrite Hl in H.
    cbn [mbind outcome_bind] in H. destruct res as [[f v]|].
    - apply bind_Done in H as (w & _ & H).
      destruct (enemyShipsRemaining st1 <=? 0); discriminate.
    - pose proof (player_fire_loop_lost _ _ _ _ _ Hl Hpos). lia. }
  split; [exact enemy_loop_stops|].
  split_and!.
  - intros sel st st' e H Hpos.
    apply player_firing_spec in H as [(Hb & _ & _ & _ & Hc & _) H].
    split; [exact Hb|]. split; [exact Hc|].
    destruct e as [w|v|]; [|tauto..]. destruct H as (-> & _ & Hz). auto.
  - intros st st' e H Hpos.
    apply enemy_turn_spec in H as [(Hb & Hk & _ & _ & _ & Hc) H].
    split; [exact Hb|]. split; [exact Hk|]. split; [exact Hc|].
    destruct e as [w|v|]; [|tauto..]. destruct H as (-> & _ & Hz). auto.
  - exact runGameLoop_spec.
  - intros st. unfold GameLoop.close_opponent.
    destruct (opponent st); reflexivity.
Qed.

Lemma firing_stops_when_fleet_is_sunk_witness :
  GameLoop.player_after_loop ([(0, 0); (0, 1); (0, 2)] ++ [(5, 5)]) demo_game
  = GameLoop.player_after_loop [(0, 0); (0, 1); (0, 2)] demo_game
  /\ exists st',
       GameLoop.runGameLoop
         [GameLoop.Fire [(5, 5)];
          GameLoop.Fire [(0, 0); (0, 1); (0, 2); (5, 5)]] demo_game
       = Done (GameLoop.Won true, st')
       /\ enemyShipsRemaining st' = 0 /\ 0 < playerShipsRemaining st'.
Proof.
  split.
  - destruct (is_done_exists
                (GameLoop.player_fire_loop [(0, 0); (0, 1); (0, 2)] []
                   no_volley demo_game))
      as [[res st1] E]; [vm_compute; reflexivity|].
    assert (Hz : (fun r : option (list (Z * Z) * Volley) * GameLoopState =>
                    enemyShipsRemaining r.2)
                   <$> result_of (GameLoop.player_fire_loop
                                    [(0, 0); (0, 1); (0, 2)] [] no_volley
                                    demo_game)
                 = Some 0) by (vm_compute; reflexivity).
    rewrite E in Hz. cbn in Hz. injection Hz as Hz.
    exact (proj1 (proj2 (proj1 firing_stops_when_fleet_is_sunk (0, 0)
                           [(0, 1); (0, 2)] [(5, 5)] demo_game st1 res
                           ltac:(cbn; lia) E ltac:(lia)))).
  - destruct (is_done_exists
                (GameLoop.runGameLoop
                   [GameLoop.Fire [(5, 5)];
                    GameLoop.Fire [(0, 0); (0, 1); (0, 2); (5, 5)]]
                   demo_game)) as [[e st'] E]; [vm_compute; reflexivity|].
    assert (He : (fun r : GameLoop.GameEnd * GameLoopState => r.1)
                   <$> result_of
                         (GameLoop.runGameLoop
                            [GameLoop.Fire [(5, 5)];
                             GameLoop.Fire [(0, 0); (0, 1); (0, 2); (5, 5)]]
                            demo_game)
                 = Some (GameLoop.Won true)) by (vm_compute; reflexivity).
    rewrite E in He. cbn in He. injection He as ->.
    exists st'. split; [exact E|].
    exact (proj1 (proj2 (proj2 (proj2 (proj2 firing_stops_when_fleet_is_sunk))))
             _ _ _ _ E).
Defined.

(** ** Turn engine: what the scripted opponent fires in a salvo *)

Lemma next_enemy_shot_ai (st : GameLoopState) (ai : AILogic) :
  opponent st = OppAI ai ->
  GameLoop.next_enemy_shot st
  = let '(shot, ai', g') := AI.pickAttackCoordinates ai (rng st) in
    (if (shot.1 =? -1) || (shot.2 =? -1) then None else Some shot,
     GameLoop.set_rng g' (GameLoop.set_opponent (OppAI ai') st)).
Proof.
  intros Ho. unfold GameLoop.next_enemy_shot. rewrite Ho.
  destruct (AI.pickAttackCoordinates ai (rng st)) as [[shot ai'] g'].
  destruct ((shot.1 =? -1) || (shot.2 =? -1)); reflexivity.
Qed.

(** The cells fired by the scripted opponent in a salvo come from its pool
    of untried cells, none twice, and leave the pool. *)
Lemma enemy_fire_loop_pool (n : nat) (fired f : list (Z * Z)) (v v' : Volley)
    (st st' : GameLoopState) (ai : AILogic) :
  opponent st = OppAI ai -> pools_ok ai ->
  GameLoop.enemy_fire_loop n fired v st = Done (f, v', st') ->
  exists dn ai',
    f = fired ++ dn /\ NoDup dn
    /\ (forall c, c ∈ dn -> c ∈ availableShots ai)
    /\ opponent st' = OppAI ai' /\ pools_ok ai'
    /\ difficulty ai' = difficulty ai
    /\ forall c, c ∈ availableShots ai' <-> c ∈ availableShots ai /\ c ∉ dn.
Proof.
  revert fired v st ai. induction n as [|n IH]; intros fired v st ai Ho Hok.
  - cbn. intros [= <- <- <-]. exists [], ai. rewrite app_nil_r.
    split_and!; auto; [constructor|intros c Hc; inversion Hc|].
    intros c. rewrite elem_of_nil. tauto.
  - cbn [GameLoop.enemy_fire_loop]. rewrite (next_enemy_shot_ai st ai Ho).
    pose proof (pick_spec ai (rng st) Hok) as Hpick.
    destruct (AI.pickAttackCoordinates ai (rng st)) as [[shot ai1] g1].
    destruct Hpick as (Hok1 & _ & _ & Hd1 & _ & Hcase).
    destruct ((shot.1 =? -1) || (shot.2 =? -1)) eqn:Eneg.
    + intros [= <- <- <-]. exists [], ai1. rewrite app_nil_r. cbn.
      split_and!; auto; [constructor|intros c Hc; inversion Hc|].
      intros c. rewrite elem_of_nil.
      destruct Hcase as [(_ & _ & -> & _)|(_ & Hin & _)]; [tauto|].
      apply (pool_inside _ Hok), in_board_spec in Hin. lia.
    + destruct shot as [x y]. intros H.
      apply bind_Done in H as ([r pb] & _ & H).
      apply bind_Done in H as ([v2 st2] & Hap & H).
      apply apply_enemy_result_spec in Hap as (_ & _ & _ & _ & _ & _ & Hrec).
      cbn [opponent GameLoop.set_playerBoard GameLoop.set_rng
           GameLoop.set_opponent] in Hrec.
      destruct Hrec as (ai2 & Hrec & Ho2).
      destruct (recordShotResult_pools ai1 x y (negb (r =? 0))
                  (negb ((r =? 0) || (r =? 1))) Hok1)
        as (ai2' & Hrec' & Hok2 & Hav2 & _ & Hd2 & _).
      rewrite Hrec in Hrec'. injection Hrec' as <-.
      destruct Hcase as [(_ & [= -> ->] & _)|(_ & Hin & [_ Hwo] & _)];
        [discriminate|].
      assert (Hone : forall dn ai',
                NoDup dn ->
                (forall c, c ∈ dn -> c ∈ availableShots ai2) ->
                (forall c, c ∈ availableShots ai'
                           <-> c ∈ availableShots ai2 /\ c ∉ dn) ->
                NoDup ((x, y) :: dn)
                /\ (forall c, c ∈ (x, y) :: dn -> c ∈ availableShots ai)
                /\ forall c, c ∈ availableShots ai'
                             <-> c ∈ availableShots ai
                                 /\ c ∉ (x, y) :: dn).
      { intros dn ai' Hnd Hsub Hiff. split_and!.
        - constructor; [|exact Hnd]. intros Hc.
          apply Hsub in Hc. rewrite Hav2 in Hc. apply Hwo in Hc. tauto.
        - intros c [->|Hc]%elem_of_cons; [exact Hin|].
          apply Hsub in Hc. rewrite Hav2 in Hc. apply Hwo in Hc. tauto.
        - intros c. rewrite Hiff, Hav2, Hwo, not_elem_of_cons. tauto. }
      destruct (playerShipsRemaining st2 <=? 0).
      * injection H as <- <- <-. exists [(x, y)], ai2.
        destruct (Hone [] ai2 ltac:(constructor)) as (Hnd & Hsub & Hiff).
        { intros c Hc. inversion Hc. }
        { intros c. rewrite elem_of_nil. tauto. }
        split_and!; auto. congruence.
      * apply (IH _ _ _ ai2 Ho2 Hok2) in H
          as (dn & ai' & -> & Hnd & Hsub & Ho' & Hok' & Hd' & Hiff).
        exists ((x, y) :: dn), ai'. rewrite <- app_assoc. cbn.
        destruct (Hone dn ai' Hnd Hsub Hiff) as (Hnd' & Hsub' & Hiff').
        split_and!; auto. congruence.
Qed.

(** X7.  Within a salvo the scripted opponent fires only cells of its pool
    of untried cells and none twice; afterwards the pool holds exactly the
    cells of before that were not fired. *)
Theorem enemy_salvo_fresh_cells (n : nat) (st st' : GameLoopState)
    (ai : AILogic) (f : list (Z * Z)) (v : Volley) :
  opponent st = OppAI ai -> pools_ok ai ->
  GameLoop.enemy_fire_loop n [] no_volley st = Done (f, v, st') ->
  NoDup f
  /\ (forall c, c ∈ f -> c ∈ availableShots ai)
  /\ exists ai',
       opponent st' = OppAI ai' /\ pools_ok ai'
       /\ forall c, c ∈ availableShots ai'
                    <-> c ∈ availableShots ai /\ c ∉ f.
Proof.
  intros Ho Hok H.
  apply (enemy_fire_loop_pool _ _ _ _ _ _ _ ai Ho Hok) in H
    as (dn & ai' & -> & Hnd & Hsub & Ho' & Hok' & _ & Hiff).
  cbn. split_and!; auto. exists ai'. auto.
Qed.

Lemma enemy_salvo_fresh_cells_witness :
  exists f v st',
    GameLoop.enemy_fire_loop 4 [] no_volley (demo_smart_game demo_target)
    = Done (f, v, st')
    /\ NoDup f /\ forall c, c ∈ f -> c ∈ availableShots demo_ai.
Proof.
  destruct (is_done_exists
              (GameLoop.enemy_fire_loop 4 [] no_volley
                 (demo_smart_game demo_target)))
    as [[[f v] st'] E]; [vm_compute; reflexivity|].
  exists f, v, st'. split; [exact E|].
  destruct (enemy_salvo_fresh_cells 4 (demo_smart_game demo_target) st'
              demo_ai f v eq_refl (proj1 demo_ai_ok) E) as (Hnd & Hsub & _).
  split; assumption.
Defined.

(** ** Turn engine: the easy opponent does not react within a salvo *)

Lemma easy_pick_ext (ai1 ai2 : AILogic) (g : Rng) :
  difficulty ai1 = EASY -> difficulty ai2 = EASY ->
  availableShots ai1 = availableShots ai2 ->
  (AI.pickAttackCoordinates ai1 g).1.1 = (AI.pickAttackCoordinates ai2 g).1.1
  /\ (AI.pickAttackCoordinates ai1 g).2 = (AI.pickAttackCoordinates ai2 g).2
  /\ availableShots (AI.pickAttackCoordinates ai1 g).1.2
     = availableShots (AI.pickAttackCoordinates ai2 g).1.2
  /\ difficulty (AI.pickAttackCoordinates ai1 g).1.2 = EASY
  /\ difficulty (AI.pickAttackCoordinates ai2 g).1.2 = EASY.
Proof.
  intros H1 H2 Hav. unfold AI.pickAttackCoordinates.
  rewrite H1, H2, <- Hav.
  destruct (availableShots ai1) as [|c l] eqn:E.
  - cbn. split_and!; auto; congruence.
  - unfold AI.pick_random. rewrite <- Hav, E.
    destruct (rand g) as [r g']. cbn. split_and!; auto; congruence.
Qed.

Lemma blind_picks_easy_ext (n : nat) (ai1 ai2 : AILogic) (g : Rng) :
  difficulty ai1 = EASY -> difficulty ai2 = EASY ->
  availableShots ai1 = availableShots ai2 ->
  blind_picks n ai1 g = blind_picks n ai2 g.
Proof.
  revert ai1 ai2 g. induction n as [|n IH]; intros ai1 ai2 g H1 H2 Hav;
    [reflexivity|].
  cbn [blind_picks].
  destruct (easy_pick_ext ai1 ai2 g H1 H2 Hav) as (Hc & Hg & Hav' & Hd1 & Hd2).
  destruct (AI.pickAttackCoordinates ai1 g) as [[c1 a1] g1].
  destruct (AI.pickAttackCoordinates ai2 g) as [[c2 a2] g2].
  cbn in Hc, Hg, Hav', Hd1, Hd2. subst c2 g2.
  destruct ((c1.1 =? -1) || (c1.2 =? -1)); [reflexivity|].
  f_equal. exact (IH a1 a2 g1 Hd1 Hd2 Hav').
Qed.

Lemma record_easy (ai ai' : AILogic) (x y : Z) (hit sunk : bool) :
  difficulty ai = EASY ->
  AI.recordShotResult ai x y hit sunk = Some ai' ->
  difficulty ai' = EASY /\ availableShots ai' = availableShots ai.
Proof.
  intros Hd. unfold AI.recordShotResult.
  destruct ((0 <=? x) && (x <? ai_boardSize ai) && (0 <=? y)
            && (y <? ai_boardSize ai)); [|intros [= <-]; auto].
  destruct (grid_set _ _ _ _) as [ob|]; [|discriminate].
  cbn. rewrite Hd. cbn. destruct hit; intros [= <-]; cbn; auto.
Qed.

Lemma enemy_fire_loop_easy (n : nat) (fired f : list (Z * Z)) (v v' : Volley)
    (st st' : GameLoopState) (ai : AILogic) :
  opponent st = OppAI ai -> difficulty ai = EASY ->
  GameLoop.enemy_fire_loop n fired v st = Done (f, v', st') ->
  exists k,
    f = fired ++ take k (blind_picks n ai (rng st))
    /\ (0 < playerShipsRemaining st' ->
        f = fired ++ blind_picks n ai (rng st)).
Proof.
  revert fired v st ai. induction n as [|n IH]; intros fired v st ai Ho Hd.
  - cbn. intros [= <- <- <-]. exists 0%nat. cbn. rewrite app_nil_r. auto.
  - cbn [GameLoop.enemy_fire_loop blind_picks].
    rewrite (next_enemy_shot_ai st ai Ho).
    destruct (easy_pick_ext ai ai (rng st) Hd Hd eq_refl)
      as (_ & _ & _ & Hd1 & _).
    destruct (AI.pickAttackCoordinates ai (rng st)) as [[shot ai1] g1].
    cbn in Hd1.
    destruct ((shot.1 =? -1) || (shot.2 =? -1)) eqn:Eneg.
    + intros [= <- <- <-]. exists 0%nat. cbn. rewrite app_nil_r. auto.
    + destruct shot as [x y]. intros H.
      apply bind_Done in H as ([r pb] & _ & H).
      apply bind_Done in H as ([v2 st2] & Hap & H).
      apply apply_enemy_result_spec in Hap
        as (_ & _ & Hg & _ & _ & _ & Hrec).
      cbn [opponent rng GameLoop.set_playerBoard GameLoop.set_rng
           GameLoop.set_opponent] in Hrec, Hg.
      destruct Hrec as (ai2 & Hrec & Ho2).
      apply (record_easy _ _ _ _ _ _ Hd1) in Hrec as [Hd2 Hav2].
      destruct (playerShipsRemaining st2 <=? 0) eqn:Ez.
      * injection H as <- <- <-. exists 1%nat. cbn. split; [reflexivity|].
        lia.
      * apply (IH _ _ _ ai2 Ho2 Hd2) in H as (k & -> & Hall).
        rewrite Hg, (blind_picks_easy_ext n ai2 ai1 g1 Hd2 Hd1 Hav2) in *.
        exists (S k). rewrite <- app_assoc. cbn. split; [reflexivity|].
        intros Hpos. apply Hall, app_inv_head in Hpos.
        rewrite Hpos. reflexivity.
Qed.

(** X8.  The easy opponent does not react to what its shots do: for a
    fixed opponent state and random sequence, whatever the player's board,
    the cells it fires in a salvo are a first part of the cells its picks
    return when no outcome is recorded in between, and all of them when the
    player has ships left after the salvo. *)
Theorem easy_salvo_ignores_outcomes (n : nat) (st st' : GameLoopState)
    (ai : AILogic) (f : list (Z * Z)) (v : Volley) :
  opponent st = OppAI ai -> difficulty ai = EASY ->
  GameLoop.enemy_fire_loop n [] no_volley st = Done (f, v, st') ->
  (exists k, f = take k (blind_picks n ai (rng st)))
  /\ (0 < playerShipsRemaining st' -> f = blind_picks n ai (rng st)).
Proof.
  intros Ho Hd H.
  apply (enemy_fire_loop_easy _ _ _ _ _ _ _ ai Ho Hd) in H as (k & -> & Hall).
  cbn. split; [eauto|exact Hall].
Qed.

Lemma easy_salvo_ignores_outcomes_witness :
  exists f v st',
    GameLoop.enemy_fire_loop 3 [] no_volley demo_game = Done (f, v, st')
    /\ exists k, f = take k (blind_picks 3 demo_easy_ai demo_rng).
Proof.
  destruct (is_done_exists
              (GameLoop.enemy_fire_loop 3 [] no_volley demo_game))
    as [[[f v] st'] E]; [vm_compute; reflexivity|].
  exists f, v, st'. split; [exact E|].
  exact (proj1 (easy_salvo_ignores_outcomes 3 demo_game st' demo_easy_ai f v
                  eq_refl eq_refl E)).
Defined.

(** ** Turn engine: the smart opponent reacts within a salvo *)

Lemma pick_smart_queue_empty (ai : AILogic) (g : Rng) :
  difficulty ai = SMART -> availableShots ai <> [] ->
  Forall (fun q => q ∉ availableShots ai) (targetQueue ai) ->
  targetQueue (AI.pickAttackCoordinates ai g).1.2 = [].
Proof.
  intros Hd Hne Hq. unfold AI.pickAttackCoordinates.
  destruct (availableShots ai) as [|c l] eqn:E; [congruence|].
  rewrite Hd. apply pop_target_None in Hq. rewrite Hq.
  destruct (last (parityShots ai)); [reflexivity|].
  unfold AI.pick_random. destruct (rand g). reflexivity.
Qed.

(** X9.  The smart opponent reacts within the salvo.  When its queue holds
    no live entry and its first shot hits without sinking, the second shot
    of the same salvo is the first neighbour of the hit, in the order up,
    down, left, right, that is on the board and still unknown, provided
    that cell is in the pool of untried cells. *)
Theorem smart_salvo_follows_hit (st st' : GameLoopState) (ai : AILogic)
    (x y : Z) (pb : BoardData) (d : Z * Z) (ds f : list (Z * Z))
    (v : Volley) :
  opponent st = OppAI ai -> pools_ok ai -> difficulty ai = SMART ->
  availableShots ai <> [] ->
  Forall (fun q => q ∉ availableShots ai) (targetQueue ai) ->
  (AI.pickAttackCoordinates ai (rng st)).1.1 = (x, y) ->
  Board.receiveShot (playerBoard st) x y = Some (1, pb) ->
  0 < playerShipsRemaining st ->
  fresh_neighbours ai x y = d :: ds -> d ∈ availableShots ai ->
  GameLoop.enemy_fire_loop 2 [] no_volley st = Done (f, v, st') ->
  f = [(x, y); d].
Proof.
  intros Ho Hok Hd Hne Hq Hpick Hshot Hpos Hfresh Hdin.
  cbn [GameLoop.enemy_fire_loop]. rewrite (next_enemy_shot_ai st ai Ho).
  pose proof (pick_spec ai (rng st) Hok) as Hspec.
  pose proof (pick_smart_queue_empty ai (rng st) Hd Hne Hq) as Hq1.
  destruct (AI.pickAttackCoordinates ai (rng st)) as [[shot ai1] g1].
  cbn in Hpick, Hq1. subst shot.
  destruct Hspec as (Hok1 & Hsz1 & Hob1 & Hd1 & _ & Hcase).
  destruct Hcase as [(He & _)|(_ & Hin & [_ Hwo] & _)]; [contradiction|].
  pose proof (pool_inside _ Hok _ Hin) as Hxy.
  assert (Hneg : ((x, y).1 =? -1) || ((x, y).2 =? -1) = false).
  { apply in_board_spec in Hxy. cbn in *. lia. }
  rewrite Hneg.
  cbn [playerBoard GameLoop.set_rng GameLoop.set_opponent].
  rewrite Hshot. cbn [defined mbind outcome_bind]. intros H.
  apply bind_Done in H as ([v2 st2] & Hap & H).
  apply apply_enemy_result_spec in Hap
    as (_ & _ & Hg2 & _ & _ & Hp2 & Hrec).
  cbn [opponent rng playerShipsRemaining GameLoop.set_playerBoard
       GameLoop.set_rng GameLoop.set_opponent Z.eqb orb negb] in Hrec, Hg2, Hp2.
  destruct Hrec as (ai2 & Hrec & Ho2).
  change (AI.recordShotResult ai1 x y true false = Some ai2) in Hrec.
  destruct (recordShotResult_pools ai1 x y true false Hok1)
    as (ai2' & Hrec' & Hok2 & Hav2 & _ & Hd2 & _).
  rewrite Hrec in Hrec'. injection Hrec' as <-.
  destruct (recordShotResult_spec ai1 x y true false
              (knowledge_square _ Hok1))
    as (ai2' & Hrec' & _ & _ & _ & _ & _ & _ & Hin2).
  rewrite Hrec in Hrec'. injection Hrec' as <-.
  rewrite Hsz1, Hxy, Hd1, Hd in Hin2. destruct Hin2 as [_ Hq2].
  rewrite bool_decide_eq_true_2 in Hq2 by reflexivity.
  cbn [andb negb] in Hq2.
  assert (Hf1 : fresh_neighbours ai1 x y = d :: ds).
  { unfold fresh_neighbours in *. rewrite Hsz1, Hob1. exact Hfresh. }
  rewrite Hq1, Hf1 in Hq2. cbn in Hq2.
  assert (Hdn : d ∈ AI.neighbours x y).
  { assert (Hdf : d ∈ fresh_neighbours ai x y) by (rewrite Hfresh; left).
    unfold fresh_neighbours in Hdf.
    apply list_elem_of_filter in Hdf. tauto. }
  assert (Hdne : d <> (x, y)).
  { unfold AI.neighbours in Hdn. intros ->.
    repeat (apply elem_of_cons in Hdn as [Hdn|Hdn];
            [injection Hdn; lia|]).
    inversion Hdn. }
  assert (Hd2in : d ∈ availableShots ai2).
  { rewrite Hav2. apply Hwo. tauto. }
  change (playerShipsRemaining st2 = playerShipsRemaining st) in Hp2.
  destruct (Z.leb_spec (playerShipsRemaining st2) 0) as [Hz|_]; [lia|].
  cbn [GameLoop.enemy_fire_loop] in H.
  rewrite (next_enemy_shot_ai st2 ai2 Ho2) in H.
  pose proof (pick_smart_head ai2 (rng st2) d ds
                ltac:(congruence) Hq2 Hd2in) as Hpick2.
  destruct (AI.pickAttackCoordinates ai2 (rng st2)) as [[shot2 ai3] g3].
  cbn in Hpick2. subst shot2.
  pose proof (pool_inside _ Hok2 _ Hd2in) as Hdb.
  assert (Hneg2 : (d.1 =? -1) || (d.2 =? -1) = false).
  { apply in_board_spec in Hdb. lia. }
  rewrite Hneg2 in H. destruct d as [dx dy].
  apply bind_Done in H as ([r3 pb3] & _ & H).
  apply bind_Done in H as ([v3 st3] & _ & H).
  destruct (playerShipsRemaining st3 <=? 0); injection H as <- _ _;
    reflexivity.
Qed.

Lemma fmap_fst_Some {A B} (o : option (A * B)) (a : A) :
  fst <$> o = Some a -> exists b, o = Some (a, b).
Proof. destruct o as [[a' b]|]; cbn; [intros [= ->]; eauto|discriminate]. Qed.

Lemma smart_salvo_follows_hit_witness :
  exists f v st',
    GameLoop.enemy_fire_loop 2 [] no_volley (demo_smart_game demo_target)
    = Done (f, v, st')
    /\ f = [(0, 0); (0, 1)].
Proof.
  destruct (is_done_exists
              (GameLoop.enemy_fire_loop 2 [] no_volley
                 (demo_smart_game demo_target)))
    as [[[f v] st'] E]; [vm_compute; reflexivity|].
  destruct (fmap_fst_Some (Board.receiveShot demo_target 0 0) 1)
    as [pb Hshot]; [vm_compute; reflexivity|].
  exists f, v, st'. split; [exact E|].
  apply (smart_salvo_follows_hit (demo_smart_game demo_target) st' demo_ai
           0 0 pb (0, 1) [(1, 0)] f v).
  - reflexivity.
  - exact (proj1 demo_ai_ok).
  - exact (proj2 demo_ai_ok).
  - intros H. apply (f_equal length) in H. vm_compute in H. discriminate.
  - replace (targetQueue demo_ai) with (@nil (Z * Z))
      by (vm_compute; reflexivity).
    constructor.
  - vm_compute. reflexivity.
  - exact Hshot.
  - cbn. lia.
  - vm_compute. reflexivity.
  - apply (bool_decide_eq_true_1 _). vm_compute. reflexivity.
  - exact E.
Defined.

(** ** C5 *)

(** The first cell of a salvo is the opponent's first pick. *)
Lemma enemy_fire_loop_head (n : nat) (st st' : GameLoopState)
    (ai : AILogic) (f : list (Z * Z)) (v : Volley) :
  opponent st = OppAI ai ->
  GameLoop.enemy_fire_loop n [] no_volley st = Done (f, v, st') ->
  head f
  = match n with
    | O => None
    | S _ =>
        let shot := (AI.pickAttackCoordinates ai (rng st)).1.1 in
        if (shot.1 =? -1) || (shot.2 =? -1) then None else Some shot
    end.
Proof.
  intros Ho. destruct n as [|n]; [cbn; intros [= <- _ _]; reflexivity|].
  cbn [GameLoop.enemy_fire_loop]. rewrite (next_enemy_shot_ai st ai Ho).
  destruct (AI.pickAttackCoordinates ai (rng st)) as [[shot ai1] g1].
  cbn [fst]. cbv zeta.
  destruct ((shot.1 =? -1) || (shot.2 =? -1));
    [intros [= <- _ _]; reflexivity|].
  destruct shot as [x y]. intros H.
  apply bind_Done in H as ([r pb] & _ & H).
  apply bind_Done in H as ([v2 st2] & _ & H).
  destruct (playerShipsRemaining st2 <=? 0);
    [injection H as <- _ _; reflexivity|].
  apply enemy_fire_loop_spec in H as (_ & _ & _ & _ & dn & -> & _).
  reflexivity.
Qed.

(** C5 (counterexample).  The smart opponent, in one and the same state
    and with the same random sequence, fires (0,0) and then (0,1) at a
    board with a ship on (0,0), (0,1), (0,2), where its first shot hits,
    and (0,0) and then (2,0) at an empty board, where it misses; neither
    salvo ends the game. *)
Lemma smart_salvo_depends_on_outcomes :
  exists v1 s1 v2 s2,
    GameLoop.enemy_fire_loop 2 [] no_volley (demo_smart_game demo_target)
    = Done ([(0, 0); (0, 1)], v1, s1)
    /\ GameLoop.enemy_fire_loop 2 [] no_volley
         (demo_smart_game (Board.create 10))
       = Done ([(0, 0); (2, 0)], v2, s2)
    /\ 0 < playerShipsRemaining s1 /\ 0 < playerShipsRemaining s2
    /\ opponent (demo_smart_game demo_target)
       = opponent (demo_smart_game (Board.create 10))
    /\ rng (demo_smart_game demo_target)
       = rng (demo_smart_game (Board.create 10)).
Proof.
  destruct (is_done_exists
              (GameLoop.enemy_fire_loop 2 [] no_volley
                 (demo_smart_game demo_target)))
    as [[[f1 v1] s1] E1]; [vm_compute; reflexivity|].
  destruct (is_done_exists
              (GameLoop.enemy_fire_loop 2 [] no_volley
                 (demo_smart_game (Board.create 10))))
    as [[[f2 v2] s2] E2]; [vm_compute; reflexivity|].
  assert (H1 : (fun r : list (Z * Z) * Volley * GameLoopState =>
                  (r.1.1, playerShipsRemaining r.2))
                 <$> result_of (GameLoop.enemy_fire_loop 2 [] no_volley
                                  (demo_smart_game demo_target))
               = Some ([(0, 0); (0, 1)], 1)) by (vm_compute; reflexivity).
  assert (H2 : (fun r : list (Z * Z) * Volley * GameLoopState =>
                  (r.1.1, playerShipsRemaining r.2))
                 <$> result_of (GameLoop.enemy_fire_loop 2 [] no_volley
                                  (demo_smart_game (Board.create 10)))
               = Some ([(0, 0); (2, 0)], 1)) by (vm_compute; reflexivity).
  rewrite E1 in H1. rewrite E2 in H2. cbn in H1, H2.
  injection H1 as -> Hp1. injection H2 as -> Hp2.
  exists v1, s1, v2, s2. rewrite Hp1, Hp2.
  split_and!; try reflexivity; try assumption; lia.
Qed.

(** C5 (amended).  Two turns of the scripted opponent that start from the
    same opponent state and random sequence, against whatever boards of the
    player: the first cell fired is the same; and for the easy opponent one
    salvo is a first part of the other, and the two salvos are the same
    when the player has ships left after both.  Nothing of the kind holds
    for the later shots of the smart opponent, which follow the hits of the
    same salvo. *)
Theorem easy_salvo_fixed_at_turn_start (n : nat) (ai : AILogic)
    (st1 st2 st1' st2' : GameLoopState) (f1 f2 : list (Z * Z))
    (v1 v2 : Volley) :
  opponent st1 = OppAI ai -> opponent st2 = OppAI ai -> rng st1 = rng st2 ->
  GameLoop.enemy_fire_loop n [] no_volley st1 = Done (f1, v1, st1') ->
  GameLoop.enemy_fire_loop n [] no_volley st2 = Done (f2, v2, st2') ->
  head f1 = head f2
  /\ (difficulty ai = EASY ->
      (f1 `prefix_of` f2 \/ f2 `prefix_of` f1)
      /\ (0 < playerShipsRemaining st1' -> 0 < playerShipsRemaining st2' ->
          f1 = f2)).
Proof.
  intros Ho1 Ho2 Hg H1 H2. split.
  - rewrite (enemy_fire_loop_head _ _ _ _ _ _ Ho1 H1),
      (enemy_fire_loop_head _ _ _ _ _ _ Ho2 H2), Hg. reflexivity.
  - intros Hd.
    apply (enemy_fire_loop_easy _ _ _ _ _ _ _ ai Ho1 Hd) in H1
      as (k1 & -> & Hall1).
    apply (enemy_fire_loop_easy _ _ _ _ _ _ _ ai Ho2 Hd) in H2
      as (k2 & -> & Hall2).
    rewrite <- Hg in *. cbn [app] in *. split.
    + destruct (Nat.le_ge_cases k1 k2) as [Hle|Hle]; [left|right].
      * replace k1 with (k1 `min` k2)%nat by lia.
        rewrite <- take_take. apply prefix_take.
      * replace k2 with (k2 `min` k1)%nat by lia.
        rewrite <- take_take. apply prefix_take.
    + intros Hp1 Hp2. rewrite (Hall1 Hp1), (Hall2 Hp2). reflexivity.
Qed.

Lemma easy_salvo_fixed_at_turn_start_witness :
  exists f v1 v2 s1 s2,
    GameLoop.enemy_fire_loop 3 [] no_volley
      (GameLoop.set_playerBoard demo_target demo_game)
    = Done (f, v1, s1)
    /\ GameLoop.enemy_fire_loop 3 [] no_volley
         (GameLoop.set_playerBoard (Board.create 10) demo_game)
       = Done (f, v2, s2)
    /\ missInVolley v1 = 2 /\ missInVolley v2 = 3.
Proof.
  destruct (is_done_exists
              (GameLoop.enemy_fire_loop 3 [] no_volley
                 (GameLoop.set_playerBoard demo_target demo_game)))
    as [[[f1 v1] s1] E1]; [vm_compute; reflexivity|].
  destruct (is_done_exists
              (GameLoop.enemy_fire_loop 3 [] no_volley
                 (GameLoop.set_playerBoard (Board.create 10) demo_game)))
    as [[[f2 v2] s2] E2]; [vm_compute; reflexivity|].
  assert (H1 : (fun r : list (Z * Z) * Volley * GameLoopState =>
                  (missInVolley r.1.2, playerShipsRemaining r.2))
                 <$> result_of
                       (GameLoop.enemy_fire_loop 3 [] no_volley
                          (GameLoop.set_playerBoard demo_target demo_game))
               = Some (2, 1)) by (vm_compute; reflexivity).
  assert (H2 : (fun r : list (Z * Z) * Volley * GameLoopState =>
                  (missInVolley r.1.2, playerShipsRemaining r.2))
                 <$> result_of
                       (GameLoop.enemy_fire_loop 3 [] no_volley
                          (GameLoop.set_playerBoard (Board.create 10)
                             demo_game))
               = Some (3, 1)) by (vm_compute; reflexivity).
  rewrite E1 in H1. rewrite E2 in H2. cbn in H1, H2.
  injection H1 as Hm1 Hp1. injection H2 as Hm2 Hp2.
  destruct (easy_salvo_fixed_at_turn_start 3 demo_easy_ai
              (GameLoop.set_playerBoard demo_target demo_game)
              (GameLoop.set_playerBoard (Board.create 10) demo_game)
              s1 s2 f1 f2 v1 v2 eq_refl eq_refl eq_refl E1 E2)
    as [_ Heasy].
  destruct (Heasy eq_refl) as [_ Heq].
  rewrite <- (Heq ltac:(lia) ltac:(lia)) in E2.
  exists f1, v1, v2, s1, s2. auto.
Defined.

(** ** Turn engine: the flood fill of a sunk ship *)

Lemma flood_step_refl (st : GameLoopState) : flood_step st st.
Proof. intros r c. auto. Qed.

Lemma flood_step_trans (st1 st2 st3 : GameLoopState) :
  flood_step st1 st2 -> flood_step st2 st3 -> flood_step st1 st3.
Proof.
  intros H12 H23 r c.
  destruct (H12 r c) as [He12 Hk12], (H23 r c) as [He23 Hk23]. split.
  - destruct He23 as [->|[Hx ->]]; [exact He12|].
    destruct He12 as [<-|[_ Hs]]; [auto|congruence].
  - destruct Hk23 as [->|[Hx ->]]; [exact Hk12|].
    destruct He12 as [<-|[_ Hs]]; [auto|congruence].
Qed.

Lemma flood_sunk_cells (fuel : nat) (queue : list (Z * Z))
    (st st' : GameLoopState) :
  GameLoop.flood_sunk fuel queue st = Done st' -> flood_step st st'.
Proof.
  revert queue st. induction fuel as [|fuel IH]; intros [|[cx cy] queue] st;
    cbn [GameLoop.flood_sunk]; try discriminate.
  - intros [= <-]. apply flood_step_refl.
  - intros [= <-]. apply flood_step_refl.
  - intros H. apply bind_Done in H as ([q st1] & Hf & H).
    apply IH in H. refine (flood_step_trans _ _ _ _ H). clear H IH.
    revert Hf.
    apply (foldl_outcome_inv (fun p => flood_step st p.2)).
    + intros [nx ny]. reflexivity.
    + intros [nx ny]. reflexivity.
    + intros [q0 s0] [nx ny] [q1 s1] Hv. cbn [mbind outcome_bind snd].
      destruct ((0 <=? nx) && (nx <? size s0) && (0 <=? ny)
                && (ny <? size s0)); [|intros [= _ <-]; exact Hv].
      intros H. apply bind_Done in H as (c & Hc & H).
      apply defined_Done in Hc.
      destruct (ascii_eqb c "x") eqn:Ex; [|injection H as _ <-; exact Hv].
      apply bool_decide_eq_true in Ex. subst c.
      apply bind_Done in H as (g & Hg & H). apply defined_Done in Hg.
      apply bind_Done in H as (kn & Hk & H). apply defined_Done in Hk.
      injection H as _ <-.
      refine (flood_step_trans _ _ _ Hv _). intros r c. cbn.
      rewrite (grid_get_set _ _ _ _ r c _ Hg), (grid_get_set _ _ _ _ r c _ Hk).
      destruct (decide ((r, c) = (ny, nx))) as [[= -> ->]|Hne]; auto.
    + apply flood_step_refl.
Qed.

(** A fold that ends keeps a property of the part of the list already
    visited. *)
Lemma foldl_outcome_prefix {A B} (P : list B -> A -> Prop)
    (g : outcome A -> B -> outcome A) (l : list B) (a a' : A) :
  (forall b, g Undefined b = Undefined) ->
  (forall b, g OutOfFuel b = OutOfFuel) ->
  (forall pre a b a', P pre a -> g (Done a) b = Done a' -> P (pre ++ [b]) a') ->
  P [] a -> foldl g (Done a) l = Done a' -> P l a'.
Proof.
  intros Hu Hf Hstep Ha.
  enough (H : forall pre a0, P pre a0 -> foldl g (Done a0) l = Done a' ->
                             P (pre ++ l) a') by exact (H [] a Ha).
  clear a Ha. induction l as [|b l IH]; intros pre a0 Ha0; cbn [foldl].
  - intros [= <-]. rewrite app_nil_r. exact Ha0.
  - intros H. destruct (foldl_outcome_stuck g l _ _ Hu Hf H) as [a1 E].
    rewrite E in H. specialize (IH (pre ++ [b]) a1 (Hstep _ _ _ _ Ha0 E) H).
    rewrite <- app_assoc in IH. exact IH.
Qed.

(** The flood fill reaches every hit cell connected to the queue. *)
Lemma flood_sunk_inv (st0 : GameLoopState) (fuel : nat)
    (queue : list (Z * Z)) (st st' : GameLoopState)
    (done : Z * Z -> Prop) :
  grid_square (size st0) (boardArray (enemyBoard st0)) ->
  flood_inv st0 done queue st ->
  GameLoop.flood_sunk fuel queue st = Done st' ->
  exists done',
    flood_inv st0 done' [] st'
    /\ (forall c, done c -> done' c) /\ (forall c, c ∈ queue -> done' c).
Proof.
  intros Hsq. revert queue st done.
  induction fuel as [|fuel IH]; intros [|[cx cy] queue] st done Hinv;
    cbn [GameLoop.flood_sunk]; try discriminate.
  - intros [= <-]. exists done. split; [exact Hinv|].
    split; [auto|]. intros c Hc. inversion Hc.
  - intros [= <-]. exists done. split; [exact Hinv|].
    split; [auto|]. intros c Hc. inversion Hc.
  - intros H. apply bind_Done in H as ([q1 st1] & Hf & H).
    set (J :=
      (fun (pre : list (Z * Z)) (p : list (Z * Z) * GameLoopState) =>
         flood_step st0 p.2 /\ size p.2 = size st0
         /\ (forall d,
               grid_get (boardArray (enemyBoard st0)) d.2 d.1
               = Some "x"%char ->
               grid_get (boardArray (enemyBoard p.2)) d.2 d.1
               = Some "s"%char ->
               (d ∈ p.1 \/ done d \/ d = (cx, cy))
               /\ grid_get (enemyKnownBoard p.2) d.2 d.1 = Some "s"%char)
         /\ (forall c d, done c -> d ∈ AI.neighbours c.1 c.2 ->
               grid_get (boardArray (enemyBoard st0)) d.2 d.1
               = Some "x"%char ->
               grid_get (boardArray (enemyBoard p.2)) d.2 d.1
               = Some "s"%char)
         /\ (forall d, d ∈ pre ->
               grid_get (boardArray (enemyBoard st0)) d.2 d.1
               = Some "x"%char ->
               grid_get (boardArray (enemyBoard p.2)) d.2 d.1
               = Some "s"%char)
         /\ (forall d, d ∈ queue -> d ∈ p.1))).
    assert (HJ : J (AI.neighbours cx cy) (q1, st1)).
    { revert Hf. apply (foldl_outcome_prefix J); unfold J.
      - intros [nx ny]. reflexivity.
      - intros [nx ny]. reflexivity.
      - intros pre [q0 s0] [nx ny] [q2 s2] (HA & Hsz & HB & HC & HP & HQ).
        cbn [mbind outcome_bind fst snd] in *.
        destruct ((0 <=? nx) && (nx <? size s0) && (0 <=? ny)
                  && (ny <? size s0)) eqn:Hb.
        2: { intros [= <- <-]. split_and!; try assumption.
             intros d [Hd|Hd%list_elem_of_singleton]%elem_of_app; [auto|].
             subst d. cbn [fst snd]. intros Hx. exfalso.
             pose proof (grid_get_bound _ _ _ _ _ Hsq Hx) as [Hr Hc].
             rewrite Hsz in Hb.
             destruct (Z.leb_spec 0 nx), (Z.ltb_spec nx (size st0)),
               (Z.leb_spec 0 ny), (Z.ltb_spec ny (size st0));
               cbn in Hb; try discriminate; lia. }
        intros H0. apply bind_Done in H0 as (c0 & Hc0 & H0).
        apply defined_Done in Hc0.
        destruct (ascii_eqb c0 "x") eqn:Ex.
        2: { injection H0 as <- <-. split_and!; try assumption.
             intros d [Hd|Hd%list_elem_of_singleton]%elem_of_app; [auto|].
             subst d. cbn [fst snd]. intros Hx.
             destruct (proj1 (HA ny nx)) as [He|[_ He]]; [|exact He].
             exfalso. apply ascii_eqb_false in Ex. congruence. }
        apply bool_decide_eq_true in Ex. subst c0.
        apply bind_Done in H0 as (g & Hg & H0). apply defined_Done in Hg.
        apply bind_Done in H0 as (kn & Hk & H0). apply defined_Done in Hk.
        injection H0 as <- <-. cbn [fst snd].
        assert (HE : forall r c,
                  grid_get (boardArray
                              (enemyBoard
                                 (GameLoop.set_enemy_view
                                    (set_boardArray g (enemyBoard s0)) kn s0)))
                           r c
                  = if decide ((r, c) = (ny, nx)) then Some "s"%char
                    else grid_get (boardArray (enemyBoard s0)) r c).
        { intros r c. cbn. apply (grid_get_set _ _ _ _ r c _ Hg). }
        assert (HK : forall r c,
                  grid_get (enemyKnownBoard
                              (GameLoop.set_enemy_view
                                 (set_boardArray g (enemyBoard s0)) kn s0))
                           r c
                  = if decide ((r, c) = (ny, nx)) then Some "s"%char
                    else grid_get (enemyKnownBoard s0) r c).
        { intros r c. cbn. apply (grid_get_set _ _ _ _ r c _ Hk). }
        split_and!.
        + refine (flood_step_trans _ _ _ HA _). intros r c.
          rewrite HE, HK.
          destruct (decide ((r, c) = (ny, nx))) as [[= -> ->]|Hne]; auto.
        + exact Hsz.
        + intros [dx dy]. cbn [fst snd]. rewrite HE, HK. intros Hx.
          destruct (decide ((dy, dx) = (ny, nx))) as [[= -> ->]|Hne].
          * intros _. split; [|reflexivity]. left.
            apply elem_of_app. right. left.
          * intros Hs. destruct (HB (dx, dy) Hx Hs) as [[Hd|Hd] Hkn].
            -- split; [|exact Hkn]. left. apply elem_of_app. auto.
            -- split; [|exact Hkn]. auto.
        + intros c [dx dy] Hc Hd Hx. cbn [fst snd]. rewrite HE.
          destruct (decide _); [reflexivity|]. exact (HC c (dx, dy) Hc Hd Hx).
        + intros [dx dy] Hd Hx. cbn [fst snd] in *. rewrite HE.
          destruct (decide _) as [|Hne]; [reflexivity|].
          apply elem_of_app in Hd as [Hd|Hd%list_elem_of_singleton].
          * exact (HP (dx, dy) Hd Hx).
          * injection Hd as -> ->. contradiction.
        + intros d Hd. apply elem_of_app. left. auto.
      - destruct Hinv as (HA & Hsz & HB & HC). cbn [fst snd].
        split_and!; try assumption.
        + intros d Hx Hs. destruct (HB d Hx Hs) as [[Hd|Hd] Hkn].
          * apply elem_of_cons in Hd as [->|Hd]; auto.
          * auto.
        + intros d Hd. inversion Hd.
        + auto. }
    unfold J in HJ. cbn [fst snd] in HJ.
    destruct HJ as (HA & Hsz & HB & HC & HP & HQ).
    destruct (IH q1 st1 (fun d => done d \/ d = (cx, cy))) as
      (done' & Hinv' & Hsub & Hq1); [|exact H|].
    + split_and!; try assumption.
      intros c d [Hc| ->]; [exact (HC c d Hc)|]. cbn [fst snd]. apply HP.
    + exists done'. split; [exact Hinv'|]. split; [auto|].
      intros c [->|Hc]%elem_of_cons; auto.
Qed.

(** Every cell reached from the start through cells showing ['x'] ends as
    ['s'], on the local copy and on the tracking grid. *)
Lemma flood_sunk_reaches (x y : Z) (fuel : nat) (st st' : GameLoopState) :
  grid_square (size st) (boardArray (enemyBoard st)) ->
  GameLoop.flood_sunk fuel [(x, y)] st = Done st' ->
  forall d, x_reach (boardArray (enemyBoard st)) (x, y) d ->
    grid_get (boardArray (enemyBoard st')) d.2 d.1 = Some "s"%char
    /\ grid_get (enemyKnownBoard st') d.2 d.1 = Some "s"%char.
Proof.
  intros Hsq H.
  destruct (flood_sunk_inv st fuel [(x, y)] st st' (fun _ => False) Hsq)
    as (done' & (HA & _ & HB & HC) & _ & Hq); [|exact H|].
  { split; [apply flood_step_refl|]. split; [reflexivity|].
    split; [|intros c d []]. intros d Hx Hs. congruence. }
  assert (Hstart : done' (x, y)) by (apply Hq; left).
  intros d Hr.
  assert (Hd : grid_get (boardArray (enemyBoard st)) d.2 d.1 = Some "x"%char
               /\ grid_get (boardArray (enemyBoard st')) d.2 d.1
                  = Some "s"%char).
  { induction Hr as [d Hn Hx|d e Hr [Hxd Hsd] Hn Hx].
    - split; [exact Hx|]. exact (HC (x, y) d Hstart Hn Hx).
    - split; [exact Hx|].
      destruct (HB d Hxd Hsd) as [[Hin|Hdone] _]; [inversion Hin|].
      exact (HC d e Hdone Hn Hx). }
  destruct Hd as [Hx Hs]. split; [exact Hs|]. exact (proj2 (HB d Hx Hs)).
Qed.

(** X10.  The flood fill that follows a peer's "sunk" answer ends on every
    game whose grids have the size of the game, and turns the hit cells
    connected to the sunk cell, and only hit cells, into sunk ones: a cell
    of the local copy of the enemy board keeps its content or goes from
    ['x'] to ['s'], a cell of the tracking grid keeps its content or
    becomes ['s'] where the local copy showed ['x'], and nothing else of the
    game changes; every cell reached from the shot cell through
    neighbouring cells showing ['x'] ends as ['s'] on both grids. *)
Theorem flood_fill_sound (x y : Z) (st : GameLoopState) :
  grid_square (size st) (enemyKnownBoard st) ->
  grid_square (size st) (boardArray (enemyBoard st)) ->
  exists st',
    GameLoop.flood_sunk (GameLoop.flood_fuel (size st)) [(x, y)] st = Done st'
    /\ flood_step st st'
    /\ playerBoard st' = playerBoard st /\ opponent st' = opponent st
    /\ playerShipsRemaining st' = playerShipsRemaining st
    /\ enemyShipsRemaining st' = enemyShipsRemaining st
    /\ playerHits st' = playerHits st /\ enemyHits st' = enemyHits st
    /\ forall d, x_reach (boardArray (enemyBoard st)) (x, y) d ->
         grid_get (boardArray (enemyBoard st')) d.2 d.1 = Some "s"%char
         /\ grid_get (enemyKnownBoard st') d.2 d.1 = Some "s"%char.
Proof.
  intros Hk He. destruct (flood_sunk_defined x y st Hk He) as [st' H].
  exists st'. split; [exact H|]. split; [exact (flood_sunk_cells _ _ _ _ H)|].
  pose proof (flood_sunk_reaches x y _ st st' He H) as Hreach.
  apply flood_sunk_view, view_only_kept in H
    as ((Hb & _ & _ & Heh & Hp & _) & Ho & Hph & Hes & _).
  split_and!; assumption.
Qed.

Lemma flood_fill_sound_witness :
  grid_get (boardArray (enemyBoard demo_flood_game)) 3 2 = Some "x"%char
  /\ grid_get (boardArray (enemyBoard demo_flood_game)) 3 3 = Some "x"%char
  /\ exists st',
       GameLoop.flood_sunk (GameLoop.flood_fuel 10) [(4, 3)] demo_flood_game
       = Done st'
       /\ flood_step demo_flood_game st'
       /\ grid_get (boardArray (enemyBoard st')) 3 2 = Some "s"%char
       /\ grid_get (boardArray (enemyBoard st')) 3 3 = Some "s"%char
       /\ grid_get (enemyKnownBoard st') 3 2 = Some "s"%char
       /\ grid_get (enemyKnownBoard st') 3 3 = Some "s"%char
       /\ grid_get (boardArray (enemyBoard st')) 7 7 = Some "x"%char
       /\ grid_get (enemyKnownBoard st') 7 7 = Some "h"%char.
Proof.
  assert (Hk : grid_square (size demo_flood_game)
                 (enemyKnownBoard demo_flood_game)).
  { vm_compute. split; [discriminate|]. split; [reflexivity|].
    repeat constructor. }
  assert (He : grid_square (size demo_flood_game)
                 (boardArray (enemyBoard demo_flood_game))).
  { vm_compute. split; [discriminate|]. split; [reflexivity|].
    repeat constructor. }
  assert (H32 : grid_get (boardArray (enemyBoard demo_flood_game)) 3 2
                = Some "x"%char) by (vm_compute; reflexivity).
  assert (H33 : grid_get (boardArray (enemyBoard demo_flood_game)) 3 3
                = Some "x"%char) by (vm_compute; reflexivity).
  split; [exact H32|]. split; [exact H33|].
  destruct (flood_fill_sound 4 3 demo_flood_game Hk He)
    as (st' & H & Hstep & _ & _ & _ & _ & _ & _ & Hreach).
  change (size demo_flood_game) with 10 in H.
  assert (R33 : x_reach (boardArray (enemyBoard demo_flood_game)) (4, 3)
                        (3, 3)).
  { apply reach_first; [|exact H33]. cbn. do 2 right. left. }
  assert (R23 : x_reach (boardArray (enemyBoard demo_flood_game)) (4, 3)
                        (2, 3)).
  { apply (reach_next _ _ (3, 3)); [exact R33| |exact H32].
    cbn. do 2 right. left. }
  destruct (Hreach _ R33) as [E33 K33], (Hreach _ R23) as [E23 K23].
  assert (Hcells :
            (fun s => [grid_get (boardArray (enemyBoard s)) 7 7;
                       grid_get (enemyKnownBoard s) 7 7])
              <$> result_of (GameLoop.flood_sunk (GameLoop.flood_fuel 10)
                               [(4, 3)] demo_flood_game)
            = Some [Some "x"; Some "h"]%char)
    by (vm_compute; reflexivity).
  rewrite H in Hcells. cbn [result_of fmap option_fmap option_map] in Hcells.
  injection Hcells as H1 H2.
  exists st'. split_and!; assumption.
Defined.

(** ** The fleet of a board size and the opponent's constructor *)

Lemma getShipConfig_in (n : Z) : getShipConfig n ∈ configs.
Proof.
  unfold getShipConfig.
  destruct (filter (fun c => cfg_boardSize c = n) configs) as [|c l] eqn:E.
  - cbn. left.
  - cbn. assert (Hc : c ∈ filter (fun c => cfg_boardSize c = n) configs)
      by (rewrite E; left).
    apply list_elem_of_filter in Hc. tauto.
Qed.

Lemma getShipConfig_counts (n : Z) :
  1 <= fourDeck (getShipConfig n) /\ 2 <= threeDeck (getShipConfig n)
  /\ 3 <= twoDeck (getShipConfig n) /\ 4 <= oneDeck (getShipConfig n).
Proof.
  assert (H : Forall (fun c => 1 <= fourDeck c /\ 2 <= threeDeck c
                               /\ 3 <= twoDeck c /\ 4 <= oneDeck c) configs)
    by (repeat constructor; cbn; lia).
  rewrite Forall_forall in H. apply H, getShipConfig_in.
Qed.

Lemma create_deck_lengths (len count : Z)
    (st : list GamePiece * gmap ascii ActiveShip * Z) :
  piece_length <$> (GameLogic.create_deck len count st).1.1
  = (piece_length <$> st.1.1) ++ replicate (Z.to_nat count) len.
Proof.
  unfold GameLogic.create_deck.
  assert (Hlen : length (seqZ 0 count) = Z.to_nat count) by apply length_seqZ.
  revert Hlen. generalize (Z.to_nat count). generalize (seqZ 0 count).
  intros js. revert st. induction js as [|j js IH]; intros st k Hk;
    cbn [length] in Hk; subst k.
  - cbn. rewrite app_nil_r. reflexivity.
  - destruct st as [[pieces status] c]. cbn [foldl].
    rewrite (IH _ (length js) eq_refl). cbn [fst snd].
    rewrite fmap_app. cbn. rewrite <- app_assoc. reflexivity.
Qed.

Lemma initializeGamePieces_lengths (b : BoardData) :
  piece_length <$> (GameLogic.initializeGamePieces b).2
  = replicate (Z.to_nat (fourDeck (getShipConfig (boardSize b)))) 4
    ++ replicate (Z.to_nat (threeDeck (getShipConfig (boardSize b)))) 3
    ++ replicate (Z.to_nat (twoDeck (getShipConfig (boardSize b)))) 2
    ++ replicate (Z.to_nat (oneDeck (getShipConfig (boardSize b)))) 1.
Proof.
  unfold GameLogic.initializeGamePieces.
  set (c := getShipConfig (boardSize b)).
  pose proof (create_deck_lengths 1 (oneDeck c)
                (GameLogic.create_deck 2 (twoDeck c)
                   (GameLogic.create_deck 3 (threeDeck c)
                      (GameLogic.create_deck 4 (fourDeck c) ([], ∅, 0)))))
    as H1.
  rewrite (create_deck_lengths 2), (create_deck_lengths 3),
    (create_deck_lengths 4) in H1.
  destruct (GameLogic.create_deck 1 _ _) as [[pieces status] k].
  cbn [fst snd] in *. rewrite H1. cbn. rewrite <- !app_assoc. reflexivity.
Qed.

Lemma fleet_cells_lengths (ships : list ActiveShip) :
  fleet_cells ships = foldr Z.add 0 (shipLength <$> ships).
Proof. induction ships as [|s l IH]; cbn; [reflexivity|]. rewrite <- IH. reflexivity. Qed.

Lemma foldr_add_app (l1 l2 : list Z) :
  foldr Z.add 0 (l1 ++ l2) = foldr Z.add 0 l1 + foldr Z.add 0 l2.
Proof. induction l1 as [|a l IH]; cbn; [reflexivity|]. rewrite IH. lia. Qed.

Lemma foldr_add_replicate (k : nat) (a : Z) :
  foldr Z.add 0 (replicate k a) = Z.of_nat k * a.
Proof. induction k as [|k IH]; cbn [replicate foldr]; [lia|]. rewrite IH. lia. Qed.

(** A fleet that matches the pieces of a board size has as many ships as
    [getTotalShips] says and as many cells as [getTotalShipCells] says. *)
Lemma fleet_of_totals (b : BoardData) (ships : list ActiveShip) :
  fleet_of (GameLogic.initializeGamePieces b).2 ships ->
  Z.of_nat (length ships) = getTotalShips (boardSize b)
  /\ fleet_cells ships = getTotalShipCells (boardSize b).
Proof.
  intros Hf. unfold fleet_of in Hf.
  apply (f_equal (fmap fst)) in Hf. rewrite <- !list_fmap_compose in Hf.
  change (shipLength <$> ships
          = piece_length <$> (GameLogic.initializeGamePieces b).2) in Hf.
  rewrite initializeGamePieces_lengths in Hf.
  destruct (getShipConfig_counts (boardSize b)) as (H4 & H3 & H2 & H1).
  split.
  - rewrite <- (length_fmap shipLength), Hf, !length_app, !length_replicate.
    unfold getTotalShips. lia.
  - rewrite fleet_cells_lengths, Hf, !foldr_add_app, !foldr_add_replicate.
    unfold getTotalShipCells. lia.
Qed.

Lemma sunk_count_none (l : list ActiveShip) :
  Forall (fun s => isSunk s = false) l ->
  foldl (fun count ship => if isSunk ship then count + 1 else count) 0 l = 0.
Proof.
  induction 1 as [|s l Hs _ IH]; cbn [foldl]; [reflexivity|].
  rewrite Hs. exact IH.
Qed.

(** A fleet whose cells all show their symbol has no ship sunk. *)
Lemma fresh_fleet_afloat (b : BoardData) :
  board_ok b -> Forall (ship_unhit (boardArray b)) (myShips b) ->
  Forall (fun s => 1 <= shipLength s) (myShips b) ->
  Board.getSunkCount b = 0.
Proof.
  intros Hok Hunhit Hlen. apply sunk_count_none.
  pose proof (ok_marked _ Hok) as Hm. pose proof (ok_symbols _ Hok) as Hs.
  rewrite Forall_forall in *. intros s Hin.
  destruct (isSunk s) eqn:E; [exfalso|reflexivity].
  assert (Hc : Board.ship_cell s 0 ∈ ship_cells s).
  { unfold ship_cells. apply list_elem_of_fmap. exists 0. split; [reflexivity|].
    apply elem_of_seqZ. specialize (Hlen s Hin). lia. }
  destruct (Board.ship_cell s 0) as [r c].
  specialize (Hunhit s Hin r c Hc).
  destruct (Hm s Hin r c Hc) as [Hg|[Hg _]]; [|congruence].
  rewrite E, Hunhit in Hg. injection Hg as Hg.
  specialize (Hs s Hin). cbn in Hs. rewrite Hg in Hs. discriminate.
Qed.

Lemma fleet_of_lengths (pieces : list GamePiece) (ships : list ActiveShip) :
  Forall piece_ok pieces -> fleet_of pieces ships ->
  Forall (fun s => 1 <= shipLength s) ships.
Proof.
  intros Hp Hf. unfold fleet_of in Hf.
  apply (f_equal (fmap fst)) in Hf. rewrite <- !list_fmap_compose in Hf.
  change (shipLength <$> ships = piece_length <$> pieces) in Hf.
  assert (H : Forall (fun n => 1 <= n) (shipLength <$> ships)).
  { rewrite Hf, Forall_fmap. eapply Forall_impl; [exact Hp|].
    intros p [Hl _]. exact Hl. }
  rewrite Forall_fmap in H. exact H.
Qed.

Section Created.

Variable random_shuffle : list (Z * Z) -> Rng -> list (Z * Z) * Rng.
Hypothesis random_shuffle_perm : forall l g, (random_shuffle l g).1 ≡ₚ l.

Lemma create_board (fuel : nat) (now clock : Z) (diff : AIDifficulty)
    (n : Z) (g : Rng) :
  0 < n ->
  match AI.create random_shuffle fuel now clock diff n g with
  | Done (ai, _) =>
      board_ok (aiBoard ai) /\ boardSize (aiBoard ai) = n
      /\ Z.of_nat (length (myShips (aiBoard ai))) = getTotalShips n
      /\ fleet_cells (myShips (aiBoard ai)) = getTotalShipCells n
      /\ Forall (ship_unhit (boardArray (aiBoard ai))) (myShips (aiBoard ai))
      /\ Board.getSunkCount (aiBoard ai) = 0
  | Undefined => False
  | OutOfFuel => True
  end.
Proof.
  intros Hn. unfold AI.create, AI.initializeAvailableShots, AI.setupBoard.
  cbn [ai_boardSize].
  destruct (random_shuffle (AI.all_cells n) (srand now g)) as [avail ga].
  destruct (random_shuffle (AI.parity_cells n) ga) as [parity gp].
  cbn [ai_boardSize set_pools aiBoard].
  set (b0 := Board.initialize n _).
  pose proof (initializeGamePieces_ok b0) as (Hpieces & Hempty & Hgrid & Hsize).
  pose proof (fleet_of_totals b0) as Htot.
  destruct (GameLogic.initializeGamePieces b0) as [b1 pieces].
  cbn [fst snd] in *.
  change (boardSize b0) with n in *.
  change (boardArray b0) with (grid_make n "w") in *.
  assert (Hok1 : board_ok b1).
  { constructor; rewrite ?Hempty, ?Hgrid, ?Hsize.
    - apply grid_make_square. lia.
    - constructor.
    - constructor.
    - constructor.
    - constructor.
    - intros i j s t Hi. discriminate. }
  unfold GameLogic.generateBoardPlacement.
  set (g0 := if isHost b1 then _ else _).
  pose proof (place_pieces_spec fuel pieces Hpieces b1 0 g0 Hok1) as H.
  rewrite Hsize, Hempty in H.
  specialize (H Hn eq_refl (Forall_nil_2 _)).
  destruct (GameLogic.place_pieces fuel b1 pieces 0 g0)
    as [[b2 g2]| |]; [|assumption|exact I].
  destruct H as (Hok2 & Hsz2 & Hfleet & Hunhit).
  destruct (buildShipCellMap_spec b2 (ok_grid _ Hok2)) as (m & -> & Hm).
  cbn [aiBoard boardArray myShips boardSize].
  destruct (Htot _ Hfleet) as [Hcount Hcells].
  split_and!; try assumption.
  - destruct Hok2. constructor; assumption.
  - apply (fresh_fleet_afloat b2 Hok2 Hunhit).
    exact (fleet_of_lengths pieces _ Hpieces Hfleet).
Qed.

(** The cell map the constructor leaves is the one [buildShipCellMap]
    reads off the final grid. *)
Lemma create_cell_map (fuel : nat) (now clock : Z) (diff : AIDifficulty)
    (n : Z) (g g1 : Rng) (ai : AILogic) :
  0 < n ->
  AI.create random_shuffle fuel now clock diff n g = Done (ai, g1) ->
  forall x y,
    shipCellMap (aiBoard ai) !! (x, y)
    = match grid_get (boardArray (aiBoard ai)) y x with
      | Some c => if is_ship_char c then Some c else None
      | None => None
      end.
Proof.
  intros Hn Hc.
  pose proof (create_board fuel now clock diff n g Hn) as Hb.
  rewrite Hc in Hb. destruct Hb as (Hok & _).
  revert Hc. unfold AI.create, AI.initializeAvailableShots, AI.setupBoard.
  cbn [ai_boardSize].
  destruct (random_shuffle (AI.all_cells n) (srand now g)) as [avail ga].
  destruct (random_shuffle (AI.parity_cells n) ga) as [parity gp].
  cbn [ai_boardSize set_pools aiBoard].
  destruct (GameLogic.initializeGamePieces _) as [b1 pieces].
  destruct (GameLogic.generateBoardPlacement _ _ _ _ _) as [[b2 g2]| |];
    try discriminate.
  destruct (Board.buildShipCellMap b2) as [b3|] eqn:Hmap; [|discriminate].
  intros [= <- _]. cbn [aiBoard] in *.
  pose proof (buildShipCellMap_frame _ _ Hmap) as (Hg3 & _ & _ & Hsz3 & _).
  pose proof (ok_grid _ Hok) as Hsq. rewrite Hg3, Hsz3 in Hsq.
  destruct (buildShipCellMap_spec b2 Hsq) as (m & Hm & Hl).
  rewrite Hm in Hmap. injection Hmap as <-. exact Hl.
Qed.

(** X11.  The constructor of the scripted opponent, [buildShipCellMap]
    at the end of [setupBoard] included, never reads or writes out of range
    and, when the random placement finds room, leaves an opponent in order:
    both pools hold each cell once, the knowledge grid agrees with the pool
    (every cell unknown and untried), and its own board holds a fleet of
    [getTotalShips] ships and [getTotalShipCells] cells that lie on the
    board, do not overlap, are not hit and of which none counts as sunk.
    The board's cell map has an entry for the key [(column, row)] exactly
    where the grid shows a ship letter, and the entry is that letter. *)
Theorem ai_created_in_order (fuel : nat) (now clock : Z)
    (diff : AIDifficulty) (n : Z) (g : Rng) :
  0 < n ->
  match AI.create random_shuffle fuel now clock diff n g with
  | Done (ai, _) =>
      pools_ok ai /\ synced ai /\ targetQueue ai = []
      /\ board_ok (aiBoard ai) /\ boardSize (aiBoard ai) = n
      /\ Z.of_nat (length (myShips (aiBoard ai))) = getTotalShips n
      /\ fleet_cells (myShips (aiBoard ai)) = getTotalShipCells n
      /\ Forall (ship_unhit (boardArray (aiBoard ai))) (myShips (aiBoard ai))
      /\ Board.getSunkCount (aiBoard ai) = 0
      /\ forall x y,
           shipCellMap (aiBoard ai) !! (x, y)
           = match grid_get (boardArray (aiBoard ai)) y x with
             | Some c => if is_ship_char c then Some c else None
             | None => None
             end
  | Undefined => False
  | OutOfFuel => True
  end.
Proof.
  intros Hn. pose proof (create_board fuel now clock diff n g Hn) as Hb.
  destruct (AI.create random_shuffle fuel now clock diff n g)
    as [[ai g1]| |] eqn:Hc; [|assumption|exact I].
  pose proof (create_pools_ok random_shuffle random_shuffle_perm
                fuel now clock diff n g ai g1 ltac:(lia) Hc) as Hok.
  pose proof (create_cell_map fuel now clock diff n g g1 ai Hn Hc) as Hmap.
  destruct (create_fresh random_shuffle random_shuffle_perm
              fuel now clock diff n g ai g1 Hc)
    as (_ & Hsz & Hob & Hq & Ha & _).
  split; [exact Hok|]. split; [|split; [exact Hq|]].
  - intros d Hd. rewrite Hsz in Hd. apply in_board_spec in Hd.
    unfold unknown. rewrite Hob, grid_make_get by lia. cbn.
    rewrite Ha, all_cells_elem. tauto.
  - destruct Hb as (H1 & H2 & H3 & H4 & H5 & H6). auto 10.
Qed.

End Created.

Lemma ai_created_in_order_witness :
  pools_ok demo_ai /\ synced demo_ai
  /\ Z.of_nat (length (myShips (aiBoard demo_ai))) = getTotalShips 10
  /\ Z.of_nat (length (map_to_list (shipCellMap (aiBoard demo_ai))))
    = getTotalShipCells 10
  /\ forall x y,
       is_Some (shipCellMap (aiBoard demo_ai) !! (x, y))
       <-> exists c, grid_get (boardArray (aiBoard demo_ai)) y x = Some c
                     /\ is_ship_char c = true.
Proof.
  pose proof (ai_created_in_order demo_shuffle demo_shuffle_perm
                20 0 12345 SMART 10 demo_rng ltac:(lia)) as H.
  destruct demo_ai_created as [g1 Hc]. rewrite Hc in H.
  destruct H as (Hok & Hs & _ & _ & _ & Hn & _ & _ & _ & Hm).
  split_and!; [exact Hok|exact Hs|exact Hn|vm_compute; reflexivity|].
  intros x y. rewrite Hm.
  destruct (grid_get (boardArray (aiBoard demo_ai)) y x) as [c|].
  - destruct (is_ship_char c) eqn:Ec; split.
    + intros _. exists c. auto.
    + intros _. eexists. reflexivity.
    + intros [? [=]].
    + intros (c' & [= <-] & Hc'). congruence.
  - split; [intros [? [=]]|intros (c' & [=] & _)].
Defined.

Section AIGameStart.

Variable random_shuffle : list (Z * Z) -> Rng -> list (Z * Z) * Rng.
Hypothesis random_shuffle_perm : forall l g, (random_shuffle l g).1 ≡ₚ l.

(** X12.  The state an AI game starts from is in order, whatever the
    number of shots per turn and whoever begins: with a newly constructed
    opponent, a player's board of the size of the game, an empty tracking
    grid and a blank copy of the enemy board, all grids have the size of the
    game and the opponent's fleet and pools are consistent; the enemy's
    counter starts at the number of ships on the opponent's board, none of
    which counts as sunk, and both counters are above zero. *)
Theorem ai_game_start_in_order (fuel : nat) (now clock : Z)
    (diff : AIDifficulty) (n nshots : Z) (turn : bool) (g g1 g2 : Rng)
    (ai : AILogic) (pb : BoardData) :
  0 < n ->
  AI.create random_shuffle fuel now clock diff n g = Done (ai, g1) ->
  grid_square n (boardArray pb) -> boardSize pb = n ->
  let st := GameLoop.start pb (Board.create n) (grid_make n " ") n nshots
                           turn (OppAI ai) g2 in
  game_ok st
  /\ enemyShipsRemaining st = Z.of_nat (length (myShips (aiBoard ai)))
  /\ Board.getSunkCount (aiBoard ai) = 0
  /\ 0 < enemyShipsRemaining st /\ 0 < playerShipsRemaining st.
Proof.
  intros Hn Hc Hpb Hsz.
  pose proof (create_board random_shuffle fuel now clock diff n g Hn) as H.
  rewrite Hc in H. destruct H as (Hb & Hbs & Hcount & _ & _ & Hsunk).
  pose proof (create_pools_ok random_shuffle random_shuffle_perm
                fuel now clock diff n g ai g1 ltac:(lia) Hc) as Hok.
  destruct (create_fresh random_shuffle random_shuffle_perm
              fuel now clock diff n g ai g1 Hc) as (_ & Hsize & _).
  pose proof (getShipConfig_counts n) as (H4 & H3 & H2 & H1).
  cbn. split_and!.
  - constructor; cbn; auto.
    + apply grid_make_square. lia.
    + apply grid_make_square. lia.
  - symmetry. exact Hcount.
  - exact Hsunk.
  - unfold getTotalShips. lia.
  - unfold getTotalShips. lia.
Qed.

End AIGameStart.

Lemma ai_game_start_in_order_witness :
  game_ok (GameLoop.start scenarioA_board (Board.create 10)
             (grid_make 10 " ") 10 5 true (OppAI demo_ai) demo_rng).
Proof.
  destruct demo_ai_created as [g1 Hc].
  exact (proj1 (ai_game_start_in_order demo_shuffle demo_shuffle_perm
                  20 0 12345 SMART 10 5 true demo_rng g1 demo_rng demo_ai
                  scenarioA_board ltac:(lia) Hc
                  (ok_grid _ scenarioA_board_ok) eq_refl)).
Defined.

(** ** Manual placement screen *)

Lemma highlightShipPlacement_defined (layout : BoardLayout) (n : Z)
    (s : ManualPlacement) (len : Z) :
  placement_ok layout n s ->
  is_Some (Manual.highlightShipPlacement layout (mp_cursorX s)
             (mp_cursorY s) len (mp_orientation s) (mp_board s)).
Proof.
  intros (Hsq & Hn & gx & gy & Hgx & Hgy & Hx & Hy).
  unfold Manual.highlightShipPlacement.
  replace (mp_cursorX s - board1StartX layout - 5) with (gx * 4) by lia.
  rewrite Z.quot_mul by lia.
  replace (mp_cursorY s - startY layout - 3) with gy by lia.
  match goal with
  | |- is_Some (foldl ?f _ ?l) =>
      destruct (foldl_option_defined (fun _ => True) f l true)
        as (v & -> & _); [|exact I|eauto]
  end.
  intros v i _ _. rewrite Hn.
  destruct (mp_orientation s =? 0).
  - destruct ((gx - i <? 0) || (n <=? gx - i)) eqn:E; [eauto|].
    destruct (grid_get_is_Some n _ gy (gx - i) Hsq) as [c ->]; [lia..|].
    eauto.
  - destruct ((gy - i <? 0) || (n <=? gy - i)) eqn:E; [eauto|].
    destruct (grid_get_is_Some n _ (gy - i) gx Hsq) as [c ->]; [lia..|].
    eauto.
Qed.

Lemma key_step_ok (layout : BoardLayout) (n : Z) (pieces : list GamePiece)
    (ship : GamePiece) (k : Key) (s : ManualPlacement) :
  1 <= n -> 1 <= piece_length ship -> placement_ok layout n s ->
  exists s', Manual.key_step layout n pieces ship k s = Some s'
             /\ placement_ok layout n s'.
Proof.
  intros Hn1 Hlen Hok.
  destruct (highlightShipPlacement_defined layout n s (piece_length ship) Hok)
    as [isValid Hhl].
  unfold Manual.key_step. rewrite Hhl. cbn [mbind option_bind].
  destruct Hok as (Hsq & Hn & gx & gy & Hgx & Hgy & Hx & Hy).
  assert (Hkeep : placement_ok layout n s).
  { split; [exact Hsq|]. split; [exact Hn|]. exists gx, gy. auto. }
  assert (Hmove : forall gx' gy' x' y',
            0 <= gx' < n -> 0 <= gy' < n ->
            x' = board1StartX layout + 5 + 4 * gx' ->
            y' = startY layout + 3 + gy' ->
            placement_ok layout n (Manual.set_cursor x' y' s)).
  { intros gx' gy' x' y' Hx' Hy' -> ->. split; [exact Hsq|].
    split; [exact Hn|]. exists gx', gy'. cbn. auto. }
  assert (Hturn : forall o, placement_ok layout n (Manual.set_orientation o s)).
  { intros o. split; [exact Hsq|]. split; [exact Hn|]. exists gx, gy.
    cbn. auto. }
  destruct k.
  - (* left *)
    destruct (mp_orientation s =? 0).
    + destruct (Z.ltb_spec (board1StartX layout + 5)
                  (mp_cursorX s - 4 * (piece_length ship - 1)));
        [|eauto].
      eexists. split; [reflexivity|]. apply (Hmove (gx - 1) gy); lia.
    + destruct (Z.ltb_spec (board1StartX layout + 5) (mp_cursorX s));
        [|eauto].
      eexists. split; [reflexivity|]. apply (Hmove (gx - 1) gy); lia.
  - (* right *)
    destruct (Z.ltb_spec (mp_cursorX s)
                (board1StartX layout + 5 + (n - 1) * 4)); [|eauto].
    eexists. split; [reflexivity|]. apply (Hmove (gx + 1) gy); lia.
  - (* up *)
    destruct (mp_orientation s =? 1).
    + destruct (Z.ltb_spec (startY layout + 3)
                  (mp_cursorY s - (piece_length ship - 1))); [|eauto].
      eexists. split; [reflexivity|]. apply (Hmove gx (gy - 1)); lia.
    + destruct (Z.ltb_spec (startY layout + 3) (mp_cursorY s)); [|eauto].
      eexists. split; [reflexivity|]. apply (Hmove gx (gy - 1)); lia.
  - (* down *)
    destruct (Z.ltb_spec (mp_cursorY s) (startY layout + 3 + n - 1));
      [|eauto].
    eexists. split; [reflexivity|]. apply (Hmove gx (gy + 1)); lia.
  - (* rotate *)
    destruct (mp_orientation s =? 0).
    + destruct (_ <=? _); eauto.
    + destruct (_ <=? _); eauto.
  - (* generate *)
    eexists. split; [reflexivity|]. split; [exact Hsq|]. split; [exact Hn|].
    exists gx, gy. cbn. auto.
  - (* enter *)
    destruct isValid; [|eauto].
    replace (mp_cursorX s - board1StartX layout - 5) with (gx * 4) by lia.
    rewrite Z.quot_mul by lia.
    replace (mp_cursorY s - startY layout - 3) with gy by lia.
    rewrite <- Hn in Hsq, Hgx, Hgy.
    destruct (isValidShipPlacement_defined (mp_board s) gx gy
                (mp_orientation s) (piece_length ship) Hsq Hgx Hgy)
      as [v Hv].
    pose proof (placeShip_spec (mp_board s) gx gy (mp_orientation s)
                  (piece_length ship) (piece_symbol ship) v Hsq Hv) as Hp.
    destruct v.
    + destruct Hp as (g & -> & Hg & _). cbn.
      eexists. split; [reflexivity|]. split; [cbn; rewrite <- Hn; exact Hg|].
      split; [exact Hn|]. exists 0, 0. cbn. lia.
    + rewrite Hp. cbn. eexists. split; [reflexivity|].
      rewrite Hn in Hsq. split; [exact Hsq|]. split; [exact Hn|].
      exists gx, gy. cbn. lia.
  - eauto.
Qed.

Lemma key_step_ships (layout : BoardLayout) (n : Z) (pieces : list GamePiece)
    (ship : GamePiece) (k : Key) (s s' : ManualPlacement) :
  Manual.key_step layout n pieces ship k s = Some s' ->
  myShips (mp_board s') = myShips (mp_board s).
Proof.
  unfold Manual.key_step.
  destruct (Manual.highlightShipPlacement _ _ _ _ _ _) as [isValid|];
    [|discriminate].
  cbn [mbind option_bind].
  destruct k; try (intros [= <-]; reflexivity).
  - destruct (_ =? _); destruct (_ <? _); intros [= <-]; reflexivity.
  - destruct (_ <? _); intros [= <-]; reflexivity.
  - destruct (_ =? _); destruct (_ <? _); intros [= <-]; reflexivity.
  - destruct (_ <? _); intros [= <-]; reflexivity.
  - destruct (_ =? _); destruct (_ <=? _); intros [= <-]; reflexivity.
  - destruct isValid; [|intros [= <-]; reflexivity].
    destruct (GameLogic.placeShip _ _ _ _ _ _) as [[placed b']|] eqn:Ep;
      [|discriminate].
    apply placeShip_ships in Ep as [Hs _]. cbn.
    destruct placed; intros [= <-]; exact Hs.
Qed.

(** X13.  The manual placement screen keeps its cursor on the board: for a
    board of the size of the game (at least 1) and pieces of length at
    least 1, whatever keys are pressed, no step of the placement loop reads
    or writes outside the board (in particular [placeShip] is only called
    with an origin on the board), the cursor stays on a cell of the board
    and the board keeps its size.  The session creates no ship record:
    [myShips] is what it was. *)
Theorem manual_session_on_board (layout : BoardLayout) (n : Z)
    (pieces : list GamePiece) (keys : list Key) (s : ManualPlacement) :
  1 <= n -> Forall (fun p => 1 <= piece_length p) pieces ->
  placement_ok layout n s ->
  exists s', Manual.session layout n pieces keys s = Some s'
             /\ placement_ok layout n s'
             /\ myShips (mp_board s') = myShips (mp_board s).
Proof.
  intros Hn Hpieces. revert s. induction keys as [|k keys IH]; intros s Hok.
  - cbn. eauto.
  - cbn [Manual.session].
    destruct (pieces !! mp_shipToPlace s) as [ship|] eqn:E; [|eauto].
    assert (Hlen : 1 <= piece_length ship).
    { rewrite Forall_forall in Hpieces. apply Hpieces.
      eapply list_elem_of_lookup_2. exact E. }
    destruct (key_step_ok layout n pieces ship k s Hn Hlen Hok)
      as (s1 & Hstep & Hok1).
    rewrite Hstep. cbn [mbind option_bind].
    destruct (IH s1 Hok1) as (s' & Hrun & Hok' & Hships).
    exists s'. split; [exact Hrun|]. split; [exact Hok'|].
    rewrite Hships. exact (key_step_ships _ _ _ _ _ _ _ Hstep).
Qed.

Lemma manual_session_on_board_witness :
  exists s',
    Manual.session (calculateBoardLayout 10 40 120) 10
      (GameLogic.initializeGamePieces (Board.create 10)).2
      [KRight; KRight; KRight; KEnter; KLeft; KUp; KRotate; KEnter]
      (Manual.start (calculateBoardLayout 10 40 120) (Board.create 10))
    = Some s'
    /\ placement_ok (calculateBoardLayout 10 40 120) 10 s'
    /\ myShips (mp_board s') = [].
Proof.
  apply manual_session_on_board.
  - lia.
  - eapply Forall_impl; [exact (proj1 (initializeGamePieces_ok _))|].
    intros p [Hp _]. exact Hp.
  - split; [exact (ok_grid _ (create_ok 10 ltac:(lia)))|].
    split; [reflexivity|]. exists 0, 0. cbn. lia.
Defined.

(** ** Board statistics *)

Lemma receiveShot_hit_effect (b : BoardData) (x y : Z) (i : nat)
    (s : ActiveShip) (r : Z) (b' : BoardData) :
  Board.receiveShot_hit b x y i s = Some (r, b') ->
  r = (if shipLength s <=? hitCount s + 1 then 2 else 1)
  /\ myShips b' = <[i := hit_once s]> (myShips b)
  /\ missCount b' = missCount b /\ boardSize b' = boardSize b.
Proof.
  unfold Board.receiveShot_hit, hit_once.
  destruct (shipLength s <=? hitCount s + 1).
  - destruct (Board.mark_sunk _ _ _); simpl; [|discriminate].
    intros [= <- <-]. auto.
  - destruct (grid_set _ _ _ _); simpl; [|discriminate].
    intros [= <- <-]. auto.
Qed.

(** The four ways a shot can end. *)
Lemma receiveShot_effect (b : BoardData) (x y r : Z) (b' : BoardData) :
  Board.receiveShot b x y = Some (r, b') ->
  (r = 0 /\ b' = b)
  \/ (r = 0 /\ grid_get (boardArray b) y x = Some "w"%char
      /\ missCount b' = missCount b + 1 /\ myShips b' = myShips b)
  \/ (r = 1 /\ myShips b' = myShips b /\ missCount b' = missCount b)
  \/ (exists i s,
        myShips b !! i = Some s /\ isSunk s = false
        /\ r = (if shipLength s <=? hitCount s + 1 then 2 else 1)
        /\ myShips b' = <[i := hit_once s]> (myShips b)
        /\ missCount b' = missCount b).
Proof.
  unfold Board.receiveShot.
  destruct (_ || _); [intros [= <- <-]; auto|].
  destruct (grid_get _ _ _) as [cell|]; simpl; [|discriminate].
  destruct (_ || _); [intros [= <- <-]; auto|].
  destruct (ascii_eqb cell "w") eqn:Ew.
  { apply bool_decide_eq_true in Ew. subst cell.
    destruct (grid_set _ _ _ _); simpl; [|discriminate].
    intros [= <- <-]. right. left. auto. }
  assert (Board.receiveShot_fallthrough b x y = Some (r, b') ->
          r = 1 /\ myShips b' = myShips b /\ missCount b' = missCount b)
    as Hft.
  { unfold Board.receiveShot_fallthrough.
    destruct (grid_set _ _ _ _); simpl; [|discriminate].
    intros [= <- <-]. auto. }
  destruct (is_ship_char cell); [|auto].
  destruct (receiveShot_loop_spec b x y cell (myShips b) 0)
    as [(j & s & Hj & Ht & _ & ->)|[_ ->]]; [|auto].
  intros H. right. right. right. exists j, s.
  apply receiveShot_hit_effect in H as (Hr & Hs & Hm & _).
  split; [assumption|]. split; [apply Ht|]. auto.
Qed.

Lemma sunk_count_shift (l : list ActiveShip) (a : Z) :
  foldl (fun count ship => if isSunk ship then count + 1 else count) a l
  = a + foldl (fun count ship => if isSunk ship then count + 1 else count)
              0 l.
Proof.
  revert a. induction l as [|s l IH]; intros a; cbn [foldl]; [lia|].
  rewrite IH, (IH (if isSunk s then 0 + 1 else 0)).
  destruct (isSunk s); lia.
Qed.

Lemma sunk_count_insert (l : list ActiveShip) (i : nat) (s s' : ActiveShip) :
  l !! i = Some s ->
  foldl (fun count ship => if isSunk ship then count + 1 else count) 0
        (<[i := s']> l)
  = foldl (fun count ship => if isSunk ship then count + 1 else count) 0 l
    - (if isSunk s then 1 else 0) + (if isSunk s' then 1 else 0).
Proof.
  revert i. induction l as [|t l IH]; intros [|i];
    cbn [lookup list_lookup]; try discriminate.
  - intros [= ->]. cbn [insert list_insert foldl].
    rewrite (sunk_count_shift l (if isSunk s' then _ else _)),
      (sunk_count_shift l (if isSunk s then _ else _)).
    destruct (isSunk s), (isSunk s'); lia.
  - intros Hi. change (<[S i := s']> (t :: l)) with (t :: <[i := s']> l).
    cbn [foldl].
    rewrite (sunk_count_shift (<[i := s']> l)), (sunk_count_shift l),
      (IH i Hi).
    lia.
Qed.

Lemma sunk_count_range (l : list ActiveShip) :
  0 <= foldl (fun count ship => if isSunk ship then count + 1 else count) 0 l
    <= Z.of_nat (length l)
  /\ (foldl (fun count ship => if isSunk ship then count + 1 else count) 0 l
      = Z.of_nat (length l) -> Forall (fun s => isSunk s = true) l).
Proof.
  induction l as [|s l [IH1 IH2]]; cbn [foldl length].
  - split; [lia|]. constructor.
  - rewrite sunk_count_shift. destruct (isSunk s) eqn:E.
    + split; [lia|]. intros H. constructor; [exact E|]. apply IH2. lia.
    + split; [lia|]. intros H. lia.
Qed.

(** The sunk count goes up by one exactly on a result of 2; the number of
    ships does not change. *)
Lemma receiveShot_sunk_count (b : BoardData) (x y r : Z) (b' : BoardData) :
  Board.receiveShot b x y = Some (r, b') ->
  (r = 0 \/ r = 1 \/ r = 2)
  /\ Board.getSunkCount b' = Board.getSunkCount b + (if r =? 2 then 1 else 0)
  /\ length (myShips b') = length (myShips b).
Proof.
  intros H. unfold Board.getSunkCount.
  destruct (receiveShot_effect b x y r b' H)
    as [[-> ->]|[(-> & _ & _ & ->)|[(-> & -> & _)
       |(i & s & Hi & Hs & -> & -> & _)]]]; cbn [Z.eqb Pos.eqb];
    try (split; [lia|]; split; [lia|reflexivity]).
  rewrite (sunk_count_insert _ i s _ Hi), Hs, length_insert.
  unfold hit_once. cbn [isSunk set_hit].
  destruct (shipLength s <=? hitCount s + 1); cbn; split_and!; auto; lia.
Qed.

(** ** Turn engine: the counters follow the boards *)

Lemma pick_aiBoard (ai : AILogic) (g : Rng) :
  aiBoard (AI.pickAttackCoordinates ai g).1.2 = aiBoard ai.
Proof.
  unfold AI.pickAttackCoordinates, AI.pick_random.
  destruct (availableShots ai); [reflexivity|].
  destruct (difficulty ai).
  - destruct (rand g). reflexivity.
  - destruct (AI.pop_target _ _) as [[[c i] q]|]; [reflexivity|].
    destruct (last _); [reflexivity|]. destruct (rand g). reflexivity.
Qed.

Lemma record_aiBoard (ai ai' : AILogic) (x y : Z) (hit sunk : bool) :
  AI.recordShotResult ai x y hit sunk = Some ai' -> aiBoard ai' = aiBoard ai.
Proof.
  unfold AI.recordShotResult.
  destruct (_ && _); [|intros [= <-]; reflexivity].
  destruct (grid_set _ _ _ _) as [ob|]; [|discriminate].
  cbn [mbind option_bind].
  set (ai1 := set_knowledge ob (lastHit ai) (hunting ai) ai).
  assert (Hadd : forall a, AI.addSmartNeighbors ai1 x y = Some a ->
                           aiBoard a = aiBoard ai).
  { intros a Ha. unfold AI.addSmartNeighbors in Ha.
    eapply (foldl_option_inv (fun a => aiBoard a = aiBoard ai));
      [| |exact Ha|reflexivity].
    - reflexivity.
    - intros a0 [nx ny] a1. unfold AI.enqueue_neighbour.
      cbn [mbind option_bind].
      destruct (_ && _); [|intros [= <-]; auto].
      destruct (grid_get _ _ _) as [c|]; [|discriminate].
      cbn [mbind option_bind].
      destruct (_ || _); intros [= <-]; auto. }
  destruct (difficulty ai1) eqn:Ed.
  - cbn. destruct hit; intros [= <-]; reflexivity.
  - destruct (hit && negb sunk).
    + destruct (AI.addSmartNeighbors ai1 x y) as [a|] eqn:Ea; [|discriminate].
      specialize (Hadd a eq_refl). cbn.
      destruct sunk, hit; intros [= <-]; exact Hadd.
    + cbn. destruct sunk, hit; intros [= <-]; reflexivity.
Qed.

Lemma tally_set_net (st : GameLoopState) (s s' : Socket) :
  opponent st = OppNet s ->
  player_tally (GameLoop.set_opponent (OppNet s') st) = player_tally st
  /\ enemy_tally (GameLoop.set_opponent (OppNet s') st) = enemy_tally st.
Proof. intros Ho. unfold player_tally, enemy_tally. rewrite Ho. auto. Qed.

Lemma tally_close (st : GameLoopState) :
  player_tally (GameLoop.close_opponent st) = player_tally st
  /\ enemy_tally (GameLoop.close_opponent st) = enemy_tally st.
Proof.
  unfold GameLoop.close_opponent.
  destruct (opponent st) as [ai|s] eqn:Eo; [auto|].
  exact (tally_set_net st s _ Eo).
Qed.

Lemma next_enemy_shot_tally (st : GameLoopState) :
  player_tally (GameLoop.next_enemy_shot st).2 = player_tally st
  /\ enemy_tally (GameLoop.next_enemy_shot st).2 = enemy_tally st.
Proof.
  unfold GameLoop.next_enemy_shot.
  destruct (opponent st) as [ai|s] eqn:Eo.
  - pose proof (pick_aiBoard ai (rng st)) as Hb.
    destruct (AI.pickAttackCoordinates ai (rng st)) as [[shot ai'] g'].
    cbn in Hb. unfold player_tally, enemy_tally. rewrite Eo.
    destruct (_ || _); cbn; rewrite Hb; auto.
  - destruct (NetworkLogic.receiveShot s) as [shot s']. cbn [snd].
    exact (tally_set_net st s s' Eo).
Qed.

Lemma enemy_fire_loop_tally (n : nat) (fired f : list (Z * Z))
    (v v' : Volley) (st st' : GameLoopState) :
  GameLoop.enemy_fire_loop n fired v st = Done (f, v', st') ->
  player_tally st' = player_tally st /\ enemy_tally st' = enemy_tally st.
Proof.
  revert fired v st. induction n as [|n IH]; intros fired v st.
  - cbn. intros [= <- <- <-]. auto.
  - cbn [GameLoop.enemy_fire_loop].
    pose proof (next_enemy_shot_tally st) as [Hp1 He1].
    destruct (GameLoop.next_enemy_shot st) as [[[x y]|] st1];
      cbn [snd] in Hp1, He1; [|intros [= <- <- <-]; auto].
    intros H. apply bind_Done in H as ([r pb] & Hr & H).
    apply defined_Done in Hr.
    apply bind_Done in H as ([v2 st2] & Hap & H).
    apply receiveShot_sunk_count in Hr as (Hr & Hsunk & Hlen).
    apply apply_enemy_result_spec in Hap
      as ((_ & _ & _ & _ & _ & Hes) & Hpb & _ & _ & _ & Hps & Hopp).
    cbn [opponent playerBoard playerShipsRemaining enemyShipsRemaining
         GameLoop.set_playerBoard] in Hopp, Hpb, Hps, Hes.
    assert (Hp2 : player_tally st2 = player_tally st).
    { rewrite <- Hp1. unfold player_tally. rewrite Hpb, Hps, Hsunk, Hlen.
      f_equal. destruct Hr as [->|[->| ->]]; cbn; lia. }
    assert (He2 : enemy_tally st2 = enemy_tally st).
    { rewrite <- He1. unfold enemy_tally.
      destruct (opponent st1) as [ai1|s1].
      - destruct Hopp as (ai2 & Hrec & ->).
        rewrite (record_aiBoard _ _ _ _ _ _ Hrec), Hes. reflexivity.
      - destruct Hopp as [s2 ->]. reflexivity. }
    destruct (playerShipsRemaining st2 <=? 0).
    + injection H as _ _ <-. auto.
    + apply IH in H as [Hp He]. split; congruence.
Qed.

Lemma resolve_player_shot_tally (x y : Z) (st st1 : GameLoopState)
    (res : option Z) :
  GameLoop.resolve_player_shot x y st = Done (res, st1) ->
  player_tally st1 = player_tally st
  /\ enemyShipsRemaining st1 = enemyShipsRemaining st
  /\ match res with
     | None => enemy_tally st1 = enemy_tally st
     | Some r =>
         match enemy_tally st, enemy_tally st1 with
         | Some (t, k), Some (t1, k1) =>
             t1 = t + (if r =? 2 then 1 else 0) /\ k1 = k
         | None, None => True
         | _, _ => False
         end
     end.
Proof.
  unfold GameLoop.resolve_player_shot, enemy_tally, player_tally.
  destruct (opponent st) as [ai|s] eqn:Eo.
  - intros H. apply bind_Done in H as ([r b'] & Hr & H).
    apply defined_Done in Hr. injection H as <- <-. cbn.
    apply receiveShot_sunk_count in Hr as (_ & -> & ->).
    split_and!; auto. lia.
  - destruct (NetworkLogic.sendShot s (x, y)) as [[|] s1']; cbn [negb].
    + destruct (NetworkLogic.receiveShotResult s1') as [[a|] s2];
        intros [= <- <-]; cbn; auto.
    + intros [= <- <-]. cbn. auto.
Qed.

Lemma player_fire_loop_tally (sel fired : list (Z * Z)) (v : Volley)
    (st st' : GameLoopState) (res : option (list (Z * Z) * Volley)) :
  GameLoop.player_fire_loop sel fired v st = Done (res, st') ->
  player_tally st' = player_tally st /\ enemy_tally st' = enemy_tally st.
Proof.
  revert fired v st. induction sel as [|[x y] sel IH]; intros fired v st.
  - cbn. intros [= <- <-]. auto.
  - cbn [GameLoop.player_fire_loop]. intros H.
    apply bind_Done in H as ([r st1] & Hres & H).
    apply resolve_player_shot_tally in Hres as (Hp1 & He1 & Ht1).
    destruct r as [r|]; [|injection H as <- <-; auto].
    apply bind_Done in H as ([v2 st2] & Hap & H).
    apply apply_player_result_spec in Hap
      as ((Hpb & _ & _ & _ & Hps & _) & Ho & _ & _ & Her & _).
    assert (Hp2 : player_tally st2 = player_tally st).
    { rewrite <- Hp1. unfold player_tally. rewrite Hpb, Hps. reflexivity. }
    assert (He2 : enemy_tally st2 = enemy_tally st).
    { unfold enemy_tally in *. rewrite Ho.
      destruct (opponent st) as [ai|s], (opponent st1) as [ai1|s1];
        try contradiction; [|reflexivity].
      destruct Ht1 as [Ht Hk]. rewrite Her, He1. f_equal. f_equal; [|lia].
      destruct (r =? 2); lia. }
    destruct (enemyShipsRemaining st2 <=? 0).
    + injection H as _ <-. auto.
    + apply IH in H as [Hp He]. split; congruence.
Qed.

Lemma player_firing_tally (sel : list (Z * Z)) (st st' : GameLoopState)
    (e : PhaseEnd) :
  GameLoop.player_firing sel st = Done (e, st') ->
  player_tally st' = player_tally st /\ enemy_tally st' = enemy_tally st.
Proof.
  assert (Hafter : forall st0,
            GameLoop.player_after_loop sel st0 = Done (e, st') ->
            player_tally st' = player_tally st0
            /\ enemy_tally st' = enemy_tally st0).
  { intros st0 H. unfold GameLoop.player_after_loop in H.
    apply bind_Done in H as ([res st1] & Hl & H).
    apply player_fire_loop_tally in Hl as [Hp He].
    destruct (tally_close st1) as [Hpc Hec].
    destruct res as [[fired v]|].
    - apply bind_Done in H as (w & _ & H).
      destruct (_ <=? _); injection H as _ <-.
      + split; congruence.
      + split; [rewrite <- Hp|rewrite <- He]; reflexivity.
    - injection H as _ <-. split; congruence. }
  unfold GameLoop.player_firing. destruct (opponent st) as [ai|s] eqn:Eo.
  - apply Hafter.
  - destruct (NetworkLogic.sendShotCount _ _) as [[|] s1]; cbn [negb].
    + intros H. apply Hafter in H as [Hp He].
      destruct (tally_set_net st s s1 Eo). split; congruence.
    + intros [= _ <-].
      destruct (tally_close (GameLoop.set_opponent (OppNet s1) st)).
      destruct (tally_set_net st s s1 Eo). split; congruence.
Qed.

Lemma enemy_turn_tally (st st' : GameLoopState) (e : PhaseEnd) :
  GameLoop.enemy_turn st = Done (e, st') ->
  player_tally st' = player_tally st /\ enemy_tally st' = enemy_tally st.
Proof.
  assert (Hsalvo : forall k st0,
            GameLoop.enemy_salvo k st0 = Done (e, st') ->
            player_tally st' = player_tally st0
            /\ enemy_tally st' = enemy_tally st0).
  { intros k st0 H. unfold GameLoop.enemy_salvo in H.
    apply bind_Done in H as ([[fired v] st1] & Hl & H).
    apply enemy_fire_loop_tally in Hl as [Hp He].
    destruct (tally_close st1) as [Hpc Hec].
    apply bind_Done in H as (w & _ & H).
    destruct (_ <=? _); injection H as _ <-.
    - split; congruence.
    - split; [rewrite <- Hp|rewrite <- He]; reflexivity. }
  unfold GameLoop.enemy_turn. destruct (opponent st) as [ai|s] eqn:Eo.
  - apply Hsalvo.
  - destruct (NetworkLogic.receiveShotCount s) as [[k|] s1].
    + intros H. apply Hsalvo in H as [Hp He].
      destruct (tally_set_net st s s1 Eo). split; congruence.
    + intros [= _ <-].
      destruct (tally_close (GameLoop.set_opponent (OppNet s1) st)).
      destruct (tally_set_net st s s1 Eo). split; congruence.
Qed.

Lemma runGameLoop_tally (cmds : list GameLoop.Command)
    (st st' : GameLoopState) (e : GameLoop.GameEnd) :
  GameLoop.runGameLoop cmds st = Done (e, st') ->
  player_tally st' = player_tally st /\ enemy_tally st' = enemy_tally st.
Proof.
  revert st. induction cmds as [|c cmds IH]; intros st H.
  all: cbn [GameLoop.runGameLoop] in H.
  all: apply bind_Done in H as ([oe st1] & He & H).
  all: assert (H1 : player_tally st1 = player_tally st
                    /\ enemy_tally st1 = enemy_tally st).
  1,3: unfold GameLoop.enemy_part in He;
       destruct (playerTurn st); [injection He as _ <-; auto|];
       destruct (_ && _); [|injection He as _ <-; auto];
       apply bind_Done in He as ([p st2] & Ht & He);
       apply enemy_turn_tally in Ht;
       destruct p; injection He as _ <-; exact Ht.
  all: destruct H1 as [Hp1 He1].
  all: destruct oe as [e'|]; [injection H as _ <-; auto|].
  all: destruct (_ && _); [|injection H as _ <-; auto].
  - injection H as _ <-. auto.
  - destruct c as [sel|].
    2:{ injection H as _ <-. destruct (tally_close st1).
        split; congruence. }
    destruct sel as [|s0 sel].
    + apply IH in H as [Hp He2]. split; congruence.
    + apply bind_Done in H as ([p st2] & Hf & H).
      apply player_firing_tally in Hf as [Hp2 He2].
      destruct p.
      * injection H as _ <-. split; congruence.
      * apply IH in H as [Hp He3]. split; congruence.
      * injection H as _ <-. split; congruence.
Qed.

(** X14.  Board statistics follow the shot results: a shot returns 0, 1
    or 2; [getSunkCount] goes up by one exactly when the result is 2 and is
    otherwise unchanged; [missCount] goes up by one exactly when the cell
    showed water; the number of ship records never changes. *)
Theorem shot_statistics (b : BoardData) (x y r : Z) (b' : BoardData) :
  Board.receiveShot b x y = Some (r, b') ->
  (r = 0 \/ r = 1 \/ r = 2)
  /\ Board.getSunkCount b' = Board.getSunkCount b + (if r =? 2 then 1 else 0)
  /\ missCount b'
     = missCount b
       + (if bool_decide (0 <= x < boardSize b /\ 0 <= y < boardSize b
                          /\ grid_get (boardArray b) y x = Some "w"%char)
          then 1 else 0)
  /\ length (myShips b') = length (myShips b).
Proof.
  intros H. destruct (receiveShot_sunk_count b x y r b' H) as (Hr & Hs & Hl).
  split; [exact Hr|]. split; [exact Hs|]. split; [|exact Hl].
  clear Hr Hs Hl. revert H. unfold Board.receiveShot.
  destruct ((x <? 0) || (boardSize b <=? x) || (y <? 0)
            || (boardSize b <=? y)) eqn:Er.
  { intros [= _ <-]. rewrite bool_decide_eq_false_2 by lia. lia. }
  destruct (grid_get _ _ _) as [cell|]; simpl; [|discriminate].
  destruct (ascii_eqb cell "x" || ascii_eqb cell "o" || ascii_eqb cell "s")
    eqn:Em.
  { intros [= _ <-]. rewrite bool_decide_eq_false_2; [lia|].
    intros (_ & _ & [= ->]). discriminate. }
  destruct (ascii_eqb cell "w") eqn:Ew.
  { apply bool_decide_eq_true in Ew. subst cell.
    destruct (grid_set _ _ _ _); simpl; [|discriminate].
    intros [= _ <-]. rewrite bool_decide_eq_true_2; [reflexivity|].
    split_and!; auto; lia. }
  assert (Hnw : cell <> "w"%char)
    by (intros ->; unfold ascii_eqb in Ew;
        rewrite bool_decide_eq_true_2 in Ew by reflexivity; discriminate).
  rewrite bool_decide_eq_false_2 by (intros (_ & _ & [= ->]); auto).
  assert (Board.receiveShot_fallthrough b x y = Some (r, b') ->
          missCount b' = missCount b + 0) as Hft.
  { unfold Board.receiveShot_fallthrough.
    destruct (grid_set _ _ _ _); simpl; [|discriminate].
    intros [= _ <-]. cbn. lia. }
  destruct (is_ship_char cell); [|exact Hft].
  destruct (receiveShot_loop_spec b x y cell (myShips b) 0)
    as [(j & s & _ & _ & _ & ->)|[_ ->]]; [|exact Hft].
  intros H. apply receiveShot_hit_effect in H as (_ & _ & -> & _). lia.
Qed.

Lemma sunk_count_all (l : list ActiveShip) :
  Forall (fun s => isSunk s = true) l ->
  foldl (fun count ship => if isSunk ship then count + 1 else count) 0 l
  = Z.of_nat (length l).
Proof.
  induction 1 as [|s l Hs _ IH]; cbn [foldl length]; [reflexivity|].
  rewrite sunk_count_shift, IH, Hs. lia.
Qed.

Lemma afloat_exists (b : BoardData) :
  Board.getSunkCount b < Z.of_nat (length (myShips b)) ->
  Exists (fun s => isSunk s = false) (myShips b).
Proof.
  intros Hlt.
  destruct (decide (Forall (fun s => isSunk s = true) (myShips b)))
    as [Hall|Hn].
  - apply sunk_count_all in Hall. unfold Board.getSunkCount in Hlt. lia.
  - apply not_Forall_Exists in Hn; [|apply _].
    eapply Exists_impl; [exact Hn|]. intros s Hs. cbn in Hs.
    destruct (isSunk s); congruence.
Qed.

(** X15.  Throughout a game the counters follow the boards: on the
    player's side the counter of ships remaining plus the number of ships
    sunk on the player's board stays what it was, and so does the number of
    ship records; against the scripted opponent the same holds for the
    enemy's counter and the opponent's own board. *)
Theorem counters_follow_boards (cmds : list GameLoop.Command)
    (st st' : GameLoopState) (e : GameLoop.GameEnd) :
  GameLoop.runGameLoop cmds st = Done (e, st') ->
  playerShipsRemaining st' + Board.getSunkCount (playerBoard st')
  = playerShipsRemaining st + Board.getSunkCount (playerBoard st)
  /\ length (myShips (playerBoard st')) = length (myShips (playerBoard st))
  /\ forall ai, opponent st = OppAI ai ->
       exists ai',
         opponent st' = OppAI ai'
         /\ enemyShipsRemaining st' + Board.getSunkCount (aiBoard ai')
            = enemyShipsRemaining st + Board.getSunkCount (aiBoard ai)
         /\ length (myShips (aiBoard ai')) = length (myShips (aiBoard ai)).
Proof.
  intros H. apply runGameLoop_tally in H as [Hp He].
  unfold player_tally in Hp. injection Hp as Hp1 Hp2.
  split; [exact Hp1|]. split; [exact Hp2|].
  intros ai Ho. unfold enemy_tally in He. rewrite Ho in He.
  destruct (opponent st') as [ai'|s']; [|discriminate].
  injection He as He1 He2. exists ai'. auto.
Qed.

Lemma counters_follow_boards_witness :
  exists e st',
    GameLoop.runGameLoop
      [GameLoop.Fire [(5, 5)];
       GameLoop.Fire [(0, 0); (0, 1); (0, 2); (5, 5)]] demo_game
    = Done (e, st')
    /\ playerShipsRemaining st' + Board.getSunkCount (playerBoard st') = 1.
Proof.
  destruct (is_done_exists
              (GameLoop.runGameLoop
                 [GameLoop.Fire [(5, 5)];
                  GameLoop.Fire [(0, 0); (0, 1); (0, 2); (5, 5)]]
                 demo_game)) as [[e st'] E]; [vm_compute; reflexivity|].
  exists e, st'. split; [exact E|].
  rewrite (proj1 (counters_follow_boards _ _ _ _ E)).
  vm_compute. reflexivity.
Defined.

(** X16.  In a game against the scripted opponent that starts with each
    counter at the number of ships on the corresponding board and no ship
    sunk, the player is declared the winner only when every ship of the
    opponent's board is sunk, the opponent only when every ship of the
    player's board is sunk, and while the game waits for the player each
    board has a ship afloat. *)
Theorem winner_sank_the_fleet (cmds : list GameLoop.Command)
    (st st' : GameLoopState) (e : GameLoop.GameEnd) (ai : AILogic) :
  opponent st = OppAI ai ->
  enemyShipsRemaining st = Z.of_nat (length (myShips (aiBoard ai))) ->
  Board.getSunkCount (aiBoard ai) = 0 ->
  playerShipsRemaining st = Z.of_nat (length (myShips (playerBoard st))) ->
  Board.getSunkCount (playerBoard st) = 0 ->
  GameLoop.runGameLoop cmds st = Done (e, st') ->
  exists ai',
    opponent st' = OppAI ai'
    /\ match e with
       | GameLoop.Won true =>
           Forall (fun s => isSunk s = true) (myShips (aiBoard ai'))
       | GameLoop.Won false =>
           Forall (fun s => isSunk s = true) (myShips (playerBoard st'))
       | GameLoop.AwaitingInput =>
           Exists (fun s => isSunk s = false) (myShips (aiBoard ai'))
           /\ Exists (fun s => isSunk s = false) (myShips (playerBoard st'))
       | _ => True
       end.
Proof.
  intros Ho He0 Hes0 Hp0 Hps0 H.
  pose proof (runGameLoop_spec _ _ _ _ H) as Hv.
  apply runGameLoop_tally in H as [Hp He].
  unfold player_tally in Hp. injection Hp as Hp1 Hp2.
  unfold enemy_tally in He. rewrite Ho in He.
  destruct (opponent st') as [ai'|s']; [|discriminate].
  injection He as He1 He2. exists ai'. split; [reflexivity|].
  destruct e as [[|]| | | |]; try exact I.
  - destruct Hv as [Hz _].
    apply (proj2 (sunk_count_range (myShips (aiBoard ai')))).
    unfold Board.getSunkCount in *. lia.
  - destruct Hv as [Hz _].
    apply (proj2 (sunk_count_range (myShips (playerBoard st')))).
    unfold Board.getSunkCount in *. lia.
  - destruct Hv as [Hpp Hep]. split; apply afloat_exists; lia.
Qed.

Lemma winner_sank_the_fleet_witness :
  exists e st' ai',
    GameLoop.runGameLoop
      [GameLoop.Fire [(5, 5)];
       GameLoop.Fire [(0, 0); (0, 1); (0, 2); (5, 5)]] demo_game
    = Done (e, st')
    /\ opponent st' = OppAI ai'
    /\ match e with
       | GameLoop.Won true =>
           Forall (fun s => isSunk s = true) (myShips (aiBoard ai'))
       | GameLoop.Won false =>
           Forall (fun s => isSunk s = true) (myShips (playerBoard st'))
       | GameLoop.AwaitingInput =>
           Exists (fun s => isSunk s = false) (myShips (aiBoard ai'))
           /\ Exists (fun s => isSunk s = false) (myShips (playerBoard st'))
       | _ => True
       end.
Proof.
  destruct (is_done_exists
              (GameLoop.runGameLoop
                 [GameLoop.Fire [(5, 5)];
                  GameLoop.Fire [(0, 0); (0, 1); (0, 2); (5, 5)]]
                 demo_game)) as [[e st'] E]; [vm_compute; reflexivity|].
  destruct (winner_sank_the_fleet _ demo_game st' e demo_easy_ai eq_refl
              ltac:(vm_compute; reflexivity) ltac:(vm_compute; reflexivity)
              ltac:(vm_compute; reflexivity) ltac:(vm_compute; reflexivity)
              E) as (ai' & Ho & Hm).
  exists e, st', ai'. auto.
Defined.

(** ** C1: a ship without a record *)

(** A letter cell over which no record of a ship afloat with that letter
    lies is resolved by the code after the ship loop: the cell becomes
    ['x'], the answer is 1 and no record changes. *)
Lemma receiveShot_no_record (b : BoardData) (x y : Z) (c : ascii) :
  grid_square (boardSize b) (boardArray b) ->
  Forall (fun s => ~ is_target c x y s) (myShips b) ->
  0 <= x < boardSize b -> 0 <= y < boardSize b ->
  grid_get (boardArray b) y x = Some c -> is_ship_char c = true ->
  exists g, grid_set (boardArray b) y x "x" = Some g
    /\ Board.receiveShot b x y = Some (1, set_boardArray g b).
Proof.
  intros Hsq Hno Hx Hy Hc Hs.
  destruct (grid_set_is_Some _ _ y x "x" Hsq Hy Hx) as [g Hg].
  exists g. split; [exact Hg|].
  unfold Board.receiveShot.
  destruct (Z.ltb_spec x 0); [lia|].
  destruct (Z.leb_spec (boardSize b) x); [lia|].
  destruct (Z.ltb_spec y 0); [lia|].
  destruct (Z.leb_spec (boardSize b) y); [lia|].
  cbn [orb]. rewrite Hc. cbn [mbind option_bind].
  destruct (ship_char_not_mark c Hs) as (Hw & Hx' & Ho & Hs').
  rewrite !(proj2 (ascii_eqb_false _ _)) by assumption. cbn [orb].
  rewrite Hs.
  destruct (receiveShot_loop_spec b x y c (myShips b) 0)
    as [(j & s & Hj & Ht & _)|[_ ->]].
  - exfalso. rewrite Forall_forall in Hno.
    exact (Hno s (list_elem_of_lookup_2 _ _ _ Hj) Ht).
  - unfold Board.receiveShot_fallthrough. rewrite Hg. reflexivity.
Qed.

(** No series of shots at a board without ship records answers 2. *)
Lemma shoot_all_no_record (shots : list (Z * Z)) (b : BoardData) :
  grid_square (boardSize b) (boardArray b) -> myShips b = [] ->
  exists rs b',
    shoot_all b shots = Some (rs, b')
    /\ Forall (fun r => r = 0 \/ r = 1) rs
    /\ myShips b' = []
    /\ grid_square (boardSize b') (boardArray b').
Proof.
  intros Hsq He. induction shots as [|[x y] shots IH] using rev_ind.
  - exists [], b. cbn. auto.
  - destruct IH as (rs & b' & Hrun & Hrs & He' & Hsq').
    destruct (receiveShot_defined b' x y Hsq') as (r & b'' & Hr & Hsq'' & _).
    exists (rs ++ [r]), b''. unfold shoot_all in *.
    rewrite foldl_app, Hrun. cbn. rewrite Hr. cbn.
    split; [reflexivity|].
    destruct (receiveShot_effect _ _ _ _ _ Hr)
      as [[-> ->]|[(-> & _ & _ & Hm)|[(-> & Hm & _)|(i & s & Hi & _)]]].
    + split_and!; [|assumption..].
      apply Forall_app. split; [assumption|]. constructor; auto.
    + split_and!; [|congruence|assumption].
      apply Forall_app. split; [assumption|]. constructor; auto.
    + split_and!; [|congruence|assumption].
      apply Forall_app. split; [assumption|]. constructor; auto.
    + rewrite He' in Hi. discriminate.
Qed.

(** C1 (defect).  [receiveShot] looks for the ship a letter cell belongs
    to among the records of [myShips], and [placeShip], with which the
    placement screen writes the player's ships, adds no record.  On the
    10x10 board on which [placeShip] wrote the ship of scenario A (cells
    (5,5), (5,6) and (5,7), letter ['A']) the shots (0,0), (5,5), (5,5),
    (5,6), (5,7) answer 0, 1, 0, 1, 1: the last cell of the ship is hit
    and the ship is not sunk, the three cells end as ['x'] and none as
    ['s'], no ship counts as sunk, and no series of shots at this board
    ever answers 2. *)
Theorem receiveShot_unrecorded_ship :
  GameLogic.placeShip (Board.create 10) 5 7 1 3 "A"
  = Some (true, scenarioA_manual_board)
  /\ board_ok scenarioA_manual_board
  /\ myShips scenarioA_manual_board = []
  /\ grid_get (boardArray scenarioA_manual_board) 5 5 = Some "A"%char
  /\ grid_get (boardArray scenarioA_manual_board) 6 5 = Some "A"%char
  /\ grid_get (boardArray scenarioA_manual_board) 7 5 = Some "A"%char
  /\ (exists b',
        shoot_all scenarioA_manual_board
                  [(0, 0); (5, 5); (5, 5); (5, 6); (5, 7)]
        = Some ([0; 1; 0; 1; 1], b')
        /\ grid_get (boardArray b') 5 5 = Some "x"%char
        /\ grid_get (boardArray b') 6 5 = Some "x"%char
        /\ grid_get (boardArray b') 7 5 = Some "x"%char
        /\ myShips b' = [] /\ Board.getSunkCount b' = 0)
  /\ forall shots, exists rs b',
       shoot_all scenarioA_manual_board shots = Some (rs, b') /\ 2 ∉ rs.
Proof.
  assert (Hpl : GameLogic.placeShip (Board.create 10) 5 7 1 3 "A"
                = Some (true, scenarioA_manual_board))
    by (vm_compute; reflexivity).
  assert (Hok : board_ok scenarioA_manual_board).
  { eapply placeShip_ok; [|exact Hpl]. apply create_ok. lia. }
  split; [exact Hpl|]. split; [exact Hok|].
  split; [vm_compute; reflexivity|].
  split; [vm_compute; reflexivity|].
  split; [vm_compute; reflexivity|].
  split; [vm_compute; reflexivity|].
  split.
  - eexists. split; [vm_compute; reflexivity|].
    split_and!; vm_compute; reflexivity.
  - intros shots.
    destruct (shoot_all_no_record shots scenarioA_manual_board
                (ok_grid _ Hok) ltac:(vm_compute; reflexivity))
      as (rs & b' & Hrun & Hrs & _).
    exists rs, b'. split; [exact Hrun|].
    intros Hin. rewrite Forall_forall in Hrs.
    destruct (Hrs 2 Hin) as [?|?]; discriminate.
Qed.

(** X17.  A board whose ships were only written on the grid, as
    [placeShip] does during manual placement, has no ship record, and such
    a fleet cannot be sunk: whatever the enemy fires, the player's counter
    keeps its value and the game never ends with the enemy as the
    winner. *)
Theorem recordless_fleet_never_sinks (cmds : list GameLoop.Command)
    (st st' : GameLoopState) (e : GameLoop.GameEnd) :
  myShips (playerBoard st) = [] -> 0 < playerShipsRemaining st ->
  GameLoop.runGameLoop cmds st = Done (e, st') ->
  playerShipsRemaining st' = playerShipsRemaining st
  /\ e <> GameLoop.Won false.
Proof.
  intros Hempty Hpos H.
  pose proof (runGameLoop_spec _ _ _ _ H) as Hv.
  apply runGameLoop_tally in H as [Hp _].
  unfold player_tally in Hp. injection Hp as Hp1 Hp2.
  rewrite Hempty in Hp2. apply nil_length_inv in Hp2.
  unfold Board.getSunkCount in Hp1. rewrite Hempty, Hp2 in Hp1.
  cbn in Hp1. split; [lia|]. intros ->. lia.
Qed.

Lemma recordless_fleet_never_sinks_witness :
  grid_get (boardArray demo_manual_board) 0 0 = Some "A"%char
  /\ grid_get (boardArray demo_manual_board) 0 1 = Some "A"%char
  /\ grid_get (boardArray demo_manual_board) 0 2 = Some "A"%char
  /\ exists e st',
       GameLoop.runGameLoop []
         (GameLoop.start demo_manual_board (Board.create 10)
            (grid_make 10 " ") 10 5 false (OppAI demo_ai) demo_rng)
       = Done (e, st')
       /\ grid_get (boardArray (playerBoard st')) 0 0 = Some "x"%char
       /\ grid_get (boardArray (playerBoard st')) 0 1 = Some "x"%char
       /\ grid_get (boardArray (playerBoard st')) 0 2 = Some "x"%char
       /\ enemyHits st' = 3
       /\ playerShipsRemaining st' = 10 /\ e <> GameLoop.Won false.
Proof.
  split; [vm_compute; reflexivity|].
  split; [vm_compute; reflexivity|].
  split; [vm_compute; reflexivity|].
  destruct (is_done_exists
              (GameLoop.runGameLoop []
                 (GameLoop.start demo_manual_board (Board.create 10)
                    (grid_make 10 " ") 10 5 false (OppAI demo_ai) demo_rng)))
    as [[e st'] E]; [vm_compute; reflexivity|].
  assert (Hcells :
            (fun p : GameLoop.GameEnd * GameLoopState =>
               ([grid_get (boardArray (playerBoard p.2)) 0 0;
                 grid_get (boardArray (playerBoard p.2)) 0 1;
                 grid_get (boardArray (playerBoard p.2)) 0 2],
                enemyHits p.2))
              <$> result_of
                    (GameLoop.runGameLoop []
                       (GameLoop.start demo_manual_board (Board.create 10)
                          (grid_make 10 " ") 10 5 false (OppAI demo_ai)
                          demo_rng))
            = Some ([Some "x"; Some "x"; Some "x"]%char, 3))
    by (vm_compute; reflexivity).
  rewrite E in Hcells.
  cbn [result_of fmap option_fmap option_map snd] in Hcells.
  injection Hcells as H1 H2 H3 H4.
  destruct (recordless_fleet_never_sinks _
              (GameLoop.start demo_manual_board (Board.create 10)
                 (grid_make 10 " ") 10 5 false (OppAI demo_ai) demo_rng)
              st' e ltac:(vm_compute; reflexivity)
              ltac:(vm_compute; reflexivity) E)
    as [Hp He].
  exists e, st'. split; [exact E|]. split_and!; assumption.
Defined.

Lemma shot_statistics_witness :
  exists b',
    Board.receiveShot scenarioA_board 5 5 = Some (1, b')
    /\ Board.getSunkCount b' = 0 /\ missCount b' = 0.
Proof.
  destruct (fmap_fst_Some (Board.receiveShot scenarioA_board 5 5) 1)
    as [b' H]; [vm_compute; reflexivity|].
  exists b'. split; [exact H|].
  destruct (shot_statistics _ _ _ _ _ H) as (_ & Hs & Hm & _).
  rewrite Hs, Hm. split; vm_compute; reflexivity.
Defined.

(** ** The cells of the ship under a shot *)

Lemma belongs_cells (s : ActiveShip) (x y : Z) :
  (if orientation s =? 1 then
     (x =? startCol s) && (startRow s <=? y)
       && (y <? startRow s + shipLength s)
   else
     (y =? startRow s) && (x <=? startCol s)
       && (startCol s - shipLength s <? x)) = true
  <-> (y, x) ∈ ship_cells s.
Proof.
  destruct (Z.eqb_spec (orientation s) 1) as [Ho|Ho].
  - rewrite ship_cells_vertical by assumption.
    rewrite !andb_true_iff, Z.eqb_eq, Z.leb_le, Z.ltb_lt. lia.
  - rewrite ship_cells_horizontal by assumption.
    rewrite !andb_true_iff, Z.eqb_eq, Z.leb_le, Z.ltb_lt. lia.
Qed.

(** The ship loop of [getShipOccupiedCells] returns the cells of the first
    ship that lies over [(x, y)], or nothing when there is none. *)
Lemma occupied_loop_spec (x y : Z) (ships : list ActiveShip) :
  (exists i s, ships !! i = Some s /\ (y, x) ∈ ship_cells s
     /\ Board.getShipOccupiedCells_loop x y ships
        = (fun p => (p.2, p.1)) <$> ship_cells s)
  \/ ((forall s, s ∈ ships -> (y, x) ∉ ship_cells s)
      /\ Board.getShipOccupiedCells_loop x y ships = []).
Proof.
  induction ships as [|s ships IH]; cbn [Board.getShipOccupiedCells_loop].
  - right. split; [|reflexivity]. intros s Hs. inversion Hs.
  - pose proof (belongs_cells s x y) as Hb.
    match goal with |- context [if ?t then _ else _] =>
      change t with
        (if orientation s =? 1 then
           (x =? startCol s) && (startRow s <=? y)
             && (y <? startRow s + shipLength s)
         else
           (y =? startRow s) && (x <=? startCol s)
             && (startCol s - shipLength s <? x)) end.
    destruct (if orientation s =? 1 then _ else _).
    + left. exists 0%nat, s. split; [reflexivity|].
      split; [apply Hb; reflexivity|].
      unfold ship_cells. rewrite <- list_fmap_compose.
      apply list_fmap_ext. intros _ i _. simpl.
      destruct (Board.ship_cell s i). reflexivity.
    + destruct IH as [(i & t & Hi & Hin & Heq)|[Hno Heq]].
      * left. exists (S i), t. auto.
      * right. split; [|assumption].
        intros t [->|Ht]%elem_of_cons; [|auto].
        intros Hc. apply Hb in Hc. discriminate.
Qed.

Lemma occupied_cells_spec (b : BoardData) (x y : Z) (s : ActiveShip) :
  ships_disjoint (myShips b) ->
  s ∈ myShips b -> (y, x) ∈ ship_cells s ->
  Board.getShipOccupiedCells b x y = (fun p => (p.2, p.1)) <$> ship_cells s.
Proof.
  intros Hdis Hs Hin. unfold Board.getShipOccupiedCells.
  destruct (occupied_loop_spec x y (myShips b))
    as [(i & t & Hi & Ht & ->)|[Hno _]].
  - apply list_elem_of_lookup in Hs as [k Hk].
    destruct (decide (i = k)) as [->|Hne]; [congruence|].
    exfalso. exact (Hdis i k t s Hi Hk Hne _ Ht Hin).
  - exfalso. exact (Hno s Hs Hin).
Qed.

Lemma occupied_cells_none (b : BoardData) (x y : Z) :
  Board.getShipOccupiedCells b x y = []
  <-> forall s, s ∈ myShips b -> (y, x) ∉ ship_cells s.
Proof.
  unfold Board.getShipOccupiedCells.
  destruct (occupied_loop_spec x y (myShips b))
    as [(i & t & Hi & Ht & ->)|[Hno ->]].
  - split.
    + intros He. apply fmap_nil_inv in He. rewrite He in Ht. inversion Ht.
    + intros Hno. exfalso. apply (Hno t); [|assumption].
      eapply list_elem_of_lookup_2. eassumption.
  - split; auto.
Qed.

(** X18.  On a fleet whose ships do not overlap, [getShipOccupiedCells]
    at [(x, y)] returns the cells of the ship that lies over [(x, y)], all
    of them and in the order of the ship, as pairs [(column, row)]; the
    result is empty exactly when no ship record lies over [(x, y)]. *)
Theorem occupied_cells_are_the_ship (b : BoardData) (x y : Z) :
  ships_disjoint (myShips b) ->
  (forall s, s ∈ myShips b -> (y, x) ∈ ship_cells s ->
     Board.getShipOccupiedCells b x y
     = (fun p => (p.2, p.1)) <$> ship_cells s)
  /\ (Board.getShipOccupiedCells b x y = []
      <-> forall s, s ∈ myShips b -> (y, x) ∉ ship_cells s).
Proof.
  intros Hdis. split.
  - intros s. apply occupied_cells_spec. assumption.
  - apply occupied_cells_none.
Qed.

Lemma foldl_grid_set_cells (n : Z) (a : ascii) (cells : list (Z * Z))
    (g : Grid) :
  grid_square n g ->
  (forall p, p ∈ cells -> 0 <= p.1 < n /\ 0 <= p.2 < n) ->
  exists g',
    foldl (fun acc cell => g' ← acc; grid_set g' cell.2 cell.1 a)
          (Some g) cells = Some g'
    /\ grid_square n g'
    /\ forall r c, grid_get g' r c =
         if decide ((c, r) ∈ cells) then Some a else grid_get g r c.
Proof.
  intros Hsq Hin. revert g Hsq.
  induction cells as [|[cx cy] cells IH]; intros g Hsq; cbn [foldl].
  - exists g. split; [reflexivity|]. split; [assumption|]. intros r c.
    destruct (decide _) as [H|_]; [|reflexivity]. inversion H.
  - destruct (Hin (cx, cy)) as [Hx Hy]; [left|]. cbn [fst snd] in *.
    destruct (grid_set_is_Some n g cy cx a) as [g1 Hg1]; auto.
    cbn [mbind option_bind]. rewrite Hg1.
    destruct (IH) with (g := g1) as (g' & Hfold & Hsq' & Hget).
    + intros p Hp. apply Hin. right. assumption.
    + eapply grid_set_square; eauto.
    + exists g'. split; [assumption|]. split; [assumption|].
      intros r c. rewrite Hget.
      rewrite (grid_get_set _ _ _ _ r c _ Hg1).
      destruct (decide ((c, r) ∈ cells)) as [Hm|Hm];
        destruct (decide ((r, c) = (cy, cx))) as [He|He];
        destruct (decide ((c, r) ∈ (cx, cy) :: cells)) as [Hm'|Hm'];
        try reflexivity.
      * exfalso. apply Hm'. right. assumption.
      * exfalso. apply Hm'. right. assumption.
      * exfalso. apply Hm'. injection He as -> ->. left.
      * exfalso. apply elem_of_cons in Hm' as [[= -> ->]|?];
          contradiction.
Qed.

(** X19.  [updateSunkShips] on a square board whose ships lie on the
    board and do not overlap: the call is defined; when a ship lies over
    [(x, y)] the grid shows ['s'] on exactly the cells of that ship and is
    unchanged elsewhere; when no ship lies there the board is unchanged.
    The ship records and the status table are never touched, so the ship is
    not recorded as sunk by this call. *)
Theorem updateSunkShips_marks_ship (b : BoardData) (x y : Z) :
  grid_square (boardSize b) (boardArray b) ->
  Forall (ship_inside (boardSize b)) (myShips b) ->
  ships_disjoint (myShips b) ->
  exists b',
    GameLogic.updateSunkShips b x y = Some b'
    /\ myShips b' = myShips b /\ shipStatus b' = shipStatus b
    /\ (forall s, s ∈ myShips b -> (y, x) ∈ ship_cells s ->
          forall r c, grid_get (boardArray b') r c =
            if decide ((r, c) ∈ ship_cells s) then Some "s"%char
            else grid_get (boardArray b) r c)
    /\ ((forall s, s ∈ myShips b -> (y, x) ∉ ship_cells s) -> b' = b).
Proof.
  intros Hsq Hins Hdis. unfold GameLogic.updateSunkShips.
  destruct (foldl_grid_set_cells (boardSize b) "s"
              (Board.getShipOccupiedCells b x y) (boardArray b) Hsq)
    as (g & Hfold & _ & Hget).
  { intros p Hp.
    pose proof (getShipOccupiedCells_inside _ b x y p Hins Hp) as H.
    apply in_board_spec in H. lia. }
  rewrite Hfold. eexists. split; [reflexivity|]. split; [reflexivity|].
  split; [reflexivity|]. split.
  - intros s Hs Hin r c. cbn. rewrite Hget.
    rewrite (occupied_cells_spec b x y s Hdis Hs Hin).
    destruct (decide ((r, c) ∈ ship_cells s)) as [Hm|Hm];
      destruct (decide _) as [Hm'|Hm']; try reflexivity; exfalso.
    + apply Hm'. apply list_elem_of_fmap. exists (r, c). auto.
    + apply list_elem_of_fmap in Hm' as ([r' c'] & [= -> ->] & H). auto.
  - intros Hno. apply occupied_cells_none in Hno.
    rewrite Hno in Hfold. injection Hfold as <-.
    destruct b; reflexivity.
Qed.

Lemma scenarioA_ship :
  mkShip 0 "S" 3 0 false 5 5 1 ∈ myShips scenarioA_board
  /\ (6, 5) ∈ ship_cells (mkShip 0 "S" 3 0 false 5 5 1).
Proof.
  split.
  - apply (list_elem_of_lookup_2 _ 0%nat). reflexivity.
  - apply (list_elem_of_lookup_2 _ 1%nat). reflexivity.
Qed.

Lemma occupied_cells_are_the_ship_witness :
  Board.getShipOccupiedCells scenarioA_board 5 6 = [(5, 5); (5, 6); (5, 7)].
Proof.
  destruct scenarioA_ship as [Hs Hin].
  rewrite (proj1 (occupied_cells_are_the_ship scenarioA_board 5 6
                    (ok_disjoint _ scenarioA_board_ok)) _ Hs Hin).
  reflexivity.
Defined.

Lemma updateSunkShips_marks_ship_witness :
  exists b',
    GameLogic.updateSunkShips scenarioA_board 5 6 = Some b'
    /\ grid_get (boardArray b') 7 5 = Some "s"%char
    /\ grid_get (boardArray b') 0 0 = Some "w"%char
    /\ Board.getSunkCount b' = 0.
Proof.
  destruct scenarioA_ship as [Hs Hin].
  destruct (updateSunkShips_marks_ship scenarioA_board 5 6
              (ok_grid _ scenarioA_board_ok)
              (ok_inside _ scenarioA_board_ok)
              (ok_disjoint _ scenarioA_board_ok))
    as (b' & Hb & Hships & _ & Hget & _).
  exists b'. split; [exact Hb|].
  rewrite !(Hget _ Hs Hin). unfold Board.getSunkCount. rewrite Hships.
  split_and!; reflexivity.
Defined.

(** ** Clearing a board *)

(** Two square grids of the same size with the same cells are equal. *)
Lemma grid_ext (n : Z) (g g' : Grid) :
  grid_square n g -> grid_square n g' ->
  (forall r c, 0 <= r < n -> 0 <= c < n -> grid_get g r c = grid_get g' r c) ->
  g = g'.
Proof.
  intros (Hn & Hlen & Hrows) (_ & Hlen' & Hrows') Hget.
  apply list_eq. intros i.
  destruct (g !! i) as [row|] eqn:Hr.
  - pose proof (lookup_lt_Some _ _ _ Hr) as Hi.
    destruct (lookup_lt_is_Some_2 g' i) as [row' Hr']; [lia|].
    rewrite Hr'. f_equal.
    rewrite Forall_forall in Hrows, Hrows'.
    pose proof (Hrows row (list_elem_of_lookup_2 _ _ _ Hr)) as Hl.
    pose proof (Hrows' row' (list_elem_of_lookup_2 _ _ _ Hr')) as Hl'.
    apply list_eq. intros j.
    destruct (decide (j < length row)%nat) as [Hj|Hj].
    + specialize (Hget (Z.of_nat i) (Z.of_nat j) ltac:(lia) ltac:(lia)).
      unfold grid_get, vec_get in Hget.
      destruct (Z.ltb_spec (Z.of_nat i) 0); [lia|].
      rewrite !Nat2Z.id, Hr, Hr' in Hget. cbn in Hget.
      destruct (Z.ltb_spec (Z.of_nat j) 0); [lia|].
      rewrite ?Nat2Z.id in Hget. exact Hget.
    + rewrite !lookup_ge_None_2 by lia. reflexivity.
  - apply lookup_ge_None in Hr. symmetry. apply lookup_ge_None. lia.
Qed.

(** The nested loops [for i) for j) g[i][j] = a] over the rows [rows]. *)
Lemma fill_rows_spec (n : Z) (a : ascii) (rows : list Z) (g : Grid) :
  grid_square n g -> (forall i, i ∈ rows -> 0 <= i < n) ->
  exists g',
    foldl (fun acc i =>
             g1 ← acc;
             foldl (fun acc' j => g2 ← acc'; grid_set g2 i j a)
                   (Some g1) (seqZ 0 n))
          (Some g) rows = Some g'
    /\ grid_square n g'
    /\ forall r c, grid_get g' r c =
         if decide (r ∈ rows /\ 0 <= c < n) then Some a else grid_get g r c.
Proof.
  revert g. induction rows as [|i rows IH]; intros g Hsq Hin; cbn [foldl].
  - exists g. split; [reflexivity|]. split; [assumption|]. intros r c.
    destruct (decide _) as [[H _]|_]; [inversion H|reflexivity].
  - cbn [mbind option_bind].
    destruct (foldl_grid_set n a (fun j => (i, j))
                (fun acc' j => g2 ← acc'; grid_set g2 i j a)
                (seqZ 0 n) g Hsq) as (g1 & -> & Hsq1 & Hget1).
    { reflexivity. }
    { reflexivity. }
    { intros j Hj. apply elem_of_seqZ in Hj. cbn.
      pose proof (Hin i ltac:(left)). lia. }
    destruct (IH g1 Hsq1) as (g' & -> & Hsq' & Hget').
    { intros j Hj. apply Hin. right. assumption. }
    exists g'. split; [reflexivity|]. split; [assumption|].
    intros r c. rewrite Hget', Hget1.
    destruct (decide (r ∈ rows /\ 0 <= c < n)) as [[Hr Hc]|Hno].
    + rewrite decide_True; [reflexivity|]. split; [right|]; assumption.
    + destruct (decide ((r, c) ∈ (fun j => (i, j)) <$> seqZ 0 n))
        as [Hm|Hm].
      * apply list_elem_of_fmap in Hm as (j & [= -> ->] & Hj).
        apply elem_of_seqZ in Hj.
        rewrite decide_True; [reflexivity|]. split; [left|lia].
      * rewrite decide_False; [reflexivity|].
        intros [[->|Hr]%elem_of_cons Hc]; [|tauto].
        apply Hm. apply list_elem_of_fmap. exists c. split; [reflexivity|].
        apply elem_of_seqZ. lia.
Qed.

Lemma fill_grid (n : Z) (a : ascii) (g : Grid) :
  grid_square n g ->
  foldl (fun acc i =>
           g1 ← acc;
           foldl (fun acc' j => g2 ← acc'; grid_set g2 i j a)
                 (Some g1) (seqZ 0 n))
        (Some g) (seqZ 0 n) = Some (grid_make n a).
Proof.
  intros Hsq.
  destruct (fill_rows_spec n a (seqZ 0 n) g Hsq) as (g' & -> & Hsq' & Hget).
  { intros i Hi. apply elem_of_seqZ in Hi. lia. }
  f_equal. apply (grid_ext n); [assumption| |].
  { apply grid_make_square. apply Hsq. }
  intros r c Hr Hc. rewrite Hget, grid_make_get by assumption.
  rewrite decide_True; [reflexivity|]. split; [|assumption].
  apply elem_of_seqZ. lia.
Qed.

Lemma clear_initialize (b : BoardData) :
  grid_square (boardSize b) (boardArray b) ->
  Board.clear b = Some (Board.initialize (boardSize b) b).
Proof.
  intros Hsq. unfold Board.clear, Board.clear_row.
  rewrite (fill_grid (boardSize b) "w" (boardArray b) Hsq). reflexivity.
Qed.

(** X20.  On a board whose array has [boardSize] rows of [boardSize]
    cells, [clear] is defined and leaves exactly the board that
    [initialize(boardSize)] leaves: water everywhere, no ship records, empty
    status table and cell map, no misses, the host flag kept. *)
Theorem clear_is_initialize (b : BoardData) :
  grid_square (boardSize b) (boardArray b) ->
  Board.clear b = Some (Board.initialize (boardSize b) b).
Proof. apply clear_initialize. Qed.

Lemma clear_is_initialize_witness :
  Board.clear scenarioA_hit_board
  = Some (Board.initialize (boardSize scenarioA_hit_board)
                           scenarioA_hit_board).
Proof.
  exact (clear_is_initialize scenarioA_hit_board
           (ok_grid _ scenarioA_hit_board_ok)).
Defined.

(** ** The cell map *)

(** X21.  [buildShipCellMap] on a square board is defined and replaces
    the cell map: afterwards the key [(column, row)] is present exactly
    when that cell of the grid shows a ship letter, and holds that letter;
    water, miss, hit and sunk cells and cells off the board have no entry.
    Grid, ship records and status table are unchanged. *)
Theorem buildShipCellMap_lookup (b : BoardData) :
  grid_square (boardSize b) (boardArray b) ->
  exists b',
    Board.buildShipCellMap b = Some b'
    /\ boardArray b' = boardArray b /\ myShips b' = myShips b
    /\ shipStatus b' = shipStatus b /\ boardSize b' = boardSize b
    /\ forall x y,
         shipCellMap b' !! (x, y)
         = match grid_get (boardArray b) y x with
           | Some c => if is_ship_char c then Some c else None
           | None => None
           end.
Proof.
  intros Hsq. destruct (buildShipCellMap_spec b Hsq) as (m & -> & Hm).
  eexists. split; [reflexivity|]. cbn. auto.
Qed.

Lemma buildShipCellMap_lookup_witness :
  exists b',
    Board.buildShipCellMap scenarioA_hit_board = Some b'
    /\ shipCellMap b' !! (5, 6) = Some "S"%char
    /\ shipCellMap b' !! (5, 5) = None
    /\ shipCellMap b' !! (0, 0) = None.
Proof.
  destruct (buildShipCellMap_lookup scenarioA_hit_board
              (ok_grid _ scenarioA_hit_board_ok))
    as (b' & Hb & _ & _ & _ & _ & Hm).
  exists b'. split; [exact Hb|]. rewrite !Hm.
  split_and!; reflexivity.
Defined.

(** ** The status table of a new fleet *)

Lemma deck_symbols_wrap :
  Forall (fun c =>
            Z.of_nat (length (filter (fun kv : ascii * ActiveShip =>
                                        isSunk kv.2 = false)
                        (map_to_list
                           (GameLogic.create_deck 1 (oneDeck c)
                              (GameLogic.create_deck 2 (twoDeck c)
                                 (GameLogic.create_deck 3 (threeDeck c)
                                    (GameLogic.create_deck 4 (fourDeck c)
                                       ([], ∅, 0))))).1.2)))
            = Z.min (fourDeck c + threeDeck c + twoDeck c + oneDeck c) 26)
         configs.
Proof. repeat constructor; vm_compute; reflexivity. Qed.

(** X22.  The status table [initializeGamePieces] builds is keyed by the
    ship letter ['A' + (shipCounter % 26)], so it holds one entry per
    letter in use: [getRemainingShips] then returns the number of pieces
    only for fleets of at most 26 ships, and 26 for the larger fleets of
    the boards from size 19 on. *)
Theorem status_table_wraps (b : BoardData) :
  Z.of_nat (length (GameLogic.initializeGamePieces b).2)
  = getTotalShips (boardSize b)
  /\ Board.getRemainingShips (GameLogic.initializeGamePieces b).1
     = Z.min (getTotalShips (boardSize b)) 26
  /\ (19 <= boardSize b <= 26 ->
      Board.getRemainingShips (GameLogic.initializeGamePieces b).1
      < Z.of_nat (length (GameLogic.initializeGamePieces b).2)).
Proof.
  assert (Hlen : Z.of_nat (length (GameLogic.initializeGamePieces b).2)
                 = getTotalShips (boardSize b)).
  { rewrite <- (length_fmap piece_length), initializeGamePieces_lengths.
    rewrite !length_app, !length_replicate. unfold getTotalShips.
    pose proof (getShipConfig_counts (boardSize b)). lia. }
  assert (Hrem : Board.getRemainingShips (GameLogic.initializeGamePieces b).1
                 = Z.min (getTotalShips (boardSize b)) 26).
  { pose proof deck_symbols_wrap as H. rewrite Forall_forall in H.
    specialize (H _ (getShipConfig_in (boardSize b))).
    unfold getTotalShips. rewrite <- H.
    unfold GameLogic.initializeGamePieces, Board.getRemainingShips.
    destruct (GameLogic.create_deck 1 _ _) as [[pieces status] k].
    reflexivity. }
  split; [exact Hlen|]. split; [exact Hrem|].
  intros Hsz. rewrite Hlen, Hrem.
  assert (H : Forall (fun c => 19 <= cfg_boardSize c ->
                        26 < fourDeck c + threeDeck c + twoDeck c + oneDeck c)
                     configs) by (repeat constructor; cbn; lia).
  rewrite Forall_forall in H.
  assert (Hc : cfg_boardSize (getShipConfig (boardSize b)) = boardSize b).
  { assert (boardSize b ∈ seqZ 19 8) as Hin by (apply elem_of_seqZ; lia).
    revert Hin. generalize (boardSize b). intros n Hn.
    repeat (apply elem_of_cons in Hn as [->|Hn]; [reflexivity|]).
    inversion Hn. }
  specialize (H _ (getShipConfig_in (boardSize b))). unfold getTotalShips.
  lia.
Qed.

Lemma status_table_wraps_witness :
  Board.getRemainingShips (GameLogic.initializeGamePieces (Board.create 19)).1
  < Z.of_nat (length (GameLogic.initializeGamePieces (Board.create 19)).2).
Proof.
  exact (proj2 (proj2 (status_table_wraps (Board.create 19)))
           ltac:(cbn; lia)).
Defined.

(** ** Game state *)

Lemma getTotalShipCells_pos (n : Z) : 20 <= getTotalShipCells n.
Proof.
  unfold getTotalShipCells. pose proof (getShipConfig_counts n). lia.
Qed.

(** X23.  A state set up by [initializeGame] is not over, and [reset]
    brings every later state of the same game (same settings and totals,
    grids of the game's size, any hits, counters, turn and grid contents)
    back to exactly that state. *)
Theorem reset_restores_start (s0 s1 s : GameState.t) (n shots : Z)
    (host : bool) :
  GameLogic.initializeGame s0 n shots host = Some s1 ->
  same_game s1 s ->
  GameState.reset s = Some s1
  /\ GameState.isGameOver s1 = false
  /\ GameState.hasPlayerWon s1 = false.
Proof.
  unfold GameLogic.initializeGame, GameState.initialize.
  destruct (Z.ltb_spec n 0) as [|Hn]; [discriminate|].
  cbn [mbind option_bind]. intros [= <-].
  intros (Ht & Hm & Hh & Hb & Hsh & (Hp1 & Hp2 & Hp3) & (He1 & He2 & He3)
          & Hk).
  cbn in *. split.
  - unfold GameState.reset.
    rewrite (clear_initialize _ Hp3), (clear_initialize _ He3).
    cbn [mbind option_bind]. rewrite Hb.
    rewrite (fill_grid n " " _ Hk). cbn [mbind option_bind].
    rewrite Ht, Hm, Hh, Hsh, Hp1, He1.
    unfold Board.initialize. rewrite Hp2, He2. reflexivity.
  - unfold GameState.isGameOver, GameState.hasPlayerWon. cbn.
    pose proof (getTotalShipCells_pos n).
    destruct (Z.leb_spec (getTotalShipCells n) 0); [lia|]. auto.
Qed.

Lemma reset_restores_start_witness :
  GameState.reset
    (GameState.mk scenarioA_hit_board (Board.create 10) 2 1 20 9 10 10
                  false true 10 3 (grid_make 10 "m"))
  = GameLogic.initializeGame GameState.create 10 3 true.
Proof.
  assert (E : GameLogic.initializeGame GameState.create 10 3 true
              = Some (GameState.mk (Board.initialize 10 (Board.create 10))
                        (Board.initialize 10 (Board.create 10))
                        0 0 20 10 10 10 true true 10 3 (grid_make 10 " ")))
    by reflexivity.
  rewrite E.
  apply (reset_restores_start _ _ _ _ _ _ E).
  unfold same_game, board_like. cbn.
  split_and!; try reflexivity.
  - exact (ok_grid _ scenarioA_hit_board_ok).
  - apply grid_make_square. lia.
  - apply grid_make_square. lia.
Defined.

(** ** Resetting the scripted opponent *)

Section ResetOpponent.

Variable random_shuffle : list (Z * Z) -> Rng -> list (Z * Z) * Rng.
Hypothesis random_shuffle_perm : forall l g, (random_shuffle l g).1 ≡ₚ l.

(** X24.  [AILogic::reset] gives the opponent back its targeting state,
    whatever it was before.  Both pools are refilled: [availableShots] holds
    every cell of the board exactly once and [parityShots] exactly once
    every cell of the board whose coordinates have an even sum, each in the
    order the shuffle gives.  The queue is empty, hunt mode is off with no
    last hit and the knowledge grid shows ['?'] everywhere, so grid and
    pool agree again.  The opponent's own board is not touched: the fleet
    stays where it was, with the hits it has taken. *)
Theorem reset_refills_pools (now : Z) (ai : AILogic) (g : Rng) :
  0 <= ai_boardSize ai ->
  let ai' := (AI.reset random_shuffle now ai g).1 in
  pools_ok ai' /\ synced ai'
  /\ targetQueue ai' = [] /\ hunting ai' = false
  /\ lastHit ai' = (-1, -1) /\ huntDirection ai' = 0
  /\ availableShots ai' ≡ₚ AI.all_cells (ai_boardSize ai)
  /\ parityShots ai' ≡ₚ AI.parity_cells (ai_boardSize ai)
  /\ (forall c, c ∈ availableShots ai'
                <-> in_board (ai_boardSize ai) c = true)
  /\ (forall c, c ∈ parityShots ai'
                <-> in_board (ai_boardSize ai) c = true
                    /\ Z.rem (c.1 + c.2) 2 = 0)
  /\ opponentBoard ai' = grid_make (ai_boardSize ai) "?"
  /\ aiBoard ai' = aiBoard ai
  /\ difficulty ai' = difficulty ai
  /\ attackSeed ai' = attackSeed ai
  /\ ai_boardSize ai' = ai_boardSize ai.
Proof.
  intros Hn. unfold AI.reset, AI.initializeAvailableShots.
  cbn [ai_boardSize targetQueue].
  pose proof (random_shuffle_perm (AI.all_cells (ai_boardSize ai))
                (srand now g)) as Ha.
  destruct (random_shuffle (AI.all_cells (ai_boardSize ai)) (srand now g))
    as [avail ga].
  pose proof (random_shuffle_perm (AI.parity_cells (ai_boardSize ai)) ga)
    as Hp.
  destruct (random_shuffle (AI.parity_cells (ai_boardSize ai)) ga)
    as [parity gp].
  cbn [fst snd] in *. cbn.
  split_and!; try reflexivity; try assumption.
  - split; cbn.
    + rewrite Ha. apply all_cells_NoDup.
    + rewrite Hp. apply parity_cells_NoDup.
    + intros _ c Hc. rewrite Ha. apply parity_cells_sub.
      rewrite <- Hp. assumption.
    + intros c Hc. rewrite Ha in Hc. apply all_cells_elem in Hc.
      apply in_board_spec. assumption.
    + apply grid_make_square. assumption.
  - intros d Hd. cbn in *. apply in_board_spec in Hd.
    unfold unknown. rewrite grid_make_get by lia. cbn.
    rewrite Ha, all_cells_elem. tauto.
  - intros c. rewrite Ha, all_cells_elem, in_board_spec. tauto.
  - intros c. rewrite Hp. unfold AI.parity_cells.
    rewrite list_elem_of_filter, all_cells_elem, in_board_spec. tauto.
Qed.

End ResetOpponent.

Lemma reset_refills_pools_witness :
  length (availableShots demo_played_ai) = 98%nat
  /\ length (parityShots demo_played_ai) = 49%nat
  /\ targetQueue demo_played_ai = [(1, 0)]
  /\ hunting demo_played_ai = true
  /\ length (availableShots
               (AI.reset demo_shuffle 7 demo_played_ai demo_rng).1)
     = 100%nat
  /\ length (parityShots
               (AI.reset demo_shuffle 7 demo_played_ai demo_rng).1)
     = 50%nat
  /\ (0, 0) ∈ parityShots (AI.reset demo_shuffle 7 demo_played_ai demo_rng).1
  /\ targetQueue (AI.reset demo_shuffle 7 demo_played_ai demo_rng).1 = []
  /\ synced (AI.reset demo_shuffle 7 demo_played_ai demo_rng).1
  /\ aiBoard (AI.reset demo_shuffle 7 demo_played_ai demo_rng).1
     = aiBoard demo_played_ai.
Proof.
  assert (Hsz : ai_boardSize demo_played_ai = 10)
    by (vm_compute; reflexivity).
  destruct (reset_refills_pools demo_shuffle demo_shuffle_perm 7
              demo_played_ai demo_rng)
    as (_ & Hs & Hq & _ & _ & _ & Ha & Hp & _ & Hin & _ & Hb & _).
  { rewrite Hsz. lia. }
  split; [vm_compute; reflexivity|].
  split; [vm_compute; reflexivity|].
  split; [vm_compute; reflexivity|].
  split; [vm_compute; reflexivity|].
  split; [rewrite (Permutation_length Ha), Hsz; vm_compute; reflexivity|].
  split; [rewrite (Permutation_length Hp), Hsz; vm_compute; reflexivity|].
  split; [apply Hin; rewrite Hsz; split; reflexivity|].
  split; [exact Hq|]. split; [exact Hs|exact Hb].
Defined.

(** ** Hit counts and the grid *)

Lemma ship_cells_NoDup (s : ActiveShip) : NoDup (ship_cells s).
Proof.
  unfold ship_cells. apply NoDup_fmap_2; [|apply NoDup_seqZ].
  intros i j. unfold Board.ship_cell.
  destruct (orientation s =? 1); intros [= H]; lia.
Qed.

Lemma hit_cells_agree (g g' : Grid) (s : ActiveShip) :
  (forall r c, (r, c) ∈ ship_cells s -> grid_get g' r c = grid_get g r c) ->
  hit_cells g' s = hit_cells g s.
Proof.
  intros H. unfold hit_cells. apply filter_ext_elem.
  intros [r c] Hp. cbn. rewrite (H r c Hp). reflexivity.
Qed.

Lemma counted_agree (g g' : Grid) (s : ActiveShip) :
  (forall r c, (r, c) ∈ ship_cells s -> grid_get g' r c = grid_get g r c) ->
  ship_counted g s -> ship_counted g' s.
Proof.
  intros H Hc Ha. rewrite (hit_cells_agree g g' s H). apply Hc, Ha.
Qed.

(** Turning one cell of a list without repetition into a hit. *)
Lemma filter_hit_one (g g' : Grid) (l : list (Z * Z)) (y x : Z) :
  NoDup l -> grid_get g y x <> Some "x"%char ->
  (forall r c, grid_get g' r c =
     if decide ((r, c) = (y, x)) then Some "x"%char else grid_get g r c) ->
  length (filter (fun p => grid_get g' p.1 p.2 = Some "x"%char) l)
  = ((if decide ((y, x) ∈ l) then 1 else 0)
     + length (filter (fun p => grid_get g p.1 p.2 = Some "x"%char) l))%nat.
Proof.
  intros Hnd Hnx Hget. induction Hnd as [|[r c] l Hnotin Hnd IH].
  - rewrite decide_False; [reflexivity|]. intros H. inversion H.
  - assert (Hl : (y, x) ∈ (r, c) :: l <-> (r, c) = (y, x) \/ (y, x) ∈ l).
    { rewrite elem_of_cons. intuition congruence. }
    rewrite !filter_cons. cbn [fst snd]. rewrite Hget.
    destruct (decide ((r, c) = (y, x))) as [He|Hne].
    + injection He as -> ->.
      destruct (decide (Some "x"%char = Some "x"%char)); [|congruence].
      destruct (decide (grid_get g y x = Some "x"%char)); [contradiction|].
      destruct (decide ((y, x) ∈ (y, x) :: l)) as [_|Hno];
        [|exfalso; apply Hno; left].
      cbn [length]. rewrite IH.
      destruct (decide ((y, x) ∈ l)); [contradiction|]. lia.
    + destruct (decide ((y, x) ∈ (r, c) :: l)) as [Hin|Hin];
        destruct (decide ((y, x) ∈ l)) as [Hin'|Hin'];
        try (exfalso; tauto);
        destruct (decide (grid_get g r c = Some "x"%char));
        cbn [length]; rewrite IH;
        destruct (decide ((y, x) ∈ l)); try contradiction; lia.
Qed.

Lemma receiveShot_counted (b : BoardData) (x y r : Z) (b' : BoardData) :
  fleet_ok b -> Board.receiveShot b x y = Some (r, b') ->
  Forall (ship_counted (boardArray b')) (myShips b').
Proof.
  intros [Hok Hcnt] Heq.
  pose proof (ok_grid b Hok) as Hsq.
  pose proof (ok_symbols b Hok) as Hsyms.
  pose proof (ok_marked b Hok) as Hmarks.
  pose proof (ok_inside b Hok) as Hins.
  rewrite Forall_forall in Hsyms, Hmarks, Hins, Hcnt.
  destruct (receiveShot_cases b x y Hsq (ok_symbols b Hok))
    as [_ Heq'|g Hw Hg Heq'|c i s Hg Hc Hi Ht Hfirst Heq'
        |c g Hg Hnw Hnx Hno Hns Hall Hset Heq'];
    rewrite Heq' in Heq.
  - revert Heq; intros [= _ <-]. apply Forall_forall. exact Hcnt.
  - revert Heq; intros [= _ <-]. simpl.
    apply Forall_forall. intros t Ht.
    apply (counted_agree (boardArray b)); [|auto].
    intros r' c' Hc'. rewrite (grid_get_set _ _ _ _ r' c' _ Hg).
    destruct (decide _) as [[= -> ->]|_]; [|reflexivity].
    exfalso. eapply marked_not_water; eauto.
  - assert (s ∈ myShips b) as Hs by (eapply list_elem_of_lookup_2; eauto).
    destruct Ht as (Hafloat & Hsym & Hhit).
    apply isHit_cells in Hhit.
    destruct (receiveShot_hit_spec b x y i s Hsq (Hins s Hs) Hhit)
      as (b1 & Hhit1 & Hships & _ & _ & _ & Hget).
    rewrite Hhit1 in Heq. revert Heq; intros [= _ <-].
    rewrite Hships. apply Forall_lookup. intros k t Hk.
    destruct (decide (i = k)) as [<-|Hne].
    + rewrite list_lookup_insert_eq in Hk by (eapply lookup_lt_Some; eauto).
      injection Hk as <-. unfold ship_counted, hit_cells.
      rewrite (ship_later_cells _ _ (hit_once_later s)).
      unfold hit_once. cbn [isSunk hitCount set_hit].
      destruct (shipLength s <=? hitCount s + 1) eqn:El; [discriminate|].
      intros _.
      rewrite (filter_hit_one (boardArray b) (boardArray b1)
                 (ship_cells s) y x (ship_cells_NoDup s)).
      * rewrite decide_True by assumption.
        pose proof (Hcnt s Hs Hafloat) as Hh. unfold hit_cells in Hh. lia.
      * rewrite Hg. destruct (ship_char_not_mark _ Hc) as (_ & Hx & _).
        congruence.
      * intros r' c'. rewrite Hget. reflexivity.
    + rewrite list_lookup_insert_ne in Hk by assumption.
      assert (t ∈ myShips b) as Ht by (eapply list_elem_of_lookup_2; eauto).
      apply (counted_agree (boardArray b)); [|auto].
      intros r' c' Hc'. rewrite Hget.
      assert ((r', c') ∉ ship_cells s) as Hout.
      { exact (ok_disjoint b Hok k i t s Hk Hi (not_eq_sym Hne) _ Hc'). }
      destruct (shipLength s <=? hitCount s + 1);
        destruct (decide _) as [Hin|_]; try reflexivity.
      * contradiction.
      * injection Hin as -> ->. contradiction.
  - unfold Board.receiveShot_fallthrough in *.
    revert Heq; intros [= _ <-]. simpl.
    apply Forall_forall. intros t Ht.
    apply (counted_agree (boardArray b)); [|auto].
    intros r' c' Hc'. rewrite (grid_get_set _ _ _ _ r' c' _ Hset).
    destruct (decide _) as [[= -> ->]|_]; [|reflexivity].
    exfalso. rewrite Forall_forall in Hall. apply (Hall t Ht).
    destruct (ship_char_not_mark _ (Hsyms t Ht)) as (_ & Hx & _ & Hs).
    assert (isSunk t = false /\ symbol t = c) as [Haf Hsy].
    { destruct (Hmarks t Ht y x Hc') as [H|[_ H]]; rewrite Hg in H.
      - destruct (isSunk t); [congruence|]. split; congruence.
      - congruence. }
    repeat split; auto. apply isHit_cells. assumption.
Qed.

Lemma receiveShot_fleet_ok (b : BoardData) (x y r : Z) (b' : BoardData) :
  fleet_ok b -> Board.receiveShot b x y = Some (r, b') -> fleet_ok b'.
Proof.
  intros Hf Heq. split.
  - eapply receiveShot_ok; [apply Hf|exact Heq].
  - eapply receiveShot_counted; eauto.
Qed.

Lemma filter_split_length {A} (P : A -> Prop) `{forall x, Decision (P x)}
    (l : list A) :
  (length (filter P l) + length (filter (fun x => ~ P x) l))%nat = length l.
Proof.
  induction l as [|a l IH]; [reflexivity|].
  rewrite !filter_cons.
  destruct (decide (P a)), (decide (~ P a)); cbn [length]; try lia; tauto.
Qed.

(** When all but one element of a list without repetition pass a test and
    [p] fails it, every other element passes. *)
Lemma filter_all_but_one {A} (P : A -> Prop) `{forall x, Decision (P x)}
    (l : list A) (p q : A) :
  NoDup l -> p ∈ l -> ~ P p -> S (length (filter P l)) = length l ->
  q ∈ l -> q <> p -> P q.
Proof.
  intros Hnd Hp Hnp Hlen Hq Hne.
  destruct (decide (P q)) as [|Hnq]; [assumption|exfalso].
  pose proof (filter_split_length P l) as Hs.
  assert (Hfp : p ∈ filter (fun x => ~ P x) l)
    by (apply list_elem_of_filter; auto).
  assert (Hfq : q ∈ filter (fun x => ~ P x) l)
    by (apply list_elem_of_filter; auto).
  destruct (filter (fun x => ~ P x) l) as [|a [|a' l']] eqn:E;
    cbn [length] in Hs; try lia.
  apply list_elem_of_singleton in Hfp, Hfq. congruence.
Qed.

Lemma ship_cells_length (s : ActiveShip) :
  length (ship_cells s) = Z.to_nat (shipLength s).
Proof. unfold ship_cells. rewrite length_fmap. apply length_seqZ. Qed.

(** The shot that sinks a ship. *)
Lemma sinking_shot (b : BoardData) (x y : Z) (b' : BoardData) :
  fleet_ok b -> Board.receiveShot b x y = Some (2, b') ->
  exists i s,
    myShips b !! i = Some s /\ isSunk s = false
    /\ (y, x) ∈ ship_cells s
    /\ grid_get (boardArray b) y x = Some (symbol s)
    /\ (forall r c, (r, c) ∈ ship_cells s -> (r, c) <> (y, x) ->
          grid_get (boardArray b) r c = Some "x"%char)
    /\ myShips b' = <[i := hit_once s]> (myShips b)
    /\ isSunk (hit_once s) = true
    /\ forall r c, grid_get (boardArray b') r c =
         if decide ((r, c) ∈ ship_cells s) then Some "s"%char
         else grid_get (boardArray b) r c.
Proof.
  intros [Hok Hcnt] Heq.
  pose proof (ok_grid b Hok) as Hsq.
  pose proof (ok_inside b Hok) as Hins.
  pose proof (ok_hits b Hok) as Hhits.
  rewrite Forall_forall in Hins, Hcnt, Hhits.
  destruct (receiveShot_cases b x y Hsq (ok_symbols b Hok))
    as [_ Heq'|g Hw Hg Heq'|c i s Hg Hc Hi Ht Hfirst Heq'
        |c g Hg Hnw Hnx Hno Hns Hall Hset Heq'];
    rewrite Heq' in Heq; try discriminate.
  assert (s ∈ myShips b) as Hs by (eapply list_elem_of_lookup_2; eauto).
  destruct Ht as (Hafloat & Hsym & Hhit).
  apply isHit_cells in Hhit.
  destruct (receiveShot_hit_spec b x y i s Hsq (Hins s Hs) Hhit)
    as (b1 & Hhit1 & Hships & _ & _ & _ & Hget).
  rewrite Hhit1 in Heq.
  destruct (Z.leb_spec (shipLength s) (hitCount s + 1)) as [Hl|Hl];
    [|discriminate].
  injection Heq as <-.
  exists i, s. split; [assumption|]. split; [assumption|].
  split; [assumption|]. split; [congruence|].
  destruct (Hhits s Hs) as [Hrange Hiff].
  assert (hitCount s <> shipLength s) as Hne.
  { intros He. apply Hiff in He. congruence. }
  split; [|split; [assumption|split]].
  - intros r c' Hrc Hneq.
    apply (filter_all_but_one
             (fun p : Z * Z => grid_get (boardArray b) p.1 p.2
                               = Some "x"%char)
             (ship_cells s) (y, x) (r, c') (ship_cells_NoDup s) Hhit);
      [| |assumption|assumption].
    + cbn. rewrite Hg. destruct (ship_char_not_mark _ Hc) as (_ & Hx & _).
      congruence.
    + pose proof (Hcnt s Hs Hafloat) as Hh. unfold hit_cells in Hh.
      rewrite ship_cells_length. lia.
  - unfold hit_once. cbn. apply Z.leb_le. assumption.
  - exact Hget.
Qed.

Lemma place_pieces_records (fuel : nat) (pieces : list GamePiece)
    (b : BoardData) (i : nat) (g : Rng) :
  Forall (fun s => hitCount s = 0) (myShips b) ->
  match GameLogic.place_pieces fuel b pieces i g with
  | Done (b', _) => Forall (fun s => hitCount s = 0) (myShips b')
  | _ => True
  end.
Proof.
  revert b i g. induction fuel as [|fuel IH]; intros b i g Hz;
    cbn [GameLogic.place_pieces]; [exact I|].
  destruct (pieces !! i) as [p|]; [|assumption].
  destruct (_ =? 0); [exact I|].
  destruct (rand g) as [r1 g1]. destruct (rand g1) as [r2 g2].
  destruct (GameLogic.find_placement _ _ _ _ _ _) as [[o peg g'|g']|];
    [| |exact I].
  - destruct (Board.addShip _ _ _ _ _) as [b'|] eqn:Ha; [|exact I].
    apply IH. apply addShip_ships in Ha as [-> _].
    apply Forall_app. split; [assumption|]. repeat constructor.
  - destruct (Board.clear b) as [b'|] eqn:Hc; [|exact I].
    apply IH. unfold Board.clear in Hc.
    destruct (foldl _ _ _); [|discriminate]. injection Hc as <-.
    constructor.
Qed.

Lemma unhit_fleet_ok (b : BoardData) :
  board_ok b -> Forall (ship_unhit (boardArray b)) (myShips b) ->
  Forall (fun s => hitCount s = 0) (myShips b) -> fleet_ok b.
Proof.
  intros Hok Hun Hz. split; [assumption|].
  pose proof (ok_symbols b Hok) as Hsym.
  rewrite Forall_forall in Hun, Hz, Hsym |- *.
  intros s Hs _. rewrite (Hz s Hs). unfold hit_cells.
  destruct (filter _ (ship_cells s)) as [|[r c] l] eqn:E; [reflexivity|].
  exfalso.
  assert (Hin : (r, c) ∈ filter (fun p : Z * Z =>
                                   grid_get (boardArray b) p.1 p.2
                                   = Some "x"%char) (ship_cells s))
    by (rewrite E; left).
  apply list_elem_of_filter in Hin as [Hx Hp]. cbn in Hx.
  rewrite (Hun s Hs r c Hp) in Hx.
  destruct (ship_char_not_mark _ (Hsym s Hs)) as (_ & Hx' & _). congruence.
Qed.

(** A shot at a cell of the board that was not shot at before. *)
Lemma receiveShot_fresh (b : BoardData) (x y r : Z) (b' : BoardData) :
  fleet_ok b -> 0 <= x < boardSize b -> 0 <= y < boardSize b ->
  unshot (boardArray b) y x ->
  Board.receiveShot b x y = Some (r, b') ->
  (r = 0 \/ r = 1 \/ r = 2)
  /\ (r = 0 <-> grid_get (boardArray b) y x = Some "w"%char)
  /\ grid_get (boardArray b') y x = Some (result_mark r)
  /\ if r =? 2 then
       exists i s,
         myShips b !! i = Some s /\ (y, x) ∈ ship_cells s
         /\ myShips b' = <[i := hit_once s]> (myShips b)
         /\ (forall r' c', (r', c') ∈ ship_cells s -> (r', c') <> (y, x) ->
               grid_get (boardArray b) r' c' = Some "x"%char)
         /\ forall r' c', grid_get (boardArray b') r' c' =
              if decide ((r', c') ∈ ship_cells s) then Some "s"%char
              else grid_get (boardArray b) r' c'
     else
       forall r' c', grid_get (boardArray b') r' c' =
         if decide ((r', c') = (y, x)) then Some (result_mark r)
         else grid_get (boardArray b) r' c'.
Proof.
  intros Hf Hx Hy (a & Ha & Hax & Hao & Has) Heq.
  destruct (Z.eq_dec r 2) as [->|Hr2].
  { destruct (sinking_shot b x y b' Hf Heq)
      as (i & s & Hi & Haf & Hin & Hg & Hothers & Hships & _ & Hget).
    split; [auto|]. split.
    - split; [discriminate|]. intros Hw. exfalso.
      destruct Hf as [Hok _]. pose proof (ok_symbols b Hok) as Hsym.
      rewrite Forall_forall in Hsym.
      assert (Hs : s ∈ myShips b) by (eapply list_elem_of_lookup_2; eauto).
      destruct (ship_char_not_mark _ (Hsym s Hs)) as (Hnw & _). congruence.
    - split.
      + rewrite Hget, decide_True by assumption. reflexivity.
      + cbn. exists i, s. auto. }
  destruct Hf as [Hok Hcnt].
  pose proof (ok_grid b Hok) as Hsq.
  pose proof (ok_inside b Hok) as Hins.
  rewrite Forall_forall in Hins.
  destruct (receiveShot_cases b x y Hsq (ok_symbols b Hok))
    as [Hign Heq'|g Hw Hg Heq'|c i s Hg Hc Hi Ht Hfirst Heq'
        |c g Hg Hnw Hnx Hno Hns Hall Hset Heq'];
    rewrite Heq' in Heq.
  - exfalso. destruct Hign as [?|[?|[?|[?|(c & Hc & Hm)]]]]; try lia.
    rewrite Ha in Hc. injection Hc as ->. destruct Hm as [?|[?|?]]; auto.
  - injection Heq as <- <-. split; [auto|]. split; [tauto|].
    cbn [boardArray set_missCount set_boardArray]. split.
    + rewrite (grid_get_set _ _ _ _ y x _ Hg), decide_True by reflexivity.
      reflexivity.
    + cbn. intros r' c'. apply (grid_get_set _ _ _ _ r' c' _ Hg).
  - assert (s ∈ myShips b) as Hs by (eapply list_elem_of_lookup_2; eauto).
    destruct Ht as (Hafloat & Hsym & Hhit).
    apply isHit_cells in Hhit.
    destruct (receiveShot_hit_spec b x y i s Hsq (Hins s Hs) Hhit)
      as (b1 & Hhit1 & Hships & _ & _ & _ & Hget).
    rewrite Hhit1 in Heq.
    destruct (shipLength s <=? hitCount s + 1); injection Heq as <- <-;
      [contradiction|].
    split; [auto|]. split.
    + split; [discriminate|]. intros Hw. exfalso.
      rewrite Hg in Hw. injection Hw as ->. discriminate.
    + split.
      * rewrite Hget, decide_True by reflexivity. reflexivity.
      * cbn. exact Hget.
  - injection Heq as <- <-. split; [auto|]. split.
    + split; [discriminate|]. congruence.
    + cbn [boardArray set_boardArray]. split.
      * rewrite (grid_get_set _ _ _ _ y x _ Hset), decide_True
          by reflexivity. reflexivity.
      * cbn. intros r' c'. apply (grid_get_set _ _ _ _ r' c' _ Hset).
Qed.

(** X25.  On a board in order whose hit counts agree with the grid,
    [receiveShot] keeps both, and it returns 2 only for the shot on the
    last cell of a ship that was not hit yet: that cell still showed the
    ship's letter, every other cell of the ship already showed ['x'], and
    afterwards exactly the cells of that ship show ['s']. *)
Theorem sunk_by_last_cell (b : BoardData) (x y r : Z) (b' : BoardData) :
  fleet_ok b -> Board.receiveShot b x y = Some (r, b') ->
  fleet_ok b'
  /\ (r = 2 ->
      exists s,
        s ∈ myShips b /\ isSunk s = false /\ (y, x) ∈ ship_cells s
        /\ grid_get (boardArray b) y x = Some (symbol s)
        /\ (forall r' c', (r', c') ∈ ship_cells s -> (r', c') <> (y, x) ->
              grid_get (boardArray b) r' c' = Some "x"%char)
        /\ forall r' c', grid_get (boardArray b') r' c' =
             if decide ((r', c') ∈ ship_cells s) then Some "s"%char
             else grid_get (boardArray b) r' c').
Proof.
  intros Hf Heq. split; [eapply receiveShot_fleet_ok; eauto|].
  intros ->.
  destruct (sinking_shot b x y b' Hf Heq)
    as (i & s & Hi & Haf & Hin & Hg & Hothers & _ & _ & Hget).
  exists s. split_and!; auto. eapply list_elem_of_lookup_2; eauto.
Qed.

Lemma scenarioA_fleet_ok : fleet_ok scenarioA_board.
Proof.
  split; [exact scenarioA_board_ok|].
  apply Forall_lookup. intros i s Hs. vm_compute in Hs.
  destruct i as [|i]; [|discriminate].
  injection Hs as <-. intros _. vm_compute. reflexivity.
Qed.

Lemma shoot_all_fleet_ok (b : BoardData) (shots : list (Z * Z))
    (rs : list Z) (b' : BoardData) :
  fleet_ok b -> shoot_all b shots = Some (rs, b') -> fleet_ok b'.
Proof.
  intros Hf Hs. unfold shoot_all in Hs.
  change (fleet_ok (rs, b').2).
  eapply (foldl_option_inv (fun p : list Z * BoardData => fleet_ok p.2));
    [| |exact Hs|exact Hf].
  { intros [x y]. reflexivity. }
  intros [rs0 b0] [x y] [rs1 b1] Hstep Hb0. cbn in Hstep, Hb0 |- *.
  destruct (Board.receiveShot b0 x y) as [[r b2]|] eqn:Hshot;
    [|discriminate].
  injection Hstep as _ <-. eapply receiveShot_fleet_ok; eauto.
Qed.

Lemma sunk_by_last_cell_witness :
  exists b2 b',
    shoot_all scenarioA_board [(5, 5); (5, 6)] = Some ([1; 1], b2)
    /\ Board.receiveShot b2 5 7 = Some (2, b')
    /\ fleet_ok b'
    /\ exists s,
         s ∈ myShips b2 /\ (7, 5) ∈ ship_cells s
         /\ forall r c, (r, c) ∈ ship_cells s -> (r, c) <> (7, 5) ->
              grid_get (boardArray b2) r c = Some "x"%char.
Proof.
  destruct (fmap_fst_Some (shoot_all scenarioA_board [(5, 5); (5, 6)])
              [1; 1]) as [b2 E2]; [vm_compute; reflexivity|].
  destruct (fmap_fst_Some
              (shoot_all scenarioA_board [(5, 5); (5, 6); (5, 7)])
              [1; 1; 2]) as [b' E3]; [vm_compute; reflexivity|].
  assert (Hshot : Board.receiveShot b2 5 7 = Some (2, b')).
  { change [(5, 5); (5, 6); (5, 7)] with ([(5, 5); (5, 6)] ++ [(5, 7)])
      in E3.
    unfold shoot_all in E3. rewrite foldl_app in E3.
    fold (shoot_all scenarioA_board [(5, 5); (5, 6)]) in E3.
    rewrite E2 in E3. cbn in E3.
    destruct (Board.receiveShot b2 5 7) as [[r b3]|]; [|discriminate].
    cbn in E3. injection E3 as -> ->. reflexivity. }
  pose proof (shoot_all_fleet_ok _ _ _ _ scenarioA_fleet_ok E2) as Hf2.
  destruct (sunk_by_last_cell b2 5 7 2 b' Hf2 Hshot) as [Hf' Hsunk].
  destruct (Hsunk eq_refl) as (s & Hs & _ & Hin & _ & Hothers & _).
  exists b2, b'. split_and!; try assumption.
  exists s. auto.
Defined.

(** ** Both sides know the truth *)

Lemma mark_of_blank (a : ascii) :
  mark_of a = " "%char
  <-> a <> "x"%char /\ a <> "o"%char /\ a <> "s"%char.
Proof.
  unfold mark_of.
  destruct (ascii_eqb a "o") eqn:Eo;
    [apply ascii_eqb_true in Eo; subst; split; [discriminate|intros (? & ? & ?); congruence]|].
  destruct (ascii_eqb a "x") eqn:Ex;
    [apply ascii_eqb_true in Ex; subst; split; [discriminate|intros (? & ? & ?); congruence]|].
  destruct (ascii_eqb a "s") eqn:Es;
    [apply ascii_eqb_true in Es; subst; split; [discriminate|intros (? & ? & ?); congruence]|].
  apply ascii_eqb_false in Eo, Ex, Es. tauto.
Qed.

Lemma seen_of_unknown (a : ascii) :
  ascii_eqb (seen_of a) "?" || ascii_eqb (seen_of a) " " = true
  <-> a <> "x"%char /\ a <> "o"%char /\ a <> "s"%char.
Proof.
  unfold seen_of.
  destruct (ascii_eqb a "o") eqn:Eo;
    [apply ascii_eqb_true in Eo; subst; split; [discriminate|intros (? & ? & ?); congruence]|].
  destruct (ascii_eqb a "x") eqn:Ex;
    [apply ascii_eqb_true in Ex; subst; split; [discriminate|intros (? & ? & ?); congruence]|].
  destruct (ascii_eqb a "s") eqn:Es;
    [apply ascii_eqb_true in Es; subst; split; [discriminate|intros (? & ? & ?); congruence]|].
  apply ascii_eqb_false in Eo, Ex, Es. cbn. tauto.
Qed.

(** A blank on a grid that shows the board through [mark_of] is a cell
    not shot at. *)
Lemma shows_blank_unshot (g : Grid) (b : BoardData) (r c : Z) :
  shows mark_of g b -> grid_get g r c = Some " "%char ->
  unshot (boardArray b) r c.
Proof.
  intros Hs Hg. rewrite Hs in Hg.
  destruct (grid_get (boardArray b) r c) as [a|] eqn:E; [|discriminate].
  cbn in Hg. injection Hg as Hg. apply mark_of_blank in Hg.
  exists a. tauto.
Qed.

(** One cell changes on the board and, through [f], on the grid. *)
Lemma shows_set (f : ascii -> ascii) (g g' : Grid) (b b' : BoardData)
    (y x : Z) (v : ascii) :
  shows f g b -> grid_set g y x (f v) = Some g' ->
  (forall r c, grid_get (boardArray b') r c =
     if decide ((r, c) = (y, x)) then Some v
     else grid_get (boardArray b) r c) ->
  shows f g' b'.
Proof.
  intros Hs Hg Hb r c. rewrite (grid_get_set _ _ _ _ r c _ Hg), Hb.
  destruct (decide _); [reflexivity|apply Hs].
Qed.

Lemma mark_enemy_spec (x y : Z) (k c : ascii) (st st' : GameLoopState) :
  GameLoop.mark_enemy x y k c st = Done st' ->
  exists known g,
    grid_set (enemyKnownBoard st) y x k = Some known
    /\ grid_set (boardArray (enemyBoard st)) y x c = Some g
    /\ st' = GameLoop.set_enemy_view (set_boardArray g (enemyBoard st))
               known st.
Proof.
  unfold GameLoop.mark_enemy. intros H.
  apply bind_Done in H as (kn & Hk & H). apply defined_Done in Hk.
  apply bind_Done in H as (g & Hg & H). apply defined_Done in Hg.
  injection H as <-. eauto.
Qed.

(** The loop that paints the cells of a sunk ship on the tracking grid and
    on the copy of the enemy board. *)
Lemma mark_cells_spec (n : Z) (cells : list (Z * Z)) (st : GameLoopState) :
  grid_square n (enemyKnownBoard st) ->
  grid_square n (boardArray (enemyBoard st)) ->
  (forall p, p ∈ cells -> in_board n p = true) ->
  exists eb known,
    foldl (fun acc '(cx, cy) =>
             st2 ← acc; GameLoop.mark_enemy cx cy "s" "s" st2)
          (Done st) cells
    = Done (GameLoop.set_enemy_view eb known st)
    /\ grid_square n known /\ grid_square n (boardArray eb)
    /\ (forall r c, grid_get known r c =
          if decide ((c, r) ∈ cells) then Some "s"%char
          else grid_get (enemyKnownBoard st) r c)
    /\ (forall r c, grid_get (boardArray eb) r c =
          if decide ((c, r) ∈ cells) then Some "s"%char
          else grid_get (boardArray (enemyBoard st)) r c).
Proof.
  revert st. induction cells as [|[cx cy] cells IH]; intros st Hk He Hin.
  - exists (enemyBoard st), (enemyKnownBoard st). cbn [foldl].
    split; [destruct st; reflexivity|]. split; [assumption|].
    split; [assumption|].
    split; intros r c; (destruct (decide _) as [H|_]; [inversion H|]);
      reflexivity.
  - cbn [foldl]. cbn [mbind outcome_bind].
    destruct (mark_enemy_defined n cx cy "s" "s" st Hk He) as [st1 H1].
    { apply Hin. left. }
    rewrite H1.
    destruct (mark_enemy_spec _ _ _ _ _ _ H1) as (kn & g & Hkn & Hg & ->).
    destruct (IH (GameLoop.set_enemy_view (set_boardArray g (enemyBoard st))
                    kn st)) as (eb & known & Hf & Hsk & Hse & Hgk & Hge).
    { cbn. exact (grid_set_square n _ _ _ _ _ Hk Hkn). }
    { cbn. exact (grid_set_square n _ _ _ _ _ He Hg). }
    { intros p Hp. apply Hin. right. assumption. }
    exists eb, known. split; [rewrite Hf; reflexivity|].
    split; [assumption|]. split; [assumption|].
    cbn in Hgk, Hge.
    split; intros r c; rewrite ?Hgk, ?Hge;
      rewrite ?(grid_get_set _ _ _ _ r c _ Hkn),
        ?(grid_get_set _ _ _ _ r c _ Hg);
      destruct (decide ((c, r) ∈ cells)) as [Hm|Hm];
      destruct (decide ((r, c) = (cy, cx))) as [Heq|Hne];
      destruct (decide ((c, r) ∈ (cx, cy) :: cells)) as [Hm'|Hm'];
      try reflexivity; exfalso.
    all: try (apply Hm'; right; assumption).
    all: try (apply Hm'; injection Heq as -> ->; left).
    all: apply elem_of_cons in Hm' as [[= -> ->]|?]; contradiction.
Qed.

(** The state of an AI game after a shot of the player: what is left to
    show once the opponent's board, the tracking grid and the copy are
    known. *)
Lemma ag_player_frame (st st' : GameLoopState) (ai : AILogic)
    (b' : BoardData) :
  ai_game_ok st ai ->
  opponent st' = OppAI (set_aiBoard b' ai) ->
  playerBoard st' = playerBoard st -> size st' = size st ->
  fleet_ok b' -> boardSize b' = size st ->
  grid_square (size st) (enemyKnownBoard st') ->
  grid_square (size st) (boardArray (enemyBoard st')) ->
  shows mark_of (enemyKnownBoard st') b' ->
  shows copy_of (boardArray (enemyBoard st')) b' ->
  ai_game_ok st' (set_aiBoard b' ai).
Proof.
  intros [Ho [Hk He Hp Hps Hopp] Hf Hpl Hsy Ht Hc Hkn] Ho' Hpb Hsz Hf' Hbs
         Hk' He' Ht' Hc'.
  rewrite Ho in Hopp. destruct Hopp as (_ & _ & Hpools & Hasz).
  constructor; try assumption.
  - constructor; rewrite ?Hsz, ?Hpb, ?Ho'; try assumption.
    cbn. split_and!; try assumption; [apply Hf'|].
    destruct Hpools. constructor; assumption.
  - rewrite Hpb. assumption.
  - rewrite Hpb. assumption.
Qed.

Lemma swap_elem (l : list (Z * Z)) (r c : Z) :
  (c, r) ∈ (fun p : Z * Z => (p.2, p.1)) <$> l <-> (r, c) ∈ l.
Proof.
  rewrite list_elem_of_fmap. split.
  - intros ([r' c'] & [= -> ->] & H). exact H.
  - intros H. exists (r, c). auto.
Qed.

(** One shot of the player at a cell that is blank on the tracking
    grid. *)
Lemma ag_player_shot (st : GameLoopState) (ai : AILogic) (x y : Z)
    (v : Volley) :
  ai_game_ok st ai -> in_board (size st) (x, y) = true ->
  grid_get (enemyKnownBoard st) y x = Some " "%char ->
  exists r b' v' st',
    GameLoop.resolve_player_shot x y st
    = Done (Some r, GameLoop.set_opponent (OppAI (set_aiBoard b' ai)) st)
    /\ GameLoop.apply_player_result x y r v
         (GameLoop.set_opponent (OppAI (set_aiBoard b' ai)) st)
       = Done (v', st')
    /\ ai_game_ok st' (set_aiBoard b' ai)
    /\ size st' = size st /\ shots st' = shots st
    /\ (forall d, d <> (x, y) ->
          grid_get (enemyKnownBoard st) d.2 d.1 = Some " "%char ->
          grid_get (enemyKnownBoard st') d.2 d.1 = Some " "%char).
Proof.
  intros Hinv Hin Hblank.
  pose proof Hinv as [Ho Hgame Hf Hpl Hsy Ht Hc Hkn].
  destruct Hgame as [Hk He Hp Hps Hopp].
  rewrite Ho in Hopp. destruct Hopp as (Hb & Hbs & Hpools & Hasz).
  pose proof Hin as Hin'. apply in_board_spec in Hin'. cbn in Hin'.
  destruct (receiveShot_defined (aiBoard ai) x y (ok_grid _ Hb))
    as (r & b' & Hr & Hsq' & Hsz').
  pose proof (shows_blank_unshot _ _ _ _ Ht Hblank) as Hun.
  destruct (receiveShot_fresh (aiBoard ai) x y r b' Hf ltac:(lia)
              ltac:(lia) Hun Hr) as (Hr3 & Hw & Hcell & Hgrid).
  pose proof (receiveShot_fleet_ok _ _ _ _ _ Hf Hr) as Hf'.
  assert (Hbs' : boardSize b' = size st) by congruence.
  exists r, b'.
  assert (Hres : GameLoop.resolve_player_shot x y st
                 = Done (Some r, GameLoop.set_opponent
                                   (OppAI (set_aiBoard b' ai)) st)).
  { unfold GameLoop.resolve_player_shot. rewrite Ho, Hr. reflexivity. }
  set (st1 := GameLoop.set_opponent (OppAI (set_aiBoard b' ai)) st).
  assert (Hone : forall (k c : ascii) (st2 : GameLoopState),
            r <> 2 -> k = mark_of (result_mark r) ->
            c = copy_of (result_mark r) ->
            opponent st2 = opponent st1 -> playerBoard st2 = playerBoard st ->
            size st2 = size st -> shots st2 = shots st ->
            enemyKnownBoard st2 = enemyKnownBoard st ->
            enemyBoard st2 = enemyBoard st ->
            exists st',
              GameLoop.mark_enemy x y k c st2 = Done st'
              /\ ai_game_ok st' (set_aiBoard b' ai)
              /\ size st' = size st /\ shots st' = shots st
              /\ (forall d, d <> (x, y) ->
                    grid_get (enemyKnownBoard st) d.2 d.1 = Some " "%char ->
                    grid_get (enemyKnownBoard st') d.2 d.1
                    = Some " "%char)).
  { intros k c st2 Hr2 -> -> Ho2 Hpb2 Hsz2 Hsh2 Hk2 He2.
    destruct (mark_enemy_defined (size st) x y
                (mark_of (result_mark r)) (copy_of (result_mark r)) st2)
      as [st' Hm]; rewrite ?Hk2, ?He2; try assumption.
    exists st'. split; [exact Hm|].
    destruct (mark_enemy_spec _ _ _ _ _ _ Hm) as (kn & g & Hkn' & Hg & ->).
    rewrite Hk2 in Hkn'. rewrite He2 in Hg.
    destruct (Z.eqb_spec r 2) as [|_]; [contradiction|].
    split_and!.
    - apply (ag_player_frame st _ ai b' Hinv); cbn; try assumption.
      + exact (grid_set_square _ _ _ _ _ _ Hk Hkn').
      + exact (grid_set_square _ _ _ _ _ _ He Hg).
      + exact (shows_set mark_of _ _ _ _ _ _ _ Ht Hkn' Hgrid).
      + exact (shows_set copy_of _ _ _ _ _ _ _ Hc Hg Hgrid).
    - exact Hsz2.
    - exact Hsh2.
    - intros [dx dy] Hne Hd. cbn in *.
      rewrite (grid_get_set _ _ _ _ dy dx _ Hkn').
      destruct (decide _) as [[= -> ->]|_]; [contradiction|exact Hd]. }
  destruct Hr3 as [->|[->| ->]].
  - destruct (Hone "m"%char "o"%char st1) as (st' & Hm & Hrest);
      try reflexivity; try discriminate.
    eexists _, st'. split; [exact Hres|]. split; [|exact Hrest].
    unfold GameLoop.apply_player_result. cbn [Z.eqb].
    rewrite Hm. reflexivity.
  - destruct (Hone "h"%char "x"%char
                (GameLoop.set_player_score (playerHits st1 + 1)
                   (enemyShipsRemaining st1) st1)) as (st' & Hm & Hrest);
      try reflexivity; try discriminate.
    eexists _, st'. split; [exact Hres|]. split; [|exact Hrest].
    unfold GameLoop.apply_player_result. cbn [Z.eqb Pos.eqb].
    rewrite Hm. reflexivity.
  - clear Hone. cbn [Z.eqb Pos.eqb] in Hgrid.
    destruct Hgrid as (i & s & Hi & Hxy & Hships & Hothers & Hget).
    assert (Hs : s ∈ myShips (aiBoard ai))
      by (eapply list_elem_of_lookup_2; eauto).
    pose proof (ok_inside _ Hb) as Hins. rewrite Forall_forall in Hins.
    assert (Hcells : Board.getShipOccupiedCells b' x y
                     = (fun p : Z * Z => (p.2, p.1)) <$> ship_cells s).
    { rewrite <- (ship_later_cells _ _ (hit_once_later s)).
      apply occupied_cells_spec.
      - apply (ok_disjoint _ (proj1 Hf')).
      - rewrite Hships. apply (list_elem_of_lookup_2 _ i).
        apply list_lookup_insert_eq. eapply lookup_lt_Some; eauto.
      - rewrite (ship_later_cells _ _ (hit_once_later s)). assumption. }
    set (st2 := GameLoop.set_player_score (playerHits st1 + 1)
                  (enemyShipsRemaining st1 - 1) st1).
    destruct (mark_cells_spec (size st)
                ((fun p : Z * Z => (p.2, p.1)) <$> ship_cells s) st2)
      as (eb & known & Hfold & Hsk & Hse & Hgk & Hge);
      [assumption|assumption| |].
    { intros [pc pr] Hpc. apply (proj1 (swap_elem _ _ _)) in Hpc.
      apply in_board_spec. cbn. destruct (Hins s Hs pr pc Hpc). lia. }
    eexists _, (GameLoop.set_enemy_view eb known st2).
    split; [exact Hres|]. split.
    { unfold GameLoop.apply_player_result. cbn [Z.eqb Pos.eqb].
      change (opponent (GameLoop.set_player_score _ _ st1))
        with (OppAI (set_aiBoard b' ai)).
      cbn [aiBoard set_aiBoard]. rewrite Hcells.
      fold st2. rewrite Hfold. reflexivity. }
    split_and!; try reflexivity.
    + apply (ag_player_frame st _ ai b' Hinv); cbn; try assumption;
        try reflexivity.
      * intros r c. rewrite Hgk, Hget. cbn.
        destruct (decide ((r, c) ∈ ship_cells s)) as [Hm|Hm].
        -- rewrite decide_True by (apply (proj2 (swap_elem _ _ _)); assumption).
           reflexivity.
        -- rewrite decide_False by (rewrite swap_elem; assumption).
           apply Ht.
      * intros r c. rewrite Hge, Hget. cbn.
        destruct (decide ((r, c) ∈ ship_cells s)) as [Hm|Hm].
        -- rewrite decide_True by (apply (proj2 (swap_elem _ _ _)); assumption).
           reflexivity.
        -- rewrite decide_False by (rewrite swap_elem; assumption).
           apply Hc.
    + intros [dx dy] Hne Hd. cbn in *. rewrite Hgk.
      destruct (decide _) as [Hm|_]; [|exact Hd]. exfalso.
      apply (proj1 (swap_elem _ _ _)) in Hm.
      assert ((dy, dx) <> (y, x)) as Hne' by congruence.
      pose proof (Hothers dy dx Hm Hne') as Hx.
      rewrite Ht, Hx in Hd. discriminate.
Qed.

(** The invariant only looks at the opponent, the three boards and the
    size. *)
Lemma ag_frame (st st' : GameLoopState) (ai : AILogic) :
  ai_game_ok st ai ->
  opponent st' = opponent st -> playerBoard st' = playerBoard st ->
  enemyBoard st' = enemyBoard st ->
  enemyKnownBoard st' = enemyKnownBoard st -> size st' = size st ->
  ai_game_ok st' ai.
Proof.
  intros [Ho [Hk He Hp Hps Hopp] Hf Hpl Hsy Ht Hc Hkn] Ho' Hpb Heb Hkb Hsz.
  constructor; rewrite ?Ho', ?Hpb, ?Heb, ?Hkb; try assumption.
  constructor; rewrite ?Ho', ?Hpb, ?Heb, ?Hkb, ?Hsz; assumption.
Qed.

(** A cell of the opponent's pool was not shot at on the player's
    board. *)
Lemma pool_cell_unshot (st : GameLoopState) (ai : AILogic) (c : Z * Z) :
  ai_game_ok st ai -> c ∈ availableShots ai ->
  in_board (size st) c = true /\ unshot (boardArray (playerBoard st)) c.2 c.1.
Proof.
  intros [Ho [Hk He Hp Hps Hopp] Hf Hpl Hsy Ht Hc Hkn] Hin.
  rewrite Ho in Hopp. destruct Hopp as (_ & _ & Hpools & Hasz).
  pose proof (pool_inside ai Hpools c Hin) as Hb. rewrite Hasz in Hb.
  split; [exact Hb|].
  rewrite <- Hasz in Hb. apply (Hsy c Hb) in Hin.
  unfold unknown in Hin. rewrite Hkn in Hin.
  destruct (grid_get (boardArray (playerBoard st)) c.2 c.1) as [a|] eqn:E;
    [|discriminate].
  cbn in Hin. apply seen_of_unknown in Hin. exists a. tauto.
Qed.

(** One pass of the enemy's loop in which the opponent fires. *)
Lemma ag_enemy_shot (st st1 st2 : GameLoopState) (ai : AILogic)
    (x y r : Z) (pb : BoardData) (v1 v2 : Volley) :
  ai_game_ok st ai ->
  GameLoop.next_enemy_shot st = (Some (x, y), st1) ->
  Board.receiveShot (playerBoard st1) x y = Some (r, pb) ->
  GameLoop.apply_enemy_result x y r v1 (GameLoop.set_playerBoard pb st1)
  = Done (v2, st2) ->
  (exists ai2, ai_game_ok st2 ai2)
  /\ size st2 = size st /\ shots st2 = shots st
  /\ enemyKnownBoard st2 = enemyKnownBoard st
  /\ (x, y) ∈ availableShots ai
  /\ unshot (boardArray (playerBoard st)) y x.
Proof.
  intros Hinv Hnext Hshot Hap.
  pose proof Hinv as [Ho Hgame Hf Hpl Hsy Ht Hc Hkn].
  pose proof Hgame as [Hk He Hp Hps Hopp].
  rewrite Ho in Hopp. destruct Hopp as (Hb & Hbs & Hpools & Hasz).
  rewrite (next_enemy_shot_ai st ai Ho) in Hnext.
  pose proof (pick_spec ai (rng st) Hpools) as Hpick.
  pose proof (pick_record_synced ai (rng st) (negb (r =? 0))
                (negb ((r =? 0) || (r =? 1))) Hpools Hsy) as Hsync.
  destruct (AI.pickAttackCoordinates ai (rng st)) as [[c ai1] g1].
  destruct Hpick as (Hok1 & Hn1 & Hob1 & Hd1 & Hab1 & Hcase).
  destruct ((c.1 =? -1) || (c.2 =? -1)) eqn:Em1; [discriminate|].
  injection Hnext as -> <-.
  destruct Hcase as [(_ & Hc1 & _)|(_ & Hcin & Hw & _)].
  { rewrite Hc1 in Em1. discriminate. }
  destruct (pool_cell_unshot st ai (x, y) Hinv Hcin) as [Hon Hun].
  cbn [fst snd] in Hun.
  destruct Hsync as (_ & ai2 & Hrec & Hok2 & Hsy2).
  { intros [= -> ->]. discriminate. }
  cbn [fst snd] in Hrec.
  cbn [playerBoard GameLoop.set_rng GameLoop.set_opponent] in Hshot.
  pose proof Hon as Hon'. apply in_board_spec in Hon'. cbn in Hon'.
  destruct (receiveShot_fresh (playerBoard st) x y r pb Hpl
              ltac:(rewrite Hps; lia) ltac:(rewrite Hps; lia) Hun Hshot)
    as (Hr3 & _ & _ & Hgrid).
  pose proof (receiveShot_fleet_ok _ _ _ _ _ Hpl Hshot) as Hpl'.
  destruct (receiveShot_defined (playerBoard st) x y)
    as (r0 & pb0 & Hr0 & Hsq & Hbs').
  { rewrite Hps. exact Hp. }
  rewrite Hshot in Hr0. injection Hr0 as <- <-.
  pose proof (apply_enemy_result_spec _ _ _ _ _ _ _ Hap)
    as ((Heb & Hkb & Hsz & Hsh & _) & Hpb & _ & _ & _ & _ & Hopp2).
  cbn in Heb, Hkb, Hsz, Hsh, Hpb, Hopp2.
  destruct Hopp2 as (ai2' & Hrec' & Ho2).
  rewrite Hrec in Hrec'. injection Hrec' as <-.
  destruct (recordShotResult_spec ai1 x y (negb (r =? 0))
              (negb ((r =? 0) || (r =? 1))) (knowledge_square _ Hok1))
    as (ai2' & Hrec' & _ & _ & _ & Hn2 & Hab2 & Hsq2 & Hset).
  rewrite Hrec in Hrec'. injection Hrec' as <-.
  rewrite Hn1, Hasz, Hon in Hset. destruct Hset as [Hset _].
  rewrite Hob1 in Hset.
  split_and!; try assumption.
  exists ai2. constructor.
  - exact Ho2.
  - constructor; rewrite ?Hkb, ?Heb, ?Hpb, ?Hsz, ?Ho2; try assumption.
    + rewrite <- Hps, <- Hbs'. exact Hsq.
    + congruence.
    + rewrite Hab2, Hab1, Hn2, Hn1. auto.
  - rewrite Hab2, Hab1. exact Hf.
  - rewrite Hpb. exact Hpl'.
  - exact Hsy2.
  - rewrite Hkb, Hab2, Hab1. exact Ht.
  - rewrite Heb, Hab2, Hab1. exact Hc.
  - rewrite Hpb. destruct Hr3 as [->|[->| ->]].
    + exact (shows_set seen_of _ _ _ _ _ _ "o"%char Hkn Hset Hgrid).
    + exact (shows_set seen_of _ _ _ _ _ _ "x"%char Hkn Hset Hgrid).
    + cbn [Z.eqb Pos.eqb] in Hgrid, Hset.
      destruct Hgrid as (i & s & Hi & Hxy & _ & Hothers & Hget).
      intros r' c'. rewrite (grid_get_set _ _ _ _ r' c' _ Hset), Hget.
      destruct (decide ((r', c') = (y, x))) as [[= -> ->]|Hne].
      * rewrite decide_True by assumption. reflexivity.
      * destruct (decide ((r', c') ∈ ship_cells s)) as [Hm|Hm];
          [|apply Hkn].
        rewrite Hkn, (Hothers r' c' Hm Hne). reflexivity.
Qed.

(** A pass of the enemy's loop in which the opponent has no cell left. *)
Lemma ag_enemy_no_shot (st st1 : GameLoopState) (ai : AILogic) :
  ai_game_ok st ai -> GameLoop.next_enemy_shot st = (None, st1) ->
  ai_game_ok st1 ai /\ size st1 = size st /\ shots st1 = shots st
  /\ enemyKnownBoard st1 = enemyKnownBoard st.
Proof.
  intros Hinv Hnext.
  pose proof Hinv as [Ho Hgame Hf Hpl Hsy Ht Hc Hkn].
  pose proof Hgame as [Hk He Hp Hps Hopp].
  rewrite Ho in Hopp. destruct Hopp as (Hb & Hbs & Hpools & Hasz).
  rewrite (next_enemy_shot_ai st ai Ho) in Hnext.
  pose proof (pick_spec ai (rng st) Hpools) as Hpick.
  destruct (AI.pickAttackCoordinates ai (rng st)) as [[c ai1] g1].
  destruct Hpick as (_ & _ & _ & _ & _ & Hcase).
  destruct ((c.1 =? -1) || (c.2 =? -1)) eqn:Em1; [|discriminate].
  injection Hnext as <-.
  destruct Hcase as [(_ & _ & -> & _)|(_ & Hcin & _)].
  - split_and!; try reflexivity.
    apply (ag_frame st _ ai Hinv); try reflexivity. cbn. congruence.
  - exfalso. pose proof (pool_inside ai Hpools c Hcin) as Hon.
    apply in_board_spec in Hon. apply orb_true_iff in Em1.
    rewrite !Z.eqb_eq in Em1. lia.
Qed.

Lemma ag_enemy_fire_loop (n : nat) (fired f : list (Z * Z)) (v v' : Volley)
    (st st' : GameLoopState) (ai : AILogic) :
  ai_game_ok st ai ->
  GameLoop.enemy_fire_loop n fired v st = Done (f, v', st') ->
  (exists ai', ai_game_ok st' ai')
  /\ size st' = size st /\ shots st' = shots st
  /\ enemyKnownBoard st' = enemyKnownBoard st.
Proof.
  revert fired v st ai. induction n as [|n IH]; intros fired v st ai Hinv.
  - cbn. intros [= <- <- <-]. eauto.
  - cbn [GameLoop.enemy_fire_loop].
    destruct (GameLoop.next_enemy_shot st) as [[[x y]|] st1] eqn:Hnext.
    + intros H. apply bind_Done in H as ([r pb] & Hr & H).
      apply defined_Done in Hr.
      apply bind_Done in H as ([v2 st2] & Hap & H).
      destruct (ag_enemy_shot st st1 st2 ai x y r pb _ v2 Hinv Hnext Hr Hap)
        as ([ai2 Hinv2] & Hsz & Hsh & Hkb & _).
      destruct (playerShipsRemaining st2 <=? 0).
      * injection H as _ _ <-. eauto.
      * apply (IH _ _ _ ai2 Hinv2) in H as (Hex & Hsz' & Hsh' & Hkb').
        split_and!; [exact Hex|congruence..].
    + intros [= <- <- <-].
      destruct (ag_enemy_no_shot st st1 ai Hinv Hnext) as (H1 & H2 & H3 & H4).
      eauto.
Qed.

Lemma ag_enemy_part (st st1 : GameLoopState) (ai : AILogic)
    (oe : option GameLoop.GameEnd) :
  ai_game_ok st ai -> GameLoop.enemy_part st = Done (oe, st1) ->
  (exists ai1, ai_game_ok st1 ai1)
  /\ size st1 = size st /\ shots st1 = shots st
  /\ enemyKnownBoard st1 = enemyKnownBoard st.
Proof.
  intros Hinv. unfold GameLoop.enemy_part.
  destruct (playerTurn st); [intros [= <- <-]; eauto|].
  destruct (_ && _); [|intros [= <- <-]; eauto].
  intros H. apply bind_Done in H as ([e st2] & Ht & H).
  assert (Hst2 : (exists ai2, ai_game_ok st2 ai2)
                 /\ size st2 = size st /\ shots st2 = shots st
                 /\ enemyKnownBoard st2 = enemyKnownBoard st).
  { unfold GameLoop.enemy_turn in Ht. rewrite (ag_opponent _ _ Hinv) in Ht.
    unfold GameLoop.enemy_salvo in Ht.
    apply bind_Done in Ht as ([[f v] st3] & Hl & Ht).
    apply bind_Done in Ht as (w & _ & Ht).
    destruct (ag_enemy_fire_loop _ _ _ _ _ _ _ _ Hinv Hl)
      as ([ai3 Hinv3] & Hsz & Hsh & Hkb).
    destruct (playerShipsRemaining st3 <=? 0); injection Ht as _ <-.
    - unfold GameLoop.close_opponent. rewrite (ag_opponent _ _ Hinv3).
      eauto.
    - split_and!; try assumption. exists ai3.
      apply (ag_frame st3 _ ai3 Hinv3); reflexivity. }
  destruct e; injection H as _ <-; exact Hst2.
Qed.

Lemma ag_player_fire_loop (sel fired : list (Z * Z)) (v : Volley)
    (st st' : GameLoopState) (ai : AILogic)
    (res : option (list (Z * Z) * Volley)) :
  ai_game_ok st ai -> NoDup sel ->
  (forall d, d ∈ sel ->
     in_board (size st) d = true
     /\ grid_get (enemyKnownBoard st) d.2 d.1 = Some " "%char) ->
  GameLoop.player_fire_loop sel fired v st = Done (res, st') ->
  (exists ai', ai_game_ok st' ai')
  /\ size st' = size st /\ shots st' = shots st.
Proof.
  revert fired v st ai.
  induction sel as [|[x y] sel IH]; intros fired v st ai Hinv Hnd Hsel.
  - cbn. intros [= <- <-]. eauto.
  - cbn [GameLoop.player_fire_loop].
    apply NoDup_cons in Hnd as [Hnotin Hnd].
    destruct (Hsel (x, y)) as [Hon Hblank]; [left|]. cbn in Hblank.
    match goal with
    | |- context [GameLoop.apply_player_result x y _ ?v1 _] =>
        destruct (ag_player_shot st ai x y v1 Hinv Hon Hblank)
          as (r & b' & v2 & st2 & Hres & Hap & Hinv2 & Hsz & Hsh & Hkeep)
    end.
    rewrite Hres. cbn [mbind outcome_bind]. rewrite Hap.
    cbn [mbind outcome_bind].
    destruct (enemyShipsRemaining st2 <=? 0).
    + intros [= <- <-]. eauto.
    + intros H. apply (IH _ _ _ _ Hinv2 Hnd) in H as (Hex & Hsz' & Hsh').
      * split_and!; [exact Hex|congruence..].
      * intros d Hd. destruct (Hsel d) as [Hdon Hdb]; [right; exact Hd|].
        rewrite Hsz. split; [exact Hdon|].
        apply Hkeep; [|exact Hdb]. intros ->. contradiction.
Qed.

Lemma ag_player_firing (sel : list (Z * Z)) (st st' : GameLoopState)
    (ai : AILogic) (e : PhaseEnd) :
  ai_game_ok st ai -> NoDup sel ->
  (forall d, d ∈ sel ->
     in_board (size st) d = true
     /\ grid_get (enemyKnownBoard st) d.2 d.1 = Some " "%char) ->
  GameLoop.player_firing sel st = Done (e, st') ->
  (exists ai', ai_game_ok st' ai')
  /\ size st' = size st /\ shots st' = shots st.
Proof.
  intros Hinv Hnd Hsel. unfold GameLoop.player_firing.
  rewrite (ag_opponent _ _ Hinv). unfold GameLoop.player_after_loop.
  intros H. apply bind_Done in H as ([res st1] & Hl & H).
  destruct (ag_player_fire_loop _ _ _ _ _ _ _ Hinv Hnd Hsel Hl)
    as ([ai1 Hinv1] & Hsz & Hsh).
  assert (Hclose : GameLoop.close_opponent st1 = st1).
  { unfold GameLoop.close_opponent. rewrite (ag_opponent _ _ Hinv1).
    reflexivity. }
  destruct res as [[f v]|].
  - apply bind_Done in H as (w & _ & H).
    destruct (enemyShipsRemaining st1 <=? 0); injection H as _ <-.
    + rewrite Hclose. eauto.
    + split_and!; try assumption. exists ai1.
      apply (ag_frame st1 _ ai1 Hinv1); reflexivity.
  - injection H as _ <-. rewrite Hclose. eauto.
Qed.

(** ** The loop driven by keys *)

Lemma selection_ok_frame (layout : BoardLayout) (st st' : GameLoopState)
    (sl : Selection) :
  size st' = size st -> shots st' = shots st ->
  enemyKnownBoard st' = enemyKnownBoard st ->
  selection_ok layout st sl -> selection_ok layout st' sl.
Proof.
  unfold selection_ok. intros -> -> ->. auto.
Qed.

Lemma selection_ok_reset (layout : BoardLayout) (st st' : GameLoopState)
    (sl : Selection) :
  size st' = size st ->
  selection_ok layout st sl ->
  selection_ok layout st'
    (mkSelection (cursorX sl) (cursorY sl) (gridX sl) (gridY sl) []).
Proof.
  unfold selection_ok. intros ->. cbn.
  intros (Hx & Hy & Hcx & Hcy & _). split_and!; try assumption; try lia.
  - constructor.
  - intros d Hd. inversion Hd.
Qed.

Lemma select_key_ok (layout : BoardLayout) (st : GameLoopState)
    (k : ShotKey) (sl : Selection) :
  grid_square (size st) (enemyKnownBoard st) ->
  selection_ok layout st sl ->
  exists sl',
    Interactive.select_key layout st k sl = Done sl'
    /\ selection_ok layout st sl'.
Proof.
  intros Hsq Hsel. pose proof Hsel as (Hx & Hy & Hcx & Hcy & Hnd & Hlen & Hall).
  unfold Interactive.select_key. destruct k.
  - eexists. split; [reflexivity|].
    destruct (_ && _) eqn:E; [|exact Hsel].
    apply andb_true_iff in E as [_ E]. apply Z.ltb_lt in E.
    unfold selection_ok. cbn. split_and!; try assumption; lia.
  - eexists. split; [reflexivity|].
    destruct (_ && _) eqn:E; [|exact Hsel].
    apply andb_true_iff in E as [_ E]. apply Z.ltb_lt in E.
    unfold selection_ok. cbn. split_and!; try assumption; lia.
  - eexists. split; [reflexivity|].
    destruct (_ && _) eqn:E; [|exact Hsel].
    apply andb_true_iff in E as [_ E]. apply Z.ltb_lt in E.
    unfold selection_ok. cbn. split_and!; try assumption; lia.
  - eexists. split; [reflexivity|].
    destruct (_ && _) eqn:E; [|exact Hsel].
    apply andb_true_iff in E as [_ E]. apply Z.ltb_lt in E.
    unfold selection_ok. cbn. split_and!; try assumption; lia.
  - destruct (grid_get_is_Some _ _ (gridY sl) (gridX sl) Hsq Hy Hx)
      as [c Hc].
    rewrite Hc. cbn [defined mbind outcome_bind].
    destruct (ascii_eqb c " " && _) eqn:E; [|eauto].
    apply andb_true_iff in E as [Eb El].
    apply ascii_eqb_true in Eb. subst c. apply Z.ltb_lt in El.
    eexists. split; [reflexivity|].
    destruct (existsb _ _) eqn:Ex; [exact Hsel|].
    unfold selection_ok. cbn. split_and!; try assumption; try lia.
    + apply NoDup_app. split_and!; [assumption| |apply NoDup_singleton].
      intros d Hd Hd'. apply list_elem_of_singleton in Hd'. subst d.
      apply list_elem_of_In in Hd.
      assert (existsb (fun p : Z * Z =>
                         (p.1 =? gridX sl) && (p.2 =? gridY sl))
                      (playerShots sl) = true) as Ht.
      { apply existsb_exists. exists (gridX sl, gridY sl).
        split; [assumption|]. cbn. rewrite !Z.eqb_refl. reflexivity. }
      congruence.
    + rewrite length_app. cbn. lia.
    + intros d [Hd|Hd]%elem_of_app; [auto|].
      apply list_elem_of_singleton in Hd. subst d. cbn. split; [|exact Hc].
      apply in_board_spec. cbn. lia.
  - eauto.
  - eauto.
  - eauto.
Qed.

Lemma enemy_part_defined (st : GameLoopState) :
  game_ok st ->
  exists oe st1,
    GameLoop.enemy_part st = Done (oe, st1)
    /\ game_ok st1 /\ size st1 = size st /\ shots st1 = shots st
    /\ enemyKnownBoard st1 = enemyKnownBoard st.
Proof.
  intros Hok. unfold GameLoop.enemy_part.
  destruct (playerTurn st); [eauto 8|].
  destruct ((0 <? playerShipsRemaining st)
            && (0 <? enemyShipsRemaining st)); [|eauto 8].
  destruct (enemy_turn_defined st Hok) as (e & st1 & Ht & Hok1).
  rewrite Ht. cbn [mbind outcome_bind].
  apply enemy_turn_spec in Ht as ((_ & Hkb & Hsz & Hsh & _) & _).
  destruct e; eauto 8.
Qed.

Lemma legal_nothing (n nshots : Z) : legal_salvo n nshots (GameLoop.Fire []).
Proof. cbn. split_and!; [constructor|lia|constructor]. Qed.

(** Every run of the loop driven by keys is a run of the loop driven by
    commands. *)
Lemma interactive_refines (layout : BoardLayout) (keys : list ShotKey) :
  forall (sl : Selection) (st : GameLoopState),
    game_ok st -> selection_ok layout st sl ->
    exists e sl' st',
      Interactive.runGameLoop layout keys sl st = Done (e, sl', st')
      /\ game_ok st'
      /\ exists cmds,
           GameLoop.runGameLoop cmds st = Done (e, st')
           /\ Forall (legal_salvo (size st) (shots st)) cmds.
Proof.
  induction keys as [|k keys IH]; intros sl st Hok Hsel.
  all: cbn [Interactive.runGameLoop].
  all: destruct (enemy_part_defined st Hok)
         as (oe & st1 & Hpart & Hok1 & Hsz & Hsh & Hkb).
  all: rewrite Hpart; cbn [mbind outcome_bind].
  all: pose proof (selection_ok_frame layout st st1 sl Hsz Hsh Hkb Hsel)
         as Hsel1.
  all: destruct oe as [e'|];
       [eexists _, _, _; split; [reflexivity|]; split; [exact Hok1|];
        exists []; split; [|constructor];
        cbn [GameLoop.runGameLoop]; rewrite Hpart; reflexivity|].
  all: destruct ((0 <? playerShipsRemaining st1)
                 && (0 <? enemyShipsRemaining st1)) eqn:Ec;
       [|eexists _, _, _; split; [reflexivity|]; split; [exact Hok1|];
         exists []; split; [|constructor];
         cbn [GameLoop.runGameLoop]; rewrite Hpart;
         cbn [mbind outcome_bind]; rewrite Ec; reflexivity].
  - eexists _, _, _. split; [reflexivity|]. split; [exact Hok1|].
    exists []. split; [|constructor].
    cbn [GameLoop.runGameLoop]. rewrite Hpart. cbn [mbind outcome_bind].
    rewrite Ec. reflexivity.
  - assert (Hskip : forall sl1,
              selection_ok layout st1 sl1 ->
              exists e sl' st',
                Interactive.runGameLoop layout keys sl1 st1
                = Done (e, sl', st')
                /\ game_ok st'
                /\ exists cmds,
                     GameLoop.runGameLoop cmds st = Done (e, st')
                     /\ Forall (legal_salvo (size st) (shots st)) cmds).
    { intros sl1 Hsl1.
      destruct (IH sl1 st1 Hok1 Hsl1)
        as (e & sl' & st' & Hrun & Hok' & cmds & Hc & Hlegal).
      exists e, sl', st'. split; [exact Hrun|]. split; [exact Hok'|].
      exists (GameLoop.Fire [] :: cmds). split.
      - cbn [GameLoop.runGameLoop]. rewrite Hpart.
        cbn [mbind outcome_bind]. rewrite Ec. exact Hc.
      - constructor; [apply legal_nothing|].
        rewrite <- Hsz, <- Hsh. exact Hlegal. }
    assert (Hkey : forall k',
              exists sl1, Interactive.select_key layout st1 k' sl = Done sl1
                          /\ selection_ok layout st1 sl1).
    { intros k'. apply select_key_ok; [exact (gk_known _ Hok1)|exact Hsel1]. }
    destruct k.
    1-5,8:
      match goal with
      | |- context [Interactive.select_key _ _ ?k' _] =>
          destruct (Hkey k') as (sl1 & Hk1 & Hsl1)
      end;
      rewrite Hk1; cbn [mbind outcome_bind]; exact (Hskip sl1 Hsl1).
    + pose proof Hsel1 as (_ & _ & _ & _ & Hnd & Hlen & Hall).
      destruct (playerShots sl) as [|s0 l] eqn:Eps.
      { cbn [length Z.of_nat Z.ltb Z.compare]. exact (Hskip sl Hsel1). }
      assert ((0 <? Z.of_nat (length (s0 :: l))) = true) as ->
        by (apply Z.ltb_lt; cbn [length]; lia).
      assert (Hon : Forall (fun d => in_board (size st1) d = true)
                           (s0 :: l)).
      { apply Forall_forall. intros d Hd. apply (Hall d Hd). }
      destruct (player_firing_defined (s0 :: l) st1 Hok1 Hon)
        as (p & st2 & Hp & Hok2).
      rewrite Hp. cbn [mbind outcome_bind].
      pose proof (player_firing_spec _ _ _ _ Hp)
        as ((_ & Hsz2 & Hsh2 & _) & _).
      assert (Hleg : legal_salvo (size st) (shots st)
                       (GameLoop.Fire (s0 :: l))).
      { cbn. rewrite <- Hsz, <- Hsh. auto. }
      assert (Hone : forall e,
                match p with
                | GameOver w => e = GameLoop.Won w
                | ConnectionLost => e = GameLoop.Lost_connection
                | TurnDone _ => False
                end ->
                GameLoop.runGameLoop [GameLoop.Fire (s0 :: l)] st
                = Done (e, st2)).
      { intros e He. cbn [GameLoop.runGameLoop]. rewrite Hpart.
        cbn [mbind outcome_bind]. rewrite Ec, Hp. cbn [mbind outcome_bind].
        destruct p; [subst e; reflexivity|contradiction
                    |subst e; reflexivity]. }
      destruct p as [w|v|].
      * eexists _, _, _. split; [reflexivity|]. split; [exact Hok2|].
        exists [GameLoop.Fire (s0 :: l)]. split; [apply Hone; reflexivity|].
        constructor; [exact Hleg|constructor].
      * destruct (IH (mkSelection (cursorX sl) (cursorY sl) (gridX sl)
                                  (gridY sl) []) st2 Hok2)
          as (e & sl' & st' & Hrun & Hok' & cmds & Hc & Hlegal).
        { apply (selection_ok_reset layout st1); assumption. }
        exists e, sl', st'. split; [exact Hrun|]. split; [exact Hok'|].
        exists (GameLoop.Fire (s0 :: l) :: cmds). split.
        -- cbn [GameLoop.runGameLoop]. rewrite Hpart.
           cbn [mbind outcome_bind]. rewrite Ec, Hp.
           cbn [mbind outcome_bind]. exact Hc.
        -- constructor; [exact Hleg|].
           rewrite <- Hsz, <- Hsh, <- Hsz2, <- Hsh2. exact Hlegal.
      * eexists _, _, _. split; [reflexivity|]. split; [exact Hok2|].
        exists [GameLoop.Fire (s0 :: l)]. split; [apply Hone; reflexivity|].
        constructor; [exact Hleg|constructor].
    + eexists _, _, _. split; [reflexivity|].
      split; [apply game_ok_close; exact Hok1|].
      exists [GameLoop.Quit]. split; [|repeat constructor].
      cbn [GameLoop.runGameLoop]. rewrite Hpart. cbn [mbind outcome_bind].
      rewrite Ec. reflexivity.
Qed.

(** The loop driven by keys keeps the opponent and the player truthful. *)
Lemma interactive_inv (layout : BoardLayout) (keys : list ShotKey) :
  forall (sl sl' : Selection) (st st' : GameLoopState) (ai : AILogic)
         (e : GameLoop.GameEnd),
    ai_game_ok st ai -> selection_ok layout st sl ->
    Interactive.runGameLoop layout keys sl st = Done (e, sl', st') ->
    (exists ai', ai_game_ok st' ai') /\ size st' = size st.
Proof.
  induction keys as [|k keys IH]; intros sl sl' st st' ai e Hinv Hsel.
  all: cbn [Interactive.runGameLoop].
  all: intros H; apply bind_Done in H as ([oe st1] & Hpart & H).
  all: destruct (ag_enemy_part _ _ _ _ Hinv Hpart)
         as ([ai1 Hinv1] & Hsz & Hsh & Hkb).
  all: pose proof (selection_ok_frame layout st st1 sl Hsz Hsh Hkb Hsel)
         as Hsel1.
  all: destruct oe as [e'|]; [injection H as _ _ <-; eauto|].
  all: destruct ((0 <? playerShipsRemaining st1)
                 && (0 <? enemyShipsRemaining st1));
       [|injection H as _ _ <-; eauto].
  - injection H as _ _ <-. eauto.
  - rewrite <- Hsz.
    assert (Hkey : forall k',
              exists sl1, Interactive.select_key layout st1 k' sl = Done sl1
                          /\ selection_ok layout st1 sl1).
    { intros k'. apply select_key_ok; [|exact Hsel1].
      exact (gk_known _ (ag_game _ _ Hinv1)). }
    destruct k.
    1-5,8:
      match type of H with
      | context [Interactive.select_key _ _ ?k' _] =>
          destruct (Hkey k') as (sl1 & Hk1 & Hsl1)
      end;
      rewrite Hk1 in H; cbn [mbind outcome_bind] in H;
      exact (IH _ _ _ _ _ _ Hinv1 Hsl1 H).
    + destruct (0 <? Z.of_nat (length (playerShots sl)));
        [|exact (IH _ _ _ _ _ _ Hinv1 Hsel1 H)].
      apply bind_Done in H as ([p st2] & Hp & H).
      pose proof Hsel1 as (_ & _ & _ & _ & Hnd & _ & Hall).
      destruct (ag_player_firing _ _ _ _ _ Hinv1 Hnd Hall Hp)
        as ([ai2 Hinv2] & Hsz2 & Hsh2).
      rewrite <- Hsz2.
      destruct p as [w|v|]; [injection H as _ _ <-; eauto|
                           |injection H as _ _ <-; eauto].
      apply (IH _ _ _ _ _ _ Hinv2) in H; [exact H|].
      apply (selection_ok_reset layout st1); assumption.
    + injection H as _ _ <-. unfold GameLoop.close_opponent.
      rewrite (ag_opponent _ _ Hinv1). eauto.
Qed.

(** ** Boards without marks *)

Lemma grid_set_no_marks (g g' : Grid) (r c : Z) (a : ascii) :
  a <> "x"%char -> a <> "o"%char -> a <> "s"%char ->
  grid_set g r c a = Some g' -> no_marks g -> no_marks g'.
Proof.
  intros Hx Ho Hs Hset Hg r' c' a'.
  rewrite (grid_get_set _ _ _ _ r' c' _ Hset).
  destruct (decide _); [intros [= <-]; auto|apply Hg].
Qed.

Lemma grid_make_no_marks (n : Z) (a : ascii) :
  a <> "x"%char -> a <> "o"%char -> a <> "s"%char ->
  no_marks (grid_make n a).
Proof.
  intros Hx Ho Hs r c a' Hget.
  destruct (decide (0 <= r < n /\ 0 <= c < n)) as [[Hr Hc]|Hout].
  - rewrite grid_make_get in Hget by assumption. injection Hget as <-. auto.
  - exfalso. apply Hout.
    destruct (decide (0 <= n)) as [Hn|Hn].
    + eapply grid_get_bound; [apply grid_make_square; exact Hn|exact Hget].
    + unfold grid_make in Hget. rewrite Z2Nat.nonpos in Hget by lia.
      unfold grid_get, vec_get in Hget. destruct (r <? 0); discriminate.
Qed.

Lemma addShip_no_marks (b : BoardData) (o p len : Z) (sym : ascii)
    (b' : BoardData) :
  is_ship_char sym = true -> Board.addShip b o p len sym = Some b' ->
  no_marks (boardArray b) -> no_marks (boardArray b').
Proof.
  intros Hsym. destruct (ship_char_not_mark _ Hsym) as (_ & Hx & Ho & Hs).
  unfold Board.addShip.
  destruct (foldl _ _ _) as [g|] eqn:Hf; [|discriminate].
  intros [= <-] Hb. cbn.
  eapply (foldl_option_inv no_marks); [| |exact Hf|exact Hb].
  - reflexivity.
  - intros g0 j g1 Hstep Hg0. cbn in Hstep.
    destruct (o =? 1);
      exact (grid_set_no_marks _ _ _ _ _ Hx Ho Hs Hstep Hg0).
Qed.

Lemma clear_no_marks (b b' : BoardData) :
  Board.clear b = Some b' -> no_marks (boardArray b) ->
  no_marks (boardArray b').
Proof.
  unfold Board.clear.
  destruct (foldl _ _ _) as [g|] eqn:Hf; [|discriminate].
  intros [= <-] Hb. cbn.
  eapply (foldl_option_inv no_marks); [| |exact Hf|exact Hb].
  - reflexivity.
  - intros g0 i g1 Hstep Hg0. cbn in Hstep. unfold Board.clear_row in Hstep.
    eapply (foldl_option_inv no_marks); [| |exact Hstep|exact Hg0].
    + reflexivity.
    + intros g2 j g3 Hs2 Hg2. cbn in Hs2.
      eapply grid_set_no_marks; [| | |exact Hs2|exact Hg2]; discriminate.
Qed.

Lemma place_pieces_no_marks (fuel : nat) (pieces : list GamePiece)
    (b : BoardData) (i : nat) (g : Rng) :
  Forall piece_ok pieces -> no_marks (boardArray b) ->
  match GameLogic.place_pieces fuel b pieces i g with
  | Done (b', _) => no_marks (boardArray b')
  | _ => True
  end.
Proof.
  intros Hpieces. revert b i g.
  induction fuel as [|fuel IH]; intros b i g Hb;
    cbn [GameLogic.place_pieces]; [exact I|].
  destruct (pieces !! i) as [p|] eqn:Hp; [|assumption].
  assert (piece_ok p) as [_ Hsym].
  { rewrite Forall_forall in Hpieces. apply Hpieces.
    eapply list_elem_of_lookup_2; eauto. }
  destruct (_ =? 0); [exact I|].
  destruct (rand g) as [r1 g1]. destruct (rand g1) as [r2 g2].
  destruct (GameLogic.find_placement _ _ _ _ _ _) as [[o peg g'|g']|];
    [| |exact I].
  - destruct (Board.addShip _ _ _ _ _) as [b'|] eqn:Ha; [|exact I].
    apply IH. eapply addShip_no_marks; eauto.
  - destruct (Board.clear b) as [b'|] eqn:Hc; [|exact I].
    apply IH. eapply clear_no_marks; eauto.
Qed.

(** A grid of the size of the board that shows no marks shows every cell
    of a board without marks through [mark_of], [copy_of] and
    [seen_of]. *)
Lemma shows_fresh (f : ascii -> ascii) (v : ascii) (n : Z) (b : BoardData) :
  (forall a, a <> "x"%char -> a <> "o"%char -> a <> "s"%char -> f a = v) ->
  grid_square n (boardArray b) -> no_marks (boardArray b) ->
  shows f (grid_make n v) b.
Proof.
  intros Hf Hsq Hno r c.
  destruct (decide (0 <= r < n /\ 0 <= c < n)) as [[Hr Hc]|Hout].
  - rewrite grid_make_get by assumption.
    destruct (grid_get_is_Some _ _ r c Hsq Hr Hc) as [a Ha].
    rewrite Ha. cbn. destruct (Hno r c a Ha) as (Hx & Ho & Hs).
    rewrite (Hf a Hx Ho Hs). reflexivity.
  - assert (Hn : 0 <= n) by apply Hsq.
    destruct (grid_get (grid_make n v) r c) as [a|] eqn:E1.
    { exfalso. apply Hout.
      eapply grid_get_bound; [apply grid_make_square; exact Hn|exact E1]. }
    destruct (grid_get (boardArray b) r c) as [a|] eqn:E2; [|reflexivity].
    exfalso. apply Hout. eapply grid_get_bound; eauto.
Qed.

(** ** A game against the scripted opponent, from the start *)

Lemma mark_of_fresh (a : ascii) :
  a <> "x"%char -> a <> "o"%char -> a <> "s"%char -> mark_of a = " "%char.
Proof. intros. apply mark_of_blank. auto. Qed.

Lemma copy_of_fresh (a : ascii) :
  a <> "x"%char -> a <> "o"%char -> a <> "s"%char -> copy_of a = "w"%char.
Proof.
  intros Hx Ho Hs. unfold copy_of.
  apply ascii_eqb_false in Hx, Ho, Hs. rewrite Hx, Ho, Hs. reflexivity.
Qed.

Lemma seen_of_fresh (a : ascii) :
  a <> "x"%char -> a <> "o"%char -> a <> "s"%char -> seen_of a = "?"%char.
Proof.
  intros Hx Ho Hs. unfold seen_of.
  apply ascii_eqb_false in Hx, Ho, Hs. rewrite Hx, Ho, Hs. reflexivity.
Qed.

(** The opponent's pool is the set of cells of the player's board that
    were not shot at. *)
Lemma pool_is_unshot (st : GameLoopState) (ai : AILogic) (d : Z * Z) :
  ai_game_ok st ai -> in_board (size st) d = true ->
  d ∈ availableShots ai <-> unshot (boardArray (playerBoard st)) d.2 d.1.
Proof.
  intros Hinv Hd. split.
  - intros Hin. apply (pool_cell_unshot st ai d Hinv Hin).
  - intros (a & Ha & Hx & Ho & Hs).
    pose proof Hinv as [Hopp Hgame _ _ Hsy _ _ Hkn].
    destruct Hgame as [_ _ _ _ Hg]. rewrite Hopp in Hg.
    destruct Hg as (_ & _ & _ & Hasz).
    apply Hsy; [rewrite Hasz; exact Hd|].
    unfold unknown. rewrite Hkn, Ha. cbn.
    rewrite (seen_of_fresh a Hx Ho Hs). reflexivity.
Qed.

Section AIGame.

Variable random_shuffle : list (Z * Z) -> Rng -> list (Z * Z) * Rng.
Hypothesis random_shuffle_perm : forall l g, (random_shuffle l g).1 ≡ₚ l.

Lemma create_fleet_ok (fuel : nat) (now clock : Z) (diff : AIDifficulty)
    (n : Z) (g g1 : Rng) (ai : AILogic) :
  0 < n ->
  AI.create random_shuffle fuel now clock diff n g = Done (ai, g1) ->
  fleet_ok (aiBoard ai) /\ no_marks (boardArray (aiBoard ai)).
Proof.
  intros Hn Hc.
  pose proof (create_board random_shuffle fuel now clock diff n g Hn) as Hb.
  rewrite Hc in Hb. destruct Hb as (Hok & _ & _ & _ & Hunhit & _).
  revert Hc. unfold AI.create, AI.initializeAvailableShots, AI.setupBoard.
  cbn [ai_boardSize].
  destruct (random_shuffle (AI.all_cells n) (srand now g)) as [avail ga].
  destruct (random_shuffle (AI.parity_cells n) ga) as [parity gp].
  cbn [ai_boardSize set_pools aiBoard].
  set (b0 := Board.initialize n _).
  pose proof (initializeGamePieces_ok b0) as (Hpieces & Hempty & Hgrid & _).
  destruct (GameLogic.initializeGamePieces b0) as [b1 pieces].
  cbn [fst snd] in *.
  unfold GameLogic.generateBoardPlacement.
  set (g0 := if isHost b1 then _ else _).
  pose proof (place_pieces_records fuel pieces b1 0 g0) as Hrec.
  pose proof (place_pieces_no_marks fuel pieces b1 0 g0 Hpieces) as Hnm.
  destruct (GameLogic.place_pieces fuel b1 pieces 0 g0)
    as [[b2 g2]| |]; [|discriminate..].
  destruct (Board.buildShipCellMap b2) as [b3|] eqn:Hmap; [|discriminate].
  apply buildShipCellMap_frame in Hmap as (Hg3 & Hs3 & _).
  intros [= <- _]. cbn [aiBoard] in *. split.
  - apply unhit_fleet_ok; [assumption..|]. rewrite Hs3.
    apply Hrec. rewrite Hempty. constructor.
  - rewrite Hg3. apply Hnm. rewrite Hgrid.
    apply grid_make_no_marks; discriminate.
Qed.

Lemma ai_game_start (layout : BoardLayout) (fuel : nat) (now clock : Z)
    (diff : AIDifficulty) (n nshots : Z) (turn : bool) (g g1 g2 : Rng)
    (ai : AILogic) (pb : BoardData) :
  0 < n ->
  AI.create random_shuffle fuel now clock diff n g = Done (ai, g1) ->
  fleet_ok pb -> boardSize pb = n -> no_marks (boardArray pb) ->
  ai_game_ok (GameLoop.start pb (Board.create n) (grid_make n " ") n nshots
                             turn (OppAI ai) g2) ai
  /\ selection_ok layout
       (GameLoop.start pb (Board.create n) (grid_make n " ") n nshots
                       turn (OppAI ai) g2)
       (Interactive.start layout).
Proof.
  intros Hn Hc Hpb Hsz Hnm.
  destruct (create_fleet_ok fuel now clock diff n g g1 ai Hn Hc)
    as [Hfleet Hnm'].
  pose proof (create_board random_shuffle fuel now clock diff n g Hn) as H.
  rewrite Hc in H. destruct H as (Hb & Hbs & _).
  pose proof (create_pools_ok random_shuffle random_shuffle_perm
                fuel now clock diff n g ai g1 ltac:(lia) Hc) as Hok.
  destruct (create_fresh random_shuffle random_shuffle_perm
              fuel now clock diff n g ai g1 Hc)
    as (_ & Hsize & Hob & _ & Ha & _).
  assert (Hsqp : grid_square n (boardArray pb)).
  { rewrite <- Hsz. apply (ok_grid _ (proj1 Hpb)). }
  split.
  - constructor; cbn.
    + reflexivity.
    + constructor; cbn; auto; apply grid_make_square; lia.
    + exact Hfleet.
    + exact Hpb.
    + intros d Hd. rewrite Hsize in Hd. apply in_board_spec in Hd.
      unfold unknown. rewrite Hob, grid_make_get by lia. cbn.
      rewrite Ha, all_cells_elem. tauto.
    + apply (shows_fresh mark_of); [exact mark_of_fresh| |exact Hnm'].
      rewrite <- Hbs. apply (ok_grid _ Hb).
    + apply (shows_fresh copy_of "w" n (aiBoard ai));
        [exact copy_of_fresh| |exact Hnm'].
      rewrite <- Hbs. apply (ok_grid _ Hb).
    + rewrite Hob. apply (shows_fresh seen_of); [exact seen_of_fresh| |];
        assumption.
  - unfold selection_ok, Interactive.start. cbn.
    split_and!; try lia.
    + constructor.
    + intros d Hd. inversion Hd.
Qed.

(** X27.  In a game against the scripted opponent, started as
    [playAIGame] starts it (a newly constructed opponent, a blank tracking
    grid, a blank copy of the enemy board, a player's board in order that
    shows no marks), the player's picture of the enemy never lies,
    whatever keys are pressed and however far the game gets: every cell of
    the tracking grid shows ['m'], ['h'] or ['s'] exactly where the
    opponent's board shows ['o'], ['x'] or ['s'] and is blank elsewhere,
    and the copy of the enemy board shows the same marks over water.  The
    opponent's fleet stays consistent with its hit counts. *)
Theorem tracking_grid_truthful (layout : BoardLayout) (fuel : nat)
    (now clock : Z) (diff : AIDifficulty) (n nshots : Z) (turn : bool)
    (g g1 g2 : Rng) (ai : AILogic) (pb : BoardData) (keys : list ShotKey)
    (e : GameLoop.GameEnd) (sl' : Selection) (st' : GameLoopState) :
  0 < n ->
  AI.create random_shuffle fuel now clock diff n g = Done (ai, g1) ->
  fleet_ok pb -> boardSize pb = n -> no_marks (boardArray pb) ->
  Interactive.runGameLoop layout keys (Interactive.start layout)
    (GameLoop.start pb (Board.create n) (grid_make n " ") n nshots turn
                    (OppAI ai) g2)
  = Done (e, sl', st') ->
  exists ai',
    opponent st' = OppAI ai'
    /\ shows mark_of (enemyKnownBoard st') (aiBoard ai')
    /\ shows copy_of (boardArray (enemyBoard st')) (aiBoard ai')
    /\ fleet_ok (aiBoard ai').
Proof.
  intros Hn Hc Hpb Hsz Hnm Hrun.
  destruct (ai_game_start layout fuel now clock diff n nshots turn g g1 g2
              ai pb Hn Hc Hpb Hsz Hnm) as [Hinv Hsel].
  destruct (interactive_inv layout keys _ _ _ _ _ _ Hinv Hsel Hrun)
    as [[ai' Hinv'] _].
  exists ai'. destruct Hinv'. auto.
Qed.

(** X28.  In the same game the scripted opponent never wastes a shot:
    at every point its pool of untried cells is exactly the set of cells
    of the player's board that were not shot at, so each cell it picks is
    fresh; and its knowledge grid shows ['O'] exactly on the player's
    misses ['o'], ['X'] exactly on the hit and sunk cells, and ['?']
    elsewhere. *)
Theorem opponent_never_wastes_a_shot (layout : BoardLayout) (fuel : nat)
    (now clock : Z) (diff : AIDifficulty) (n nshots : Z) (turn : bool)
    (g g1 g2 : Rng) (ai : AILogic) (pb : BoardData) (keys : list ShotKey)
    (e : GameLoop.GameEnd) (sl' : Selection) (st' : GameLoopState) :
  0 < n ->
  AI.create random_shuffle fuel now clock diff n g = Done (ai, g1) ->
  fleet_ok pb -> boardSize pb = n -> no_marks (boardArray pb) ->
  Interactive.runGameLoop layout keys (Interactive.start layout)
    (GameLoop.start pb (Board.create n) (grid_make n " ") n nshots turn
                    (OppAI ai) g2)
  = Done (e, sl', st') ->
  exists ai',
    opponent st' = OppAI ai'
    /\ shows seen_of (opponentBoard ai') (playerBoard st')
    /\ (forall d, in_board n d = true ->
          d ∈ availableShots ai'
          <-> unshot (boardArray (playerBoard st')) d.2 d.1)
    /\ fleet_ok (playerBoard st').
Proof.
  intros Hn Hc Hpb Hsz Hnm Hrun.
  destruct (ai_game_start layout fuel now clock diff n nshots turn g g1 g2
              ai pb Hn Hc Hpb Hsz Hnm) as [Hinv Hsel].
  destruct (interactive_inv layout keys _ _ _ _ _ _ Hinv Hsel Hrun)
    as [[ai' Hinv'] Hsize].
  exists ai'. split_and!; try apply Hinv'.
  intros d Hd. apply (pool_is_unshot st' ai' d Hinv').
  rewrite Hsize. exact Hd.
Qed.

End AIGame.

(** X26.  The game loop as the keyboard drives it: started in order
    with the cursor on the board, it never reads or writes out of range
    for any series of keys, and every run is a run of the loop fed with
    commands, with the same end and the same final state.  The salvos of
    that run are the selections confirmed with F: distinct cells of the
    board, at most [shots] of them. *)
Theorem keys_refine_commands (layout : BoardLayout) (keys : list ShotKey)
    (sl : Selection) (st : GameLoopState) :
  game_ok st -> selection_ok layout st sl ->
  exists e sl' st',
    Interactive.runGameLoop layout keys sl st = Done (e, sl', st')
    /\ game_ok st'
    /\ exists cmds,
         GameLoop.runGameLoop cmds st = Done (e, st')
         /\ Forall (legal_salvo (size st) (shots st)) cmds.
Proof. apply interactive_refines. Qed.

Lemma demo_selection_ok :
  selection_ok (calculateBoardLayout 10 40 120) demo_game
    (Interactive.start (calculateBoardLayout 10 40 120)).
Proof.
  unfold selection_ok. split_and!; try (vm_compute; congruence).
  - constructor.
  - intros d Hd. inversion Hd.
Qed.

Lemma keys_refine_commands_witness :
  exists e sl' st' cmds,
    Interactive.runGameLoop (calculateBoardLayout 10 40 120)
      [SRight; SSelect; SDown; SSelect; SFire]
      (Interactive.start (calculateBoardLayout 10 40 120)) demo_game
    = Done (e, sl', st')
    /\ GameLoop.runGameLoop cmds demo_game = Done (e, st').
Proof.
  destruct (keys_refine_commands (calculateBoardLayout 10 40 120)
              [SRight; SSelect; SDown; SSelect; SFire]
              (Interactive.start (calculateBoardLayout 10 40 120))
              demo_game demo_game_ok demo_selection_ok)
    as (e & sl' & st' & Hrun & _ & cmds & Hc & _).
  exists e, sl', st', cmds. auto.
Defined.

Lemma scenarioA_no_marks : no_marks (boardArray scenarioA_board).
Proof.
  unfold scenarioA_board.
  destruct (Board.addShip (Board.create 10) 1 55 3 "S") as [b|] eqn:E;
    cbn [default].
  - eapply addShip_no_marks; [|exact E|]; [reflexivity|].
    apply grid_make_no_marks; discriminate.
  - apply grid_make_no_marks; discriminate.
Qed.

Lemma demo_ai_game_run :
  exists g1 e sl' st',
    AI.create demo_shuffle 20 0 12345 SMART 10 demo_rng = Done (demo_ai, g1)
    /\ Interactive.runGameLoop (calculateBoardLayout 10 40 120)
         [SSelect; SRight; SSelect; SFire]
         (Interactive.start (calculateBoardLayout 10 40 120))
         (GameLoop.start scenarioA_board (Board.create 10)
            (grid_make 10 " ") 10 3 true (OppAI demo_ai) demo_rng)
       = Done (e, sl', st').
Proof.
  destruct demo_ai_created as [g1 Hc]. exists g1.
  destruct (ai_game_start demo_shuffle demo_shuffle_perm
              (calculateBoardLayout 10 40 120) 20 0 12345 SMART 10 3 true
              demo_rng g1 demo_rng demo_ai scenarioA_board ltac:(lia) Hc
              scenarioA_fleet_ok eq_refl scenarioA_no_marks)
    as [Hinv Hsel].
  destruct (interactive_refines (calculateBoardLayout 10 40 120)
              [SSelect; SRight; SSelect; SFire] _ _
              (ag_game _ _ Hinv) Hsel)
    as (e & sl' & st' & Hrun & _).
  exists e, sl', st'. auto.
Qed.

Lemma tracking_grid_truthful_witness :
  exists e sl' st' ai',
    Interactive.runGameLoop (calculateBoardLayout 10 40 120)
      [SSelect; SRight; SSelect; SFire]
      (Interactive.start (calculateBoardLayout 10 40 120))
      (GameLoop.start scenarioA_board (Board.create 10)
         (grid_make 10 " ") 10 3 true (OppAI demo_ai) demo_rng)
    = Done (e, sl', st')
    /\ opponent st' = OppAI ai'
    /\ shows mark_of (enemyKnownBoard st') (aiBoard ai')
    /\ shows copy_of (boardArray (enemyBoard st')) (aiBoard ai').
Proof.
  destruct demo_ai_game_run as (g1 & e & sl' & st' & Hc & Hrun).
  destruct (tracking_grid_truthful demo_shuffle demo_shuffle_perm
              (calculateBoardLayout 10 40 120) 20 0 12345 SMART 10 3 true
              demo_rng g1 demo_rng demo_ai scenarioA_board
              [SSelect; SRight; SSelect; SFire] e sl' st'
              ltac:(lia) Hc scenarioA_fleet_ok eq_refl scenarioA_no_marks
              Hrun) as (ai' & Ho & Ht & Hcp & _).
  exists e, sl', st', ai'. auto.
Defined.

Lemma opponent_never_wastes_a_shot_witness :
  exists e sl' st' ai',
    Interactive.runGameLoop (calculateBoardLayout 10 40 120)
      [SSelect; SRight; SSelect; SFire]
      (Interactive.start (calculateBoardLayout 10 40 120))
      (GameLoop.start scenarioA_board (Board.create 10)
         (grid_make 10 " ") 10 3 true (OppAI demo_ai) demo_rng)
    = Done (e, sl', st')
    /\ opponent st' = OppAI ai'
    /\ forall d, in_board 10 d = true ->
         d ∈ availableShots ai'
         <-> unshot (boardArray (playerBoard st')) d.2 d.1.
Proof.
  destruct demo_ai_game_run as (g1 & e & sl' & st' & Hc & Hrun).
  destruct (opponent_never_wastes_a_shot demo_shuffle demo_shuffle_perm
              (calculateBoardLayout 10 40 120) 20 0 12345 SMART 10 3 true
              demo_rng g1 demo_rng demo_ai scenarioA_board
              [SSelect; SRight; SSelect; SFire] e sl' st'
              ltac:(lia) Hc scenarioA_fleet_ok eq_refl scenarioA_no_marks
              Hrun) as (ai' & Ho & _ & Hpool & _).
  exists e, sl', st', ai'. auto.
Defined.

(** ** A peer that shoots off the board *)

Lemma count_wounded_fuel (g : Grid) (fired : list (Z * Z)) :
  GameLoop.count_wounded g fired <> OutOfFuel.
Proof.
  unfold GameLoop.count_wounded.
  assert (H : forall acc : outcome Z, acc <> OutOfFuel ->
            foldl (fun acc '(x, y) =>
                     n ← acc;
                     c ← defined (grid_get g y x);
                     Done (if ascii_eqb c "x" then n + 1 else n))
                  acc fired <> OutOfFuel).
  { induction fired as [|[x y] fired IH]; intros acc Hacc; cbn [foldl];
      [exact Hacc|].
    apply IH. destruct acc as [n| |]; cbn; try discriminate; [|congruence].
    destruct (grid_get g y x); cbn; discriminate. }
  apply H. discriminate.
Qed.

(** The wounded count reads the grid at every fired cell. *)
Lemma count_wounded_offboard (n : Z) (g : Grid) (fired : list (Z * Z))
    (x y : Z) :
  grid_square n g -> (x, y) ∈ fired -> in_board n (x, y) = false ->
  GameLoop.count_wounded g fired = Undefined.
Proof.
  intros Hsq Hin Hoff. unfold GameLoop.count_wounded.
  destruct (foldl _ (Done 0) fired) as [w| |] eqn:E; [exfalso|reflexivity|].
  - apply list_elem_of_split in Hin as (pre & post & ->).
    rewrite foldl_app in E. cbn [foldl] in E.
    apply foldl_outcome_stuck in E as [w1 E];
      [|intros [? ?]; reflexivity..].
    apply bind_Done in E as (w0 & _ & E).
    apply bind_Done in E as (c & Hc & _). apply defined_Done in Hc.
    pose proof (grid_get_bound _ _ _ _ _ Hsq Hc) as Hb.
    assert (in_board n (x, y) = true) by (apply in_board_spec; cbn; lia).
    congruence.
  - exfalso. exact (count_wounded_fuel g fired E).
Qed.

Lemma apply_enemy_result_fuel (x y r : Z) (v : Volley) (st : GameLoopState) :
  GameLoop.apply_enemy_result x y r v st <> OutOfFuel.
Proof.
  unfold GameLoop.apply_enemy_result.
  destruct (opponent st) as [ai|s] eqn:Eo.
  - destruct (r =? 0); [|destruct (r =? 1)];
      cbn [opponent GameLoop.set_enemy_score]; rewrite Eo;
      destruct (AI.recordShotResult ai x y _ _); cbn; discriminate.
  - destruct (r =? 0); [|destruct (r =? 1)]; cbn; discriminate.
Qed.

Lemma enemy_fire_loop_fuel (n : nat) (fired : list (Z * Z)) (v : Volley)
    (st : GameLoopState) :
  GameLoop.enemy_fire_loop n fired v st <> OutOfFuel.
Proof.
  revert fired v st. induction n as [|n IH]; intros fired v st;
    cbn [GameLoop.enemy_fire_loop]; [discriminate|].
  destruct (GameLoop.next_enemy_shot st) as [[[x y]|] st1]; [|discriminate].
  destruct (Board.receiveShot (playerBoard st1) x y) as [[r pb]|];
    cbn; [|discriminate].
  match goal with
  | |- context [GameLoop.apply_enemy_result x y r ?v1 ?s] =>
      pose proof (apply_enemy_result_fuel x y r v1 s) as Hf;
      destruct (GameLoop.apply_enemy_result x y r v1 s) as [[v2 st2]| |]
  end; cbn; [|discriminate|contradiction].
  destruct (_ <=? 0); [discriminate|apply IH].
Qed.

(** The player's board keeps its shape during the enemy's loop, whatever
    the opponent sends. *)
Lemma enemy_fire_loop_shape (n : nat) (fired f : list (Z * Z))
    (v v' : Volley) (st st' : GameLoopState) :
  grid_square (size st) (boardArray (playerBoard st)) ->
  boardSize (playerBoard st) = size st ->
  GameLoop.enemy_fire_loop n fired v st = Done (f, v', st') ->
  grid_square (size st) (boardArray (playerBoard st')).
Proof.
  revert fired v st. induction n as [|n IH]; intros fired v st Hsq Hbs.
  - cbn. intros [= _ _ <-]. exact Hsq.
  - cbn [GameLoop.enemy_fire_loop].
    destruct (next_enemy_shot_spec st) as (o & g & Hst1).
    destruct (GameLoop.next_enemy_shot st) as [[[x y]|] st1];
      cbn [snd] in Hst1; subst st1; [|intros [= _ _ <-]; exact Hsq].
    cbn [playerBoard GameLoop.set_rng GameLoop.set_opponent].
    destruct (receiveShot_defined (playerBoard st) x y)
      as (r & pb & Hr & Hsq' & Hbs'); [rewrite Hbs; exact Hsq|].
    rewrite Hr. cbn [defined mbind outcome_bind].
    intros H. apply bind_Done in H as ([v2 st2] & Hap & H).
    apply apply_enemy_result_spec in Hap
      as ((_ & _ & Hsz & _) & Hpb & _).
    cbn in Hsz, Hpb.
    destruct (_ <=? 0).
    + injection H as _ _ <-. rewrite Hpb, <- Hbs, <- Hbs'. exact Hsq'.
    + apply IH in H; [rewrite <- Hsz; exact H| |].
      * rewrite Hpb, Hsz, <- Hbs, <- Hbs'. exact Hsq'.
      * rewrite Hpb, Hsz. congruence.
Qed.

(** X29.  A remote opponent that opens its salvo with a shot off the
    board makes the enemy's turn read outside the player's board: the shot
    itself is answered as a miss, but the wounded count after the loop
    indexes the board with the coordinates received. *)
Theorem offboard_peer_shot_undefined (st : GameLoopState) (s : Socket)
    (k x y : Z) (rc : list (option Z)) (rs : list (option (Z * Z))) :
  opponent st = OppNet s ->
  recv_counts s = Some k :: rc -> 1 <= k ->
  recv_shots s = Some (x, y) :: rs ->
  in_board (size st) (x, y) = false ->
  grid_square (size st) (boardArray (playerBoard st)) ->
  boardSize (playerBoard st) = size st ->
  GameLoop.enemy_turn st = Undefined.
Proof.
  intros Ho Hrc Hk Hrs Hoff Hsq Hbs.
  unfold GameLoop.enemy_turn. rewrite Ho.
  unfold NetworkLogic.receiveShotCount. rewrite Hrc.
  unfold GameLoop.enemy_salvo.
  set (st0 := GameLoop.set_opponent _ st).
  destruct (GameLoop.enemy_fire_loop (Z.to_nat k) [] _ st0)
    as [[[f v] st1]| |] eqn:Hloop; cbn [mbind outcome_bind];
    [|reflexivity|exfalso; exact (enemy_fire_loop_fuel _ _ _ _ Hloop)].
  assert (Hsq1 : grid_square (size st) (boardArray (playerBoard st1))).
  { exact (enemy_fire_loop_shape _ _ _ _ _ st0 _ Hsq Hbs Hloop). }
  assert (Hin : (x, y) ∈ f).
  { destruct (Z.to_nat k) as [|n] eqn:Ek; [lia|].
    cbn [GameLoop.enemy_fire_loop] in Hloop.
    unfold GameLoop.next_enemy_shot in Hloop.
    cbn [opponent st0 GameLoop.set_opponent] in Hloop.
    unfold NetworkLogic.receiveShot in Hloop.
    cbn [recv_shots] in Hloop. rewrite Hrs in Hloop.
    apply bind_Done in Hloop as ([r pb] & _ & Hloop).
    apply bind_Done in Hloop as ([v2 st2] & _ & Hloop).
    destruct (_ <=? 0).
    - injection Hloop as <- _ _. left.
    - apply enemy_fire_loop_spec in Hloop
        as (_ & _ & _ & _ & dn & -> & _).
      apply elem_of_app. left. left. }
  rewrite (count_wounded_offboard (size st) _ f x y Hsq1 Hin Hoff).
  reflexivity.
Qed.

Lemma offboard_peer_shot_undefined_witness :
  GameLoop.enemy_turn
    (GameLoop.set_opponent
       (OppNet (mkSocket [Some 1] [Some (10, 0)] [] [true] [] false))
       demo_game)
  = Undefined.
Proof.
  apply (offboard_peer_shot_undefined _
           (mkSocket [Some 1] [Some (10, 0)] [] [true] [] false)
           1 10 0 [] []); try reflexivity.
  exact (ok_grid _ scenarioA_board_ok).
Defined.

(** ** The socket of a network game *)

Lemma net_send_closed (m : NetMsg) (s : Socket) :
  sock_closed (net_send m s).2 = sock_closed s.
Proof. unfold net_send. destruct (send_oks s) as [|[|] ?]; reflexivity. Qed.

Lemma net_closed_frame (st st' : GameLoopState) :
  opponent st' = opponent st -> net_closed st' = net_closed st.
Proof. unfold net_closed. intros ->. reflexivity. Qed.

Lemma net_closed_close (st : GameLoopState) :
  net_closed (GameLoop.close_opponent st)
  = (fun _ => true) <$> net_closed st.
Proof.
  unfold GameLoop.close_opponent, net_closed.
  destruct (opponent st) as [ai|s] eqn:E; [rewrite E|]; reflexivity.
Qed.

Lemma resolve_player_shot_closed (x y : Z) (st st1 : GameLoopState)
    (res : option Z) :
  GameLoop.resolve_player_shot x y st = Done (res, st1) ->
  net_closed st1 = net_closed st.
Proof.
  unfold GameLoop.resolve_player_shot, net_closed.
  destruct (opponent st) as [ai|s] eqn:Eo.
  - intros H. apply bind_Done in H as ([r b'] & _ & H).
    injection H as _ <-. reflexivity.
  - unfold NetworkLogic.sendShot, NetworkLogic.receiveShotResult.
    pose proof (net_send_closed (MsgShot (x, y).1 (x, y).2) s) as Hs.
    destruct (net_send _ s) as [[|] s1]; cbn [negb snd] in *.
    + destruct (recv_results s1) as [|[a|] rest]; intros [= _ <-]; cbn;
        congruence.
    + intros [= _ <-]. cbn. congruence.
Qed.

Lemma player_fire_loop_closed (sel fired : list (Z * Z)) (v : Volley)
    (st st' : GameLoopState) (res : option (list (Z * Z) * Volley)) :
  GameLoop.player_fire_loop sel fired v st = Done (res, st') ->
  net_closed st' = net_closed st.
Proof.
  revert fired v st. induction sel as [|[x y] sel IH]; intros fired v st.
  - cbn. intros [= _ <-]. reflexivity.
  - cbn [GameLoop.player_fire_loop]. intros H.
    apply bind_Done in H as ([r st1] & Hr & H).
    apply resolve_player_shot_closed in Hr.
    destruct r as [r|]; [|injection H as _ <-; exact Hr].
    apply bind_Done in H as ([v2 st2] & Hap & H).
    apply apply_player_result_spec in Hap as (_ & Ho & _).
    apply net_closed_frame in Ho.
    destruct (_ <=? 0).
    + injection H as _ <-. congruence.
    + apply IH in H. congruence.
Qed.

Lemma player_firing_closed (sel : list (Z * Z)) (st st' : GameLoopState)
    (e : PhaseEnd) :
  GameLoop.player_firing sel st = Done (e, st') ->
  net_closed st' = (fun c => c || phase_returns e) <$> net_closed st.
Proof.
  assert (Hafter : forall st0,
            GameLoop.player_after_loop sel st0 = Done (e, st') ->
            net_closed st'
            = (fun c => c || phase_returns e) <$> net_closed st0).
  { intros st0 H. unfold GameLoop.player_after_loop in H.
    apply bind_Done in H as ([res st1] & Hl & H).
    apply player_fire_loop_closed in Hl.
    destruct res as [[f v]|].
    - apply bind_Done in H as (w & _ & H).
      destruct (_ <=? 0); injection H as <- <-.
      + rewrite net_closed_close, Hl.
        destruct (net_closed st0) as [c|]; cbn; [|reflexivity].
        rewrite orb_true_r. reflexivity.
      + rewrite (net_closed_frame st1 (GameLoop.set_playerTurn false st1))
          by reflexivity.
        rewrite Hl.
        destruct (net_closed st0) as [c|]; cbn; [|reflexivity].
        rewrite orb_false_r. reflexivity.
    - injection H as <- <-. rewrite net_closed_close, Hl.
      destruct (net_closed st0) as [c|]; cbn; [|reflexivity].
      rewrite orb_true_r. reflexivity. }
  unfold GameLoop.player_firing.
  destruct (opponent st) as [ai|s] eqn:Eo; [apply Hafter|].
  unfold NetworkLogic.sendShotCount.
  pose proof (net_send_closed (MsgCount (Z.of_nat (length sel))) s) as Hs.
  destruct (net_send _ s) as [[|] s1]; cbn [negb snd] in *.
  - intros H. apply Hafter in H. rewrite H. unfold net_closed. cbn.
    rewrite Eo, Hs. reflexivity.
  - intros [= <- <-]. rewrite net_closed_close. unfold net_closed. cbn.
    rewrite Eo. cbn. rewrite orb_true_r. reflexivity.
Qed.

Lemma next_enemy_shot_closed (st : GameLoopState) :
  net_closed (GameLoop.next_enemy_shot st).2 = net_closed st.
Proof.
  unfold GameLoop.next_enemy_shot, net_closed.
  destruct (opponent st) as [ai|s] eqn:Eo.
  - destruct (AI.pickAttackCoordinates ai (rng st)) as [[shot ai'] g'].
    destruct (_ || _); reflexivity.
  - unfold NetworkLogic.receiveShot.
    destruct (recv_shots s) as [|c rest]; cbn; rewrite ?Eo; reflexivity.
Qed.

Lemma apply_enemy_result_closed (x y r : Z) (v v' : Volley)
    (st st' : GameLoopState) :
  GameLoop.apply_enemy_result x y r v st = Done (v', st') ->
  net_closed st' = net_closed st.
Proof.
  unfold GameLoop.apply_enemy_result, net_closed.
  destruct (opponent st) as [ai|s] eqn:Eo.
  - destruct (r =? 0); [|destruct (r =? 1)];
      cbn [opponent GameLoop.set_enemy_score]; rewrite ?Eo; intros H;
      apply bind_Done in H as (st2 & H2 & H); injection H as _ <-;
      apply bind_Done in H2 as (ai' & _ & H2); injection H2 as <-;
      reflexivity.
  - unfold NetworkLogic.sendShotResult.
    destruct (r =? 0); [|destruct (r =? 1)]; cbn; intros [= _ <-]; cbn;
      rewrite net_send_closed; reflexivity.
Qed.

Lemma enemy_fire_loop_closed (n : nat) (fired f : list (Z * Z))
    (v v' : Volley) (st st' : GameLoopState) :
  GameLoop.enemy_fire_loop n fired v st = Done (f, v', st') ->
  net_closed st' = net_closed st.
Proof.
  revert fired v st. induction n as [|n IH]; intros fired v st.
  - cbn. intros [= _ _ <-]. reflexivity.
  - cbn [GameLoop.enemy_fire_loop].
    pose proof (next_enemy_shot_closed st) as H1.
    destruct (GameLoop.next_enemy_shot st) as [[[x y]|] st1];
      cbn [snd] in H1; [|intros [= _ _ <-]; exact H1].
    intros H. apply bind_Done in H as ([r pb] & _ & H).
    apply bind_Done in H as ([v2 st2] & Hap & H).
    apply apply_enemy_result_closed in Hap.
    rewrite (net_closed_frame st1 (GameLoop.set_playerBoard pb st1))
      in Hap by reflexivity.
    destruct (_ <=? 0).
    + injection H as _ _ <-. congruence.
    + apply IH in H. congruence.
Qed.

Lemma enemy_turn_closed (st st' : GameLoopState) (e : PhaseEnd) :
  GameLoop.enemy_turn st = Done (e, st') ->
  net_closed st' = (fun c => c || phase_returns e) <$> net_closed st.
Proof.
  assert (Hsalvo : forall k st0,
            GameLoop.enemy_salvo k st0 = Done (e, st') ->
            net_closed st'
            = (fun c => c || phase_returns e) <$> net_closed st0).
  { intros k st0 H. unfold GameLoop.enemy_salvo in H.
    apply bind_Done in H as ([[f v] st1] & Hl & H).
    apply enemy_fire_loop_closed in Hl.
    apply bind_Done in H as (w & _ & H).
    destruct (_ <=? 0); injection H as <- <-.
    - rewrite net_closed_close, Hl.
      destruct (net_closed st0) as [c|]; cbn; [|reflexivity].
      rewrite orb_true_r. reflexivity.
    - rewrite (net_closed_frame st1 (GameLoop.set_playerTurn true st1))
        by reflexivity.
      rewrite Hl.
      destruct (net_closed st0) as [c|]; cbn; [|reflexivity].
      rewrite orb_false_r. reflexivity. }
  unfold GameLoop.enemy_turn.
  destruct (opponent st) as [ai|s] eqn:Eo; [apply Hsalvo|].
  unfold NetworkLogic.receiveShotCount.
  destruct (recv_counts s) as [|[k|] rest].
  - intros [= <- <-]. rewrite net_closed_close. unfold net_closed. cbn.
    rewrite Eo. cbn. rewrite orb_true_r. reflexivity.
  - intros H. apply Hsalvo in H. rewrite H. unfold net_closed. cbn.
    rewrite Eo. reflexivity.
  - intros [= <- <-]. rewrite net_closed_close. unfold net_closed. cbn.
    rewrite Eo. cbn. rewrite orb_true_r. reflexivity.
Qed.

Lemma runGameLoop_closed (cmds : list GameLoop.Command)
    (st st' : GameLoopState) (e : GameLoop.GameEnd) :
  GameLoop.runGameLoop cmds st = Done (e, st') ->
  net_closed st' = (fun c => c || returns_inside e) <$> net_closed st.
Proof.
  assert (Hid : forall st0 : GameLoopState,
            net_closed st0 = (fun c => c || false) <$> net_closed st0).
  { intros st0. destruct (net_closed st0) as [c|]; cbn; [|reflexivity].
    rewrite orb_false_r. reflexivity. }
  assert (Htrue : forall st0 : GameLoopState,
            (fun _ : bool => true) <$> net_closed st0
            = (fun c => c || true) <$> net_closed st0).
  { intros st0. destruct (net_closed st0) as [c|]; cbn; [|reflexivity].
    rewrite orb_true_r. reflexivity. }
  revert st. induction cmds as [|c cmds IH]; intros st.
  all: cbn [GameLoop.runGameLoop].
  all: intros H; apply bind_Done in H as ([oe st1] & Hpart & H).
  all: assert (Hp : match oe with
                    | Some e' =>
                        net_closed st1
                        = (fun c => c || returns_inside e') <$> net_closed st
                    | None => net_closed st1 = net_closed st
                    end).
  1,3: unfold GameLoop.enemy_part in Hpart;
       destruct (playerTurn st); [injection Hpart as <- <-; reflexivity|];
       destruct (_ && _); [|injection Hpart as <- <-; apply Hid];
       apply bind_Done in Hpart as ([p st2] & Ht & Hpart);
       apply enemy_turn_closed in Ht;
       destruct p; injection Hpart as <- <-; cbn in Ht |- *;
       rewrite Ht; try reflexivity; symmetry; apply Hid.
  all: destruct oe as [e'|]; [injection H as <- <-; exact Hp|].
  all: destruct (_ && _); [|injection H as <- <-; rewrite Hp; apply Hid].
  - injection H as <- <-. rewrite Hp. apply Hid.
  - destruct c as [sel|].
    + destruct sel as [|s0 sel].
      * apply IH in H. rewrite H, Hp. reflexivity.
      * apply bind_Done in H as ([p st2] & Hf & H).
        apply player_firing_closed in Hf.
        destruct p as [w|v|].
        -- injection H as <- <-. rewrite Hf, Hp. reflexivity.
        -- apply IH in H. rewrite H, Hf, Hp. cbn.
           destruct (net_closed st) as [c0|]; cbn; [|reflexivity].
           rewrite orb_false_r. reflexivity.
        -- injection H as <- <-. rewrite Hf, Hp. reflexivity.
    + injection H as <- <-. rewrite net_closed_close, Hp. apply Htrue.
Qed.

(** X30.  The socket of a network game is closed on every [return]
    inside the loop of [runGameLoop] (victory, defeat, a lost connection,
    Q) and on no other path: while the game goes on it stays as it was,
    and it is not closed when the loop is left through its condition.  A
    game against the scripted opponent never has a socket. *)
Theorem socket_closed_on_return (cmds : list GameLoop.Command)
    (st st' : GameLoopState) (e : GameLoop.GameEnd) :
  GameLoop.runGameLoop cmds st = Done (e, st') ->
  net_closed st' = (fun c => c || returns_inside e) <$> net_closed st.
Proof. apply runGameLoop_closed. Qed.

Lemma socket_closed_on_return_witness :
  exists st',
    GameLoop.runGameLoop [GameLoop.Fire [(0, 0)]]
      (GameLoop.set_opponent
         (OppNet (mkSocket [] [] [Some "s"%char] [true; true] [] false))
         demo_game)
    = Done (GameLoop.Won true, st')
    /\ net_closed st' = Some true.
Proof.
  destruct (is_done_exists
              (GameLoop.runGameLoop [GameLoop.Fire [(0, 0)]]
                 (GameLoop.set_opponent
                    (OppNet (mkSocket [] [] [Some "s"%char] [true; true]
                                      [] false))
                    demo_game)))
    as [[e st'] E]; [vm_compute; reflexivity|].
  assert (He : (fun r : GameLoop.GameEnd * GameLoopState => r.1)
                 <$> result_of
                       (GameLoop.runGameLoop [GameLoop.Fire [(0, 0)]]
                          (GameLoop.set_opponent
                             (OppNet (mkSocket [] [] [Some "s"%char]
                                               [true; true] [] false))
                             demo_game))
               = Some (GameLoop.Won true)) by (vm_compute; reflexivity).
  rewrite E in He. cbn in He. injection He as ->.
  exists st'. split; [exact E|].
  rewrite (socket_closed_on_return _ _ _ _ E). reflexivity.
Defined.
